(** * Federal budget analysis: weighted distributional statistics and
      policy-impact inference

    A shallow embedding of the statistical core of the repository:

    - weighted quantile ranking, quintile membership, income shares and the
      approximate Gini coefficient ([acquire_cps_asec.py],
      [run_robustness_checks.py]);
    - the trend-extrapolation structural-break test
      ([run_25year_analysis.py]);
    - the interrupted-time-series regressors ([src/analysis/policy_impact.py]);
    - the household cluster bootstrap ([run_robustness_checks.py]);
    - distributional attribution and welfare weighting
      ([run_counterfactual_analysis.py]).

    Numbers.  The programs compute in binary64.  Here a float is an exact
    rational ([Q]) wherever the code only adds, multiplies, divides and
    compares, so that every definition runs; the structural-break test, which
    takes square roots and divides by a possibly-zero count, is embedded over
    the real numbers extended with the IEEE special values.  Rounding error
    is modelled where it decides what the code does: in the ranking of
    [compute_quintile_stats], where the last cumulative weight fraction can
    exceed 1 and the row then gets no quintile (module [Rounded], with the
    rounding to binary64 as a function on [Q]), and in the lag-selection
    formula, which the repository's own tests pin down.  The other
    definitions are in exact arithmetic. *)

From Stdlib Require Import String Reals.
From Stdlib Require Import QArith Qabs Qround Qpower ZArith List Bool Lia Lra.
From Stdlib Require Import Psatz.
From Stdlib Require Import Permutation Sorted.
Import ListNotations.

Set Implicit Arguments.

(** ** Python outcomes *)

(** The exceptions the embedded code can raise. *)
Inductive exn : Type :=
| ValueError
| ZeroDivisionError
| TypeError.

(** A call either returns or raises. *)
Inductive res (A : Type) : Type :=
| Ok (a : A)
| Raise (e : exn).

Arguments Ok {A} a.
Arguments Raise {A} e.

Definition bind {A B : Type} (m : res A) (f : A -> res B) : res B :=
  match m with
  | Ok a => f a
  | Raise e => Raise e
  end.

Notation "x <- m ;; k" := (bind m (fun x => k))
  (at level 61, m at next level, right associativity).

(** ** Rational arithmetic on sequences (numpy reductions) *)

Module Np.
Open Scope Q_scope.

(** [a < b] on floats, as a boolean. *)
Definition Qltb (a b : Q) : bool := negb (Qle_bool b a).

(** [np.sum].  The running total is kept in lowest terms ([Qred]), which
    does not change its value and keeps long sums small. *)
Definition sum (l : list Q) : Q := fold_right (fun x acc => Qred (x + acc)) 0 l.

(** [np.cumsum]: running totals, left to right. *)
Fixpoint cumsum_from (acc : Q) (l : list Q) : list Q :=
  match l with
  | [] => []
  | x :: t => (acc + x) :: cumsum_from (acc + x) t
  end.

Definition cumsum (l : list Q) : list Q := cumsum_from 0 l.

(** Element-wise product of two arrays of the same length. *)
Fixpoint mul (a b : list Q) : list Q :=
  match a, b with
  | x :: a', y :: b' => (x * y) :: mul a' b'
  | _, _ => []
  end.

(** [np.mean] of a non-empty array. *)
Definition mean (l : list Q) : Q := sum l / inject_Z (Z.of_nat (length l)).

(** Stable insertion of a number into an ascending list. *)
Fixpoint insert (x : Q) (l : list Q) : list Q :=
  match l with
  | [] => [x]
  | h :: t => if Qle_bool x h then x :: h :: t else h :: insert x t
  end.

(** [np.sort]. *)
Definition sort (l : list Q) : list Q := fold_right insert [] l.

End Np.

(** ** A. Weighted distributional statistics *)

Module Distributional.
Import Np.
Open Scope Q_scope.

(** One person record restricted to the two columns the statistics read:
    the income column and the weight column ([MARSUPWT]). *)
Definition row : Type := (Q * Q)%type.
Definition income (r : row) : Q := fst r.
Definition weight (r : row) : Q := snd r.

(** [df.sort_values(income_col)] and [inc[np.argsort(inc)]]: rows ordered by
    income ascending.  The sort is taken stable (rows with equal income keep
    their input order), which is what both libraries do on short inputs and
    what pandas does with [kind='stable']. *)
Fixpoint insert_row (x : row) (l : list row) : list row :=
  match l with
  | [] => [x]
  | h :: t =>
      if Qle_bool (income x) (income h) then x :: h :: t
      else h :: insert_row x t
  end.

Definition sort_values (l : list row) : list row := fold_right insert_row [] l.

(** [df[df[weight_col] > 0]]. *)
Definition positive_weight (l : list row) : list row :=
  filter (fun r => Qltb 0 (weight r)) l.

(** The Gini block of [compute_state_level_stats]
    (acquire_cps_asec.py, lines 570-585) on the rows of one state.  The
    result is [None] when the guard [total_inc > 0 and total_w > 0] fails
    and the row gets no ['gini'] key. *)
Definition gini_terms (cum_inc wts_sorted : list Q) (total_inc total_w : Q)
  : list Q :=
  map (fun cw => fst cw / total_inc * snd cw / total_w)
      (combine cum_inc wts_sorted).

Definition gini (state_df : list row) : option Q :=
  let sorted := sort_values state_df in
  let inc_sorted := map income sorted in
  let wts_sorted := map weight sorted in
  let cum_wts := cumsum wts_sorted in
  let cum_inc := cumsum (mul inc_sorted wts_sorted) in
  let total_w := last cum_wts 0 in
  let total_inc := last cum_inc 0 in
  if Qltb 0 total_inc && Qltb 0 total_w then
    Some (1 - 2 * sum (gini_terms cum_inc wts_sorted total_inc total_w))
  else None.

(** One output row of [compute_state_level_stats]: states with fewer than
    50 records are skipped ([None]). *)
Record state_stats : Type := mkStateStats {
  n_records : nat;
  weighted_pop : Q;
  mean_pretax_income : Q;
  state_gini : option Q
}.

Definition compute_state_level_stats (state_df : list row)
  : option state_stats :=
  let valid := positive_weight state_df in
  if (length valid <? 50)%nat then None
  else Some {| n_records := length valid;
               weighted_pop := sum (map weight valid);
               mean_pretax_income :=
                 sum (mul (map income valid) (map weight valid))
                 / sum (map weight valid);
               state_gini := gini valid |}.

(** *** Quintile membership: [compute_quintile_stats]
    (acquire_cps_asec.py, lines 363-483) *)

Inductive quintile : Type := Q1 | Q2 | Q3 | Q4 | Q5.

Definition quintile_eqb (a b : quintile) : bool :=
  match a, b with
  | Q1, Q1 | Q2, Q2 | Q3, Q3 | Q4, Q4 | Q5, Q5 => true
  | _, _ => false
  end.

(** [valid['quintile'].cat.categories], in order. *)
Definition categories : list quintile := [Q1; Q2; Q3; Q4; Q5].

Definition label (q : quintile) : string :=
  match q with
  | Q1 => "Q1 (Bottom 20%)"
  | Q2 => "Q2"
  | Q3 => "Q3"
  | Q4 => "Q4"
  | Q5 => "Q5 (Top 20%)"
  end.

(** [bins=[0, 0.2, 0.4, 0.6, 0.8, 1.0]]. *)
Definition bins : list Q := [0; 2 # 10; 4 # 10; 6 # 10; 8 # 10; 1].

(** [bins.searchsorted(x, side='left')]: the number of edges strictly
    below [x]. *)
Definition searchsorted_left (edges : list Q) (x : Q) : nat :=
  length (filter (fun e => Qltb e x) edges).

(** [pd.cut(x, bins, labels, include_lowest=True)] with the default
    [right=True]: bucket [k] is the interval [(bins[k-1], bins[k]]], the
    lowest edge itself goes to the first bucket, and a value outside
    [[0, 1]] gets no category (NaN). *)
Definition pd_cut (x : Q) : option quintile :=
  let ids := if Qeq_bool x 0 then 1%nat else searchsorted_left bins x in
  match ids with
  | 1%nat => Some Q1
  | 2%nat => Some Q2
  | 3%nat => Some Q3
  | 4%nat => Some Q4
  | 5%nat => Some Q5
  | _ => None
  end.

(** One row of the [valid] frame after the ranking columns are added. *)
Record ranked : Type := mkRanked {
  r_income : Q;
  r_weight : Q;
  cum_weight : Q;
  cum_pct : Q;
  r_quintile : option quintile;
  bottom_50 : bool;
  top_10 : bool;
  top_1 : bool
}.

(** Lines 372-393 in exact arithmetic: keep positive weights, sort by
    income, rank by cumulative weight fraction, cut into quintiles and
    flag the groups.  Here the last cumulative fraction is exactly 1 and
    every row gets a quintile.  As binary64 computes them, the running
    total and the pairwise total of the weights can differ in the last
    bit, and the last fraction can exceed 1: [Rounded.rank_rows] below is
    the same block with every addition and division rounded, and the
    statements about quintile membership are made there.  This exact
    frame serves the three groups of [compute_income_shares], whose flags
    are plain comparisons that every fraction passes or fails. *)
Definition rank_rows (df : list row) : list ranked :=
  let valid := sort_values (positive_weight df) in
  let cum := cumsum (map weight valid) in
  let total_weight := sum (map weight valid) in
  map (fun rc : row * Q =>
         let pct := snd rc / total_weight in
         {| r_income := income (fst rc);
            r_weight := weight (fst rc);
            cum_weight := snd rc;
            cum_pct := pct;
            r_quintile := pd_cut pct;
            bottom_50 := Qle_bool pct (50 # 100);
            top_10 := Qltb (90 # 100) pct;
            top_1 := Qltb (99 # 100) pct |})
      (combine valid cum).

(** [np.average(a, weights=w)]: raises when the weights sum to zero. *)
Definition np_average (a w : list Q) : res Q :=
  if Qeq_bool (sum w) 0 then Raise ZeroDivisionError
  else Ok (sum (mul a w) / sum w).

(** One summary row of the returned table, for a frame that carries the
    income column only. *)
Record group_stats : Type := mkGroupStats {
  g_label : string;
  g_n_records : nat;
  weighted_persons : Q;
  mean_income : Q
}.

Definition summarise (name : string) (rows : list ranked) : res group_stats :=
  let w := map r_weight rows in
  m <- np_average (map r_income rows) w ;;
  Ok {| g_label := name;
        g_n_records := length rows;
        weighted_persons := sum w;
        mean_income := m |}.

Definition in_quintile (q : quintile) (r : ranked) : bool :=
  match r_quintile r with
  | Some q' => quintile_eqb q q'
  | None => false
  end.

Fixpoint summarise_all (qs : list quintile) (valid : list ranked)
  : res (list group_stats) :=
  match qs with
  | [] => Ok []
  | q :: qs' =>
      g <- summarise (label q) (filter (in_quintile q) valid) ;;
      gs <- summarise_all qs' valid ;;
      Ok (g :: gs)
  end.

(** The whole function: the five quintile rows, then the bottom-50% and
    top-10% rows, together with the ranked frame. *)
Definition compute_quintile_stats (df : list row)
  : res (list group_stats * list ranked) :=
  let valid := rank_rows df in
  results <- summarise_all categories valid ;;
  b50 <- summarise "Bottom 50%" (filter bottom_50 valid) ;;
  t10 <- summarise "Top 10%" (filter top_10 valid) ;;
  Ok (results ++ [b50; t10], valid).

(** *** Income shares: [compute_income_shares]
    (acquire_cps_asec.py, lines 486-532), for one income column *)

(** [np.sum(g[income_type] * g[weight_col])] over the rows selected by
    [keep]. *)
Definition group_total (keep : ranked -> bool) (valid : list ranked) : Q :=
  sum (map (fun r => r_income r * r_weight r) (filter keep valid)).

Record income_shares : Type := mkShares {
  bottom_50_share : Q;
  middle_40_share : Q;
  top_10_share : Q;
  top_1_share : Q;
  shares_total : Q
}.

(** [None] is the [continue] taken when [total <= 0]. *)
Definition compute_income_shares (df : list row) : option income_shares :=
  let valid_sorted := rank_rows df in
  let total := group_total (fun _ => true) valid_sorted in
  if Qle_bool total 0 then None
  else
    let b50_total := group_total (fun r => Qle_bool (cum_pct r) (50 # 100))
                                 valid_sorted in
    let m40_total :=
      group_total (fun r => Qltb (50 # 100) (cum_pct r)
                            && Qle_bool (cum_pct r) (90 # 100))
                  valid_sorted in
    let t10_total := group_total (fun r => Qltb (90 # 100) (cum_pct r))
                                 valid_sorted in
    let t1_total := group_total (fun r => Qltb (99 # 100) (cum_pct r))
                                valid_sorted in
    Some {| bottom_50_share := b50_total / total * 100;
            middle_40_share := m40_total / total * 100;
            top_10_share := t10_total / total * 100;
            top_1_share := t1_total / total * 100;
            shares_total := total |}.

(** The income share of one quintile: the share formula of
    [compute_income_shares] applied to the membership computed by
    [compute_quintile_stats]. *)
Definition quintile_share (valid : list ranked) (q : quintile) : Q :=
  group_total (in_quintile q) valid
  / group_total (fun _ => true) valid * 100.

(** The order [sort_values] establishes. *)
Definition by_income (a b : row) : Prop := income a <= income b.

(** The edges of each bucket, from [bins]. *)
Definition lower_edge (q : quintile) : Q :=
  match q with
  | Q1 => 0
  | Q2 => 2 # 10
  | Q3 => 4 # 10
  | Q4 => 6 # 10
  | Q5 => 8 # 10
  end.

Definition upper_edge (q : quintile) : Q :=
  match q with
  | Q1 => 2 # 10
  | Q2 => 4 # 10
  | Q3 => 6 # 10
  | Q4 => 8 # 10
  | Q5 => 1
  end.

End Distributional.

(** ** D. Cluster bootstrap: [test_bootstrap_ci]
    (run_robustness_checks.py, lines 304-422) *)

Module Bootstrap.
Import Np Distributional.
Open Scope Q_scope.

(** One row of the microdata file: household key, person weight, income
    ([None] is a missing income). *)
Record person : Type := mkPerson {
  PH_SEQ : Z;
  MARSUPWT : Q;
  pretax_income : option Q
}.

(** [df[(df['MARSUPWT'] > 0) & (df['pretax_income'].notna())]]. *)
Definition valid_rows (df : list person) : list person :=
  filter (fun p => Qltb 0 (MARSUPWT p) &&
                   match pretax_income p with Some _ => true | None => false end)
         df.

Definition inc_of (p : person) : Q :=
  match pretax_income p with Some v => v | None => 0 end.

(** [np.random.RandomState]: the generator is numpy's; only its interface
    is used.  [randint s bound size] draws [size] integers and returns the
    advanced state. *)
Record RandomState : Type := mkRandomState {
  rng_state : Type;
  rng_seed : Z -> rng_state;
  randint : rng_state -> nat -> nat -> list nat * rng_state
}.


(** [rng.choice(a, size=size, replace=True)]: [size] independent uniform
    indices into [a]; raises on an empty population. *)
Definition choice (g : RandomState) (s : rng_state g) (a : list Z)
  (size : nat) : res (list Z * rng_state g) :=
  match a with
  | [] => Raise ValueError
  | k0 :: _ =>
      let (idx, s') := randint g s (length a) size in
      Ok (map (fun i => nth i a k0) idx, s')
  end.

(** [np.unique]: the sorted distinct values. *)
Fixpoint insert_unique (k : Z) (l : list Z) : list Z :=
  match l with
  | [] => [k]
  | h :: t =>
      if (k <? h)%Z then k :: h :: t
      else if (k =? h)%Z then h :: t
      else h :: insert_unique k t
  end.

Definition np_unique (l : list Z) : list Z := fold_right insert_unique [] l.

(** The dictionary [hh_to_rows], in insertion order.
    [hh_to_rows.setdefault(hh, []).append(i)]. *)
Fixpoint setdefault_append (hh : Z) (i : nat) (d : list (Z * list nat))
  : list (Z * list nat) :=
  match d with
  | [] => [(hh, [i])]
  | (k, rows) :: t =>
      if (hh =? k)%Z then (k, rows ++ [i]) :: t
      else (k, rows) :: setdefault_append hh i t
  end.

(** [for i, hh in enumerate(hh_arr): ...], starting the count at [i]. *)
Fixpoint build_from (i : nat) (hh_arr : list Z) (d : list (Z * list nat))
  : list (Z * list nat) :=
  match hh_arr with
  | [] => d
  | hh :: t => build_from (S i) t (setdefault_append hh i d)
  end.

Definition hh_to_rows (hh_arr : list Z) : list (Z * list nat) :=
  build_from 0 hh_arr [].

(** [hh_row_arrays[hh]]. *)
Fixpoint lookup (hh : Z) (d : list (Z * list nat)) : list nat :=
  match d with
  | [] => []
  | (k, rows) :: t => if (hh =? k)%Z then rows else lookup hh t
  end.

(** The four statistics of one replicate. *)
Record boot_stats : Type := mkBootStats {
  s_bottom_50_share : Q;
  s_bottom_50_mean_income : Q;
  s_top_10_share : Q;
  s_gini_approx : Q
}.

(** Lines 362-396, on the resampled income and weight arrays. *)
Definition replicate_stats (inc w : list Q) : boot_stats :=
  let sorted := sort_values (combine inc w) in
  let inc_s := map income sorted in
  let w_s := map weight sorted in
  let cum_w := cumsum w_s in
  let total_w := last cum_w 0 in
  let cum_pct := map (fun c => c / total_w) cum_w in
  let total_inc := sum (mul inc_s w_s) in
  let masked (keep : Q -> bool) (v : list Q) : list Q :=
    map snd (filter (fun pv => keep (fst pv)) (combine cum_pct v)) in
  let mask_50 := fun pct => Qle_bool pct (50 # 100) in
  let b50_inc := sum (mul (masked mask_50 inc_s) (masked mask_50 w_s)) in
  let b50_w := sum (masked mask_50 w_s) in
  let mask_90 := fun pct => Qltb (90 # 100) pct in
  let t10_inc := sum (mul (masked mask_90 inc_s) (masked mask_90 w_s)) in
  let cum_inc := cumsum (mul inc_s w_s) in
  {| s_bottom_50_share :=
       if Qltb 0 total_inc then b50_inc / total_inc * 100 else 0;
     s_bottom_50_mean_income :=
       if Qltb 0 b50_w then b50_inc / b50_w else 0;
     s_top_10_share :=
       if Qltb 0 total_inc then t10_inc / total_inc * 100 else 0;
     s_gini_approx :=
       if Qltb 0 total_inc && Qltb 0 total_w then
         1 - 2 * sum (gini_terms cum_inc w_s total_inc total_w)
       else 0 |}.

(** One pass of the replicate loop: the drawn household keys, the gathered
    person-row indices, the statistics, and the advanced generator. *)
Record replicate : Type := mkReplicate {
  boot_hh_idx : list Z;
  row_idx : list nat;
  rep_stats : boot_stats
}.

Definition draw_replicate (g : RandomState) (s : rng_state g)
  (inc_arr w_arr : list Q) (hh_row_arrays : list (Z * list nat))
  (hh_keys : list Z) (n_hh : nat) : res (replicate * rng_state g) :=
  c <- choice g s hh_keys n_hh ;;
  let rows := concat (map (fun hh => lookup hh hh_row_arrays) (fst c)) in
  let inc := map (fun i => nth i inc_arr 0) rows in
  let w := map (fun i => nth i w_arr 0) rows in
  Ok ({| boot_hh_idx := fst c;
         row_idx := rows;
         rep_stats := replicate_stats inc w |}, snd c).

(** [for b in range(n_boot)], collecting the replicates in order. *)
Fixpoint replicate_loop (g : RandomState) (n_boot : nat) (s : rng_state g)
  (inc_arr w_arr : list Q) (hh_row_arrays : list (Z * list nat))
  (hh_keys : list Z) (n_hh : nat) : res (list replicate) :=
  match n_boot with
  | O => Ok []
  | S n =>
      r <- draw_replicate g s inc_arr w_arr hh_row_arrays hh_keys n_hh ;;
      rest <- replicate_loop g n (snd r) inc_arr w_arr hh_row_arrays
                             hh_keys n_hh ;;
      Ok (fst r :: rest)
  end.

(** [np.percentile(vals, q)] of a non-empty array: linear interpolation
    between the two nearest order statistics. *)
Definition percentile (vals : list Q) (q : Q) : Q :=
  let sorted := sort vals in
  let n := length sorted in
  let h := inject_Z (Z.of_nat (n - 1)) * q / 100 in
  let lo := Z.to_nat (Qfloor h) in
  let hi := Nat.min (S lo) (n - 1) in
  let a := nth lo sorted 0 in
  let b := nth hi sorted 0 in
  a + (b - a) * (h - inject_Z (Qfloor h)).

(** [np.std(vals)]: population standard deviation.  [np_sqrt] is the
    library square root. *)
Definition std (np_sqrt : Q -> Q) (vals : list Q) : Q :=
  let m := mean vals in
  np_sqrt (mean (map (fun x => (x - m) * (x - m)) vals)).

(** One row of the returned table. *)
Record ci_row : Type := mkCiRow {
  statistic : string;
  ci_mean : Q;
  std_error : Q;
  ci_lower : Q;
  ci_upper : Q
}.

Definition summarise_stat (np_sqrt : Q -> Q) (name : string) (vals : list Q)
  : ci_row :=
  {| statistic := name;
     ci_mean := mean vals;
     std_error := std np_sqrt vals;
     ci_lower := percentile vals (25 # 10);
     ci_upper := percentile vals (975 # 10) |}.

Definition stats_names : list (string * (boot_stats -> Q)) :=
  [("bottom_50_share"%string, s_bottom_50_share);
   ("bottom_50_mean_income"%string, s_bottom_50_mean_income);
   ("top_10_share"%string, s_top_10_share);
   ("gini_approx"%string, s_gini_approx)].

(** The replicates of a run, from the seed and the data. *)
Definition bootstrap_replicates (g : RandomState) (n_boot : nat) (seed : Z)
  (df : list person) : res (list replicate) :=
  let valid := valid_rows df in
  let inc_arr := map inc_of valid in
  let w_arr := map MARSUPWT valid in
  let hh_arr := map PH_SEQ valid in
  let unique_hhs := np_unique hh_arr in
  let n_hh := length unique_hhs in
  let hh_row_arrays := hh_to_rows hh_arr in
  let hh_keys := map fst hh_row_arrays in
  replicate_loop g n_boot (rng_seed g seed) inc_arr w_arr hh_row_arrays
                 hh_keys n_hh.

Definition bootstrap_ci (g : RandomState) (np_sqrt : Q -> Q) (n_boot : nat)
  (seed : Z) (df : list person) : res (list ci_row) :=
  reps <- bootstrap_replicates g n_boot seed df ;;
  Ok (map (fun ns : string * (boot_stats -> Q) =>
             summarise_stat np_sqrt (fst ns)
                            (map (fun r => snd ns (rep_stats r)) reps))
          stats_names).

(** The function as written: 500 replicates, seed 42. *)
Definition test_bootstrap_ci (g : RandomState) (np_sqrt : Q -> Q)
  (df : list person) : res (list ci_row) :=
  bootstrap_ci g np_sqrt 500 42 df.

(** The rows of household [hh]: the positions of [hh] in the key column,
    ascending, counted from [i]. *)
Fixpoint positions_from (i : nat) (hh : Z) (hh_arr : list Z) : list nat :=
  match hh_arr with
  | [] => []
  | h :: t =>
      if (hh =? h)%Z then i :: positions_from (S i) hh t
      else positions_from (S i) hh t
  end.

Definition rows_of (hh : Z) (hh_arr : list Z) : list nat :=
  positions_from 0 hh hh_arr.

(** [hh_keys]: the keys of [hh_to_rows], in insertion order. *)
Definition hh_keys_of (hh_arr : list Z) : list Z := map fst (hh_to_rows hh_arr).

(** The observations of household [k], in row order. *)
Definition members (inc_arr w_arr : list Q) (hh_arr : list Z) (k : Z)
  : list (Q * Q) :=
  map (fun i => (nth i inc_arr 0, nth i w_arr 0)) (rows_of k hh_arr).

(** The cluster universe of a data set: its household keys in order of
    first appearance, each with the observations of its members in row
    order. *)
Definition cluster_universe (df : list person) : list (Z * list (Q * Q)) :=
  let valid := valid_rows df in
  map (fun k => (k, members (map inc_of valid) (map MARSUPWT valid)
                            (map PH_SEQ valid) k))
      (hh_keys_of (map PH_SEQ valid)).

Definition res_map (A B : Type) (f : A -> B) (m : res A) : res B :=
  match m with
  | Ok a => Ok (f a)
  | Raise e => Raise e
  end.

(** What a replicate exposes besides row numbers. *)
Definition draw_and_stats (r : replicate) : list Z * boot_stats :=
  (boot_hh_idx r, rep_stats r).


End Bootstrap.

(** ** E. Distributional attribution and welfare weighting
    (run_counterfactual_analysis.py) *)

Module Attribution.
Import Np.
Open Scope Q_scope.

(** A Python dictionary with string keys, in insertion order. *)
Definition dict (V : Type) : Type := list (string * V).

Fixpoint dict_get {V : Type} (k : string) (d : dict V) : option V :=
  match d with
  | [] => None
  | (k', v) :: t => if String.eqb k k' then Some v else dict_get k t
  end.

(** [d[k] = v]: overwrite in place, or append a new key. *)
Fixpoint dict_set {V : Type} (k : string) (v : V) (d : dict V) : dict V :=
  match d with
  | [] => [(k, v)]
  | (k', v') :: t =>
      if String.eqb k k' then (k', v) :: t else (k', v') :: dict_set k v t
  end.

(** [d.get(k, default)]. *)
Definition get_or {V : Type} (k : string) (default : V) (d : dict V) : V :=
  match dict_get k d with
  | Some v => v
  | None => default
  end.

(** One row of [cps_asec_quintile_stats.json], with the keys the two
    functions read. *)
Record quintile_row : Type := mkQuintileRow {
  q_quintile : string;
  q_weighted_persons : Q;
  q_mean_pretax_income : Q;
  q_mean_posttax_income : Q
}.

(** The propensity shares, as written in the source. *)
Definition medicaid_shares : dict Q :=
  [("Q1 (Bottom 20%)"%string, 40 # 100); ("Q2"%string, 30 # 100);
   ("Q3"%string, 15 # 100); ("Q4"%string, 10 # 100);
   ("Q5 (Top 20%)"%string, 5 # 100)].

Definition income_security_shares : dict Q :=
  [("Q1 (Bottom 20%)"%string, 50 # 100); ("Q2"%string, 30 # 100);
   ("Q3"%string, 12 # 100); ("Q4"%string, 6 # 100);
   ("Q5 (Top 20%)"%string, 2 # 100)].

Definition nondefense_shares : dict Q :=
  [("Q1 (Bottom 20%)"%string, 25 # 100); ("Q2"%string, 25 # 100);
   ("Q3"%string, 22 # 100); ("Q4"%string, 18 # 100);
   ("Q5 (Top 20%)"%string, 10 # 100)].

Definition tariff_burden_shares : dict Q :=
  [("Q1 (Bottom 20%)"%string, 10 # 100); ("Q2"%string, 15 # 100);
   ("Q3"%string, 22 # 100); ("Q4"%string, 27 # 100);
   ("Q5 (Top 20%)"%string, 26 # 100)].

(** [for q, share in shares.items(): spending_impacts[q] += cut * share]. *)
Definition add_cut (cut : Q) (shares : dict Q) (spending_impacts : dict Q)
  : dict Q :=
  fold_left (fun acc qs =>
               dict_set (fst qs) (get_or (fst qs) 0 acc + cut * snd qs) acc)
            shares spending_impacts.

(** One value of the dictionary [total_impacts]. *)
Record impact : Type := mkImpact {
  spending_cut_B : Q;
  tariff_burden_B : Q;
  total_impact_B : Q;
  population : Q;
  per_person : Q
}.

(** [quintile_pop]: the rows whose label is a known quintile, later rows
    overwriting earlier ones. *)
Definition quintile_pop_of (spending_impacts : dict Q)
  (quintile_data : list quintile_row) : dict Q :=
  fold_left (fun acc row =>
               match dict_get (q_quintile row) spending_impacts with
               | Some _ => dict_set (q_quintile row) (q_weighted_persons row) acc
               | None => acc
               end)
            quintile_data [].

(** [b50_income]: the mean pre-tax income of the last ['Bottom 50%'] row,
    [None] when there is none. *)
Definition b50_income_of (quintile_data : list quintile_row) : option Q :=
  fold_left (fun acc row =>
               if String.eqb (q_quintile row) "Bottom 50%"
               then Some (q_mean_pretax_income row) else acc)
            quintile_data None.

(** [distributional_attribution] (lines 240-430), with the quintile table
    it loads as an argument.  Returned: [total_impacts].  The closing log
    line formats [b50_income] as a number, which raises when no
    ['Bottom 50%'] row was found. *)
Definition distributional_attribution (policy_gap : dict Q) (tariff_gap : Q)
  (quintile_data : list quintile_row) : res (dict impact) :=
  let spending_impacts :=
    add_cut (get_or "Nondefense Discretionary" 0 policy_gap) nondefense_shares
      (add_cut (get_or "Income Security" 0 policy_gap) income_security_shares
         (add_cut (get_or "Medicaid" 0 policy_gap) medicaid_shares
            (map (fun qs : string * Q => (fst qs, 0)) medicaid_shares))) in
  let tariff_consumer_burden := tariff_gap * (14 # 10) in
  let tariff_impacts :=
    map (fun qs : string * Q => (fst qs, - tariff_consumer_burden * snd qs))
        tariff_burden_shares in
  let quintile_pop := quintile_pop_of spending_impacts quintile_data in
  let total_impacts :=
    map (fun qs : string * Q =>
           let q := fst qs in
           let spend := snd qs in
           let tariff := get_or q 0 tariff_impacts in
           let total := spend + tariff in
           let pop := get_or q 1 quintile_pop in
           (q, {| spending_cut_B := spend;
                  tariff_burden_B := tariff;
                  total_impact_B := total;
                  population := pop;
                  per_person :=
                    if Qltb 0 pop then total * 1000000000 / pop else 0 |}))
        spending_impacts in
  match b50_income_of quintile_data with
  | None => Raise TypeError
  | Some _ => Ok total_impacts
  end.

(** One row of the welfare table. *)
Record welfare_row : Type := mkWelfareRow {
  w_quintile : string;
  w_mean_income : Q;
  per_person_loss : Q;
  income_pct_loss : Q;
  welfare_weight : Q;
  welfare_equivalent_loss : Q;
  welfare_pct_loss : Q
}.

(** [median_income = 31343]. *)
Definition median_income : Q := 31343.

(** [x ** sigma] with [sigma = 2.0]. *)
Definition pow_sigma (x : Q) : Q := x * x.

(** [welfare_analysis] (lines 433-515): one output row per input row whose
    label is in [total_impacts] and whose mean post-tax income is
    positive; the other rows are passed over ([continue]). *)
Fixpoint welfare_analysis (total_impacts : dict impact)
  (quintile_data : list quintile_row) : list welfare_row :=
  match quintile_data with
  | [] => []
  | row :: rest =>
      let q := q_quintile row in
      match dict_get q total_impacts with
      | None => welfare_analysis total_impacts rest
      | Some imp =>
          let mean_income := q_mean_posttax_income row in
          if Qle_bool mean_income 0 then welfare_analysis total_impacts rest
          else
            let loss := Qabs (per_person imp) in
            let weight :=
              if Qltb 0 mean_income
              then pow_sigma (median_income / mean_income) else 1 in
            let welfare_loss := loss * weight in
            {| w_quintile := q;
               w_mean_income := mean_income;
               per_person_loss := loss;
               income_pct_loss :=
                 if Qltb 0 mean_income then loss / mean_income * 100 else 0;
               welfare_weight := weight;
               welfare_equivalent_loss := welfare_loss;
               welfare_pct_loss :=
                 if Qltb 0 mean_income
                 then welfare_loss / mean_income * 100 else 0 |}
            :: welfare_analysis total_impacts rest
      end
  end.

(** The keys of [total_impacts]. *)
Definition quintile_labels : list string :=
  ["Q1 (Bottom 20%)"; "Q2"; "Q3"; "Q4"; "Q5 (Top 20%)"]%string.

(** The rows [welfare_analysis] keeps, and the row it writes for each. *)
Definition eligible (total_impacts : dict impact) (row : quintile_row) : bool :=
  match dict_get (q_quintile row) total_impacts with
  | Some _ => Qltb 0 (q_mean_posttax_income row)
  | None => false
  end.

Definition welfare_row_of (total_impacts : dict impact) (row : quintile_row)
  : welfare_row :=
  let y := q_mean_posttax_income row in
  let loss :=
    match dict_get (q_quintile row) total_impacts with
    | Some imp => Qabs (per_person imp)
    | None => 0
    end in
  let weight := (median_income / y) * (median_income / y) in
  {| w_quintile := q_quintile row;
     w_mean_income := y;
     per_person_loss := loss;
     income_pct_loss := loss / y * 100;
     welfare_weight := weight;
     welfare_equivalent_loss := loss * weight;
     welfare_pct_loss := loss * weight / y * 100 |}.

End Attribution.

(** ** C. Interrupted time series: [interrupted_time_series]
    (src/analysis/policy_impact.py, lines 134-205) *)

Module PolicyImpact.
Import Np.
Open Scope Z_scope.

(** A [pd.Series] with a [DatetimeIndex]: timestamps are integers (any
    fixed unit), a missing value is [None]. *)
Definition series : Type := list (Z * option Q).

(** [series.dropna()]. *)
Fixpoint dropna (s : series) : list (Z * Q) :=
  match s with
  | [] => []
  | (t, Some v) :: rest => (t, v) :: dropna rest
  | (_, None) :: rest => dropna rest
  end.

(** [.sort_index()]: ascending timestamps, equal timestamps in input
    order. *)
Fixpoint insert_obs (x : Z * Q) (l : list (Z * Q)) : list (Z * Q) :=
  match l with
  | [] => [x]
  | h :: t => if fst x <=? fst h then x :: h :: t else h :: insert_obs x t
  end.

Definition sort_index (s : list (Z * Q)) : list (Z * Q) :=
  fold_right insert_obs [] s.

(** [s.index.searchsorted(dt)] on a sorted index: the number of
    timestamps strictly before [dt]. *)
Definition searchsorted (s : list (Z * Q)) (dt : Z) : Z :=
  Z.of_nat (length (filter (fun o => fst o <? dt) s)).

(** [s.iloc[a:]] and [s.iloc[:b]], with Python's reading of a negative
    bound as counted from the end. *)
Definition iloc_from (a : Z) (s : list (Z * Q)) : list (Z * Q) :=
  if a <? 0 then skipn (length s - Z.to_nat (- a)) s
  else skipn (Z.to_nat a) s.

Definition iloc_upto (b : Z) (s : list (Z * Q)) : list (Z * Q) :=
  if b <? 0 then firstn (length s - Z.to_nat (- b)) s
  else firstn (Z.to_nat b) s.

(** An optional integer argument is used when it is given and not 0. *)
Definition truthy (p : option Z) : option Z :=
  match p with
  | Some 0 => None
  | _ => p
  end.

(** Lines 156-164: the cleaned, sorted and trimmed series. *)
Definition included_window (s : series) (intervention_dt : Z)
  (pre_periods post_periods : option Z) : list (Z * Q) :=
  let s0 := sort_index (dropna s) in
  let s1 :=
    match truthy pre_periods with
    | Some p =>
        let start_idx := searchsorted s0 intervention_dt - p in
        iloc_from (Z.max 0 start_idx) s0
    | None => s0
    end in
  match truthy post_periods with
  | Some p =>
      let end_idx := searchsorted s1 intervention_dt + p in
      iloc_upto (Z.min (Z.of_nat (length s1)) end_idx) s1
  | None => s1
  end.

(** [np.arange(n)]. *)
Definition arange (n : nat) : list Z := map Z.of_nat (seq 0 n).

(** [a.argmax()]: the position of the first maximum; raises on an empty
    array. *)
Fixpoint argmax_from (i best_i : nat) (best : Z) (l : list Z) : nat :=
  match l with
  | [] => best_i
  | x :: t =>
      if best <? x then argmax_from (S i) i x t
      else argmax_from (S i) best_i best t
  end.

Definition argmax (l : list Z) : res nat :=
  match l with
  | [] => Raise ValueError
  | x :: t => Ok (argmax_from 1 0 x t)
  end.

(** The three regressors of lines 167-169. *)
Record regressors : Type := mkRegressors {
  time_var : list Z;
  intervention : list Z;
  time_after : list Z
}.

Definition its_regressors (s : list (Z * Q)) (intervention_dt : Z)
  : res regressors :=
  let time_var := arange (length s) in
  let intervention :=
    map (fun o => if intervention_dt <=? fst o then 1 else 0) s in
  first <- argmax intervention ;;
  let t0 := nth first time_var 0 in
  Ok {| time_var := time_var;
        intervention := intervention;
        time_after :=
          map (fun it : Z * Z => if fst it =? 0 then 0 else snd it - t0)
              (combine intervention time_var) |}.

(** [int(0.75 * (n_obs ** (1/3)))] as binary64 evaluates it.  The exponent
    is the double nearest to one third, which lies below it, so the power
    comes out just under the real cube root and a product that would be a
    whole number truncates to the integer below: the result is the largest
    [k] with [64 k^3 < 27 n].  tests/test_policy_impact.py records the
    case [64 -> 2].  (Exact for every series length below 10^12.) *)
Fixpoint lag_search (fuel : nat) (k n : Z) : Z :=
  match fuel with
  | O => k
  | S fuel' =>
      if 64 * (k + 1) ^ 3 <? 27 * n then lag_search fuel' (k + 1) n else k
  end.

Definition int_075_cbrt (n : Z) : Z := lag_search (Z.to_nat n) 0 n.

(** [max_lags = max(1, int(0.75 * (n_obs ** (1/3))))]. *)
Definition max_lags (n_obs : nat) : Z :=
  Z.max 1 (int_075_cbrt (Z.of_nat n_obs)).

(** The lag truncation as the specification words it, over the reals:
    [max(1, floor(0.75 * n^(1/3)))], the floor being the largest [k] with
    [64 k^3 <= 27 n]. *)
Fixpoint floor_search (fuel : nat) (k n : Z) : Z :=
  match fuel with
  | O => k
  | S fuel' =>
      if 64 * (k + 1) ^ 3 <=? 27 * n then floor_search fuel' (k + 1) n else k
  end.

Definition spec_lag (n_obs : nat) : Z :=
  Z.max 1 (floor_search n_obs 0 (Z.of_nat n_obs)).

(** A [pd.DataFrame] of numbers: named columns, in order. *)
Definition frame : Type := list (string * list Q).

(** [df[name] = 0]: zero an existing column, or append a zero column. *)
Fixpoint zero_column (name : string) (n : nat) (df : frame) : frame :=
  match df with
  | [] => [(name, repeat 0%Q n)]
  | (c, v) :: t =>
      if String.eqb name c then (c, map (fun _ => 0%Q) v) :: t
      else (c, v) :: zero_column name n t
  end.

(** A column that [sm.add_constant] takes for a constant already present:
    no spread and not all zero. *)
Definition is_constant (v : list Q) : bool :=
  match v with
  | [] => false
  | x :: t => forallb (fun y => Qeq_bool y x) t && negb (Qeq_bool x 0)
  end.

(** [sm.add_constant(X)]: prepend a column of ones, unless a constant
    column is already there ([has_constant='skip']). *)
Definition add_constant (n : nat) (X : frame) : frame :=
  if existsb (fun cv => is_constant (snd cv)) X then X
  else ("const"%string, repeat 1%Q n) :: X.

(** The covariance estimator asked of the fit. *)
Inductive cov_type : Type :=
| nonrobust
| HAC (maxlags : Z).

(** [sm.OLS(endog, exog).fit(cov_type=...)]: the estimator is the
    library's.  It returns one coefficient and one p-value per column of
    [exog], and the R-squared. *)
Record OLS : Type := mkOLS {
  params_of : list Q -> frame -> cov_type -> list Q;
  pvalues_of : list Q -> frame -> cov_type -> list Q;
  rsquared_of : list Q -> frame -> cov_type -> Q
}.

(** [model.predict(exog)]: for each row, the coefficients times the row. *)
Definition predict (params : list Q) (exog : frame) (n : nat) : list Q :=
  map (fun i => Np.sum (Np.mul params (map (fun cv => nth i (snd cv) 0%Q) exog)))
      (seq 0 n).

(** What is handed to the fit: response, design matrix and covariance
    request. *)
Record fit_request : Type := mkFitRequest {
  endog : list Q;
  exog : frame;
  cov : cov_type
}.

Definition of_Z (l : list Z) : list Q := map inject_Z l.

Definition its_request (s : list (Z * Q)) (intervention_dt : Z)
  : res fit_request :=
  r <- its_regressors s intervention_dt ;;
  let X : frame :=
    [("time"%string, of_Z (time_var r));
     ("intervention"%string, of_Z (intervention r));
     ("time_after"%string, of_Z (time_after r))] in
  let n_obs := length s in
  Ok {| endog := map snd s;
        exog := add_constant n_obs X;
        cov := HAC (max_lags n_obs) |}.

(** The returned dictionary. *)
Record its_result : Type := mkItsResult {
  params : list (string * Q);
  pvalues : list (string * Q);
  r_squared : Q;
  actual : list (Z * Q);
  fitted : list (Z * Q);
  counterfactual : list (Z * Q)
}.

Definition interrupted_time_series (sm : OLS) (input : series)
  (intervention_dt : Z) (pre_periods post_periods : option Z)
  : res its_result :=
  let s := included_window input intervention_dt pre_periods post_periods in
  req <- its_request s intervention_dt ;;
  let n := length s in
  let X_const := exog req in
  let beta := params_of sm (endog req) X_const (cov req) in
  let X_counter :=
    zero_column "time_after" n (zero_column "intervention" n X_const) in
  let index := map fst s in
  Ok {| params := combine (map fst X_const) beta;
        pvalues := combine (map fst X_const)
                           (pvalues_of sm (endog req) X_const (cov req));
        r_squared := rsquared_of sm (endog req) X_const (cov req);
        actual := s;
        fitted := combine index (predict beta X_const n);
        counterfactual := combine index (predict beta X_counter n) |}.

(** The order [sort_index] establishes. *)
Definition by_time (a b : Z * Q) : Prop := fst a <= fst b.

(** Observations before, and at or after, the intervention date. *)
Definition pre_count (s : list (Z * Q)) (dt : Z) : nat :=
  length (filter (fun o => fst o <? dt) s).

Definition post_count (s : list (Z * Q)) (dt : Z) : nat :=
  length (filter (fun o => dt <=? fst o) s).

(** The design frame for [n = a + b] observations, [a] of them before the
    intervention. *)
Definition design (n a b : nat) : frame :=
  [("time"%string, of_Z (arange n));
   ("intervention"%string, of_Z (repeat 0 a ++ repeat 1 b));
   ("time_after"%string, of_Z (repeat 0 a ++ arange b))].

End PolicyImpact.

(** ** B. Structural-break test: [run_structural_break_tests]
    (run_25year_analysis.py, lines 605-641) *)

(** Floats for this component: a real number or one of the IEEE special
    values that numpy produces instead of raising (division by zero,
    invalid operations).  Zero is taken unsigned-positive. *)
Module Ieee.
Open Scope R_scope.

Inductive float : Type :=
| Fin (r : R)
| PInf
| NInf
| NaN.

Definition Rltb (a b : R) : bool := if Rlt_dec a b then true else false.
Definition Reqb (a b : R) : bool := if Req_dec_T a b then true else false.

Definition fneg (x : float) : float :=
  match x with
  | Fin r => Fin (- r)
  | PInf => NInf
  | NInf => PInf
  | NaN => NaN
  end.

Definition fadd (x y : float) : float :=
  match x, y with
  | Fin a, Fin b => Fin (a + b)
  | NaN, _ | _, NaN => NaN
  | PInf, NInf | NInf, PInf => NaN
  | PInf, _ | _, PInf => PInf
  | NInf, _ | _, NInf => NInf
  end.

Definition fsub (x y : float) : float := fadd x (fneg y).

(** An infinity of the given sign times a finite number. *)
Definition inf_times (positive : bool) (r : R) : float :=
  if Reqb r 0 then NaN
  else if Bool.eqb positive (Rltb 0 r) then PInf else NInf.

Definition fmul (x y : float) : float :=
  match x, y with
  | Fin a, Fin b => Fin (a * b)
  | NaN, _ | _, NaN => NaN
  | PInf, Fin r | Fin r, PInf => inf_times true r
  | NInf, Fin r | Fin r, NInf => inf_times false r
  | PInf, PInf | NInf, NInf => PInf
  | PInf, NInf | NInf, PInf => NInf
  end.

Definition fdiv (x y : float) : float :=
  match x, y with
  | NaN, _ | _, NaN => NaN
  | Fin a, Fin b =>
      if Reqb b 0 then
        if Reqb a 0 then NaN else if Rltb 0 a then PInf else NInf
      else Fin (a / b)
  | Fin _, _ => Fin 0
  | PInf, Fin b => if Rltb b 0 then NInf else PInf
  | NInf, Fin b => if Rltb b 0 then PInf else NInf
  | _, _ => NaN
  end.

Definition fsqrt (x : float) : float :=
  match x with
  | Fin r => if Rltb r 0 then NaN else Fin (sqrt r)
  | PInf => PInf
  | _ => NaN
  end.

Definition fabs (x : float) : float :=
  match x with
  | Fin r => Fin (Rabs r)
  | NaN => NaN
  | _ => PInf
  end.

(** [x > y]; any comparison with NaN is false. *)
Definition fgt (x y : float) : bool :=
  match x, y with
  | Fin a, Fin b => Rltb b a
  | NaN, _ | _, NaN => false
  | PInf, PInf | NInf, _ | Fin _, PInf => false
  | PInf, _ | Fin _, NInf => true
  end.

(** [np.sum] and [np.mean]. *)
Definition fsum (l : list float) : float := fold_right fadd (Fin 0) l.

Definition fmean (l : list float) : float :=
  fdiv (fsum l) (Fin (INR (length l))).

End Ieee.

Module StructuralBreak.
Import Ieee.
Open Scope R_scope.

Definition Rsum (l : list R) : R := fold_right Rplus 0 l.
Definition Rmean (l : list R) : R := Rsum l / INR (length l).

(** [np.amax], [np.amin] of a non-empty array. *)
Definition amax (l : list R) : R := fold_right Rmax (hd 0 l) l.
Definition amin (l : list R) : R := fold_right Rmin (hd 0 l) l.

(** [scipy.stats.linregress(x, y)], slope and intercept only, for arrays
    of equal length: empty input and all-identical [x] are rejected;
    otherwise [slope = ssxym / ssxm] and
    [intercept = ymean - slope * xmean], with the average cross products
    [ssxm], [ssxym] of [np.cov(x, y, bias=1)]. *)
Definition linregress (x y : list R) : res (float * float) :=
  if (length x =? 0)%nat || (length y =? 0)%nat then Raise ValueError
  else if Reqb (amax x) (amin x) && (1 <? length x)%nat then Raise ValueError
  else
    let xmean := Rmean x in
    let ymean := Rmean y in
    let ssxm := Rmean (map (fun a => (a - xmean) * (a - xmean)) x) in
    let ssxym :=
      Rmean (map (fun ab : R * R => (fst ab - xmean) * (snd ab - ymean))
                 (combine x y)) in
    let slope := fdiv (Fin ssxym) (Fin ssxm) in
    let intercept := fsub (Fin ymean) (fmul slope (Fin xmean)) in
    Ok (slope, intercept).

(** [np.std(a, ddof=ddof)]: the divisor is [max(n - ddof, 0)], and a zero
    divisor gives NaN or infinity, not an exception. *)
Definition np_std (ddof : nat) (a : list float) : float :=
  let arrmean := fmean a in
  let x := map (fun v => fsub v arrmean) a in
  let ss := fsum (map (fun v => fmul v v) x) in
  fsqrt (fdiv ss (Fin (INR (length a - ddof)))).

(** [slope * X + intercept]. *)
Definition trend (slope intercept : float) (X : list R) : list float :=
  map (fun v => fadd (fmul slope (Fin v)) intercept) X.

(** [se_resid = np.std(y_pre - pre_predicted, ddof=2)]. *)
Definition se_resid_of (slope intercept : float) (X_pre y_pre : list R)
  : float :=
  np_std 2 (map (fun yp : R * float => fsub (Fin (fst yp)) (snd yp))
                (combine y_pre (trend slope intercept X_pre))).

(** [se_pred = se_resid * np.sqrt(1 + 1/n + (x_new - x_bar)**2 / ss_x)]. *)
Definition se_pred_of (se_resid : float) (X_pre : list R) (x_new : R)
  : float :=
  let n_pre := length X_pre in
  let x_bar := Rmean X_pre in
  let ss_x := Rsum (map (fun v => (v - x_bar) * (v - x_bar)) X_pre) in
  fmul se_resid
       (fsqrt (fadd (Fin (1 + 1 / INR n_pre))
                    (fdiv (Fin ((x_new - x_bar) * (x_new - x_bar)))
                          (Fin ss_x)))).

(** One entry of [results]. *)
Record break_result : Type := mkBreakResult {
  predicted : float;
  deviation : float;
  se_resid : float;
  se_pred : float;
  z_score : float;
  is_outlier : bool;
  interpretation : string
}.

(** One test of the four: fit the trend on the training window, then
    score the held-out point [(x_new, y_actual)].  The rounding of the
    reported numbers is left out. *)
Definition structural_break_test (X_pre y_pre : list R) (x_new y_actual : R)
  : res break_result :=
  fit <- linregress X_pre y_pre ;;
  let slope := fst fit in
  let intercept := snd fit in
  let predicted := fadd (fmul slope (Fin x_new)) intercept in
  let residual := fsub (Fin y_actual) predicted in
  let se_resid := se_resid_of slope intercept X_pre y_pre in
  let se_pred := se_pred_of se_resid X_pre x_new in
  let z := if fgt se_pred (Fin 0) then fdiv residual se_pred else Fin 0 in
  let outlier := fgt (fabs z) (Fin 2) in
  Ok {| predicted := predicted;
        deviation := residual;
        se_resid := se_resid;
        se_pred := se_pred;
        z_score := z;
        is_outlier := outlier;
        interpretation :=
          if outlier then "STRUCTURAL BREAK"%string
          else "Within trend"%string |}.

(** Real-valued readings of the quantities above, for inputs on which
    no special value arises. *)
Definition ss_x (X : list R) : R :=
  Rsum (map (fun v => (v - Rmean X) * (v - Rmean X)) X).

Definition slope_R (X y : list R) : R :=
  Rmean (map (fun ab : R * R => (fst ab - Rmean X) * (snd ab - Rmean y))
             (combine X y))
  / Rmean (map (fun a => (a - Rmean X) * (a - Rmean X)) X).

Definition intercept_R (X y : list R) : R :=
  Rmean y - slope_R X y * Rmean X.

(** Training residuals of the line [a * x + b]. *)
Definition resid_R (a b : R) (X y : list R) : list R :=
  map (fun yx : R * R => fst yx - (a * snd yx + b)) (combine y X).

(** Standard deviation with two degrees of freedom removed. *)
Definition std2_R (l : list R) : R :=
  sqrt (Rsum (map (fun v => (v - Rmean l) * (v - Rmean l)) l)
        / INR (length l - 2)).

(** The factor under the square root of the prediction error. *)
Definition inflation (X : list R) (x_new : R) : R :=
  1 + 1 / INR (length X)
  + (x_new - Rmean X) * (x_new - Rmean X) / ss_x X.

(** A result that reads as "no break": [z = 0], not an outlier. *)
Definition silent_zero (r : break_result) : Prop :=
  z_score r = Fin 0 /\ is_outlier r = false /\
  interpretation r = "Within trend"%string.

End StructuralBreak.
(** ** Concrete inputs *)

Module Examples.
Import Np Distributional Bootstrap Attribution PolicyImpact.

(** Fifty persons with the same income and weight. *)
Definition equal_incomes : list row := repeat (1%Q, 1%Q) 50.

(** Two persons. *)
Definition two_persons : list row := [(1%Q, 1%Q); (3%Q, 2%Q)].

(** Six persons, the first with weight zero. *)
Definition with_zero_weight : list row :=
  [(5, 0); (1, 1); (2, 1); (3, 1); (4, 1); (6, 1)]%Q.

(** The same six persons in two orders; the second and third have the
    same income and different weights. *)
Definition ties_first : list row :=
  [(0, 2); (1, 1); (1, 3); (2, 4); (3, 5); (4, 5)]%Q.

Definition ties_second : list row :=
  [(0, 2); (1, 3); (1, 1); (2, 4); (3, 5); (4, 5)]%Q.

(** Six persons with distinct incomes, in two orders. *)
Definition distinct_first : list row :=
  [(0, 2); (1, 1); (5, 3); (2, 4); (3, 5); (4, 5)]%Q.

Definition distinct_second : list row :=
  [(4, 5); (0, 2); (5, 3); (1, 1); (3, 5); (2, 4)]%Q.

(** A linear congruential generator standing in for numpy's. *)
Fixpoint lcg_draws (size : nat) (s : Z) (bound : nat) : list nat * Z :=
  match size with
  | O => ([], s)
  | S size' =>
      let s' := ((s * 1103515245 + 12345) mod 2147483648)%Z in
      let rest := lcg_draws size' s' bound in
      (Z.to_nat ((s' / 65536) mod Z.of_nat bound)%Z :: fst rest, snd rest)
  end.

Definition lcg : RandomState :=
  {| rng_state := Z;
     rng_seed := fun z => z;
     randint := fun s bound size => lcg_draws size s bound |}.

(** Three one-person households; the same rows in two orders. *)
Definition households_first : list person :=
  [mkPerson 1 1 (Some 10%Q); mkPerson 2 2 (Some 30%Q);
   mkPerson 3 1 (Some 70%Q)].

Definition households_second : list person :=
  [mkPerson 3 1 (Some 70%Q); mkPerson 2 2 (Some 30%Q);
   mkPerson 1 1 (Some 10%Q)].

(** Two households of two and one persons, the rows interleaved in two
    ways that keep the order of first appearance. *)
Definition interleaved_first : list person :=
  [mkPerson 1 1 (Some 10%Q); mkPerson 2 2 (Some 30%Q);
   mkPerson 1 3 (Some 20%Q)].

Definition interleaved_second : list person :=
  [mkPerson 1 1 (Some 10%Q); mkPerson 1 3 (Some 20%Q);
   mkPerson 2 2 (Some 30%Q)].

(** A rational square root: five Newton steps from [(1 + x) / 2]. *)
Fixpoint newton (steps : nat) (x guess : Q) : Q :=
  match steps with
  | O => guess
  | S steps' =>
      if Qeq_bool guess 0 then 0
      else newton steps' x (Qred ((guess + x / guess) / 2))
  end.

Definition newton_sqrt (x : Q) : Q := newton 5 x (Qred ((1 + x) / 2)).

(** Sixty-four yearly observations, the intervention at year 32. *)
Definition series_64 : series :=
  map (fun i => (Z.of_nat i, Some (inject_Z (Z.of_nat (i * i mod 7)))))
      (seq 0 64).

(** Ten yearly observations, the first value missing. *)
Definition series_with_gap : series :=
  [(1, None); (2, Some 5%Q); (3, Some 6%Q); (4, Some 8%Q); (5, Some 7%Q);
   (6, Some 12%Q); (7, Some 11%Q); (8, Some 13%Q); (9, Some 12%Q);
   (10, Some 15%Q)]%Z.

(** A series out of time order, with a missing value. *)
Definition series_unsorted : series :=
  [(5, Some 1%Q); (1, Some 2%Q); (3, None); (7, Some 4%Q); (9, Some 3%Q);
   (4, Some 1%Q); (8, Some 6%Q); (2, Some 2%Q); (10, Some 5%Q);
   (6, Some 4%Q)]%Z.

(** A fit that returns the coefficient 2 for every column. *)
Definition constant_fit : OLS :=
  {| params_of := fun _ X _ => map (fun _ => 2%Q) X;
     pvalues_of := fun _ X _ => map (fun _ => 0%Q) X;
     rsquared_of := fun _ _ _ => 1%Q |}.

(** A quintile table in which Q2 has no population and Q3 no income. *)
Definition strata : list quintile_row :=
  [mkQuintileRow "Q1 (Bottom 20%)" 50 5000 5000;
   mkQuintileRow "Q2" 0 20000 20000;
   mkQuintileRow "Q3" 50 40000 0;
   mkQuintileRow "Q4" 50 60000 60000;
   mkQuintileRow "Q5 (Top 20%)" 50 130000 130000;
   mkQuintileRow "Bottom 50%" 125 12000 12000]%Q.

(** A training window on an exact line, and one of two points. *)
Definition perfect_X : list R := [0; 1; 2]%R.
Definition perfect_y : list R := [0; 1; 2]%R.
Definition two_X : list R := [2016; 2017]%R.
Definition two_y : list R := [1; 2]%R.

End Examples.

(** ** Orders and groups used in the statements *)

Module Order.
Import Np Distributional.
Open Scope Q_scope.

(** Two rows of the ranked frame, the first above the second: incomes in
    order, cumulative weight fractions strictly so. *)
Definition ranked_before (a b : ranked) : Prop :=
  r_income a <= r_income b /\ cum_pct a < cum_pct b.

End Order.

Module Window.
Import PolicyImpact.

(** The number of observations a window request keeps out of the [n]
    that lie on one side of the intervention: all of them when no number
    is given or the number is 0, at most the number given otherwise. *)
Definition kept (periods : option Z) (n : nat) : nat :=
  match truthy periods with
  | Some p => Nat.min (Z.to_nat p) n
  | None => n
  end.

End Window.

(** ** F. Poverty simulation: [spm_poverty_simulation]
    (run_counterfactual_analysis.py, lines 524-631) *)

Module Poverty.
Import Np Distributional.
Open Scope Q_scope.

(** One person of the microdata file, with the columns the simulation
    reads.  [None] is a missing value.  The weight column is taken to be
    present and numeric. *)
Record spm_person : Type := mkSpmPerson {
  MARSUPWT : Q;
  SPM_RESOURCES : option Q;
  SPM_POVTHRESHOLD : option Q;
  SPM_SNAPSUB : option Q;
  SPM_WICVAL : option Q;
  SPM_SCHLUNCH : option Q
}.

(** The file as read: the names of its columns and its rows.  The value a
    row carries for a column the file does not have is never looked at. *)
Record microdata : Type := mkMicrodata {
  columns : list string;
  persons : list spm_person
}.

(** [c in df.columns]. *)
Definition has_column (c : string) (df : microdata) : bool :=
  existsb (String.eqb c) (columns df).

(** [sim[var]] for the three food-programme columns. *)
Definition column (var : string) (p : spm_person) : option Q :=
  if String.eqb var "SPM_SNAPSUB" then SPM_SNAPSUB p
  else if String.eqb var "SPM_WICVAL" then SPM_WICVAL p
  else SPM_SCHLUNCH p.

(** [.fillna(0)]. *)
Definition fillna (v : option Q) : Q :=
  match v with Some x => x | None => 0 end.

(** Lines 553-558: positive weight, resources and threshold present,
    threshold positive. *)
Definition is_valid (p : spm_person) : bool :=
  Qltb 0 (MARSUPWT p) &&
  match SPM_RESOURCES p, SPM_POVTHRESHOLD p with
  | Some _, Some t => Qltb 0 t
  | _, _ => false
  end.

(** [(resources < sim['SPM_POVTHRESHOLD']).astype(int)]; a comparison
    with a missing value is false. *)
Definition poor (resources : option Q) (p : spm_person) : Q :=
  match resources, SPM_POVTHRESHOLD p with
  | Some r, Some t => if Qltb r t then 1 else 0
  | _, _ => 0
  end.

(** The rate and the count of the poor, for resources given per person:
    [np.average(flag, weights=w) * 100] and [np.sum(flag * w)]. *)
Definition poverty (resources : spm_person -> option Q)
  (valid : list spm_person) : res (Q * Q) :=
  let flags := map (fun p => poor (resources p) p) valid in
  let w := map MARSUPWT valid in
  a <- np_average flags w ;;
  Ok (a * 100, sum (mul flags w)).

(** One row of the returned table. *)
Record scenario_row : Type := mkScenarioRow {
  scenario : string;
  poverty_rate : Q;
  poverty_count : Q;
  change_rate : Q;
  change_count : Q
}.

(** The three SNAP scenarios (name, column, cut) and the two combined
    ones (cut, name). *)
Definition scenarios : list (string * string * Q) :=
  [("10% SNAP cut", "SPM_SNAPSUB", 10 # 100);
   ("25% SNAP cut", "SPM_SNAPSUB", 25 # 100);
   ("50% SNAP cut", "SPM_SNAPSUB", 50 # 100)]%string.

Definition combined_scenarios : list (Q * string) :=
  [(15 # 100, "15% all food programs"%string);
   (30 # 100, "30% all food programs"%string)].

(** [combined_vars]: the food columns the file has. *)
Definition combined_vars (df : microdata) : list string :=
  filter (fun v => has_column v df)
         ["SPM_SNAPSUB"; "SPM_WICVAL"; "SPM_SCHLUNCH"]%string.

(** [sum(sim[v].fillna(0) * cut_pct for v in combined_vars)]. *)
Definition total_cut (vars : list string) (cut_pct : Q) (p : spm_person) : Q :=
  fold_left (fun acc v => acc + fillna (column v p) * cut_pct) vars 0.

(** One simulated row: resources reduced by [cut], compared with the
    baseline. *)
Definition simulate (name : string) (cut : spm_person -> Q)
  (valid : list spm_person) (baseline_rate baseline_count : Q)
  : res scenario_row :=
  s <- poverty (fun p => option_map (fun r => r - cut p) (SPM_RESOURCES p))
               valid ;;
  Ok {| scenario := name;
        poverty_rate := fst s;
        poverty_count := snd s;
        change_rate := fst s - baseline_rate;
        change_count := snd s - baseline_count |}.

(** A loop that appends one simulated row per scenario. *)
Fixpoint simulate_all (A : Type) (l : list A) (name : A -> string)
  (cut : A -> spm_person -> Q) (valid : list spm_person)
  (baseline_rate baseline_count : Q) : res (list scenario_row) :=
  match l with
  | [] => Ok []
  | x :: l' =>
      r <- simulate (name x) (cut x) valid baseline_rate baseline_count ;;
      rest <- simulate_all l' name cut valid baseline_rate baseline_count ;;
      Ok (r :: rest)
  end.

(** The function, with the file it reads as an argument ([None]: the file
    does not exist).  It returns [None] when the file or one of the two
    SPM columns is missing. *)
Definition spm_poverty_simulation (file : option microdata)
  : res (option (list scenario_row)) :=
  match file with
  | None => Ok None
  | Some df =>
      if negb (has_column "SPM_RESOURCES" df)
         || negb (has_column "SPM_POVTHRESHOLD" df)
      then Ok None
      else
        let valid := filter is_valid (persons df) in
        b <- poverty SPM_RESOURCES valid ;;
        let baseline_rate := fst b in
        let baseline_count := snd b in
        let results :=
          [{| scenario := "Baseline";
              poverty_rate := baseline_rate;
              poverty_count := baseline_count;
              change_rate := 0;
              change_count := 0 |}] in
        snap <- simulate_all
                  (filter (fun s => has_column (snd (fst s)) df) scenarios)
                  (fun s => fst (fst s))
                  (fun s p => fillna (column (snd (fst s)) p) * snd s)
                  valid baseline_rate baseline_count ;;
        food <- simulate_all
                  (match combined_vars df with
                   | [] => []
                   | _ => combined_scenarios
                   end)
                  snd
                  (fun cl => total_cut (combined_vars df) (fst cl))
                  valid baseline_rate baseline_count ;;
        Ok (Some (results ++ snap ++ food))
  end.

(** A person none of whose food benefits is negative. *)
Definition benefits_nonneg (p : spm_person) : Prop :=
  0 <= fillna (SPM_SNAPSUB p) /\ 0 <= fillna (SPM_WICVAL p) /\
  0 <= fillna (SPM_SCHLUNCH p).

(** The weighted count and the rate (in percent) of the poor, written
    out. *)
Definition count_of (resources : spm_person -> option Q)
  (valid : list spm_person) : Q :=
  sum (map (fun p => poor (resources p) p * MARSUPWT p) valid).

Definition rate_of (resources : spm_person -> option Q)
  (valid : list spm_person) : Q :=
  count_of resources valid / sum (map MARSUPWT valid) * 100.

(** Resources after a cut. *)
Definition after (cut : spm_person -> Q) (p : spm_person) : option Q :=
  option_map (fun r => r - cut p) (SPM_RESOURCES p).

(** Two rows of the table, the second with at least as much poverty. *)
Definition at_most_as_poor (a b : scenario_row) : Prop :=
  poverty_count a <= poverty_count b /\ poverty_rate a <= poverty_rate b.

(** A file with all columns and four persons, the last without weight. *)
Definition sample_file : microdata :=
  {| columns := ["MARSUPWT"; "SPM_RESOURCES"; "SPM_POVTHRESHOLD";
                 "SPM_SNAPSUB"; "SPM_WICVAL"; "SPM_SCHLUNCH"]%string;
     persons :=
       [mkSpmPerson 2 (Some 90) (Some 100) (Some 20) None None;
        mkSpmPerson 1 (Some 104) (Some 100) (Some 20) (Some 10) None;
        mkSpmPerson 3 (Some 300) (Some 100) None None (Some 5);
        mkSpmPerson 0 (Some 50) (Some 100) (Some 10) None None] |}.

(** A file whose persons all have a zero weight. *)
Definition weightless_file : microdata :=
  {| columns := ["MARSUPWT"; "SPM_RESOURCES"; "SPM_POVTHRESHOLD"]%string;
     persons := [mkSpmPerson 0 (Some 50) (Some 100) None None None] |}.

End Poverty.

(** ** Simulated burden by percentile: [quantile_treatment_effects]
    (run_counterfactual_analysis.py, lines 761-899) *)

Module Qte.
Import Np Distributional.
Open Scope Q_scope.

(** [.astype(int)]: truncation toward zero. *)
Definition astype_int (x : Q) : Z := Z.quot (Qnum x) (Zpos (Qden x)).

(** [.clip(lo, hi)]. *)
Definition clip (lo hi v : Z) : Z := Z.min hi (Z.max lo v).

(** Line 802: [(cum_weight / total_weight * 100).astype(int).clip(1, 99)],
    on a row of the frame ranked as in lines 792-801 (positive weights,
    sorted by income, cumulative weight over total weight). *)
Definition percentile_of (r : ranked) : Z :=
  clip 1 99 (astype_int (cum_pct r * 100)).

(** Python's [max(a, b)]: the first argument unless the second is
    larger. *)
Definition pymax (a b : Q) : Q := if Qltb a b then b else a.

(** Lines 826-850: the assumed loss per person at a percentile. *)
Definition snap_loss_at (pctile : Z) : Q :=
  let snap_prob := pymax 0 ((30 # 100) - inject_Z pctile * (4 # 1000)) in
  let snap_cut_per_person := snap_prob * 2800 in
  let snap_reduction := 15 # 100 in
  snap_cut_per_person * snap_reduction.

Definition medicaid_loss_at (pctile : Z) : Q :=
  let medicaid_prob := pymax 0 ((40 # 100) - inject_Z pctile * (5 # 1000)) in
  let medicaid_value := 8000 in
  let medicaid_cut_pct := 6 # 100 in
  medicaid_prob * medicaid_value * medicaid_cut_pct.

Definition nondiscr_loss_at (pctile : Z) : Q :=
  let nondiscr_per_person := 95000000000 / 330000000 in
  let nondiscr_weight :=
    pymax (3 # 10) ((15 # 10) - inject_Z pctile * (12 # 1000)) in
  nondiscr_per_person * nondiscr_weight.

Definition tariff_loss_at (pctile : Z) : Q :=
  let tariff_per_person := 140000000000 / 330000000 in
  let tariff_weight :=
    pymax (6 # 10) ((12 # 10) - inject_Z pctile * (6 # 1000)) in
  tariff_per_person * tariff_weight.

(** One row of the returned table. *)
Record qte_row : Type := mkQteRow {
  percentile : Z;
  mean_income : Q;
  n_persons : nat;
  weighted_persons : Q;
  snap_loss : Q;
  medicaid_loss : Q;
  nondiscr_loss : Q;
  tariff_loss : Q;
  total_loss : Q;
  pct_of_income : Q
}.

(** The body of the loop for one percentile with a non-empty group. *)
Definition qte_row_of (pctile : Z) (pct_df : list ranked) : res qte_row :=
  let w := map r_weight pct_df in
  mean_income <- np_average (map r_income pct_df) w ;;
  let snap_loss := snap_loss_at pctile in
  let medicaid_loss := medicaid_loss_at pctile in
  let nondiscr_loss := nondiscr_loss_at pctile in
  let tariff_loss := tariff_loss_at pctile in
  let total_loss := snap_loss + medicaid_loss + nondiscr_loss + tariff_loss in
  let as_pct_income :=
    if Qltb 0 mean_income then total_loss / mean_income * 100 else 0 in
  Ok {| percentile := pctile;
        mean_income := mean_income;
        n_persons := length pct_df;
        weighted_persons := sum w;
        snap_loss := snap_loss;
        medicaid_loss := medicaid_loss;
        nondiscr_loss := nondiscr_loss;
        tariff_loss := tariff_loss;
        total_loss := total_loss;
        pct_of_income := as_pct_income |}.

(** Lines 816-867: one row per percentile that has a person. *)
Fixpoint qte_loop (pctiles : list Z) (valid : list ranked)
  : res (list qte_row) :=
  match pctiles with
  | [] => Ok []
  | pctile :: rest =>
      let pct_df := filter (fun r => Z.eqb (percentile_of r) pctile) valid in
      match pct_df with
      | [] => qte_loop rest valid
      | _ :: _ =>
          row <- qte_row_of pctile pct_df ;;
          rows <- qte_loop rest valid ;;
          Ok (row :: rows)
      end
  end.

(** [range(1, 100)]. *)
Definition pctiles : list Z := map Z.of_nat (seq 1 99).

(** What a call ends in: [None] when the file is missing, an exception, or
    the table.  An empty table has no column, so the report that follows
    the loop fails on [qte_df['percentile']]. *)
Inductive error : Type :=
  | AverageError (e : exn)
  | KeyError (key : string).

Inductive outcome : Type :=
  | ReturnedNone
  | Raised (e : error)
  | Returned (qte_df : list qte_row).

(** The function, with the microdata file as an argument ([None]: the
    file does not exist), its rows restricted to the income and weight
    columns. *)
Definition quantile_treatment_effects (file : option (list row)) : outcome :=
  match file with
  | None => ReturnedNone
  | Some df =>
      let valid := rank_rows df in
      match qte_loop pctiles valid with
      | Raise e => Raised (AverageError e)
      | Ok [] => Raised (KeyError "percentile")
      | Ok (row :: rows) => Returned (row :: rows)
      end
  end.

(** The persons of one percentile, and the row they give, written out. *)
Definition group (valid : list ranked) (pctile : Z) : list ranked :=
  filter (fun r => Z.eqb (percentile_of r) pctile) valid.

Definition occupied (valid : list ranked) (pctile : Z) : bool :=
  match group valid pctile with [] => false | _ :: _ => true end.

Definition loss_at (pctile : Z) : Q :=
  snap_loss_at pctile + medicaid_loss_at pctile + nondiscr_loss_at pctile
  + tariff_loss_at pctile.

Definition group_mean (g : list ranked) : Q :=
  sum (map (fun r => r_income r * r_weight r) g) / sum (map r_weight g).

Definition row_at (valid : list ranked) (pctile : Z) : qte_row :=
  let g := group valid pctile in
  {| percentile := pctile;
     mean_income := group_mean g;
     n_persons := length g;
     weighted_persons := sum (map r_weight g);
     snap_loss := snap_loss_at pctile;
     medicaid_loss := medicaid_loss_at pctile;
     nondiscr_loss := nondiscr_loss_at pctile;
     tariff_loss := tariff_loss_at pctile;
     total_loss := loss_at pctile;
     pct_of_income :=
       if Qltb 0 (group_mean g) then loss_at pctile / group_mean g * 100
       else 0 |}.

(** Two rows of the table, the first at the lower percentile. *)
Definition lower_percentile (a b : qte_row) : Prop :=
  (percentile a < percentile b)%Z.

(** What each row holds for the four programmes at its percentile. *)
Definition schedule (r : qte_row) : Prop :=
  0 <= snap_loss r /\ (snap_loss r == 0 <-> (75 <= percentile r)%Z) /\
  0 <= medicaid_loss r /\ (medicaid_loss r == 0 <-> (80 <= percentile r)%Z) /\
  nondiscr_loss r
  == (95000000000 / 330000000)
     * ((15 # 10) - inject_Z (percentile r) * (12 # 1000)) /\
  tariff_loss r
  == (140000000000 / 330000000)
     * ((12 # 10) - inject_Z (percentile r) * (6 # 1000)) /\
  total_loss r = snap_loss r + medicaid_loss r + nondiscr_loss r + tariff_loss r /\
  0 < total_loss r.

(** The second row loses less in dollars. *)
Definition loses_less (a b : qte_row) : Prop :=
  snap_loss b <= snap_loss a /\ medicaid_loss b <= medicaid_loss a /\
  nondiscr_loss b < nondiscr_loss a /\ tariff_loss b < tariff_loss a /\
  total_loss b < total_loss a.

(** The second row has the higher mean income and, when the first row's
    mean income is positive, the smaller loss as a share of income. *)
Definition richer_and_less_burdened (a b : qte_row) : Prop :=
  mean_income a <= mean_income b /\
  (0 < mean_income a -> 0 < pct_of_income b /\ pct_of_income b < pct_of_income a).

(** The share of income a row reports. *)
Definition burden (r : qte_row) : Prop :=
  (0 < mean_income r -> pct_of_income r = total_loss r / mean_income r * 100) /\
  (mean_income r <= 0 -> pct_of_income r = 0) /\
  0 <= pct_of_income r.

End Qte.

(** ** Robustness to the allocation of cuts: [test_propensity_sensitivity]
    (run_robustness_checks.py, lines 48-121) *)

Module Sensitivity.
Import Np Attribution.
Open Scope Q_scope.

(** [{'Q1': a, 'Q2': b, 'Q3': c, 'Q4': d, 'Q5': e}]. *)
Definition by_quintile (a b c d e : Q) : dict Q :=
  [("Q1", a); ("Q2", b); ("Q3", c); ("Q4", d); ("Q5", e)]%string.

(** The four allocation schemes, as written in the source. *)
Definition allocations : dict (dict (dict Q)) :=
  [("Baseline (CPS receipt rates)",
    [("Medicaid",
      by_quintile (40 # 100) (30 # 100) (15 # 100) (10 # 100) (5 # 100));
     ("Income Security",
      by_quintile (50 # 100) (30 # 100) (12 # 100) (6 # 100) (2 # 100));
     ("Nondefense Discretionary",
      by_quintile (25 # 100) (25 # 100) (22 # 100) (18 # 100) (10 # 100))]);
   ("Alt A: CBO (2022) estimates",
    [("Medicaid",
      by_quintile (45 # 100) (25 # 100) (15 # 100) (10 # 100) (5 # 100));
     ("Income Security",
      by_quintile (55 # 100) (25 # 100) (10 # 100) (7 # 100) (3 # 100));
     ("Nondefense Discretionary",
      by_quintile (30 # 100) (25 # 100) (20 # 100) (15 # 100) (10 # 100))]);
   ("Alt B: Uniform within eligible",
    [("Medicaid",
      by_quintile (35 # 100) (30 # 100) (20 # 100) (10 # 100) (5 # 100));
     ("Income Security",
      by_quintile (40 # 100) (30 # 100) (15 # 100) (10 # 100) (5 # 100));
     ("Nondefense Discretionary",
      by_quintile (22 # 100) (22 # 100) (22 # 100) (22 # 100) (12 # 100))]);
   ("Alt C: Conservative (less progressive)",
    [("Medicaid",
      by_quintile (30 # 100) (25 # 100) (20 # 100) (15 # 100) (10 # 100));
     ("Income Security",
      by_quintile (35 # 100) (25 # 100) (20 # 100) (12 # 100) (8 # 100));
     ("Nondefense Discretionary",
      by_quintile (20 # 100) (20 # 100) (20 # 100) (20 # 100) (20 # 100))])
  ]%string.

Definition programs : list string :=
  ["Medicaid"; "Income Security"; "Nondefense Discretionary"]%string.

Definition B50_Q3_FACTOR : Q := 5 # 10.

(** The inner loop over the programmes.  [None] stands for the KeyError
    of a subscript [alloc[prog]['Q1']] on a missing key. *)
Fixpoint b50_loop (progs : list string) (alloc : dict (dict Q))
  (policy_gap : dict Q) (b50_total : Q) : option Q :=
  match progs with
  | [] => Some b50_total
  | prog :: rest =>
      let gap := get_or prog 0 policy_gap in
      match dict_get prog alloc with
      | None => None
      | Some shares =>
          match dict_get "Q1" shares, dict_get "Q2" shares,
                dict_get "Q3" shares with
          | Some q1_share, Some q2_share, Some q3 =>
              let q3_partial := q3 * B50_Q3_FACTOR in
              b50_loop rest alloc policy_gap
                (b50_total + gap * (q1_share + q2_share + q3_partial))
          | _, _, _ => None
          end
      end
  end.

(** One row of the returned table. *)
Record spec_row : Type := mkSpecRow {
  specification : string;
  bottom_50_spending_loss_B : Q
}.

(** The outer loop over the allocation schemes. *)
Fixpoint spec_loop (specs : dict (dict (dict Q))) (policy_gap : dict Q)
  : option (list spec_row) :=
  match specs with
  | [] => Some []
  | (spec_name, alloc) :: rest =>
      match b50_loop programs alloc policy_gap 0 with
      | None => None
      | Some b50_total =>
          match spec_loop rest policy_gap with
          | None => None
          | Some results =>
              Some ({| specification := spec_name;
                       bottom_50_spending_loss_B := b50_total |} :: results)
          end
      end
  end.

(** The function, with the [policy_gap] dictionary of the results file it
    loads as an argument. *)
Definition test_propensity_sensitivity (policy_gap : dict Q)
  : option (list spec_row) :=
  spec_loop allocations policy_gap.

(** The spending cut the main analysis attributes to a quintile, read off
    its [total_impacts]. *)
Definition spending_cut_of (total_impacts : dict impact) (q : string) : Q :=
  match dict_get q total_impacts with
  | Some i => spending_cut_B i
  | None => 0
  end.

(** The three gaps added up. *)
Definition gap_total (policy_gap : dict Q) : Q :=
  get_or "Medicaid" 0 policy_gap + get_or "Income Security" 0 policy_gap
  + get_or "Nondefense Discretionary" 0 policy_gap.

(** The specifications in the order of the table. *)
Definition spec_names : list string :=
  ["Baseline (CPS receipt rates)"; "Alt A: CBO (2022) estimates";
   "Alt B: Uniform within eligible";
   "Alt C: Conservative (less progressive)"]%string.

(** A policy gap with three cuts and one increase. *)
Definition sample_gap : dict Q :=
  [("Medicaid", -36); ("Income Security", -53);
   ("Nondefense Discretionary", -95); ("Defense", 12)]%string.

End Sensitivity.

(** ** Deflating a series: [compute_real_values]
    (src/analysis/policy_impact.py, lines 212-233) *)

Module Deflation.
Import Np.
Open Scope Q_scope.

(** One row of the frame [pd.DataFrame({"nominal": ..., "cpi": ...})] that
    aligns the two series on their dates: the year of the date and the two
    values, [None] where a series has no value at that date. *)
Record aligned : Type := mkAligned {
  index_year : Z;
  nominal : option Q;
  cpi : option Q
}.

(** A row of [combined], after [.dropna()]. *)
Record observed : Type := mkObserved {
  year : Z;
  nominal_value : Q;
  cpi_value : Q
}.

Fixpoint dropna (df : list aligned) : list observed :=
  match df with
  | [] => []
  | r :: t =>
      match nominal r, cpi r with
      | Some n, Some c => mkObserved (index_year r) n c :: dropna t
      | _, _ => dropna t
      end
  end.

(** The CPI of the base period: the mean over the rows of the base year,
    or the last CPI when the base year has no row. *)
Definition base_cpi_of (combined : list observed) (base_year : Z) : Q :=
  let base := filter (fun r => Z.eqb (year r) base_year) combined in
  match base with
  | _ :: _ => mean (map cpi_value base)
  | [] => cpi_value (last combined (mkObserved 0 0 0))
  end.

(** The real values, one per row of [combined] and in its order.  A row
    whose CPI is zero gets an infinity or a NaN (float division by zero),
    written [None]. *)
Definition compute_real_values (df : list aligned) (base_year : Z)
  : list (option Q) :=
  let combined := dropna df in
  match combined with
  | [] => []
  | _ :: _ =>
      let base_cpi := base_cpi_of combined base_year in
      map (fun r =>
             if Qeq_bool (cpi_value r) 0 then None
             else Some (nominal_value r * (base_cpi / cpi_value r)))
          combined
  end.

(** The same frame with the price index on another scale. *)
Definition rescale_cpi (k : Q) (df : list aligned) : list aligned :=
  map (fun r => mkAligned (index_year r) (nominal r)
                          (option_map (fun c => k * c) (cpi r))) df.

(** Two results that are the same number, or both not finite. *)
Definition same_value (a b : option Q) : Prop :=
  match a, b with
  | Some x, Some y => x == y
  | None, None => True
  | _, _ => False
  end.

(** Annual data with one missing CPI, and monthly-like data without the
    base year. *)
Definition annual_frame : list aligned :=
  [mkAligned 2021 (Some 100) (Some 270);
   mkAligned 2022 (Some 110) None;
   mkAligned 2023 (Some 120) (Some 300);
   mkAligned 2024 (Some 130) (Some 310)].

Definition early_frame : list aligned :=
  [mkAligned 2019 (Some 80) (Some 250);
   mkAligned 2020 None (Some 255);
   mkAligned 2020 (Some 90) (Some 260)].

End Deflation.

(** ** Income aggregates: [compute_income_components]
    (acquire_cps_asec.py, lines 285-360) *)

Module Components.
Import Np Attribution.
Open Scope Q_scope.

(** A column of the frame, [None] for NaN, and the frame as the columns
    in their order.  All columns of a frame have the same length. *)
Definition series : Type := list (option Q).
Definition frame : Type := dict series.

(** What a call ends in. *)
Inductive outcome : Type :=
  | AttributeError
  | Returned (df : frame).

(** [.fillna(0)] on a column. *)
Definition fillna (s : series) : list Q :=
  map (fun v => match v with Some x => x | None => 0 end) s.

(** [df.get(col, 0).fillna(0)]: for a missing column [df.get] gives the
    integer 0, which has no [fillna]; [None] stands for that
    AttributeError. *)
Definition get_fillna (df : frame) (col : string) : option (list Q) :=
  option_map fillna (dict_get col df).

(** Element-wise sum and difference of two columns of the same frame. *)
Fixpoint add (a b : list Q) : list Q :=
  match a, b with
  | x :: a', y :: b' => (x + y) :: add a' b'
  | _, _ => []
  end.

Fixpoint sub (a b : list Q) : list Q :=
  match a, b with
  | x :: a', y :: b' => (x - y) :: sub a' b'
  | _, _ => []
  end.

(** [acc + df.get(c1, 0).fillna(0) + df.get(c2, 0).fillna(0) + ...],
    left to right. *)
Fixpoint plus_columns (df : frame) (acc : list Q) (cols : list string)
  : option (list Q) :=
  match cols with
  | [] => Some acc
  | c :: rest =>
      match get_fillna df c with
      | None => None
      | Some v => plus_columns df (add acc v) rest
      end
  end.

(** [df.get(c0, 0).fillna(0) + df.get(c1, 0).fillna(0) + ...]. *)
Definition sum_columns (df : frame) (cols : list string) : option (list Q) :=
  match cols with
  | [] => None
  | c :: rest =>
      match get_fillna df c with
      | None => None
      | Some v => plus_columns df v rest
      end
  end.

(** [acc - df.get(c1, 0).fillna(0) - ...], left to right. *)
Fixpoint minus_columns (df : frame) (acc : list Q) (cols : list string)
  : option (list Q) :=
  match cols with
  | [] => Some acc
  | c :: rest =>
      match get_fillna df c with
      | None => None
      | Some v => minus_columns df (sub acc v) rest
      end
  end.

(** [df[name] = values]. *)
Definition assign (name : string) (values : list Q) (df : frame) : frame :=
  dict_set name (map Some values) df.

Definition market_columns : list string :=
  ["PEARNVAL"; "DIV_VAL"; "INT_VAL"; "RNT_VAL"; "CAP_VAL"; "PNSN_VAL";
   "ANN_VAL"; "DBTN_VAL"]%string.
Definition social_insurance_columns : list string :=
  ["SS_VAL"; "UC_VAL"; "VET_VAL"; "DSAB_VAL"; "WC_VAL"; "SRVS_VAL"]%string.
Definition means_tested_columns : list string :=
  ["SSI_VAL"; "PAW_VAL"; "FIN_VAL"; "ED_VAL"; "CSP_VAL"]%string.
Definition capital_columns : list string :=
  ["DIV_VAL"; "INT_VAL"; "RNT_VAL"; "CAP_VAL"]%string.
Definition federal_tax_columns : list string := ["FEDTAX_AC"; "FICA"]%string.
Definition tax_credit_columns : list string :=
  ["EIT_CRED"; "CTC_CRD"; "ACTC_CRD"]%string.
Definition posttax_deductions : list string :=
  ["FEDTAX_AC"; "FICA"; "STATETAX_A"]%string.

(** The function: nine assignments in the order of the source, each
    reading its columns left to right. *)
Definition compute_income_components (df : frame) : outcome :=
  match sum_columns df market_columns with
  | None => AttributeError
  | Some market_income =>
  let df := assign "market_income" market_income df in
  match sum_columns df social_insurance_columns with
  | None => AttributeError
  | Some social_insurance =>
  let df := assign "social_insurance" social_insurance df in
  match sum_columns df means_tested_columns with
  | None => AttributeError
  | Some means_tested =>
  let df := assign "means_tested" means_tested df in
  match sum_columns df capital_columns with
  | None => AttributeError
  | Some capital_income =>
  let df := assign "capital_income" capital_income df in
  let pretax_income := add market_income social_insurance in
  let df := assign "pretax_income" pretax_income df in
  match sum_columns df federal_tax_columns with
  | None => AttributeError
  | Some federal_taxes =>
  let df := assign "federal_taxes" federal_taxes df in
  match sum_columns df tax_credit_columns with
  | None => AttributeError
  | Some tax_credits =>
  let df := assign "tax_credits" tax_credits df in
  match minus_columns df (add pretax_income means_tested) posttax_deductions with
  | None => AttributeError
  | Some posttax_income =>
  let df := assign "posttax_income" posttax_income df in
  match get_fillna df "PTOTVAL" with
  | None => AttributeError
  | Some total_income =>
  Returned (assign "total_income" total_income df)
  end end end end end end end end.

(** The columns the function reads with [df.get]. *)
Definition required_columns : list string :=
  ["PEARNVAL"; "DIV_VAL"; "INT_VAL"; "RNT_VAL"; "CAP_VAL"; "PNSN_VAL";
   "ANN_VAL"; "DBTN_VAL"; "SS_VAL"; "UC_VAL"; "VET_VAL"; "DSAB_VAL";
   "WC_VAL"; "SRVS_VAL"; "SSI_VAL"; "PAW_VAL"; "FIN_VAL"; "ED_VAL";
   "CSP_VAL"; "FEDTAX_AC"; "FICA"; "EIT_CRED"; "CTC_CRD"; "ACTC_CRD";
   "STATETAX_A"; "PTOTVAL"]%string.

(** The value of a column in row [i], NaN and a missing column read
    as 0. *)
Definition value (df : frame) (col : string) (i : nat) : Q :=
  match dict_get col df with
  | Some s => nth i (fillna s) 0
  | None => 0
  end.

(** Every column of the frame has [n] rows. *)
Definition n_rows (n : nat) (df : frame) : Prop :=
  Forall (fun kv : string * series => length (snd kv) = n) df.

(** A frame of two persons with every column the function reads, and the
    same frame without the state tax column. *)
Definition full_frame : frame :=
  map (fun c : string =>
         (c, if String.eqb c "PEARNVAL" then [Some 100; None]
             else if String.eqb c "SS_VAL" then [Some 7; Some 50]
             else if String.eqb c "FICA" then [Some 8; Some 0]
             else if String.eqb c "EIT_CRED" then [Some 3; Some 0]
             else [Some 1; Some 2]))
      required_columns.

Definition frame_without_state_tax : frame :=
  filter (fun kv : string * series => negb (String.eqb (fst kv) "STATETAX_A"))
         full_frame.

End Components.

(** ** A'. The ranking as binary64 computes it
    (acquire_cps_asec.py, lines 372-393) *)

Module Rounded.
Import Np Distributional.
Open Scope Q_scope.

(** A binary64 number is the rational it denotes.  Every addition and
    division the ranking makes is the exact operation followed by [fl],
    the rounding of the result to binary64; comparisons are exact.  The
    order of the additions is the library's: [cumsum] adds from left to
    right, [sum] adds pairwise. *)
Definition fadd (fl : Q -> Q) (a b : Q) : Q := fl (a + b).
Definition fdiv (fl : Q -> Q) (a b : Q) : Q := fl (a / b).

(** [np.cumsum]: the first element is copied, each later one is the
    rounded sum of the previous total and the next element. *)
Fixpoint cumsum_from (fl : Q -> Q) (acc : Q) (l : list Q) : list Q :=
  match l with
  | [] => []
  | x :: t => fadd fl acc x :: cumsum_from fl (fadd fl acc x) t
  end.

Definition cumsum (fl : Q -> Q) (l : list Q) : list Q :=
  match l with
  | [] => []
  | x :: t => x :: cumsum_from fl x t
  end.

(** numpy's pairwise summation of [n] contiguous numbers: fewer than 8
    are added in order; up to 128 are added in eight interleaved lanes,
    the lanes are combined as a balanced tree and the last [n mod 8]
    numbers are added in order; more are split in two parts, the first a
    multiple of 8. *)
Fixpoint add_lanes (fl : Q -> Q) (r block : list Q) : list Q :=
  match r, block with
  | x :: r', y :: block' => fadd fl x y :: add_lanes fl r' block'
  | _, _ => r
  end.

Fixpoint unrolled (fl : Q -> Q) (blocks : nat) (r a : list Q)
  : list Q * list Q :=
  match blocks with
  | O => (r, a)
  | S k => unrolled fl k (add_lanes fl r (firstn 8 a)) (skipn 8 a)
  end.

Definition combine_lanes (fl : Q -> Q) (r : list Q) : Q :=
  match r with
  | [r0; r1; r2; r3; r4; r5; r6; r7] =>
      fadd fl (fadd fl (fadd fl r0 r1) (fadd fl r2 r3))
              (fadd fl (fadd fl r4 r5) (fadd fl r6 r7))
  | _ => 0
  end.

Definition sum_block (fl : Q -> Q) (a : list Q) : Q :=
  let n := length a in
  let ra := unrolled fl (n / 8 - 1) (firstn 8 a) (skipn 8 a) in
  fold_left (fadd fl) (snd ra) (combine_lanes fl (fst ra)).

Fixpoint pairwise_sum (fl : Q -> Q) (fuel : nat) (a : list Q) : Q :=
  let n := length a in
  if (n <? 8)%nat then fold_left (fadd fl) a 0
  else if (n <=? 128)%nat then sum_block fl a
  else match fuel with
       | O => 0
       | S fuel' =>
           let n2 := (n / 2)%nat in
           let n2 := (n2 - n2 mod 8)%nat in
           fadd fl (pairwise_sum fl fuel' (firstn n2 a))
                   (pairwise_sum fl fuel' (skipn n2 a))
       end.

(** [Series.sum()], [np.sum]: the reduction starts from 0. *)
Definition np_sum (fl : Q -> Q) (a : list Q) : Q :=
  fadd fl 0 (pairwise_sum fl (length a) a).

(** [bins=[0, 0.2, 0.4, 0.6, 0.8, 1.0]] as binary64 numbers: 0 and 1 are
    exact, the others are the nearest binary64 numbers. *)
Definition bins (fl : Q -> Q) : list Q :=
  [0; fl (2 # 10); fl (4 # 10); fl (6 # 10); fl (8 # 10); 1].

(** [pd.cut(x, bins, labels, include_lowest=True)], as
    [Distributional.pd_cut], on the binary64 edges. *)
Definition pd_cut (fl : Q -> Q) (x : Q) : option quintile :=
  let ids := if Qeq_bool x 0 then 1%nat else searchsorted_left (bins fl) x in
  match ids with
  | 1%nat => Some Q1
  | 2%nat => Some Q2
  | 3%nat => Some Q3
  | 4%nat => Some Q4
  | 5%nat => Some Q5
  | _ => None
  end.

(** Lines 372-393: keep positive weights, sort by income, rank by the
    cumulative weight over the total weight, cut into quintiles and flag
    the groups.  The total weight of a non-empty frame is not zero when
    [fl] keeps positive numbers positive. *)
Definition rank_rows (fl : Q -> Q) (df : list row) : list ranked :=
  let valid := sort_values (positive_weight df) in
  let cum := cumsum fl (map weight valid) in
  let total_weight := np_sum fl (map weight valid) in
  map (fun rc : row * Q =>
         let pct := fdiv fl (snd rc) total_weight in
         {| r_income := income (fst rc);
            r_weight := weight (fst rc);
            cum_weight := snd rc;
            cum_pct := pct;
            r_quintile := pd_cut fl pct;
            bottom_50 := Qle_bool pct (50 # 100);
            top_10 := Qltb (fl (90 # 100)) pct;
            top_1 := Qltb (fl (99 # 100)) pct |})
      (combine valid cum).

(** [compute_quintile_stats] on this frame.  The averages of the groups
    are taken exactly, as in [Distributional.summarise]. *)
Definition compute_quintile_stats (fl : Q -> Q) (df : list row)
  : res (list group_stats * list ranked) :=
  let valid := rank_rows fl df in
  results <- summarise_all categories valid ;;
  b50 <- summarise "Bottom 50%" (filter bottom_50 valid) ;;
  t10 <- summarise "Top 10%" (filter top_10 valid) ;;
  Ok (results ++ [b50; t10], valid).

(** The edges of each bucket, from [bins]. *)
Definition lower_edge (fl : Q -> Q) (q : quintile) : Q :=
  match q with
  | Q1 => 0
  | Q2 => fl (2 # 10)
  | Q3 => fl (4 # 10)
  | Q4 => fl (6 # 10)
  | Q5 => fl (8 # 10)
  end.

Definition upper_edge (fl : Q -> Q) (q : quintile) : Q :=
  match q with
  | Q1 => fl (2 # 10)
  | Q2 => fl (4 # 10)
  | Q3 => fl (6 # 10)
  | Q4 => fl (8 # 10)
  | Q5 => 1
  end.

(** What is used of the rounding: on non-negative numbers it keeps the
    order, it keeps positive numbers positive (no underflow), it leaves
    a binary64 number as it is, and 1 and 0.5 are binary64 numbers. *)
Record rounding (fl : Q -> Q) : Prop := mkRounding {
  fl_monotone : forall x y, 0 <= x -> x <= y -> fl x <= fl y;
  fl_positive : forall x, 0 < x -> 0 < fl x;
  fl_fixed : forall x, 0 <= x -> fl (fl x) == fl x;
  fl_one : fl 1 == 1;
  fl_half : fl (1 # 2) == 1 # 2
}.

(** The number is a binary64 number. *)
Definition representable (fl : Q -> Q) (x : Q) : Prop := fl x == x.

(** *** Rounding to binary64 *)

(** [floor (log2 x)] for a positive [x]. *)
Definition ilog2 (x : Q) : Z :=
  let k := (Z.log2 (Qnum x) - Z.log2 (Zpos (Qden x)))%Z in
  if Qle_bool (2 ^ k) x then k else (k - 1)%Z.

(** The nearest integer, a tie going to the even one. *)
Definition round_half_even (y : Q) : Z :=
  let f := Qfloor y in
  let d := y - inject_Z f in
  if Qltb d (1 # 2) then f
  else if Qltb (1 # 2) d then (f + 1)%Z
  else if Z.even f then f else (f + 1)%Z.

(** The nearest number with a 53-bit significand, ties to even; the
    exponent is not bounded (no overflow, no subnormal numbers). *)
Definition nearest53 (x : Q) : Q :=
  let u := 2 ^ (ilog2 x - 52) in
  Qred (inject_Z (round_half_even (x / u)) * u).

Definition binary64 (x : Q) : Q :=
  if Qltb 0 x then nearest53 x
  else if Qltb x 0 then - nearest53 (- x)
  else 0.

(** Two rows of the frame, the first above the second: incomes and
    cumulative fractions in order. *)
Definition ranked_le (a b : ranked) : Prop :=
  r_income a <= r_income b /\ cum_pct a <= cum_pct b.

(** The order of the quintiles. *)
Definition quintile_rank (q : quintile) : nat :=
  match q with Q1 => 1 | Q2 => 2 | Q3 => 3 | Q4 => 4 | Q5 => 5 end.

(** Eight persons with incomes 1..8 who all have the weight 0.7, and
    eight persons of whom seven have the weight 0.3 and the richest the
    weight 1.0. *)
Definition incomes_1_to_8 : list Q := [1; 2; 3; 4; 5; 6; 7; 8].

Definition weights_07 : list row :=
  map (fun y => (y, binary64 (7 # 10))) incomes_1_to_8.

Definition weights_03_and_1 : list row :=
  map (fun y => (y, if Qeq_bool y 8 then 1 else binary64 (3 # 10)))
      incomes_1_to_8.

End Rounded.

(** * Verification *)

(** ** A. Weighted distributional statistics *)

Section DistributionalFacts.
Import Np Distributional Bootstrap Examples.
Local Open Scope Q_scope.

Lemma Qltb_true a b : Qltb a b = true <-> a < b.
Proof.
  unfold Qltb. rewrite negb_true_iff. split.
  - intro H. apply Qnot_le_lt. intro Hle. apply Qle_bool_iff in Hle. congruence.
  - intro H. destruct (Qle_bool b a) eqn:E; auto. apply Qle_bool_iff in E. lra.
Qed.

Lemma Qltb_false a b : Qltb a b = false <-> b <= a.
Proof.
  unfold Qltb. rewrite negb_false_iff. apply Qle_bool_iff.
Qed.

Lemma sum_nil : sum [] = 0.
Proof. reflexivity. Qed.

Lemma sum_cons x l : sum (x :: l) == x + sum l.
Proof. change (sum (x :: l)) with (Qred (x + sum l)). apply Qred_correct. Qed.

Lemma sum_app l1 l2 : sum (l1 ++ l2) == sum l1 + sum l2.
Proof.
  induction l1 as [|x l1 IH]; simpl app.
  - rewrite sum_nil. lra.
  - rewrite !sum_cons, IH. lra.
Qed.

Opaque sum.

(** sorting *)
Lemma insert_row_perm x l : Permutation (x :: l) (insert_row x l).
Proof.
  induction l as [|h t IH]; simpl; auto.
  destruct (Qle_bool (income x) (income h)); auto.
  rewrite perm_swap. constructor. exact IH.
Qed.

Lemma sort_values_perm l : Permutation l (sort_values l).
Proof.
  induction l as [|x l IH]; simpl; auto.
  rewrite <- insert_row_perm. constructor. exact IH.
Qed.

Lemma insert_row_sorted x l :
  Sorted by_income l -> Sorted by_income (insert_row x l).
Proof.
  induction 1 as [|h t Hs IH Hh]; simpl.
  - repeat constructor.
  - destruct (Qle_bool (income x) (income h)) eqn:E.
    + apply Qle_bool_iff in E. repeat constructor; auto.
    + constructor; auto.
      assert (Hlt : income h <= income x).
      { destruct (Qlt_le_dec (income x) (income h)) as [H|H]; auto.
        apply Qlt_le_weak in H. apply Qle_bool_iff in H. congruence. }
      destruct t as [|h' t']; simpl.
      * repeat constructor; auto.
      * destruct (Qle_bool (income x) (income h')); constructor; auto.
        inversion Hh; auto.
Qed.

Lemma sort_values_sorted l : Sorted by_income (sort_values l).
Proof.
  induction l; simpl; [constructor | apply insert_row_sorted; auto].
Qed.

Lemma sort_values_length l : length (sort_values l) = length l.
Proof. symmetry. apply Permutation_length, sort_values_perm. Qed.

Lemma sort_values_Forall (P : row -> Prop) l :
  Forall P l -> Forall P (sort_values l).
Proof.
  intro H. eapply Permutation_Forall; [apply sort_values_perm | exact H].
Qed.

(** cumulative sums *)
Lemma cumsum_from_length acc l : length (cumsum_from acc l) = length l.
Proof. revert acc. induction l; simpl; intros; auto. Qed.

Lemma cumsum_from_bounds l : forall acc,
  Forall (fun x => 0 <= x) l ->
  Forall (fun c => acc <= c /\ c <= acc + sum l) (cumsum_from acc l).
Proof.
  induction l as [|x l IH]; intros acc H; simpl; constructor.
  - inversion H; subst. rewrite sum_cons.
    assert (0 <= sum l).
    { clear - H3. induction H3. rewrite sum_nil; lra. rewrite sum_cons. lra. }
    lra.
  - inversion H; subst. specialize (IH (acc + x) H3).
    eapply Forall_impl; [|exact IH]. simpl. intros c [H1 H4].
    rewrite sum_cons. lra.
Qed.

Lemma sum_nonneg l : Forall (fun x => 0 <= x) l -> 0 <= sum l.
Proof. induction 1. rewrite sum_nil; lra. rewrite sum_cons; lra. Qed.

Lemma last_cumsum_from l : forall acc d,
  l <> [] -> last (cumsum_from acc l) d == acc + sum l.
Proof.
  induction l as [|x l IH]; intros acc d Hne; [congruence|].
  destruct l as [|y l].
  - simpl. rewrite sum_cons, sum_nil. lra.
  - change (last (cumsum_from acc (x :: y :: l)) d)
      with (last (cumsum_from (acc + x) (y :: l)) d).
    rewrite IH by discriminate. rewrite (sum_cons x). lra.
Qed.

Lemma term_bound c T w W :
  0 <= c -> c <= T -> 0 < T -> 0 <= w -> 0 < W ->
  0 <= c / T * w / W /\ c / T * w / W <= w / W.
Proof.
  intros Hc HcT HT Hw HW.
  assert (Ha0 : 0 <= c / T) by (apply Qle_shift_div_l; lra).
  assert (Ha1 : c / T <= 1) by (apply Qle_shift_div_r; lra).
  set (a := c / T) in *.
  assert (HiW : 0 < / W) by (apply Qinv_lt_0_compat; auto).
  unfold Qdiv at 1 3. unfold Qdiv.
  split.
  - apply Qmult_le_0_compat; [apply Qmult_le_0_compat|]; lra.
  - apply Qmult_le_compat_r; [|lra]. nra.
Qed.

Lemma gini_terms_cons c cs w ws T W :
  gini_terms (c :: cs) (w :: ws) T W = (c / T * w / W) :: gini_terms cs ws T W.
Proof. reflexivity. Qed.

Lemma gini_terms_bounds T W : 0 < T -> 0 < W -> forall cs ws,
  Forall (fun c => 0 <= c /\ c <= T) cs ->
  Forall (fun w => 0 <= w) ws ->
  0 <= sum (gini_terms cs ws T W) /\
  sum (gini_terms cs ws T W) <= sum ws / W.
Proof.
  intros HT HW. induction cs as [|c cs IH]; intros ws Hcs Hws.
  - unfold gini_terms; simpl. rewrite sum_nil. split; [lra|].
    apply Qle_shift_div_l; auto. pose proof (sum_nonneg Hws). lra.
  - destruct ws as [|w ws].
    + unfold gini_terms; simpl. rewrite !sum_nil. split; [lra|].
      unfold Qdiv. lra.
    + rewrite gini_terms_cons, !sum_cons.
      inversion Hcs; subst. inversion Hws; subst.
      destruct (IH ws H2 H4) as [I1 I2].
      destruct H1 as [Hc0 HcT].
      destruct (term_bound Hc0 HcT HT H3 HW) as [B1 B2].
      split; [lra|].
      assert (E : (w + sum ws) / W == w / W + sum ws / W) by (field; lra).
      rewrite E. lra.
Qed.

Lemma mul_map (f g : row -> Q) l :
  mul (map f l) (map g l) = map (fun r => f r * g r) l.
Proof. induction l; simpl; congruence. Qed.

Lemma sum_perm l1 l2 : Permutation l1 l2 -> sum l1 == sum l2.
Proof.
  induction 1.
  - reflexivity.
  - rewrite !sum_cons, IHPermutation. reflexivity.
  - rewrite !sum_cons. lra.
  - etransitivity; eauto.
Qed.

Lemma gini_in_range (state_df : list row) :
  Forall (fun r => 0 <= income r /\ 0 < weight r) state_df ->
  0 < sum (map (fun r => income r * weight r) state_df) ->
  exists g, gini state_df = Some g /\ -(1) <= g /\ g <= 1.
Proof.
  intros Hall Hpos.
  unfold gini.
  set (sorted := sort_values state_df).
  assert (Hs : Forall (fun r => 0 <= income r /\ 0 < weight r) sorted)
    by (apply sort_values_Forall; auto).
  assert (Hne : sorted <> []).
  { intro E. assert (P := sort_values_perm state_df). fold sorted in P.
    rewrite E in P. apply Permutation_sym, Permutation_nil in P. subst.
    simpl in Hpos. rewrite sum_nil in Hpos. lra. }
  rewrite mul_map.
  set (vw := map (fun r => income r * weight r) sorted).
  set (ws := map weight sorted).
  assert (Hvw : Forall (fun x => 0 <= x) vw).
  { unfold vw. apply Forall_map. eapply Forall_impl; [|exact Hs].
    simpl; intros r [H1 H2]. apply Qmult_le_0_compat; lra. }
  assert (Hws : Forall (fun x => 0 <= x) ws).
  { unfold ws. apply Forall_map. eapply Forall_impl; [|exact Hs].
    simpl; intros r [H1 H2]. lra. }
  assert (HT : last (cumsum vw) 0 == sum vw).
  { unfold cumsum. rewrite last_cumsum_from. lra.
    unfold vw. destruct sorted; [congruence|discriminate]. }
  assert (HW : last (cumsum ws) 0 == sum ws).
  { unfold cumsum. rewrite last_cumsum_from. lra.
    unfold ws. destruct sorted; [congruence|discriminate]. }
  assert (HTpos : 0 < sum vw).
  { pose proof (sum_perm (Permutation_map (fun r => income r * weight r)
                                           (sort_values_perm state_df))) as E.
    fold sorted in E. fold vw in E. lra. }
  assert (HWpos : 0 < sum ws).
  { destruct sorted as [|r rs]; [congruence|].
    unfold ws in *. simpl map in *. rewrite sum_cons.
    apply Forall_inv in Hs. apply Forall_inv_tail in Hws.
    pose proof (sum_nonneg Hws). lra. }
  set (T := last (cumsum vw) 0) in *.
  set (W := last (cumsum ws) 0) in *.
  assert (G1 : Qltb 0 T = true) by (apply Qltb_true; lra).
  assert (G2 : Qltb 0 W = true) by (apply Qltb_true; lra).
  rewrite G1, G2. simpl andb. eexists; split; [reflexivity|].
  assert (Hc : Forall (fun c => 0 <= c /\ c <= T) (cumsum vw)).
  { eapply Forall_impl; [|apply (cumsum_from_bounds 0 Hvw)].
    simpl. intros c [H1 H2]. lra. }
  assert (HT' : 0 < T) by lra. assert (HW' : 0 < W) by lra.
  destruct (gini_terms_bounds HT' HW' Hc Hws) as [B1 B2].
  assert (E : sum ws / W == 1) by (rewrite <- HW; field; lra).
  rewrite E in B2. lra.
Qed.

Lemma mul_cons x a y b : mul (x :: a) (y :: b) = (x * y) :: mul a b.
Proof. reflexivity. Qed.

Lemma gini_terms_equal v T W : ~ T == 0 -> ~ W == 0 -> forall rows a b,
  Forall (fun r => income r == v) rows -> b == v * a ->
  sum (gini_terms (cumsum_from b (map (fun r => income r * weight r) rows))
                  (map weight rows) T W) * (T * W)
  == v * sum (mul (cumsum_from a (map weight rows)) (map weight rows)).
Proof.
  intros HT HW. induction rows as [|r rs IH]; intros a b Hall Hb.
  - simpl. unfold gini_terms. simpl. rewrite !sum_nil. ring.
  - simpl map. simpl cumsum_from. rewrite gini_terms_cons, mul_cons, !sum_cons.
    pose proof (Forall_inv Hall) as Hr. simpl in Hr.
    assert (Hb' : b + income r * weight r == v * (a + weight r)).
    { rewrite Hb, Hr. ring. }
    specialize (IH (a + weight r) (b + income r * weight r)
                   (Forall_inv_tail Hall) Hb').
    rewrite Qmult_plus_distr_l, IH.
    rewrite Qmult_plus_distr_r.
    apply Qplus_inj_r.
    rewrite Hb'. field. split; auto.
Qed.

Lemma cumsum_closed_form ws : forall a,
  2 * sum (mul (cumsum_from a ws) ws)
  == (a + sum ws) * (a + sum ws) - a * a + sum (map (fun w => w * w) ws).
Proof.
  induction ws as [|w ws IH]; intro a.
  - simpl. rewrite !sum_nil. ring.
  - simpl cumsum_from. simpl map. rewrite mul_cons, !sum_cons.
    rewrite Qmult_plus_distr_r, IH. ring.
Qed.

Lemma sum_scaled v rows :
  Forall (fun r => income r == v) rows ->
  sum (map (fun r => income r * weight r) rows) == v * sum (map weight rows).
Proof.
  induction 1 as [|r rs Hr _ IH]; simpl map.
  - rewrite !sum_nil. ring.
  - rewrite !sum_cons, IH. simpl in Hr. rewrite Hr. ring.
Qed.

Lemma sum_squares_pos ws :
  ws <> [] -> Forall (fun w => 0 < w) ws -> 0 < sum (map (fun w => w * w) ws).
Proof.
  intros Hne H. destruct H as [|w ws Hw Hws]; [congruence|].
  simpl map. rewrite sum_cons.
  assert (0 <= sum (map (fun w => w * w) ws)).
  { apply sum_nonneg. apply Forall_map. eapply Forall_impl; [|exact Hws].
    simpl. intros. nra. }
  nra.
Qed.

Lemma sum_pos ws :
  ws <> [] -> Forall (fun w => 0 < w) ws -> 0 < sum ws.
Proof.
  intros Hne H. destruct H as [|w ws Hw Hws]; [congruence|].
  rewrite sum_cons.
  assert (0 <= sum ws).
  { apply sum_nonneg. eapply Forall_impl; [|exact Hws]. simpl. intros. lra. }
  lra.
Qed.

Lemma gini_equal_incomes (state_df : list row) (v : Q) :
  0 < v -> state_df <> [] ->
  Forall (fun r => income r == v /\ 0 < weight r) state_df ->
  exists g, gini state_df = Some g /\
    g == - (sum (map (fun r => weight r * weight r) state_df)
            / (sum (map weight state_df) * sum (map weight state_df))) /\
    g < 0.
Proof.
  intros Hv Hne Hall.
  assert (Hperm := sort_values_perm state_df).
  unfold gini. set (sorted := sort_values state_df) in *.
  assert (Hs : Forall (fun r => income r == v /\ 0 < weight r) sorted)
    by (eapply Permutation_Forall; eauto).
  assert (Hsne : sorted <> []).
  { intro E. rewrite E in Hperm. apply Permutation_sym, Permutation_nil in Hperm.
    congruence. }
  assert (Hinc : Forall (fun r => income r == v) sorted)
    by (eapply Forall_impl; [|exact Hs]; simpl; tauto).
  assert (Hwpos : Forall (fun w => 0 < w) (map weight sorted)).
  { apply Forall_map. eapply Forall_impl; [|exact Hs]; simpl; tauto. }
  assert (Hmne : map weight sorted <> []) by (destruct sorted; [congruence|discriminate]).
  rewrite mul_map.
  set (vw := map (fun r => income r * weight r) sorted).
  set (ws := map weight sorted) in *.
  assert (HT : last (cumsum vw) 0 == v * sum ws).
  { unfold cumsum. rewrite last_cumsum_from.
    - unfold vw. rewrite (sum_scaled Hinc). fold ws. ring.
    - unfold vw. destruct sorted; [congruence|discriminate]. }
  assert (HW : last (cumsum ws) 0 == sum ws).
  { unfold cumsum. rewrite last_cumsum_from by auto. ring. }
  pose proof (sum_pos Hmne Hwpos) as HWpos.
  pose proof (sum_squares_pos Hmne Hwpos) as HQpos.
  set (T := last (cumsum vw) 0) in *.
  set (W := last (cumsum ws) 0) in *.
  assert (HTpos : 0 < T) by (rewrite HT; nra).
  assert (G1 : Qltb 0 T = true) by (apply Qltb_true; lra).
  assert (G2 : Qltb 0 W = true) by (apply Qltb_true; lra).
  rewrite G1, G2. simpl andb. eexists; split; [reflexivity|].
  assert (HTne : ~ T == 0) by lra. assert (HWne : ~ W == 0) by lra.
  assert (Hb0 : 0 == v * 0) by ring.
  pose proof (gini_terms_equal HTne HWne Hinc Hb0) as E1.
  fold vw ws in E1. change (cumsum_from 0 vw) with (cumsum vw) in E1.
  pose proof (cumsum_closed_form ws 0) as E2.
  set (S := sum (gini_terms (cumsum vw) ws T W)) in *.
  set (P := sum (mul (cumsum_from 0 ws) ws)) in *.
  set (Sq := sum (map (fun w => w * w) ws)) in *.
  assert (EW : sum (map weight state_df) == sum ws)
    by (apply sum_perm, Permutation_map; auto).
  assert (ESq : sum (map (fun r => weight r * weight r) state_df) == Sq).
  { unfold Sq, ws. rewrite map_map. apply sum_perm, Permutation_map; auto. }
  rewrite EW, ESq.
  set (Ws := sum ws) in *.
  assert (ES : S == P / (Ws * Ws)).
  { apply Qmult_inj_r with (z := T * W); [nra|].
    rewrite E1, HT, HW. field. lra. }
  assert (Eg : 1 - 2 * S == - (Sq / (Ws * Ws))).
  { rewrite ES.
    assert (E3 : 2 * P == Ws * Ws + Sq) by (rewrite E2; ring).
    transitivity (1 - (2 * P) / (Ws * Ws)); [field; lra|].
    rewrite E3. field. lra. }
  split; [exact Eg|].
  rewrite Eg.
  assert (0 < Sq / (Ws * Ws)).
  { apply Qlt_shift_div_l; nra. }
  lra.
Qed.

(** ranking *)
Lemma cumsum_from_pos l : forall acc,
  Forall (fun x => 0 < x) l ->
  Forall (fun c => acc < c /\ c <= acc + sum l) (cumsum_from acc l).
Proof.
  induction l as [|x l IH]; intros acc H; simpl; constructor.
  - pose proof (Forall_inv H) as Hx. simpl in Hx.
    assert (0 <= sum l).
    { apply sum_nonneg. eapply Forall_impl; [|exact (Forall_inv_tail H)].
      simpl; intros; lra. }
    rewrite sum_cons. lra.
  - pose proof (Forall_inv H) as Hx. simpl in Hx.
    specialize (IH (acc + x) (Forall_inv_tail H)).
    eapply Forall_impl; [|exact IH]. simpl. intros c [H1 H4].
    rewrite sum_cons. lra.
Qed.

Lemma pd_cut_some x : 0 < x -> x <= 1 -> exists q, pd_cut x = Some q.
Proof.
  intros H0 H1. unfold pd_cut.
  assert (E0 : Qeq_bool x 0 = false).
  { destruct (Qeq_bool x 0) eqn:E; auto. apply Qeq_bool_iff in E. lra. }
  rewrite E0. unfold searchsorted_left, bins. simpl filter.
  assert (B0 : Qltb 0 x = true) by (apply Qltb_true; auto).
  assert (B5 : Qltb 1 x = false) by (apply Qltb_false; auto).
  rewrite B0, B5.
  destruct (Qltb (2 # 10) x), (Qltb (4 # 10) x), (Qltb (6 # 10) x),
    (Qltb (8 # 10) x); simpl; eauto.
Qed.

Lemma positive_weight_Forall df :
  Forall (fun r => 0 < weight r) (positive_weight df).
Proof.
  unfold positive_weight. apply Forall_forall. intros r Hr.
  apply filter_In in Hr. destruct Hr as [_ Hr]. apply Qltb_true in Hr. exact Hr.
Qed.

Lemma combine_map_fst (A B : Type) (l : list A) (l' : list B) :
  length l = length l' -> map fst (combine l l') = l.
Proof.
  revert l'. induction l; destruct l'; simpl; intros; try congruence.
  f_equal. auto.
Qed.

Lemma rank_rows_rows df :
  map (fun r => (r_income r, r_weight r)) (rank_rows df)
  = sort_values (positive_weight df).
Proof.
  unfold rank_rows.
  set (valid := sort_values (positive_weight df)).
  rewrite map_map. simpl.
  transitivity (map fst (combine valid (cumsum (map weight valid)))).
  - apply map_ext. intros [[i w] c]. reflexivity.
  - apply combine_map_fst.
    unfold cumsum. rewrite cumsum_from_length, length_map. reflexivity.
Qed.

Lemma rank_rows_pct df :
  Forall (fun r => 0 < cum_pct r /\ cum_pct r <= 1) (rank_rows df).
Proof.
  unfold rank_rows.
  set (valid := sort_values (positive_weight df)).
  assert (Hw : Forall (fun w => 0 < w) (map weight valid)).
  { apply Forall_map. apply sort_values_Forall, positive_weight_Forall. }
  pose proof (cumsum_from_pos 0 Hw) as Hc. fold (cumsum (map weight valid)) in Hc.
  set (cum := cumsum (map weight valid)) in *.
  set (W := sum (map weight valid)) in *.
  apply Forall_map. apply Forall_forall. intros [r c] Hin. simpl.
  apply in_combine_r in Hin.
  rewrite Forall_forall in Hc. destruct (Hc c Hin) as [H1 H2].
  assert (HW : 0 < W) by lra.
  split.
  - apply Qlt_shift_div_l; lra.
  - apply Qle_shift_div_r; lra.
Qed.

Lemma rank_rows_quintile df :
  Forall (fun r => r_quintile r = pd_cut (cum_pct r)) (rank_rows df).
Proof.
  unfold rank_rows. apply Forall_map. apply Forall_forall. intros x _.
  reflexivity.
Qed.

Lemma rank_rows_assigned df :
  Forall (fun r => exists q, r_quintile r = Some q) (rank_rows df).
Proof.
  pose proof (rank_rows_pct df) as H1. pose proof (rank_rows_quintile df) as H2.
  rewrite Forall_forall in *. intros r Hr.
  rewrite (H2 r Hr). destruct (H1 r Hr). apply pd_cut_some; auto.
Qed.

Lemma filter_true (A : Type) (l : list A) : filter (fun _ => true) l = l.
Proof. induction l; simpl; congruence. Qed.

Lemma filter_cons_if (A : Type) (p : A -> bool) (r : A) (l : list A) :
  filter p (r :: l) = if p r then r :: filter p l else filter p l.
Proof. reflexivity. Qed.

Lemma quintile_partition (f : ranked -> Q) l :
  Forall (fun r => exists q, r_quintile r = Some q) l ->
  sum (map f (filter (in_quintile Q1) l))
  + sum (map f (filter (in_quintile Q2) l))
  + sum (map f (filter (in_quintile Q3) l))
  + sum (map f (filter (in_quintile Q4) l))
  + sum (map f (filter (in_quintile Q5) l))
  == sum (map f l).
Proof.
  induction 1 as [|r l [q Hq] _ IH].
  - simpl. rewrite !sum_nil. ring.
  - assert (E : forall q', in_quintile q' r = quintile_eqb q' q)
      by (intro q'; unfold in_quintile; rewrite Hq; reflexivity).
    rewrite !filter_cons_if, !E.
    destruct q; simpl quintile_eqb; cbv iota; rewrite !map_cons, !sum_cons, <- IH;
      ring.
Qed.

Lemma quintile_shares_sum valid :
  Forall (fun r => exists q, r_quintile r = Some q) valid ->
  ~ group_total (fun _ => true) valid == 0 ->
  sum (map (quintile_share valid) categories) == 100.
Proof.
  intros Hq HT. unfold categories. simpl map. rewrite !sum_cons, sum_nil.
  unfold quintile_share.
  pose proof (quintile_partition (fun r => r_income r * r_weight r) Hq) as P.
  unfold group_total in *. rewrite filter_true in *.
  set (T := sum (map (fun r => r_income r * r_weight r) valid)) in *.
  set (g1 := sum (map _ (filter (in_quintile Q1) valid))) in *.
  set (g2 := sum (map _ (filter (in_quintile Q2) valid))) in *.
  set (g3 := sum (map _ (filter (in_quintile Q3) valid))) in *.
  set (g4 := sum (map _ (filter (in_quintile Q4) valid))) in *.
  set (g5 := sum (map _ (filter (in_quintile Q5) valid))) in *.
  transitivity ((g1 + g2 + g3 + g4 + g5) / T * 100); [field; auto|].
  rewrite P. field; auto.
Qed.

Lemma Qltb_spec a b : {Qltb a b = true /\ a < b} + {Qltb a b = false /\ b <= a}.
Proof.
  destruct (Qltb a b) eqn:E; [left|right]; split; auto.
  - apply Qltb_true; auto.
  - apply Qltb_false; auto.
Qed.

Lemma pd_cut_interval x q :
  0 < x -> x <= 1 ->
  (pd_cut x = Some q <-> lower_edge q < x /\ x <= upper_edge q).
Proof.
  intros H0 H1. unfold pd_cut.
  assert (E0 : Qeq_bool x 0 = false).
  { destruct (Qeq_bool x 0) eqn:E; auto. apply Qeq_bool_iff in E. lra. }
  rewrite E0. unfold searchsorted_left, bins. simpl filter.
  assert (B0 : Qltb 0 x = true) by (apply Qltb_true; auto).
  assert (B5 : Qltb 1 x = false) by (apply Qltb_false; auto).
  rewrite B0, B5.
  destruct (Qltb_spec (2 # 10) x) as [[E1 I1]|[E1 I1]];
  destruct (Qltb_spec (4 # 10) x) as [[E2 I2]|[E2 I2]];
  destruct (Qltb_spec (6 # 10) x) as [[E3 I3]|[E3 I3]];
  destruct (Qltb_spec (8 # 10) x) as [[E4 I4]|[E4 I4]];
  rewrite E1, E2, E3, E4; simpl length;
  try (exfalso; lra);
  destruct q; simpl lower_edge; simpl upper_edge;
  (split; [intro H; try discriminate H; split; lra
          | intros [Ha Hb]; try reflexivity; exfalso; lra]).
Qed.

(** order invariance *)
Lemma by_income_trans : Relation_Definitions.transitive _ by_income.
Proof. intros a b c. unfold by_income. intros; lra. Qed.

Lemma sorted_head_min h t :
  Sorted by_income (h :: t) -> forall x, In x (h :: t) -> income h <= income x.
Proof.
  intros Hs x Hx. apply Sorted_StronglySorted in Hs; [|exact by_income_trans].
  inversion Hs as [|? ? _ Hall]; subst.
  destruct Hx as [->|Hx]; [lra|].
  rewrite Forall_forall in Hall. apply Hall; auto.
Qed.

Lemma sorted_perm_eq l1 : forall l2,
  Sorted by_income l1 -> Sorted by_income l2 -> Permutation l1 l2 ->
  (forall a b, In a l1 -> In b l1 -> income a == income b -> a = b) ->
  l1 = l2.
Proof.
  induction l1 as [|h1 t1 IH]; intros l2 S1 S2 P Hties.
  - apply Permutation_nil in P. auto.
  - destruct l2 as [|h2 t2].
    + apply Permutation_sym, Permutation_nil in P. discriminate.
    + assert (In h2 (h1 :: t1))
        by (eapply Permutation_in; [apply Permutation_sym; exact P | left; auto]).
      assert (In h1 (h2 :: t2))
        by (eapply Permutation_in; [exact P | left; auto]).
      pose proof (@sorted_head_min _ _ S1 h2 H) as M1.
      pose proof (@sorted_head_min _ _ S2 h1 H0) as M2.
      assert (E : h1 = h2).
      { apply Hties; [left; auto | auto | lra]. }
      subst h2. f_equal.
      apply IH.
      * inversion S1; auto.
      * inversion S2; auto.
      * eapply Permutation_cons_inv; eauto.
      * intros a b Ha Hb. apply Hties; right; auto.
Qed.

Lemma filter_perm (A : Type) (p : A -> bool) l1 l2 :
  Permutation l1 l2 -> Permutation (filter p l1) (filter p l2).
Proof.
  induction 1; simpl.
  - constructor.
  - destruct (p x); auto.
  - destruct (p x), (p y); auto. constructor.
  - etransitivity; eauto.
Qed.

Lemma sort_values_order_free df df' :
  Permutation df df' ->
  (forall a b, In a df -> In b df -> 0 < weight a -> 0 < weight b ->
               income a == income b -> a = b) ->
  sort_values (positive_weight df) = sort_values (positive_weight df').
Proof.
  intros P Hties.
  apply sorted_perm_eq; try apply sort_values_sorted.
  - rewrite <- !sort_values_perm. apply filter_perm. exact P.
  - intros a b Ha Hb.
    assert (Ia : In a (positive_weight df))
      by (eapply Permutation_in; [apply Permutation_sym, sort_values_perm|auto]).
    assert (Ib : In b (positive_weight df))
      by (eapply Permutation_in; [apply Permutation_sym, sort_values_perm|auto]).
    unfold positive_weight in Ia, Ib.
    apply filter_In in Ia. apply filter_In in Ib.
    destruct Ia as [Ia Wa], Ib as [Ib Wb].
    apply Qltb_true in Wa. apply Qltb_true in Wb.
    apply Hties; auto.
Qed.

Lemma rank_rows_order_free df df' :
  Permutation df df' ->
  (forall a b, In a df -> In b df -> 0 < weight a -> 0 < weight b ->
               income a == income b -> a = b) ->
  rank_rows df = rank_rows df'.
Proof.
  intros P H. unfold rank_rows. rewrite (sort_values_order_free P H). reflexivity.
Qed.

(** the same block inside the bootstrap, and the three income groups *)
Lemma gini_terms_sum_proper cs : forall ws T T' W W',
  T == T' -> W == W' ->
  sum (gini_terms cs ws T W) == sum (gini_terms cs ws T' W').
Proof.
  induction cs as [|c cs IH]; intros ws T T' W W' HT HW.
  - reflexivity.
  - destruct ws as [|w ws]; [reflexivity|].
    rewrite !gini_terms_cons, !sum_cons, (IH ws T T' W W' HT HW), HT, HW.
    reflexivity.
Qed.

Lemma combine_columns (l : list row) :
  combine (map income l) (map weight l) = l.
Proof.
  induction l as [|[i w] l IH]; simpl; [reflexivity|]. rewrite IH. reflexivity.
Qed.

Lemma bootstrap_gini_agrees (df : list row) (g : Q) :
  df <> [] -> gini df = Some g ->
  s_gini_approx (replicate_stats (map income df) (map weight df)) == g.
Proof.
  intros Hne Hg. unfold replicate_stats. cbn [s_gini_approx].
  rewrite combine_columns. unfold gini in Hg.
  set (sorted := sort_values df) in *.
  set (inc_s := map income sorted) in *. set (w_s := map weight sorted) in *.
  set (W := last (cumsum w_s) 0) in *.
  assert (HT : last (cumsum (mul inc_s w_s)) 0 == sum (mul inc_s w_s)).
  { unfold cumsum. rewrite last_cumsum_from; [lra|].
    unfold inc_s, w_s. rewrite mul_map.
    assert (L : length sorted = length df) by apply sort_values_length.
    destruct sorted; [destruct df; [congruence|discriminate]|discriminate]. }
  set (T := last (cumsum (mul inc_s w_s)) 0) in *.
  set (T' := sum (mul inc_s w_s)) in *.
  destruct (Qltb 0 T && Qltb 0 W) eqn:G; [|discriminate].
  inversion Hg; subst g. apply andb_prop in G. destruct G as [G1 G2].
  assert (G1' : Qltb 0 T' = true).
  { apply Qltb_true. apply Qltb_true in G1. lra. }
  rewrite G1', G2. cbn [andb].
  rewrite (gini_terms_sum_proper (cumsum (mul inc_s w_s)) w_s HT (Qeq_refl W)).
  reflexivity.
Qed.

Lemma share_partition (f : ranked -> Q) l :
  sum (map f (filter (fun r => Qle_bool (cum_pct r) (50 # 100)) l))
  + sum (map f (filter (fun r => Qltb (50 # 100) (cum_pct r)
                                 && Qle_bool (cum_pct r) (90 # 100)) l))
  + sum (map f (filter (fun r => Qltb (90 # 100) (cum_pct r)) l))
  == sum (map f l).
Proof.
  induction l as [|r l IH].
  - simpl. rewrite !sum_nil. ring.
  - rewrite !filter_cons_if.
    destruct (Qltb_spec (50 # 100) (cum_pct r)) as [[E1 I1]|[E1 I1]];
    destruct (Qltb_spec (90 # 100) (cum_pct r)) as [[E2 I2]|[E2 I2]];
    rewrite E1, E2; try (exfalso; lra).
    + assert (B : Qle_bool (cum_pct r) (50 # 100) = false).
      { destruct (Qle_bool (cum_pct r) (50 # 100)) eqn:B; auto.
        apply Qle_bool_iff in B. lra. }
      assert (C : Qle_bool (cum_pct r) (90 # 100) = false).
      { destruct (Qle_bool (cum_pct r) (90 # 100)) eqn:C; auto.
        apply Qle_bool_iff in C. lra. }
      rewrite B, C. cbn [andb]. rewrite !map_cons, !sum_cons, <- IH. ring.
    + assert (B : Qle_bool (cum_pct r) (50 # 100) = false).
      { destruct (Qle_bool (cum_pct r) (50 # 100)) eqn:B; auto.
        apply Qle_bool_iff in B. lra. }
      assert (C : Qle_bool (cum_pct r) (90 # 100) = true)
        by (apply Qle_bool_iff; exact I2).
      rewrite B, C. cbn [andb]. rewrite !map_cons, !sum_cons, <- IH. ring.
    + assert (B : Qle_bool (cum_pct r) (50 # 100) = true)
        by (apply Qle_bool_iff; exact I1).
      rewrite B. cbn [andb]. rewrite !map_cons, !sum_cons, <- IH. ring.
Qed.

Lemma income_shares_sum df sh :
  compute_income_shares df = Some sh ->
  bottom_50_share sh + middle_40_share sh + top_10_share sh == 100.
Proof.
  unfold compute_income_shares. set (valid := rank_rows df).
  destruct (Qle_bool (group_total (fun _ => true) valid) 0) eqn:G; [discriminate|].
  intro E. inversion E; subst sh. cbn [bottom_50_share middle_40_share top_10_share].
  assert (HT : 0 < group_total (fun _ => true) valid).
  { destruct (Qlt_le_dec 0 (group_total (fun _ => true) valid)) as [H|H]; auto.
    apply Qle_bool_iff in H. congruence. }
  pose proof (share_partition (fun r => r_income r * r_weight r) valid) as P.
  unfold group_total in *. rewrite filter_true in *.
  set (T := sum (map (fun r => r_income r * r_weight r) valid)) in *.
  set (g1 := sum (map _ (filter _ valid))) in *.
  set (g2 := sum (map _ (filter (fun r => Qltb (50 # 100) (cum_pct r) && _) valid))) in *.
  set (g3 := sum (map _ (filter (fun r => Qltb (90 # 100) (cum_pct r)) valid))) in *.
  transitivity ((g1 + g2 + g3) / T * 100); [field; lra|].
  rewrite P. field. lra.
Qed.

(** *** The approximate Gini coefficient *)

(** C2.  The code at fifty persons with equal incomes and equal weights,
    a sample [compute_state_level_stats] accepts (it skips a state only
    below fifty records): the reported Gini coefficient is [-1/50], and
    the bootstrap's statistic on the same rows is the same number.  It
    is negative, so it is neither the 0 of equal incomes nor inside
    [[0, 1]], the range the repository's own test of the same formula
    asserts. *)
Lemma gini_negative_on_equal_incomes :
  Forall (fun r => 0 <= income r /\ 0 < weight r) equal_incomes /\
  Forall (fun r => income r == 1) equal_incomes /\
  (exists st g, compute_state_level_stats equal_incomes = Some st /\
                state_gini st = Some g /\ g == - 1 # 50 /\ g < 0) /\
  s_gini_approx (replicate_stats (map income equal_incomes)
                                 (map weight equal_incomes)) == - 1 # 50.
Proof.
  split; [|split; [|split]].
  - unfold equal_incomes. apply Forall_forall. intros r Hr.
    apply repeat_spec in Hr. subst. simpl. lra.
  - unfold equal_incomes. apply Forall_forall. intros r Hr.
    apply repeat_spec in Hr. subst. reflexivity.
  - do 2 eexists. split; [vm_compute; reflexivity|].
    split; [reflexivity|]. split; reflexivity.
  - vm_compute. reflexivity.
Qed.

(** *** Order of the observations *)

(** C8 (as amended).  When no two distinct observations of positive
    weight tie in income, supplying the observations in another order
    changes nothing: the ranked frame, the quintile table and the income
    shares are the same. *)
Theorem ranking_order_invariance (df df' : list row) :
  Permutation df df' ->
  (forall a b, In a df -> In b df -> 0 < weight a -> 0 < weight b ->
               income a == income b -> a = b) ->
  rank_rows df = rank_rows df' /\
  compute_quintile_stats df = compute_quintile_stats df' /\
  compute_income_shares df = compute_income_shares df'.
Proof.
  intros P H. pose proof (rank_rows_order_free P H) as E.
  split; [exact E|]. split.
  - unfold compute_quintile_stats. rewrite E. reflexivity.
  - unfold compute_income_shares. rewrite E. reflexivity.
Qed.

Lemma distinct_orders_permutation : Permutation distinct_first distinct_second.
Proof.
  unfold distinct_first, distinct_second.
  apply NoDup_Permutation.
  - repeat constructor; simpl; intuition discriminate.
  - repeat constructor; simpl; intuition discriminate.
  - intro x. simpl. intuition.
Qed.

Lemma ranking_order_invariance_witness :
  compute_quintile_stats distinct_first = compute_quintile_stats distinct_second.
Proof.
  apply (ranking_order_invariance distinct_orders_permutation).
  intros a b Ha Hb _ _. simpl in Ha, Hb.
  repeat match goal with
         | H : _ \/ _ |- _ => destruct H as [H|H]
         | H : False |- _ => contradiction
         end; subst; simpl; intro E; try reflexivity;
    exfalso; revert E; vm_compute; discriminate.
Defined.

(** C8, counterexample.  Two persons with the same income and different
    weights, supplied in the two possible orders: both runs return, and
    the bottom quintile gets 3 weighted persons and 100/47 percent of
    income in one order, 2 weighted persons and none of the income in the
    other. *)
Lemma tie_order_changes_shares :
  Permutation ties_first ties_second /\
  (exists t1 v1 t2 v2,
      compute_quintile_stats ties_first = Ok (t1, v1) /\
      compute_quintile_stats ties_second = Ok (t2, v2) /\
      map weighted_persons t1 <> map weighted_persons t2) /\
  quintile_share (rank_rows ties_first) Q1 == 100 # 47 /\
  quintile_share (rank_rows ties_second) Q1 == 0.
Proof.
  split; [|split; [|split]].
  - unfold ties_first, ties_second. constructor. apply perm_swap.
  - do 4 eexists. split; [vm_compute; reflexivity|].
    split; [vm_compute; reflexivity|]. discriminate.
  - vm_compute. reflexivity.
  - vm_compute. reflexivity.
Qed.
Transparent sum.

End DistributionalFacts.

(** ** B. Structural-break test *)

Section StructuralBreakFacts.
Import Ieee StructuralBreak Examples.
Local Open Scope R_scope.

Lemma Rltb_true a b : a < b -> Rltb a b = true.
Proof. intro H. unfold Rltb. destruct (Rlt_dec a b); [reflexivity|contradiction]. Qed.

Lemma Rltb_false a b : b <= a -> Rltb a b = false.
Proof. intro H. unfold Rltb. destruct (Rlt_dec a b); [lra|reflexivity]. Qed.

Lemma Reqb_true a b : a = b -> Reqb a b = true.
Proof. intro H. unfold Reqb. destruct (Req_dec_T a b); [reflexivity|contradiction]. Qed.

Lemma Reqb_false a b : a <> b -> Reqb a b = false.
Proof. intro H. unfold Reqb. destruct (Req_dec_T a b); [contradiction|reflexivity]. Qed.

Lemma fsum_fin l : fsum (map Fin l) = Fin (Rsum l).
Proof. induction l; simpl; auto. rewrite IHl. reflexivity. Qed.

Lemma fdiv_fin a b : b <> 0 -> fdiv (Fin a) (Fin b) = Fin (a / b).
Proof. intro H. simpl. rewrite (Reqb_false H). reflexivity. Qed.

Lemma INR_pos n : (0 < n)%nat -> 0 < INR n.
Proof. intro H. apply lt_0_INR. exact H. Qed.

Lemma fmean_fin l : l <> [] -> fmean (map Fin l) = Fin (Rmean l).
Proof.
  intro H. unfold fmean, Rmean. rewrite fsum_fin, length_map.
  apply fdiv_fin. apply Rgt_not_eq. apply INR_pos. destruct l; [congruence|simpl; lia].
Qed.

Lemma Rsum_sq_nonneg (f : R -> R) l : 0 <= Rsum (map (fun v => f v * f v) l).
Proof. induction l; simpl; [lra|]. nra. Qed.

Lemma Rsum_sq_zero (f : R -> R) l :
  Rsum (map (fun v => f v * f v) l) = 0 -> Forall (fun v => f v = 0) l.
Proof.
  induction l; simpl; intro H; constructor.
  - pose proof (Rsum_sq_nonneg f l). nra.
  - apply IHl. pose proof (Rsum_sq_nonneg f l). nra.
Qed.

Lemma amax_const c l : l <> [] -> Forall (fun v => v = c) l -> amax l = c.
Proof.
  intros Hne H. unfold amax. destruct l as [|h t]; [congruence|].
  simpl hd. pose proof (Forall_inv H) as Hh. simpl in Hh. subst h.
  clear Hne. induction H; simpl.
  - reflexivity.
  - subst. rewrite IHForall. apply Rmax_left. lra.
Qed.

Lemma amin_const c l : l <> [] -> Forall (fun v => v = c) l -> amin l = c.
Proof.
  intros Hne H. unfold amin. destruct l as [|h t]; [congruence|].
  simpl hd. pose proof (Forall_inv H) as Hh. simpl in Hh. subst h.
  clear Hne. induction H; simpl.
  - reflexivity.
  - subst. rewrite IHForall. apply Rmin_left. lra.
Qed.

Lemma ss_x_pos X : X <> [] -> amax X <> amin X -> 0 < ss_x X.
Proof.
  intros Hne Hd. unfold ss_x.
  pose proof (Rsum_sq_nonneg (fun v => v - Rmean X) X) as H0.
  destruct (Req_dec_T (Rsum (map (fun v => (v - Rmean X) * (v - Rmean X)) X)) 0)
    as [E|E]; [|lra].
  exfalso. apply Hd.
  apply (Rsum_sq_zero (fun v => v - Rmean X)) in E.
  assert (A : Forall (fun v => v = Rmean X) X)
    by (eapply Forall_impl; [|exact E]; simpl; intros; lra).
  rewrite (amax_const Hne A), (amin_const Hne A). reflexivity.
Qed.

Lemma linregress_regular X y :
  X <> [] -> y <> [] -> amax X <> amin X ->
  linregress X y = Ok (Fin (slope_R X y), Fin (intercept_R X y)).
Proof.
  intros HX Hy Hd. unfold linregress.
  assert (E1 : (length X =? 0)%nat = false)
    by (destruct X; [congruence|reflexivity]).
  assert (E2 : (length y =? 0)%nat = false)
    by (destruct y; [congruence|reflexivity]).
  rewrite E1, E2, (Reqb_false Hd). cbn [orb andb].
  pose proof (ss_x_pos HX Hd) as Hss. unfold ss_x in Hss.
  assert (Hn : 0 < INR (length X))
    by (apply INR_pos; destruct X; [congruence|simpl; lia]).
  rewrite fdiv_fin.
  - reflexivity.
  - unfold Rmean at 1. rewrite length_map.
    apply Rgt_not_eq. apply Rdiv_lt_0_compat; lra.
Qed.

Lemma trend_fin a b X :
  trend (Fin a) (Fin b) X = map Fin (map (fun v => a * v + b) X).
Proof. unfold trend. rewrite map_map. reflexivity. Qed.

Lemma combine_map_r (A B C : Type) (f : B -> C) (l : list A) (l' : list B) :
  combine l (map f l') = map (fun p => (fst p, f (snd p))) (combine l l').
Proof.
  revert l'. induction l; destruct l'; simpl; auto. f_equal. auto.
Qed.

Lemma np_std_fin l :
  (2 < length l)%nat -> np_std 2 (map Fin l) = Fin (std2_R l).
Proof.
  intro Hn. unfold np_std.
  assert (Hne : l <> []) by (destruct l; [simpl in Hn; lia|discriminate]).
  rewrite (fmean_fin Hne), !map_map. cbn [fsub fneg fadd fmul].
  rewrite <- (map_map (fun v => (v + - Rmean l) * (v + - Rmean l)) Fin).
  rewrite fsum_fin, length_map.
  assert (Hd : 0 < INR (length l - 2)) by (apply INR_pos; lia).
  rewrite fdiv_fin by lra.
  unfold fsqrt, std2_R.
  assert (E : map (fun v => (v + - Rmean l) * (v + - Rmean l)) l
              = map (fun v => (v - Rmean l) * (v - Rmean l)) l)
    by (apply map_ext; intros; reflexivity).
  rewrite E.
  rewrite Rltb_false; [reflexivity|].
  apply Rmult_le_pos; [apply (Rsum_sq_nonneg (fun v => v - Rmean l))|].
  apply Rlt_le, Rinv_0_lt_compat; exact Hd.
Qed.

Lemma se_resid_unfold a b X y :
  se_resid_of (Fin a) (Fin b) X y = np_std 2 (map Fin (resid_R a b X y)).
Proof.
  unfold se_resid_of, resid_R. rewrite trend_fin, combine_map_r, map_map.
  cbn [fst snd fsub fneg fadd].
  rewrite combine_map_r, !map_map. cbn [fst snd]. reflexivity.
Qed.

Lemma resid_R_length a b X y :
  length X = length y -> length (resid_R a b X y) = length X.
Proof.
  intro HL. unfold resid_R. rewrite length_map, length_combine. lia.
Qed.

Lemma se_resid_fin a b X y :
  (2 < length X)%nat -> length X = length y ->
  se_resid_of (Fin a) (Fin b) X y = Fin (std2_R (resid_R a b X y)).
Proof.
  intros Hn HL. rewrite se_resid_unfold. apply np_std_fin.
  rewrite resid_R_length; auto.
Qed.

Lemma inflation_gt_1 X x_new : X <> [] -> 0 < ss_x X -> 1 < inflation X x_new.
Proof.
  intros HX Hss. unfold inflation.
  assert (Hn : 0 < INR (length X))
    by (apply INR_pos; destruct X; [congruence|simpl; lia]).
  assert (0 < 1 / INR (length X)) by (apply Rdiv_lt_0_compat; lra).
  assert (0 <= (x_new - Rmean X) * (x_new - Rmean X) / ss_x X).
  { apply Rmult_le_pos.
    - apply (Rle_0_sqr (x_new - Rmean X)).
    - apply Rlt_le, Rinv_0_lt_compat; auto. }
  lra.
Qed.

Lemma se_pred_fin s X x_new :
  X <> [] -> 0 < ss_x X ->
  se_pred_of (Fin s) X x_new = Fin (s * sqrt (inflation X x_new)).
Proof.
  intros HX Hss. unfold se_pred_of. fold (ss_x X).
  rewrite fdiv_fin by lra. cbn [fadd].
  pose proof (inflation_gt_1 x_new HX Hss) as Hinf.
  fold (inflation X x_new). unfold fsqrt. rewrite Rltb_false by lra.
  reflexivity.
Qed.

Lemma sqrt_gt_1 t : 1 < t -> 1 < sqrt t.
Proof.
  intro H. rewrite <- sqrt_1 at 1. apply sqrt_lt_1; lra.
Qed.

Lemma std2_R_nonneg l : 0 <= std2_R l.
Proof. unfold std2_R. apply sqrt_pos. Qed.

Lemma se_pred_general sr X x_new :
  X <> [] -> 0 < ss_x X ->
  se_pred_of sr X x_new = fmul sr (Fin (sqrt (inflation X x_new))).
Proof.
  intros HX Hss. unfold se_pred_of. fold (ss_x X).
  rewrite fdiv_fin by lra. cbn [fadd].
  pose proof (inflation_gt_1 x_new HX Hss) as Hinf.
  fold (inflation X x_new). unfold fsqrt. rewrite Rltb_false by lra.
  reflexivity.
Qed.

Lemma np_std_no_dof l :
  l <> [] -> (length l <= 2)%nat ->
  np_std 2 (map Fin l) = NaN \/ np_std 2 (map Fin l) = PInf.
Proof.
  intros Hne Hn. unfold np_std.
  rewrite (fmean_fin Hne), !map_map. cbn [fsub fneg fadd fmul].
  rewrite <- (map_map (fun v => (v + - Rmean l) * (v + - Rmean l)) Fin).
  rewrite fsum_fin, length_map.
  replace (length l - 2)%nat with 0%nat by lia. cbn [INR fdiv].
  rewrite (Reqb_true (eq_refl 0)).
  pose proof (Rsum_sq_nonneg (fun v => v + - Rmean l) l) as H0.
  set (q := Rsum _) in *.
  destruct (Req_dec_T q 0) as [E|E].
  - rewrite (Reqb_true E). left. reflexivity.
  - rewrite (Reqb_false E), Rltb_true by lra. right. reflexivity.
Qed.

Lemma fgt_abs_zero : fgt (fabs (Fin 0)) (Fin 2) = false.
Proof. cbn [fabs fgt]. apply Rltb_false. rewrite Rabs_R0. lra. Qed.

Lemma break_test_no_dof X y x_new y_actual :
  X <> [] -> (length X <= 2)%nat -> length X = length y ->
  amax X <> amin X ->
  exists r, structural_break_test X y x_new y_actual = Ok r /\ silent_zero r /\
            deviation r
            = Fin (y_actual + - (slope_R X y * x_new + intercept_R X y)).
Proof.
  intros HX Hn HL Hd.
  assert (Hy : y <> []) by (destruct y; [destruct X; [congruence|discriminate]|discriminate]).
  unfold structural_break_test. rewrite (linregress_regular HX Hy Hd).
  cbn [bind fst snd].
  pose proof (ss_x_pos HX Hd) as Hss.
  rewrite (se_pred_general _ x_new HX Hss).
  set (a := slope_R X y). set (b := intercept_R X y).
  assert (Hstd : se_resid_of (Fin a) (Fin b) X y = NaN \/
                 se_resid_of (Fin a) (Fin b) X y = PInf).
  { rewrite se_resid_unfold. apply np_std_no_dof.
    - intro E. apply (f_equal (@length R)) in E.
      rewrite resid_R_length in E by auto. destruct X; [congruence|discriminate].
    - rewrite resid_R_length; auto. }
  pose proof (inflation_gt_1 x_new HX Hss) as Hinf.
  pose proof (sqrt_gt_1 Hinf) as Hsq.
  set (t := sqrt (inflation X x_new)) in *.
  eexists. split; [reflexivity|]. unfold silent_zero.
  cbn [z_score is_outlier interpretation deviation].
  split; [|reflexivity].
  destruct Hstd as [-> | ->].
  - cbn [fmul fgt]. rewrite fgt_abs_zero. auto.
  - cbn [fmul]. unfold inf_times. rewrite Reqb_false by lra.
    rewrite Rltb_true by lra. cbn [Bool.eqb fgt fmul fadd fsub fneg fdiv].
    rewrite fgt_abs_zero. auto.
Qed.

Lemma break_test_empty y x_new y_actual :
  structural_break_test [] y x_new y_actual = Raise ValueError.
Proof. reflexivity. Qed.

Lemma break_test_identical X y x_new y_actual :
  (1 < length X)%nat -> amax X = amin X ->
  structural_break_test X y x_new y_actual = Raise ValueError.
Proof.
  intros Hn He. unfold structural_break_test, linregress.
  destruct ((length X =? 0)%nat || (length y =? 0)%nat); [reflexivity|].
  rewrite (Reqb_true He).
  assert (E : (1 <? length X)%nat = true) by (apply Nat.ltb_lt; exact Hn).
  rewrite E. reflexivity.
Qed.

Lemma fmul_nan_l y : fmul NaN y = NaN.
Proof. destruct y; reflexivity. Qed.

Lemma fadd_nan_l y : fadd NaN y = NaN.
Proof. destruct y; reflexivity. Qed.

Lemma fadd_nan_r x : fadd x NaN = NaN.
Proof. destruct x; reflexivity. Qed.

Lemma fdiv_nan_l y : fdiv NaN y = NaN.
Proof. destruct y; reflexivity. Qed.

Lemma linregress_one_point x1 y1 : linregress [x1] [y1] = Ok (NaN, NaN).
Proof.
  unfold linregress. cbn [length Nat.eqb orb Nat.ltb Nat.leb andb].
  rewrite andb_false_r.
  unfold Rmean. cbn [map combine fst snd Rsum fold_right length INR].
  assert (E1 : ((x1 - (x1 + 0) / 1) * (x1 - (x1 + 0) / 1) + 0) / 1 = 0)
    by (field).
  assert (E2 : ((x1 - (x1 + 0) / 1) * (y1 - (y1 + 0) / 1) + 0) / 1 = 0)
    by (field).
  rewrite E1, E2. cbn [fdiv]. rewrite (Reqb_true (eq_refl 0)).
  cbn [fmul fsub fneg fadd]. reflexivity.
Qed.

Lemma break_test_one_point x1 y1 x_new y_actual :
  exists r, structural_break_test [x1] [y1] x_new y_actual = Ok r
            /\ silent_zero r.
Proof.
  unfold structural_break_test. rewrite linregress_one_point.
  cbn [bind fst snd]. eexists. split; [reflexivity|].
  unfold silent_zero. cbn [z_score is_outlier interpretation].
  assert (E : se_pred_of (se_resid_of NaN NaN [x1] [y1]) [x1] x_new = NaN).
  { unfold se_resid_of, np_std, trend, fmean.
    repeat first [ rewrite fmul_nan_l | rewrite fadd_nan_l | rewrite fadd_nan_r
                 | rewrite fdiv_nan_l
                 | progress cbn [map combine fst snd fsum fold_right
                                 fsub fneg fsqrt] ].
    unfold se_pred_of. apply fmul_nan_l. }
  rewrite E. cbn [fgt]. rewrite fgt_abs_zero. auto.
Qed.

Lemma amax_amin_head x1 x2 l : x1 <> x2 -> amax (x1 :: x2 :: l) <> amin (x1 :: x2 :: l).
Proof.
  intros H E.
  assert (A : forall l d, Forall (fun v => fold_right Rmin d l <= v) l /\ fold_right Rmin d l <= d).
  { induction l0 as [|h t IH]; intro d; simpl.
    - split; [constructor|lra].
    - destruct (IH d) as [I1 I2]. split.
      + constructor; [apply Rmin_l|].
        eapply Forall_impl; [|exact I1]. simpl. intros v Hv.
        eapply Rle_trans; [apply Rmin_r|exact Hv].
      + eapply Rle_trans; [apply Rmin_r|exact I2]. }
  assert (B : forall l d, Forall (fun v => v <= fold_right Rmax d l) l /\ d <= fold_right Rmax d l).
  { induction l0 as [|h t IH]; intro d; simpl.
    - split; [constructor|lra].
    - destruct (IH d) as [I1 I2]. split.
      + constructor; [apply Rmax_l|].
        eapply Forall_impl; [|exact I1]. simpl. intros v Hv.
        eapply Rle_trans; [exact Hv|apply Rmax_r].
      + eapply Rle_trans; [exact I2|apply Rmax_r]. }
  unfold amax, amin in E. cbn [hd] in E.
  destruct (A (x1 :: x2 :: l) x1) as [A1 _]. destruct (B (x1 :: x2 :: l) x1) as [B1 _].
  rewrite E in B1.
  pose proof (Forall_inv A1) as a1. pose proof (Forall_inv (Forall_inv_tail A1)) as a2.
  pose proof (Forall_inv B1) as b1. pose proof (Forall_inv (Forall_inv_tail B1)) as b2.
  simpl in *. lra.
Qed.

Lemma std2_R_zeros l : Forall (fun v => v = 0) l -> l <> [] -> (2 < length l)%nat -> std2_R l = 0.
Proof.
  intros H Hne Hn. unfold std2_R.
  assert (S0 : Rsum l = 0) by (clear Hne Hn; induction H; simpl; [reflexivity|lra]).
  assert (M : Rmean l = 0) by (unfold Rmean; rewrite S0; unfold Rdiv; lra).
  rewrite M.
  assert (Q0 : Rsum (map (fun v => (v - 0) * (v - 0)) l) = 0).
  { clear - H. induction H; simpl; [reflexivity|]. subst. lra. }
  rewrite Q0. unfold Rdiv. rewrite Rmult_0_l. apply sqrt_0.
Qed.

Lemma perfect_fit :
  slope_R perfect_X perfect_y = 1 /\ intercept_R perfect_X perfect_y = 0.
Proof.
  assert (S : slope_R perfect_X perfect_y = 1).
  { unfold slope_R, Rmean, perfect_X, perfect_y.
    cbn [map combine fst snd Rsum fold_right length INR]. field. }
  split; [exact S|].
  unfold intercept_R. rewrite S. unfold Rmean, perfect_X, perfect_y.
  cbn [Rsum fold_right length INR]. field.
Qed.

(** *** Degenerate training windows *)

(** C1 (as amended).  On a training window with fewer than three
    observations, or whose x values are all identical, the test never
    signals insufficient data.  It either fails inside the regression
    with [ValueError] (empty window, or two or more identical x values),
    or it returns normally with [z = 0] and the verdict "Within trend"
    (one observation, or two observations at distinct x), through the
    fallback [if se_pred > 0 else 0] or a division by an infinite
    [se_pred]. *)
Theorem structural_break_degenerate_inputs (X y : list R) (x_new y_actual : R) :
  length X = length y ->
  (length X < 3)%nat \/ amax X = amin X ->
  (structural_break_test X y x_new y_actual = Raise ValueError /\
   (X = [] \/ (1 < length X)%nat /\ amax X = amin X))
  \/
  (exists r, structural_break_test X y x_new y_actual = Ok r /\
             silent_zero r /\
             (length X = 1%nat \/ length X = 2%nat /\ amax X <> amin X)).
Proof.
  intros HL Hdeg.
  destruct X as [|x1 X'].
  - left. split; [apply break_test_empty|left; reflexivity].
  - destruct X' as [|x2 X''].
    + right. destruct y as [|y1 [|y2 y']]; try discriminate.
      destruct (break_test_one_point x1 y1 x_new y_actual) as (r & E & Z).
      exists r. repeat split; try apply Z; auto.
    + destruct (Req_dec_T (amax (x1 :: x2 :: X'')) (amin (x1 :: x2 :: X'')))
        as [E|E].
      * left. split; [apply break_test_identical; auto; simpl; lia|].
        right. split; auto. simpl; lia.
      * right. destruct Hdeg as [Hlen|Heq]; [|contradiction].
        assert (X'' = []) by (destruct X''; [auto|simpl in Hlen; lia]). subst.
        destruct (@break_test_no_dof [x1; x2] y x_new y_actual)
          as (r & Er & Z & _); auto; try discriminate.
        exists r. repeat split; try apply Z; auto.
Qed.

Lemma two_points_differ : amax two_X <> amin two_X.
Proof. apply amax_amin_head. lra. Qed.

Lemma structural_break_degenerate_inputs_witness :
  exists r, structural_break_test two_X two_y 2025 100 = Ok r /\ silent_zero r.
Proof.
  destruct (@structural_break_degenerate_inputs two_X two_y 2025 100)
    as [[E _]|(r & E & Z & _)].
  - reflexivity.
  - left. simpl. lia.
  - exfalso. assert (N : exists r, structural_break_test two_X two_y 2025 100 = Ok r).
    { destruct (@break_test_no_dof two_X two_y 2025 100) as (r & Er & _);
        try discriminate; [simpl; lia|reflexivity|apply two_points_differ|].
      exists r. exact Er. }
    destruct N as [r Er]. rewrite Er in E. discriminate E.
  - exists r. split; assumption.
Defined.

Lemma two_point_fit :
  slope_R two_X two_y = 1 /\ intercept_R two_X two_y = -2015.
Proof.
  assert (S : slope_R two_X two_y = 1).
  { unfold slope_R, Rmean, two_X, two_y.
    cbn [map combine fst snd Rsum fold_right length INR]. field. }
  split; [exact S|].
  unfold intercept_R. rewrite S. unfold Rmean, two_X, two_y.
  cbn [Rsum fold_right length INR]. field.
Qed.

(** C1, counterexample.  A training window of two points, the held-out
    value 90 above the extrapolated trend: no error is raised and the
    test reports [z = 0], "Within trend". *)
Lemma two_point_window_returns_zero :
  (length two_X < 3)%nat /\
  exists r, structural_break_test two_X two_y 2025 100 = Ok r /\
            deviation r = Fin 90 /\ z_score r = Fin 0 /\
            interpretation r = "Within trend"%string.
Proof.
  split; [simpl; lia|].
  destruct (@break_test_no_dof two_X two_y 2025 100) as (r & Er & Z & D);
    try discriminate; [simpl; lia|reflexivity|apply two_points_differ|].
  exists r. split; [exact Er|].
  destruct two_point_fit as [S I]. rewrite S, I in D.
  destruct Z as (Z1 & _ & Z3).
  split; [rewrite D; f_equal; lra|]. split; assumption.
Qed.

(** *** Prediction error against residual spread *)

(** C3 (as amended).  For every training window with at least three
    observations whose x values are not all identical, and every held-out
    x, the test computes finite [se_resid = s >= 0] and
    [se_pred = s * sqrt(1 + 1/n + (x_new - x_mean)^2 / ss_x)]; the factor
    exceeds 1, so [se_pred >= se_resid], strictly when [s > 0]; on a
    perfect fit ([s = 0]) both are 0. *)
Theorem se_pred_vs_se_resid (X y : list R) (x_new y_actual : R) :
  (3 <= length X)%nat -> length X = length y -> amax X <> amin X ->
  exists r s p,
    structural_break_test X y x_new y_actual = Ok r /\
    se_resid r = Fin s /\ se_pred r = Fin p /\
    p = s * sqrt (1 + 1 / INR (length X)
                  + (x_new - Rmean X) * (x_new - Rmean X) / ss_x X) /\
    0 <= s /\ s <= p /\ (0 < s -> s < p) /\ (s = 0 -> p = 0).
Proof.
  intros Hn HL Hd.
  assert (HX : X <> []) by (destruct X; [simpl in Hn; lia|discriminate]).
  assert (Hy : y <> []) by (destruct y; [destruct X; [congruence|discriminate]|discriminate]).
  pose proof (ss_x_pos HX Hd) as Hss.
  unfold structural_break_test. rewrite (linregress_regular HX Hy Hd).
  cbn [bind fst snd].
  rewrite se_resid_fin by (auto; lia).
  rewrite (se_pred_fin _ x_new HX Hss).
  set (s := std2_R _).
  pose proof (std2_R_nonneg (resid_R (slope_R X y) (intercept_R X y) X y)) as Hs.
  fold s in Hs.
  pose proof (sqrt_gt_1 (inflation_gt_1 x_new HX Hss)) as Hsq.
  do 3 eexists. split; [reflexivity|]. cbn [se_resid se_pred].
  split; [reflexivity|]. split; [reflexivity|].
  fold (inflation X x_new). set (t := sqrt (inflation X x_new)) in *.
  split; [reflexivity|]. repeat split; intros; try nra.
Qed.

Lemma se_pred_vs_se_resid_witness :
  exists r s p,
    structural_break_test perfect_X perfect_y 5 7 = Ok r /\
    se_resid r = Fin s /\ se_pred r = Fin p /\ s <= p.
Proof.
  destruct (@se_pred_vs_se_resid perfect_X perfect_y 5 7)
    as (r & s & p & E & H1 & H2 & _ & _ & H3 & _).
  - simpl. lia.
  - reflexivity.
  - apply amax_amin_head. lra.
  - exists r, s, p. auto.
Defined.

(** C3, counterexample.  Three training points on an exact line: the
    residual standard deviation and the prediction standard error are
    both 0, so the second is not greater than the first. *)
Lemma perfect_fit_se_pred_equals_se_resid :
  exists r, structural_break_test perfect_X perfect_y 5 7 = Ok r /\
            se_resid r = Fin 0 /\ se_pred r = Fin 0.
Proof.
  assert (Hd : amax perfect_X <> amin perfect_X)
    by (apply amax_amin_head; lra).
  assert (HX : perfect_X <> []) by discriminate.
  assert (Hy : perfect_y <> []) by discriminate.
  pose proof (ss_x_pos HX Hd) as Hss.
  unfold structural_break_test. rewrite (linregress_regular HX Hy Hd).
  cbn [bind fst snd].
  rewrite se_resid_fin by (simpl; lia).
  rewrite (se_pred_fin _ 5 HX Hss).
  destruct perfect_fit as [-> ->].
  assert (Z : std2_R (resid_R 1 0 perfect_X perfect_y) = 0).
  { apply std2_R_zeros; [|discriminate|simpl; lia].
    unfold resid_R, perfect_X, perfect_y. cbn [map combine fst snd].
    repeat constructor; lra. }
  rewrite Z. eexists. split; [reflexivity|]. cbn [se_resid se_pred].
  split; [reflexivity|]. rewrite Rmult_0_l. reflexivity.
Qed.

End StructuralBreakFacts.

(** ** C. Interrupted time series *)

Section PolicyImpactFacts.
Import Np PolicyImpact Examples.
Local Open Scope Z_scope.

Lemma insert_obs_sorted x l :
  StronglySorted by_time l -> StronglySorted by_time (insert_obs x l).
Proof.
  induction 1 as [|h t Hs IH Hh]; simpl.
  - repeat constructor.
  - destruct (fst x <=? fst h) eqn:E.
    + apply Z.leb_le in E. constructor; [constructor; auto|].
      constructor; [exact E|].
      eapply Forall_impl; [|exact Hh]. unfold by_time. intros; lia.
    + apply Z.leb_gt in E. constructor; auto.
      assert (P : forall y, In y (insert_obs x t) -> y = x \/ In y t).
      { clear. induction t as [|h t IH]; simpl; intros y Hy.
        - destruct Hy; auto.
        - destruct (fst x <=? fst h); simpl in Hy.
          + destruct Hy as [->|[->|Hy]]; auto.
          + destruct Hy as [->|Hy]; auto. destruct (IH _ Hy); auto. }
      apply Forall_forall. intros y Hy. destruct (P _ Hy) as [->|Hy'].
      * unfold by_time. lia.
      * rewrite Forall_forall in Hh. auto.
Qed.

Lemma sort_index_sorted s : StronglySorted by_time (sort_index s).
Proof.
  induction s; simpl; [constructor | apply insert_obs_sorted; auto].
Qed.

Lemma StronglySorted_skipn (A : Type) (R : A -> A -> Prop) n l :
  StronglySorted R l -> StronglySorted R (skipn n l).
Proof.
  revert l. induction n; intros l H; simpl; auto.
  destruct l; auto. inversion H; auto.
Qed.

Lemma In_firstn (A : Type) (x : A) n : forall l, In x (firstn n l) -> In x l.
Proof.
  induction n; intros l H; simpl in H; [contradiction|].
  destruct l; simpl in *; [contradiction|]. destruct H; auto.
Qed.

Lemma StronglySorted_firstn (A : Type) (R : A -> A -> Prop) n l :
  StronglySorted R l -> StronglySorted R (firstn n l).
Proof.
  revert l. induction n; intros l H; simpl; [constructor|].
  destruct l; [constructor|]. inversion H; subst. constructor; auto.
  apply Forall_forall. intros x Hx. rewrite Forall_forall in H3.
  apply H3. eapply In_firstn; eauto.
Qed.

Lemma included_window_sorted s dt pre post :
  StronglySorted by_time (included_window s dt pre post).
Proof.
  unfold included_window.
  set (s0 := sort_index (dropna s)).
  assert (H0 : StronglySorted by_time s0) by apply sort_index_sorted.
  set (s1 := match truthy pre with Some p => _ | None => s0 end).
  assert (H1 : StronglySorted by_time s1).
  { unfold s1. destruct (truthy pre); auto. unfold iloc_from.
    destruct (_ <? 0); apply StronglySorted_skipn; auto. }
  destruct (truthy post); auto. unfold iloc_upto.
  destruct (_ <? 0); apply StronglySorted_firstn; auto.
Qed.

Lemma pre_post_count s dt : (pre_count s dt + post_count s dt = length s)%nat.
Proof.
  unfold pre_count, post_count. induction s as [|o s IH]; simpl; auto.
  destruct (Z.ltb_spec (fst o) dt), (Z.leb_spec dt (fst o)); simpl; lia.
Qed.

Lemma sorted_all_post s dt :
  StronglySorted by_time s ->
  match s with [] => True | o :: _ => dt <= fst o end ->
  filter (fun o => fst o <? dt) s = [] /\
  map (fun o => if dt <=? fst o then 1 else 0) s = repeat 1 (length s).
Proof.
  intros Hs Hh. destruct s as [|h t]; [split; reflexivity|].
  inversion Hs as [|? ? _ Hall]; subst.
  assert (A : Forall (fun o => dt <= fst o) (h :: t)).
  { constructor; auto. eapply Forall_impl; [|exact Hall].
    unfold by_time. intros; lia. }
  clear - A. induction A as [|o l Ho _ [IH1 IH2]]; [split; reflexivity|].
  simpl. destruct (Z.ltb_spec (fst o) dt); [lia|].
  destruct (Z.leb_spec dt (fst o)); [|lia]. split; auto. f_equal. auto.
Qed.

Lemma intervention_shape s dt :
  StronglySorted by_time s ->
  map (fun o => if dt <=? fst o then 1 else 0) s
  = repeat 0 (pre_count s dt) ++ repeat 1 (post_count s dt).
Proof.
  induction 1 as [|h t Hs IH Hh].
  - reflexivity.
  - destruct (Z.ltb_spec (fst h) dt) as [Hlt|Hge].
    + unfold pre_count, post_count in *. simpl.
      destruct (Z.ltb_spec (fst h) dt); [|lia].
      destruct (Z.leb_spec dt (fst h)); [lia|]. simpl. f_equal. exact IH.
    + assert (S' : StronglySorted by_time (h :: t)) by (constructor; auto).
      destruct (sorted_all_post dt S' Hge) as [E1 E2].
      rewrite E2. unfold pre_count. rewrite E1. simpl app.
      pose proof (pre_post_count (h :: t) dt) as E. unfold pre_count in E.
      rewrite E1 in E. simpl length in E. simpl length. rewrite <- E. reflexivity.
Qed.

Lemma sorted_pre_prefix s dt :
  StronglySorted by_time s ->
  forall i o, nth_error s i = Some o ->
  (fst o < dt <-> (i < pre_count s dt)%nat).
Proof.
  induction 1 as [|h t Hs IH Hh]; intros i o Hi.
  - destruct i; discriminate.
  - destruct (Z.ltb_spec (fst h) dt) as [Hlt|Hge].
    + unfold pre_count in *. simpl.
      destruct (Z.ltb_spec (fst h) dt); [|lia]. simpl length.
      destruct i as [|i]; simpl in Hi.
      * inversion Hi; subst. split; intros; lia.
      * rewrite (IH _ _ Hi). lia.
    + assert (S' : StronglySorted by_time (h :: t)) by (constructor; auto).
      destruct (sorted_all_post dt S' Hge) as [E1 _].
      unfold pre_count. rewrite E1. simpl length.
      assert (In o (h :: t)) by (eapply nth_error_In; eauto).
      assert (dt <= fst o).
      { destruct H as [->|H]; auto. rewrite Forall_forall in Hh.
        specialize (Hh _ H). unfold by_time in Hh. lia. }
      split; intros; lia.
Qed.

Lemma argmax_from_ones b : forall i bi, argmax_from i bi 1 (repeat 1 b) = bi.
Proof. induction b; simpl; intros; auto. Qed.

Lemma argmax_from_zeros a : forall i bi l,
  argmax_from i bi 0 (repeat 0 a ++ l) = argmax_from (i + a) bi 0 l.
Proof.
  induction a; simpl; intros.
  - f_equal. lia.
  - rewrite IHa. f_equal. lia.
Qed.

Lemma argmax_zeros_ones a b :
  (0 < a + b)%nat ->
  argmax (repeat 0 a ++ repeat 1 b) = Ok (if (b =? 0)%nat then 0%nat else a).
Proof.
  intro H. destruct a as [|a].
  - destruct b as [|b]; [lia|]. simpl. rewrite argmax_from_ones. reflexivity.
  - simpl. rewrite argmax_from_zeros. destruct b as [|b]; simpl.
    + reflexivity.
    + rewrite argmax_from_ones. f_equal; lia.
Qed.

Lemma arange_length n : length (arange n) = n.
Proof. unfold arange. rewrite length_map, length_seq. reflexivity. Qed.

Lemma nth_arange i n : (i < n)%nat -> nth i (arange n) 0 = Z.of_nat i.
Proof.
  intro H. unfold arange.
  rewrite (nth_indep _ 0 (Z.of_nat 0)) by (rewrite length_map, length_seq; auto).
  rewrite map_nth, seq_nth; auto.
Qed.

Lemma seq_offset k len : forall start,
  seq (k + start) len = map (Nat.add k) (seq start len).
Proof.
  induction len; intro start; simpl; auto.
  f_equal. rewrite <- IHlen. f_equal. lia.
Qed.

Lemma arange_app a b :
  arange (a + b) = arange a ++ map (fun i => Z.of_nat a + i) (arange b).
Proof.
  unfold arange. rewrite seq_app, map_app. f_equal.
  replace (0 + a)%nat with (a + 0)%nat by lia.
  rewrite seq_offset, !map_map. apply map_ext. intros; lia.
Qed.

Lemma combine_app (A B : Type) (l1 l2 : list A) (m1 m2 : list B) :
  length l1 = length m1 ->
  combine (l1 ++ l2) (m1 ++ m2) = combine l1 m1 ++ combine l2 m2.
Proof.
  revert m1. induction l1; destruct m1; simpl; intros; try congruence.
  f_equal. auto.
Qed.

Lemma time_after_shape a b t0 :
  (b = 0%nat \/ t0 = Z.of_nat a) ->
  map (fun it : Z * Z => if fst it =? 0 then 0 else snd it - t0)
      (combine (repeat 0 a ++ repeat 1 b) (arange (a + b)))
  = repeat 0 a ++ arange b.
Proof.
  intro H. rewrite arange_app, combine_app, map_app
    by (rewrite repeat_length, arange_length; auto).
  f_equal.
  - pose proof (arange_length a) as L. revert L. generalize (arange a) as l.
    clear. induction a; intros [|z l] L; simpl in *; try discriminate; auto.
    f_equal. auto.
  - destruct H as [-> | ->]; [reflexivity|].
    pose proof (arange_length b) as L. revert L. generalize (arange b) as l.
    clear. induction b; intros [|z l] L; simpl in *; try discriminate; auto.
    f_equal; [lia|auto].
Qed.

(** lag selection *)
Lemma cube_le_mono a b : 0 <= a -> a <= b -> a ^ 3 <= b ^ 3.
Proof. intros. apply Z.pow_le_mono_l. lia. Qed.

Lemma cube_lt_inv a b : 0 <= a -> 0 <= b -> a ^ 3 < b ^ 3 -> a < b.
Proof.
  intros Ha Hb H. destruct (Z.lt_ge_cases a b) as [|Hge]; auto.
  pose proof (cube_le_mono Hb Hge). lia.
Qed.

Lemma lag_search_spec fuel : forall k n,
  0 <= k -> 0 <= n -> (k = 0 \/ 64 * k ^ 3 < 27 * n) ->
  n <= Z.of_nat fuel + k ->
  let r := lag_search fuel k n in
  k <= r /\ (r = 0 \/ 64 * r ^ 3 < 27 * n) /\ 27 * n <= 64 * (r + 1) ^ 3.
Proof.
  induction fuel as [|fuel IH]; intros k n Hk Hn Hinv Hfuel;
    cbn [lag_search floor_search].
  - repeat split; auto; lia.
  - destruct (Z.ltb_spec (64 * (k + 1) ^ 3) (27 * n)) as [Hlt|Hge].
    + assert (Hf : n <= Z.of_nat fuel + (k + 1)) by lia.
      destruct (IH (k + 1) n ltac:(lia) Hn (or_intror Hlt) Hf) as (A & B & C).
      repeat split; auto. lia.
    + repeat split; auto; lia.
Qed.

Lemma floor_search_spec fuel : forall k n,
  0 <= k -> 0 <= n -> 64 * k ^ 3 <= 27 * n ->
  n <= Z.of_nat fuel + k ->
  let r := floor_search fuel k n in
  k <= r /\ 64 * r ^ 3 <= 27 * n /\ 27 * n < 64 * (r + 1) ^ 3.
Proof.
  induction fuel as [|fuel IH]; intros k n Hk Hn Hinv Hfuel;
    cbn [lag_search floor_search].
  - repeat split; auto; lia.
  - destruct (Z.leb_spec (64 * (k + 1) ^ 3) (27 * n)) as [Hle|Hgt].
    + assert (Hf : n <= Z.of_nat fuel + (k + 1)) by lia.
      destruct (IH (k + 1) n ltac:(lia) Hn Hle Hf) as (A & B & C).
      repeat split; auto. lia.
    + repeat split; auto; lia.
Qed.

Lemma int_075_cbrt_spec (n : nat) :
  let k := int_075_cbrt (Z.of_nat n) in
  0 <= k /\ (k = 0 \/ 64 * k ^ 3 < 27 * Z.of_nat n)
  /\ 27 * Z.of_nat n <= 64 * (k + 1) ^ 3.
Proof.
  unfold int_075_cbrt. rewrite Nat2Z.id.
  apply (@lag_search_spec n 0 (Z.of_nat n)); lia.
Qed.

Lemma max_lags_vs_spec (n : nat) :
  (forall k, 0 <= k -> 64 * k ^ 3 <> 27 * Z.of_nat n) ->
  max_lags n = spec_lag n.
Proof.
  intro Hno. unfold max_lags, spec_lag.
  destruct (int_075_cbrt_spec n) as (A0 & A1 & A2).
  destruct (@floor_search_spec n 0 (Z.of_nat n)) as (B0 & B1 & B2); try lia.
  set (r := int_075_cbrt (Z.of_nat n)) in *.
  set (r' := floor_search n 0 (Z.of_nat n)) in *.
  f_equal.
  assert (r < r' + 1).
  { destruct A1 as [->|A1]; [lia|]. apply cube_lt_inv; lia. }
  assert (64 * (r + 1) ^ 3 <> 27 * Z.of_nat n) by (apply Hno; lia).
  assert (r' < r + 1) by (apply cube_lt_inv; lia).
  lia.
Qed.

Lemma max_lags_at_whole (n : nat) (k : Z) :
  1 <= k -> 64 * k ^ 3 = 27 * Z.of_nat n ->
  spec_lag n = k /\ max_lags n = Z.max 1 (k - 1).
Proof.
  intros Hk E. unfold max_lags, spec_lag.
  destruct (int_075_cbrt_spec n) as (A0 & A1 & A2).
  destruct (@floor_search_spec n 0 (Z.of_nat n)) as (B0 & B1 & B2); try lia.
  set (r := int_075_cbrt (Z.of_nat n)) in *.
  set (r' := floor_search n 0 (Z.of_nat n)) in *.
  assert (r' < k + 1) by (apply cube_lt_inv; lia).
  assert (k < r' + 1) by (apply cube_lt_inv; lia).
  assert (k - 1 < r + 1).
  { apply cube_lt_inv; try lia.
    assert ((k - 1) ^ 3 < k ^ 3); [|lia].
    replace (k ^ 3) with (k * k * k) by ring.
    replace ((k - 1) ^ 3) with ((k - 1) * (k - 1) * (k - 1)) by ring. nia. }
  assert (r < k).
  { destruct A1 as [->|A1]; [lia|]. apply cube_lt_inv; lia. }
  split; [lia|f_equal; lia].
Qed.

(** the request handed to the fit *)
Lemma its_regressors_eq s dt :
  StronglySorted by_time s -> s <> [] ->
  its_regressors s dt
  = Ok {| time_var := arange (length s);
          intervention := repeat 0 (pre_count s dt) ++ repeat 1 (post_count s dt);
          time_after := repeat 0 (pre_count s dt) ++ arange (post_count s dt) |}.
Proof.
  intros Hs Hne. unfold its_regressors.
  rewrite (intervention_shape dt Hs).
  pose proof (pre_post_count s dt) as Hab.
  set (a := pre_count s dt) in *. set (b := post_count s dt) in *.
  assert (Hpos : (0 < a + b)%nat).
  { rewrite Hab. destruct s; [congruence|simpl; lia]. }
  rewrite (argmax_zeros_ones a b Hpos). cbn [bind].
  f_equal. f_equal.
  rewrite <- Hab. apply time_after_shape.
  destruct (Nat.eqb_spec b 0) as [->|Hb]; [left; reflexivity|right].
  apply nth_arange. lia.
Qed.

Lemma its_request_eq s dt :
  StronglySorted by_time s -> s <> [] ->
  its_request s dt
  = Ok {| endog := map snd s;
          exog := add_constant (length s)
                    (design (length s) (pre_count s dt) (post_count s dt));
          cov := HAC (max_lags (length s)) |}.
Proof.
  intros Hs Hne. unfold its_request. rewrite (its_regressors_eq dt Hs Hne).
  reflexivity.
Qed.

(** counterfactual *)
Lemma nth_zeroed i (v : list Q) : nth i (map (fun _ => 0%Q) v) 0%Q = 0%Q.
Proof. revert i. induction v; destruct i; simpl; auto. Qed.

Lemma nth_of_Z_zeros i a l :
  (i < a)%nat -> nth i (of_Z (repeat 0 a ++ l)) 0%Q = 0%Q.
Proof.
  revert i. induction a; intros i H; [lia|].
  destruct i; simpl; auto. apply IHa. lia.
Qed.

Lemma nth_error_combine_map (A B : Type) (l : list A) (F : nat -> B) n i t v :
  length l = n ->
  (nth_error (combine l (map F (seq 0 n))) i = Some (t, v)
   <-> nth_error l i = Some t /\ v = F i).
Proof.
  intro L. 
  assert (G : forall k l, length l = n ->
    (nth_error (combine l (map F (seq k n))) i = Some (t, v)
     <-> nth_error l i = Some t /\ v = F (k + i)%nat)).
  { clear. revert i. induction n; intros i k l L.
    - destruct l; [|discriminate]. simpl. destruct i; simpl; split; intros; try discriminate;
        destruct H; discriminate.
    - destruct l as [|x l]; [discriminate|]. simpl. destruct i; simpl.
      + rewrite Nat.add_0_r. split.
        * intro H; inversion H; auto.
        * intros [H1 H2]; inversion H1; subst; auto.
      + rewrite (IHn i (S k) l) by (simpl in L; lia).
        replace (S k + i)%nat with (k + S i)%nat by lia. tauto. }
  apply (G 0%nat l L).
Qed.

Lemma row_agrees_before (beta : list Q) n a b i :
  (i < a)%nat ->
  forall X, X = add_constant n (design n a b) ->
  Np.sum (Np.mul beta (map (fun cv => nth i (snd cv) 0%Q)
     (zero_column "time_after" n (zero_column "intervention" n X))))
  = Np.sum (Np.mul beta (map (fun cv => nth i (snd cv) 0%Q) X)).
Proof.
  intros Hi X ->. unfold add_constant.
  destruct (existsb _ (design n a b)); unfold design; cbn [zero_column String.eqb Ascii.eqb Bool.eqb];
    cbn [map snd]; rewrite !nth_zeroed, !nth_of_Z_zeros by auto; reflexivity.
Qed.

Lemma combine_fst (A B : Type) (l : list A) (l' : list B) :
  length l = length l' -> map fst (combine l l') = l.
Proof.
  revert l'. induction l; destruct l'; simpl; intros; try congruence.
  f_equal. auto.
Qed.

Lemma combine_snd (A B : Type) (l : list A) (l' : list B) :
  length l = length l' -> map snd (combine l l') = l'.
Proof.
  revert l'. induction l; destruct l'; simpl; intros; try congruence.
  f_equal. auto.
Qed.

Lemma predict_length beta X n : length (predict beta X n) = n.
Proof. unfold predict. rewrite length_map, length_seq. reflexivity. Qed.

Lemma sort_index_id l : StronglySorted by_time l -> sort_index l = l.
Proof.
  induction 1 as [|h t Hs IH Hh]; simpl; auto.
  rewrite IH. destruct t as [|h' t']; simpl; auto.
  apply Forall_inv in Hh. unfold by_time in Hh.
  destruct (Z.leb_spec (fst h) (fst h')); [reflexivity|lia].
Qed.

Lemma dropna_complete (s : series) :
  Forall (fun o => snd o <> None) s ->
  map fst (dropna s) = map fst s /\ 
  (forall R : Z -> Z -> Prop, StronglySorted (fun a b => R (fst a) (fst b)) s ->
     StronglySorted (fun a b : Z * Q => R (fst a) (fst b)) (dropna s)).
Proof.
  induction 1 as [|[t [v|]] s Ho _ [IH1 IH2]]; simpl.
  - split; auto. intros; constructor.
  - split; [f_equal; auto|]. intros R HS. inversion HS; subst.
    constructor; auto.
    clear - IH1 H2. 
    rewrite Forall_forall in *. intros x Hx.
    assert (In (fst x) (map fst s)) by (rewrite <- IH1; apply in_map; auto).
    apply in_map_iff in H. destruct H as (y & E & Hy).
    specialize (H2 y Hy). simpl in *. rewrite E in H2. exact H2.
  - simpl in Ho. congruence.
Qed.

(** *** Regressors and lag truncation *)

(** The five cases of tests/test_policy_impact.py::TestHACLagSelection. *)
Lemma max_lags_tested_cases :
  map max_lags [8; 27; 64; 125; 1]%nat = [1; 2; 2; 3; 1].
Proof. vm_compute. reflexivity. Qed.

(** C4 (as amended).  On an empty included window the estimator raises
    [ValueError] and builds nothing.  For every input series and
    intervention date whose included window [s] (missing values dropped,
    sorted, trimmed) is not empty, with [a] observations before the date
    and [b] at or after it, it hands the fit exactly these regressors:
    [time = 0..n-1]; [intervention] = [a] zeros then [b] ones;
    [time_after] = [a] zeros then [0, 1, .., b-1] (never negative, zero
    before the intervention); the first [a] observations are exactly those
    dated before the intervention.  The covariance request is HAC with
    [L = max_lags n], where [L >= 1] is [max(1, k)] for the largest [k]
    with [64 k^3 < 27 n]: this equals [max(1, floor(0.75 n^(1/3)))] unless
    [0.75 n^(1/3)] is a whole number [k], where [L = max(1, k - 1)], one
    less than the floor. *)
Theorem its_regressors_and_lag (input : series) (dt : Z)
  (pre post : option Z) :
  let s := included_window input dt pre post in
  let n := length s in
  let a := pre_count s dt in
  let b := post_count s dt in
  (s = [] -> its_request s dt = Raise ValueError) /\
  (s <> [] ->
  (a + b = n)%nat /\
  (forall i o, nth_error s i = Some o -> (fst o < dt <-> (i < a)%nat)) /\
  its_regressors s dt
  = Ok {| time_var := arange n;
          intervention := repeat 0 a ++ repeat 1 b;
          time_after := repeat 0 a ++ arange b |} /\
  Forall (fun t => 0 <= t) (repeat 0 a ++ arange b) /\
  its_request s dt
  = Ok {| endog := map snd s;
          exog := add_constant n (design n a b);
          cov := HAC (max_lags n) |} /\
  1 <= max_lags n /\
  (max_lags n = 1 \/ 64 * max_lags n ^ 3 < 27 * Z.of_nat n) /\
  27 * Z.of_nat n <= 64 * (max_lags n + 1) ^ 3 /\
  ((forall k, 0 <= k -> 64 * k ^ 3 <> 27 * Z.of_nat n) ->
   max_lags n = spec_lag n) /\
  (forall k, 1 <= k -> 64 * k ^ 3 = 27 * Z.of_nat n ->
             spec_lag n = k /\ max_lags n = Z.max 1 (k - 1))).
Proof.
  intros s n a b. split; [intros ->; reflexivity|]. intro Hne.
  pose proof (included_window_sorted input dt pre post) as Hs. fold s in Hs.
  split; [apply pre_post_count|].
  split; [intros i o; apply (sorted_pre_prefix dt Hs)|].
  split; [apply (its_regressors_eq dt Hs Hne)|].
  split.
  { apply Forall_app. split.
    - apply Forall_forall. intros t Ht. apply repeat_spec in Ht. lia.
    - unfold arange. apply Forall_map. apply Forall_forall. intros; lia. }
  split; [apply (its_request_eq dt Hs Hne)|].
  destruct (int_075_cbrt_spec n) as (A0 & A1 & A2).
  unfold max_lags at 1 2 3 4.
  set (k := int_075_cbrt (Z.of_nat n)) in *.
  split; [lia|]. split.
  { destruct (Z.max_spec 1 k) as [[H ->]|[H ->]]; [|left; reflexivity].
    destruct A1 as [E|A1]; [lia|right; exact A1]. }
  split.
  { destruct (Z.max_spec 1 k) as [[H ->]|[H ->]]; [exact A2|].
    assert ((k + 1) ^ 3 <= (1 + 1) ^ 3) by (apply cube_le_mono; lia). lia. }
  split; [apply max_lags_vs_spec|].
  intros k' Hk' E. apply max_lags_at_whole; auto.
Qed.

Lemma its_regressors_and_lag_witness :
  its_regressors (included_window series_unsorted 6 None None) 6
  = Ok {| time_var := [0; 1; 2; 3; 4; 5; 6; 7; 8];
          intervention := [0; 0; 0; 0; 1; 1; 1; 1; 1];
          time_after := [0; 0; 0; 0; 0; 1; 2; 3; 4] |}.
Proof.
  destruct (@its_regressors_and_lag series_unsorted 6 None None) as [_ H].
  destruct H as (_ & _ & E & _).
  - vm_compute. discriminate.
  - exact E.
Defined.

(** C4, counterexample.  A series of 64 observations: the fit is asked
    for HAC errors with [maxlags = 2], as the repository's test of the
    formula records ([64 -> 2]), while [max(1, floor(0.75 * 64^(1/3)))]
    is 3. *)
Lemma lag_at_64_observations :
  length (included_window series_64 32 None None) = 64%nat /\
  (exists req, its_request (included_window series_64 32 None None) 32 = Ok req
               /\ cov req = HAC 2) /\
  spec_lag 64 = 3.
Proof.
  split; [vm_compute; reflexivity|]. split.
  - eexists. split; [vm_compute; reflexivity|]. reflexivity.
  - vm_compute. reflexivity.
Qed.

(** *** Fitted and counterfactual series *)

(** C10 (as amended).  Whenever the included window [s] is not empty the
    estimator returns; its counterfactual series is the model prediction
    on the design with the [intervention] and [time_after] columns set to
    0; at every timestamp before the intervention the counterfactual
    value equals the fitted value; and both series are indexed by exactly
    the timestamps of [s], the cleaned, sorted and trimmed series that is
    returned as [actual].  These are the timestamps of the input series
    when it has no missing value, is in time order and no window is
    asked for. *)
Theorem its_counterfactual (sm : OLS) (input : series) (dt : Z)
  (pre post : option Z) :
  let s := included_window input dt pre post in
  let n := length s in
  let X := add_constant n (design n (pre_count s dt) (post_count s dt)) in
  let X_counter := zero_column "time_after" n (zero_column "intervention" n X) in
  let beta := params_of sm (map snd s) X (HAC (max_lags n)) in
  s <> [] ->
  exists r,
    interrupted_time_series sm input dt pre post = Ok r /\
    actual r = s /\
    map fst (fitted r) = map fst s /\
    map fst (counterfactual r) = map fst s /\
    map snd (fitted r) = predict beta X n /\
    map snd (counterfactual r) = predict beta X_counter n /\
    (forall i t v, nth_error (fitted r) i = Some (t, v) -> t < dt ->
                   nth_error (counterfactual r) i = Some (t, v)) /\
    (truthy pre = None -> truthy post = None ->
     Forall (fun o => snd o <> None) input ->
     StronglySorted (fun a b => fst a <= fst b) input ->
     map fst (actual r) = map fst input).
Proof.
  intros s n X X_counter beta Hne.
  pose proof (included_window_sorted input dt pre post) as Hs. fold s in Hs.
  unfold interrupted_time_series. fold s.
  rewrite (its_request_eq dt Hs Hne). cbn [bind exog endog cov].
  fold n. fold X. fold beta. fold X_counter.
  set (a := pre_count s dt) in *.
  eexists. split; [reflexivity|]. cbn [actual fitted counterfactual].
  assert (L1 : length (map fst s) = length (predict beta X n))
    by (rewrite predict_length, length_map; reflexivity).
  assert (L2 : length (map fst s) = length (predict beta X_counter n))
    by (rewrite predict_length, length_map; reflexivity).
  split; [reflexivity|]. split; [apply combine_fst; auto|].
  split; [apply combine_fst; auto|].
  split; [apply combine_snd; auto|].
  split; [apply combine_snd; auto|].
  split.
  { intros i t v Hi Ht. unfold predict in *.
    apply nth_error_combine_map in Hi; [|rewrite length_map; reflexivity].
    destruct Hi as [Hi Hv].
    apply nth_error_combine_map; [rewrite length_map; reflexivity|].
    split; auto. subst v.
    assert (Hia : (i < a)%nat).
    { rewrite nth_error_map in Hi. destruct (nth_error s i) as [o|] eqn:E;
        [|discriminate]. simpl in Hi. inversion Hi; subst.
      apply (sorted_pre_prefix dt Hs i E). auto. }
    symmetry.
    apply (@row_agrees_before beta n a (post_count s dt) i Hia X). reflexivity. }
  intros Hpre Hpost Hna Hsorted.
  unfold s, included_window. rewrite Hpre, Hpost.
  destruct (dropna_complete Hna) as [E1 E2].
  rewrite sort_index_id; auto.
  apply (E2 Z.le). exact Hsorted.
Qed.

Lemma its_counterfactual_witness :
  exists r, interrupted_time_series constant_fit series_unsorted 6 None None = Ok r
            /\ map fst (fitted r) = [1; 2; 4; 5; 6; 7; 8; 9; 10]
            /\ map fst (counterfactual r) = [1; 2; 4; 5; 6; 7; 8; 9; 10].
Proof.
  destruct (@its_counterfactual constant_fit series_unsorted 6 None None)
    as (r & E & _ & F & C & _).
  - vm_compute. discriminate.
  - exists r. split; [exact E|]. split; [exact F|exact C].
Defined.

(** C10, counterexample.  A series of ten timestamps whose first value is
    missing: the fitted and counterfactual series are indexed by the nine
    remaining timestamps, not by the ten timestamps of the input. *)
Lemma its_index_is_window_not_input :
  map fst series_with_gap = [1; 2; 3; 4; 5; 6; 7; 8; 9; 10] /\
  exists r, interrupted_time_series constant_fit series_with_gap 6 None None
            = Ok r
            /\ map fst (fitted r) = [2; 3; 4; 5; 6; 7; 8; 9; 10]
            /\ map fst (counterfactual r) = [2; 3; 4; 5; 6; 7; 8; 9; 10].
Proof.
  split; [reflexivity|].
  eexists. split; [vm_compute; reflexivity|]. split; reflexivity.
Qed.

End PolicyImpactFacts.

(** ** D. Cluster bootstrap *)

Section BootstrapFacts.
Import Np Distributional Bootstrap Examples.
Local Open Scope Z_scope.

Lemma lookup_setdefault hh k i d :
  lookup hh (setdefault_append k i d)
  = if hh =? k then lookup hh d ++ [i] else lookup hh d.
Proof.
  induction d as [|[k' rows] d IH]; simpl.
  - destruct (hh =? k); reflexivity.
  - destruct (Z.eqb_spec k k') as [->|Hk]; simpl.
    + destruct (hh =? k'); reflexivity.
    + rewrite IH. destruct (Z.eqb_spec hh k') as [->|Hh]; auto.
      destruct (Z.eqb_spec k' k); [congruence|reflexivity].
Qed.

Lemma lookup_build_from hh l : forall i d,
  lookup hh (build_from i l d) = lookup hh d ++ positions_from i hh l.
Proof.
  induction l as [|h t IH]; intros i d; simpl.
  - rewrite app_nil_r. reflexivity.
  - rewrite IH, lookup_setdefault.
    destruct (hh =? h); [rewrite <- app_assoc|]; reflexivity.
Qed.

Lemma lookup_hh_to_rows hh hh_arr :
  lookup hh (hh_to_rows hh_arr) = rows_of hh hh_arr.
Proof. unfold hh_to_rows. rewrite lookup_build_from. reflexivity. Qed.

Lemma positions_from_In hh l : forall s i,
  In i (positions_from s hh l) <->
  (s <= i)%nat /\ nth_error l (i - s) = Some hh.
Proof.
  induction l as [|h t IH]; intros s i; simpl.
  - split; [contradiction|]. intros [_ H]. destruct (i - s)%nat; discriminate.
  - destruct (Z.eqb_spec hh h) as [->|Hne]; simpl; rewrite ?IH.
    + split.
      * intros [<-|[H1 H2]].
        -- split; [lia|]. rewrite Nat.sub_diag. reflexivity.
        -- split; [lia|]. replace (i - s)%nat with (S (i - S s)) by lia. exact H2.
      * intros [H1 H2]. destruct (Nat.eq_dec s i) as [->|Hsi]; [left; auto|right].
        split; [lia|]. replace (i - s)%nat with (S (i - S s)) in H2 by lia. exact H2.
    + split.
      * intros [H1 H2]. split; [lia|].
        replace (i - s)%nat with (S (i - S s)) by lia. exact H2.
      * intros [H1 H2]. destruct (Nat.eq_dec s i) as [->|Hsi].
        -- rewrite Nat.sub_diag in H2. simpl in H2. congruence.
        -- split; [lia|]. replace (i - s)%nat with (S (i - S s)) in H2 by lia. exact H2.
Qed.

Lemma rows_of_In hh hh_arr i :
  In i (rows_of hh hh_arr) <-> nth_error hh_arr i = Some hh.
Proof.
  unfold rows_of. rewrite positions_from_In, Nat.sub_0_r. split; [tauto|].
  intro H; split; [lia|auto].
Qed.




(** keys *)
Lemma keys_setdefault k i d :
  map fst (setdefault_append k i d)
  = if existsb (Z.eqb k) (map fst d) then map fst d else map fst d ++ [k].
Proof.
  induction d as [|[k' rows] d IH]; simpl; auto.
  destruct (Z.eqb_spec k k') as [->|Hne]; simpl; auto.
  rewrite IH. destruct (existsb (Z.eqb k) (map fst d)); reflexivity.
Qed.

Lemma existsb_eqb_In k l : existsb (Z.eqb k) l = true <-> In k l.
Proof.
  rewrite existsb_exists. split.
  - intros (x & Hx & E). apply Z.eqb_eq in E. subst. auto.
  - intro H. exists k. split; auto. apply Z.eqb_refl.
Qed.

Lemma keys_build_from_In l : forall i d k,
  In k (map fst (build_from i l d)) <-> In k (map fst d) \/ In k l.
Proof.
  induction l as [|h t IH]; intros i d k; simpl.
  - tauto.
  - rewrite IH, keys_setdefault.
    destruct (existsb (Z.eqb h) (map fst d)) eqn:E.
    + apply existsb_eqb_In in E. split; [tauto|].
      intros [H|[<-|H]]; auto.
    + rewrite in_app_iff. simpl. tauto.
Qed.

Lemma keys_build_from_NoDup l : forall i d,
  NoDup (map fst d) -> NoDup (map fst (build_from i l d)).
Proof.
  induction l as [|h t IH]; intros i d H; simpl; auto.
  apply IH. rewrite keys_setdefault.
  destruct (existsb (Z.eqb h) (map fst d)) eqn:E; auto.
  apply NoDup_app; auto.
  - repeat constructor. simpl. tauto.
  - intros x Hx [<-|[]]. apply existsb_eqb_In in Hx. congruence.
Qed.

Lemma hh_keys_In hh_arr k : In k (hh_keys_of hh_arr) <-> In k hh_arr.
Proof.
  unfold hh_keys_of, hh_to_rows. rewrite keys_build_from_In. simpl. tauto.
Qed.

Lemma hh_keys_NoDup hh_arr : NoDup (hh_keys_of hh_arr).
Proof. apply keys_build_from_NoDup. constructor. Qed.

Lemma insert_unique_In k l x :
  In x (insert_unique k l) <-> x = k \/ In x l.
Proof.
  induction l as [|h t IH]; simpl.
  - intuition.
  - destruct (k <? h); [simpl; intuition|].
    destruct (Z.eqb_spec k h) as [->|Hne]; simpl; [intuition|].
    rewrite IH. intuition.
Qed.

Lemma insert_unique_sorted k l :
  StronglySorted Z.lt l -> StronglySorted Z.lt (insert_unique k l).
Proof.
  induction 1 as [|h t Hs IH Hh]; simpl.
  - repeat constructor.
  - destruct (Z.ltb_spec k h) as [Hlt|Hge].
    + constructor; [constructor; auto|]. constructor; auto.
      eapply Forall_impl; [|exact Hh]. simpl; intros; lia.
    + destruct (Z.eqb_spec k h) as [->|Hne].
      * constructor; auto.
      * constructor; auto. apply Forall_forall. intros x Hx.
        apply insert_unique_In in Hx. destruct Hx as [->|Hx]; [lia|].
        rewrite Forall_forall in Hh. auto.
Qed.

Lemma np_unique_sorted l : StronglySorted Z.lt (np_unique l).
Proof. induction l; simpl; [constructor|apply insert_unique_sorted; auto]. Qed.

Lemma np_unique_In l x : In x (np_unique l) <-> In x l.
Proof.
  induction l; simpl; [tauto|]. rewrite insert_unique_In, IHl. intuition.
Qed.

Lemma sorted_lt_NoDup l : StronglySorted Z.lt l -> NoDup l.
Proof.
  induction 1 as [|h t Hs IH Hh]; constructor; auto.
  intro Hin. rewrite Forall_forall in Hh. specialize (Hh _ Hin). lia.
Qed.

Lemma n_hh_is_key_count hh_arr :
  length (np_unique hh_arr) = length (hh_keys_of hh_arr).
Proof.
  apply Permutation_length. apply NoDup_Permutation.
  - apply sorted_lt_NoDup, np_unique_sorted.
  - apply hh_keys_NoDup.
  - intro x. rewrite np_unique_In, hh_keys_In. tauto.
Qed.




(** report *)
Open Scope Q_scope.

Lemma insert_perm x l : Permutation (x :: l) (insert x l).
Proof.
  induction l as [|h t IH]; simpl; auto.
  destruct (Qle_bool x h); auto.
  rewrite perm_swap. constructor. exact IH.
Qed.

Lemma sort_perm l : Permutation l (sort l).
Proof.
  induction l as [|x l IH]; simpl; auto.
  rewrite <- insert_perm. constructor. exact IH.
Qed.

Lemma sort_length l : length (sort l) = length l.
Proof. symmetry. apply Permutation_length, sort_perm. Qed.

Lemma insert_sorted x l : Sorted Qle l -> Sorted Qle (insert x l).
Proof.
  induction 1 as [|h t Hs IH Hh]; simpl.
  - repeat constructor.
  - destruct (Qle_bool x h) eqn:E.
    + apply Qle_bool_iff in E. repeat constructor; auto.
    + constructor; auto.
      assert (Hlt : h <= x).
      { destruct (Qlt_le_dec x h) as [H|H]; auto.
        apply Qlt_le_weak in H. apply Qle_bool_iff in H. congruence. }
      destruct t as [|h' t']; simpl.
      * repeat constructor; auto.
      * destruct (Qle_bool x h'); constructor; auto.
        inversion Hh; auto.
Qed.

Lemma sort_sorted l : Sorted Qle (sort l).
Proof. induction l; simpl; [constructor|apply insert_sorted; auto]. Qed.


(** determinism *)
Lemma gathered_columns inc_arr w_arr hh_arr drawn :
  let rows := concat (map (fun hh => lookup hh (hh_to_rows hh_arr)) drawn) in
  map (fun i => nth i inc_arr 0) rows
  = concat (map (fun hh => map fst (members inc_arr w_arr hh_arr hh)) drawn) /\
  map (fun i => nth i w_arr 0) rows
  = concat (map (fun hh => map snd (members inc_arr w_arr hh_arr hh)) drawn).
Proof.
  cbv zeta. rewrite !concat_map, !map_map. split; f_equal; apply map_ext;
    intro hh; rewrite lookup_hh_to_rows; unfold members; rewrite map_map;
    reflexivity.
Qed.

Lemma replicate_loop_agree (g : RandomState) keys n_hh
  inc1 w1 hh1 inc2 w2 hh2 :
  (forall k, members inc1 w1 hh1 k = members inc2 w2 hh2 k) ->
  forall n_boot (s : rng_state g),
    res_map (map draw_and_stats)
      (replicate_loop g n_boot s inc1 w1 (hh_to_rows hh1) keys n_hh)
    = res_map (map draw_and_stats)
      (replicate_loop g n_boot s inc2 w2 (hh_to_rows hh2) keys n_hh).
Proof.
  intro Hm. induction n_boot as [|n IH]; intro s; cbn [replicate_loop].
  - reflexivity.
  - unfold draw_replicate.
    destruct (choice g s keys n_hh) as [[drawn s']|e]; cbn [bind fst snd];
      [|reflexivity].
    specialize (IH s').
    destruct (gathered_columns inc1 w1 hh1 drawn) as [-> ->].
    destruct (gathered_columns inc2 w2 hh2 drawn) as [-> ->].
    destruct (replicate_loop g n s' inc1 w1 (hh_to_rows hh1) keys n_hh);
      destruct (replicate_loop g n s' inc2 w2 (hh_to_rows hh2) keys n_hh);
      cbn [bind res_map] in *; try congruence.
    inversion IH as [IH']. cbn [map]. unfold draw_and_stats at 1 3.
    cbn [boot_hh_idx rep_stats]. rewrite IH'.
    assert (C1 : concat (map (fun hh => map fst (members inc1 w1 hh1 hh)) drawn)
                 = concat (map (fun hh => map fst (members inc2 w2 hh2 hh)) drawn))
      by (f_equal; apply map_ext; intro k; rewrite Hm; reflexivity).
    assert (C2 : concat (map (fun hh => map snd (members inc1 w1 hh1 hh)) drawn)
                 = concat (map (fun hh => map snd (members inc2 w2 hh2 hh)) drawn))
      by (f_equal; apply map_ext; intro k; rewrite Hm; reflexivity).
    rewrite C1, C2. reflexivity.
Qed.

Lemma rows_of_absent k hh_arr : ~ In k hh_arr -> rows_of k hh_arr = [].
Proof.
  intro H. destruct (rows_of k hh_arr) as [|i l] eqn:E; auto.
  exfalso. apply H. assert (Hi : In i (rows_of k hh_arr)) by (rewrite E; left; auto).
  apply rows_of_In in Hi. eapply nth_error_In; eauto.
Qed.

Lemma universe_members df1 df2 :
  cluster_universe df1 = cluster_universe df2 ->
  hh_keys_of (map PH_SEQ (valid_rows df1)) = hh_keys_of (map PH_SEQ (valid_rows df2))
  /\ forall k,
      members (map inc_of (valid_rows df1)) (map MARSUPWT (valid_rows df1))
              (map PH_SEQ (valid_rows df1)) k
      = members (map inc_of (valid_rows df2)) (map MARSUPWT (valid_rows df2))
                (map PH_SEQ (valid_rows df2)) k.
Proof.
  unfold cluster_universe. cbv zeta. intro E.
  assert (K : hh_keys_of (map PH_SEQ (valid_rows df1))
              = hh_keys_of (map PH_SEQ (valid_rows df2))).
  { apply (f_equal (map fst)) in E. rewrite !map_map in E. simpl in E.
    rewrite !map_id in E. exact E. }
  split; [exact K|]. intro k. rewrite <- K in E.
  destruct (in_dec Z.eq_dec k (hh_keys_of (map PH_SEQ (valid_rows df1)))) as [Hin|Hout].
  - pose proof (ext_in_map E k Hin) as P. inversion P. reflexivity.
  - unfold members. rewrite !rows_of_absent; auto.
    + rewrite <- hh_keys_In, <- K. exact Hout.
    + rewrite <- hh_keys_In. exact Hout.
Qed.

Lemma bootstrap_ci_of_stats (g : RandomState) np_sqrt n_boot seed df1 df2 :
  res_map (map draw_and_stats) (bootstrap_replicates g n_boot seed df1)
  = res_map (map draw_and_stats) (bootstrap_replicates g n_boot seed df2) ->
  bootstrap_ci g np_sqrt n_boot seed df1 = bootstrap_ci g np_sqrt n_boot seed df2.
Proof.
  unfold bootstrap_ci. intro H.
  destruct (bootstrap_replicates g n_boot seed df1) as [r1|e1];
    destruct (bootstrap_replicates g n_boot seed df2) as [r2|e2];
    cbn [res_map bind] in *; try congruence.
  inversion H as [H']. f_equal. apply map_ext. intros [name proj]. cbn [fst snd].
  f_equal.
  apply (f_equal (map snd)) in H'. rewrite !map_map in H'.
  change (map rep_stats r1 = map rep_stats r2) in H'.
  rewrite <- (map_map rep_stats proj r1), <- (map_map rep_stats proj r2), H'.
  reflexivity.
Qed.

(** *** Replicates and the reported interval *)




(** *** Reproducibility *)

(** C6 (as amended).  For a fixed generator and seed the replicate draws,
    the replicate statistics and the reported intervals depend on the
    data only through the cluster universe taken in order: the household
    keys in order of first appearance, each with its member observations
    in row order.  Two data sets with the same ordered universe give
    identical draws and identical intervals, however their rows are
    interleaved. *)
Theorem bootstrap_depends_on_ordered_universe (g : RandomState) (np_sqrt : Q -> Q)
  (n_boot : nat) (seed : Z) (df1 df2 : list person) :
  cluster_universe df1 = cluster_universe df2 ->
  res_map (map draw_and_stats) (bootstrap_replicates g n_boot seed df1)
  = res_map (map draw_and_stats) (bootstrap_replicates g n_boot seed df2)
  /\ bootstrap_ci g np_sqrt n_boot seed df1
     = bootstrap_ci g np_sqrt n_boot seed df2
  /\ test_bootstrap_ci g np_sqrt df1 = test_bootstrap_ci g np_sqrt df2.
Proof.
  intro U. destruct (universe_members df1 df2 U) as [K M].
  assert (R : res_map (map draw_and_stats) (bootstrap_replicates g n_boot seed df1)
              = res_map (map draw_and_stats) (bootstrap_replicates g n_boot seed df2)).
  { unfold bootstrap_replicates. cbv zeta.
    rewrite !n_hh_is_key_count. fold (hh_keys_of (map PH_SEQ (valid_rows df1))).
    fold (hh_keys_of (map PH_SEQ (valid_rows df2))). rewrite <- K.
    apply replicate_loop_agree. exact M. }
  split; [exact R|]. split.
  - apply bootstrap_ci_of_stats. exact R.
  - unfold test_bootstrap_ci. apply bootstrap_ci_of_stats.
    unfold bootstrap_replicates. cbv zeta.
    rewrite !n_hh_is_key_count. fold (hh_keys_of (map PH_SEQ (valid_rows df1))).
    fold (hh_keys_of (map PH_SEQ (valid_rows df2))). rewrite <- K.
    apply replicate_loop_agree. exact M.
Qed.

Lemma bootstrap_depends_on_ordered_universe_witness :
  test_bootstrap_ci lcg newton_sqrt interleaved_first
  = test_bootstrap_ci lcg newton_sqrt interleaved_second.
Proof.
  destruct (@bootstrap_depends_on_ordered_universe lcg newton_sqrt 500 42
              interleaved_first interleaved_second) as (_ & _ & E).
  - vm_compute. reflexivity.
  - exact E.
Defined.

(** C6, counterexample.  Two data sets with the same three households and
    the same members, listed in opposite orders: the cluster universe is
    the same set, the seed is the same, and the reported intervals
    differ. *)
Lemma bootstrap_depends_on_row_order :
  Permutation (cluster_universe households_first)
              (cluster_universe households_second) /\
  Permutation households_first households_second /\
  res_map (map boot_hh_idx) (bootstrap_replicates lcg 500 42 households_first)
  <> res_map (map boot_hh_idx)
             (bootstrap_replicates lcg 500 42 households_second) /\
  exists ci1 ci2,
    test_bootstrap_ci lcg newton_sqrt households_first = Ok ci1 /\
    test_bootstrap_ci lcg newton_sqrt households_second = Ok ci2 /\
    map (fun r => Qred (ci_mean r)) ci1 <> map (fun r => Qred (ci_mean r)) ci2.
Proof.
  split; [|split; [|split]].
  - vm_compute. apply Permutation_rev.
  - apply Permutation_rev.
  - vm_compute. discriminate.
  - do 2 eexists. split; [vm_compute; reflexivity|].
    split; [vm_compute; reflexivity|]. vm_compute. discriminate.
Qed.

End BootstrapFacts.

(** ** E. Attribution and welfare weighting *)

Section AttributionFacts.
Import Np Attribution Examples.
Local Open Scope Q_scope.

Lemma dict_set_keys (V : Type) k (v : V) d :
  In k (map fst d) -> map fst (dict_set k v d) = map fst d.
Proof.
  induction d as [|[k' v'] d IH]; simpl; [contradiction|].
  intros [->|H].
  - rewrite String.eqb_refl. reflexivity.
  - destruct (String.eqb k k'); simpl; [reflexivity|]. f_equal. auto.
Qed.

Lemma add_cut_keys cut shares : forall d,
  Forall (fun qs => In (fst qs) (map fst d)) shares ->
  map fst (add_cut cut shares d) = map fst d.
Proof.
  unfold add_cut. induction shares as [|qs shares IH]; intros d H; simpl; auto.
  pose proof (Forall_inv H) as H1. pose proof (Forall_inv_tail H) as H2.
  rewrite IH.
  - apply dict_set_keys. exact H1.
  - rewrite dict_set_keys by exact H1. exact H2.
Qed.

Lemma welfare_analysis_filter total_impacts quintile_data :
  welfare_analysis total_impacts quintile_data
  = map (welfare_row_of total_impacts)
        (filter (eligible total_impacts) quintile_data).
Proof.
  induction quintile_data as [|row rest IH]; [reflexivity|].
  cbn [welfare_analysis filter]. unfold eligible at 1.
  destruct (dict_get (q_quintile row) total_impacts) as [imp|] eqn:E; [|exact IH].
  destruct (Qle_bool (q_mean_posttax_income row) 0) eqn:G.
  - assert (L : Qltb 0 (q_mean_posttax_income row) = false)
      by (apply Qltb_false, Qle_bool_iff; exact G).
    rewrite L. exact IH.
  - assert (L : Qltb 0 (q_mean_posttax_income row) = true)
      by (unfold Qltb; rewrite G; reflexivity).
    rewrite L. cbn [map]. rewrite <- IH. f_equal.
    unfold welfare_row_of. rewrite E. reflexivity.
Qed.

Lemma attribution_returns policy_gap tariff_gap quintile_data :
  b50_income_of quintile_data <> None ->
  exists total_impacts,
    distributional_attribution policy_gap tariff_gap quintile_data
    = Ok total_impacts /\
    map fst total_impacts = quintile_labels /\
    Forall (fun qi : string * impact =>
              (population (snd qi) <= 0 -> per_person (snd qi) = 0) /\
              (0 < population (snd qi) ->
               per_person (snd qi)
               = total_impact_B (snd qi) * 1000000000 / population (snd qi)))
           total_impacts.
Proof.
  intro Hb. unfold distributional_attribution.
  destruct (b50_income_of quintile_data) as [b|]; [|congruence].
  eexists. split; [reflexivity|]. split.
  - rewrite map_map. cbn [fst].
    rewrite !add_cut_keys; try reflexivity;
      repeat (rewrite ?add_cut_keys; try (repeat constructor; cbn; tauto)).
  - apply Forall_map. apply Forall_forall. intros [q spend] _.
    cbn [fst snd population per_person total_impact_B].
    set (pop := get_or q 1 _).
    destruct (Qltb 0 pop) eqn:G.
    + apply Qltb_true in G. split; [intro; lra|reflexivity].
    + apply Qltb_false in G. split; [reflexivity|intro; lra].
Qed.

(** *** Division guards *)

(** C9 (as amended).  Neither function raises an error for a degenerate
    stratum.  [distributional_attribution], whenever it returns (the
    quintile table has a 'Bottom 50%' row), returns an entry for each of
    the five quintiles; an entry whose population is not positive gets a
    per-person impact of 0, every other entry gets
    [total * 1e9 / population].  [welfare_analysis] always returns; it
    writes one row, with the weight [(31343 / income)^2] and the loss
    times that weight, for each input row whose quintile is known and
    whose mean income is positive, in order, and passes over the other
    rows without a trace; the rows it keeps are all computed. *)
Theorem attribution_guards (policy_gap : dict Q) (tariff_gap : Q)
  (quintile_data : list quintile_row) (total_impacts : dict impact) :
  (b50_income_of quintile_data <> None ->
   exists t,
     distributional_attribution policy_gap tariff_gap quintile_data = Ok t /\
     map fst t = quintile_labels /\
     Forall (fun qi : string * impact =>
               (population (snd qi) <= 0 -> per_person (snd qi) = 0) /\
               (0 < population (snd qi) ->
                per_person (snd qi)
                = total_impact_B (snd qi) * 1000000000 / population (snd qi)))
            t) /\
  welfare_analysis total_impacts quintile_data
  = map (welfare_row_of total_impacts)
        (filter (eligible total_impacts) quintile_data) /\
  (forall row, In row quintile_data ->
               q_mean_posttax_income row <= 0 ->
               eligible total_impacts row = false).
Proof.
  split; [apply attribution_returns|]. split; [apply welfare_analysis_filter|].
  intros row _ H. unfold eligible.
  destruct (dict_get (q_quintile row) total_impacts); [|reflexivity].
  apply Qltb_false. exact H.
Qed.

Lemma attribution_guards_witness :
  exists t,
    distributional_attribution [("Medicaid"%string, - (36))] 100 strata = Ok t
    /\ map fst t = quintile_labels.
Proof.
  destruct (@attribution_guards [("Medicaid"%string, - (36))] 100 strata [])
    as (H & _).
  destruct H as (t & E & K & _).
  - vm_compute. discriminate.
  - exists t. split; [exact E|exact K].
Defined.

(** C9, counterexample.  A table in which the second quintile has no
    population and the third no income: no error is raised; the second
    quintile gets a per-person impact of 0, and the third is missing from
    the welfare table, which has rows for the other four. *)
Lemma degenerate_strata_silent :
  exists t,
    distributional_attribution [("Medicaid"%string, - (36))] 100 strata = Ok t
    /\ option_map per_person (dict_get "Q2" t) = Some 0
    /\ option_map (fun i => Qred (total_impact_B i)) (dict_get "Q2" t)
       = Some (- 159 # 5)
    /\ map w_quintile (welfare_analysis t strata)
       = ["Q1 (Bottom 20%)"; "Q2"; "Q4"; "Q5 (Top 20%)"]%string.
Proof.
  eexists. split; [vm_compute; reflexivity|].
  split; [reflexivity|]. split; [vm_compute; reflexivity|].
  vm_compute. reflexivity.
Qed.

End AttributionFacts.

(** * Further properties *)

(** ** A. Ranked frame, quintile table, income shares, Gini *)

Section MoreDistributionalFacts.
Import Np Distributional Bootstrap Examples Order.
Local Open Scope Q_scope.

Opaque sum.

(** *** The order of the ranked frame *)

Lemma cumsum_from_increasing l : forall acc,
  Forall (fun x => 0 < x) l -> StronglySorted Qlt (cumsum_from acc l).
Proof.
  induction l as [|x l IH]; intros acc H; simpl; constructor.
  - apply IH. exact (Forall_inv_tail H).
  - pose proof (Forall_inv H) as Hx. simpl in Hx.
    pose proof (cumsum_from_pos (acc + x) (Forall_inv_tail H)) as P.
    eapply Forall_impl; [|exact P]. simpl. intros c [H1 _]. exact H1.
Qed.

Lemma combine_sorted (W : Q) (valid : list row) : forall (cum : list Q),
  StronglySorted by_income valid -> StronglySorted Qlt cum -> 0 < W ->
  StronglySorted (fun a b : row * Q =>
                    income (fst a) <= income (fst b) /\ snd a / W < snd b / W)
                 (combine valid cum).
Proof.
  induction valid as [|r valid IH]; intros cum Hv Hc HW; simpl.
  - constructor.
  - destruct cum as [|c cum]; [constructor|].
    apply StronglySorted_inv in Hv. destruct Hv as [Hv1 Hv2].
    apply StronglySorted_inv in Hc. destruct Hc as [Hc1 Hc2].
    constructor; [apply IH; assumption|].
    apply Forall_forall. intros [r' c'] Hin. simpl.
    pose proof (in_combine_l _ _ _ _ Hin) as Hr.
    pose proof (in_combine_r _ _ _ _ Hin) as Hcc.
    rewrite Forall_forall in Hv2, Hc2. split.
    + apply Hv2. exact Hr.
    + apply Qmult_lt_compat_r; [apply Qinv_lt_0_compat; exact HW|].
      apply Hc2. exact Hcc.
Qed.

Lemma StronglySorted_map (A B : Type) (R : A -> A -> Prop) (S : B -> B -> Prop)
  (f : A -> B) (l : list A) :
  (forall a b, R a b -> S (f a) (f b)) ->
  StronglySorted R l -> StronglySorted S (map f l).
Proof.
  intros H. induction 1; simpl; constructor; auto.
  apply Forall_map. eapply Forall_impl; [|eassumption]. auto.
Qed.

Lemma rank_rows_sorted df : StronglySorted ranked_before (rank_rows df).
Proof.
  unfold rank_rows.
  set (valid := sort_values (positive_weight df)).
  destruct valid as [|r0 valid'] eqn:Ev; [constructor|].
  rewrite <- Ev.
  assert (Hw : Forall (fun w => 0 < w) (map weight valid)).
  { apply Forall_map. apply sort_values_Forall, positive_weight_Forall. }
  assert (HW : 0 < sum (map weight valid)).
  { apply sum_pos; [rewrite Ev; discriminate|exact Hw]. }
  eapply StronglySorted_map;
    [|apply (@combine_sorted (sum (map weight valid)) valid (cumsum (map weight valid)))].
  - intros [ra ca] [rb cb] H. exact H.
  - apply Sorted_StronglySorted; [exact by_income_trans|].
    apply sort_values_sorted.
  - apply cumsum_from_increasing. exact Hw.
  - exact HW.
Qed.

Lemma StronglySorted_nth (A : Type) (R : A -> A -> Prop) (l : list A) :
  StronglySorted R l -> forall i j a b,
  (i < j)%nat -> nth_error l i = Some a -> nth_error l j = Some b -> R a b.
Proof.
  induction 1 as [|x l Hs IH Hx]; intros i j a b Hij Ha Hb.
  - destruct i; discriminate.
  - destruct j as [|j]; [lia|]. simpl in Hb.
    destruct i as [|i]; simpl in Ha.
    + injection Ha as <-. rewrite Forall_forall in Hx. apply Hx.
      eapply nth_error_In; eassumption.
    + eapply IH; [|eassumption|eassumption]. lia.
Qed.

Lemma sorted_in_order (l : list ranked) :
  StronglySorted ranked_before l -> forall a b,
  In a l -> In b l -> cum_pct a < cum_pct b -> r_income a <= r_income b.
Proof.
  induction 1 as [|x l Hs IH Hx]; intros a b Ha Hb Hlt; [contradiction|].
  rewrite Forall_forall in Hx.
  destruct Ha as [<-|Ha]; destruct Hb as [<-|Hb].
  - lra.
  - apply Hx. exact Hb.
  - destruct (Hx a Ha) as [_ H]. lra.
  - apply IH; assumption.
Qed.

Lemma edges_monotone x y qa qb :
  lower_edge qa < x -> x <= upper_edge qa ->
  lower_edge qb < y -> y <= upper_edge qb ->
  x <= y -> upper_edge qa <= upper_edge qb.
Proof.
  destruct qa, qb; simpl; intros; lra.
Qed.

Lemma edges_separate x y qa qb :
  lower_edge qa < x -> x <= upper_edge qa ->
  lower_edge qb < y -> y <= upper_edge qb ->
  upper_edge qa < upper_edge qb -> x < y.
Proof.
  destruct qa, qb; simpl; intros; lra.
Qed.

Lemma rank_rows_edges df r q :
  In r (rank_rows df) -> r_quintile r = Some q ->
  lower_edge q < cum_pct r /\ cum_pct r <= upper_edge q.
Proof.
  intros Hin Hq.
  pose proof (rank_rows_pct df) as H1. pose proof (rank_rows_quintile df) as H2.
  rewrite Forall_forall in H1, H2.
  destruct (H1 r Hin) as [Ha Hb]. rewrite (H2 r Hin) in Hq.
  apply pd_cut_interval in Hq; assumption.
Qed.

(** *** Weighted means of groups *)

Lemma mul_map_gen (A : Type) (f g : A -> Q) (l : list A) :
  mul (map f l) (map g l) = map (fun r => f r * g r) l.
Proof. induction l; simpl; congruence. Qed.

Lemma rank_rows_In df r :
  In r (rank_rows df) ->
  In (r_income r, r_weight r) df /\ 0 < r_weight r.
Proof.
  intro Hin.
  assert (H : In (r_income r, r_weight r) (sort_values (positive_weight df))).
  { rewrite <- rank_rows_rows.
    apply (in_map (fun r => (r_income r, r_weight r))). exact Hin. }
  apply (Permutation_in _ (Permutation_sym (sort_values_perm _))) in H.
  unfold positive_weight in H. apply filter_In in H. destruct H as [H1 H2].
  split; [exact H1|]. apply Qltb_true in H2. exact H2.
Qed.

Lemma rank_rows_length df :
  length (rank_rows df) = length (positive_weight df).
Proof.
  rewrite <- (sort_values_length (positive_weight df)), <- rank_rows_rows.
  rewrite length_map. reflexivity.
Qed.

Lemma weighted_sum_le (rows : list ranked) (c : Q) :
  Forall (fun r => 0 < r_weight r) rows ->
  Forall (fun r => r_income r <= c) rows ->
  sum (map (fun r => r_income r * r_weight r) rows)
  <= c * sum (map r_weight rows).
Proof.
  induction rows as [|r rows IH]; intros Hw Hc; simpl map.
  - rewrite !sum_nil. lra.
  - rewrite !sum_cons.
    pose proof (Forall_inv Hw) as W. pose proof (Forall_inv Hc) as C.
    simpl in W, C.
    specialize (IH (Forall_inv_tail Hw) (Forall_inv_tail Hc)). nra.
Qed.

Lemma weighted_sum_ge (rows : list ranked) (c : Q) :
  Forall (fun r => 0 < r_weight r) rows ->
  Forall (fun r => c <= r_income r) rows ->
  c * sum (map r_weight rows)
  <= sum (map (fun r => r_income r * r_weight r) rows).
Proof.
  induction rows as [|r rows IH]; intros Hw Hc; simpl map.
  - rewrite !sum_nil. lra.
  - rewrite !sum_cons.
    pose proof (Forall_inv Hw) as W. pose proof (Forall_inv Hc) as C.
    simpl in W, C.
    specialize (IH (Forall_inv_tail Hw) (Forall_inv_tail Hc)). nra.
Qed.

Lemma weights_sum_pos (rows : list ranked) :
  rows <> [] -> Forall (fun r => 0 < r_weight r) rows ->
  0 < sum (map r_weight rows).
Proof.
  intros Hne Hw. apply sum_pos.
  - destruct rows; [congruence|discriminate].
  - apply Forall_map. exact Hw.
Qed.

(** What [summarise] returns, and when. *)
Lemma summarise_ok name rows g :
  summarise name rows = Ok g ->
  ~ sum (map r_weight rows) == 0 /\ rows <> [] /\
  g_label g = name /\ g_n_records g = length rows /\
  mean_income g
  = sum (map (fun r => r_income r * r_weight r) rows) / sum (map r_weight rows).
Proof.
  unfold summarise, np_average.
  destruct (Qeq_bool (sum (map r_weight rows)) 0) eqn:E; simpl; [discriminate|].
  intro H. injection H as <-. simpl.
  assert (N : ~ sum (map r_weight rows) == 0).
  { intro Z. apply Qeq_bool_iff in Z. congruence. }
  split; [exact N|]. split.
  - intros ->. apply N. simpl. rewrite sum_nil. reflexivity.
  - rewrite mul_map_gen. auto.
Qed.

Lemma summarise_nonempty name rows :
  rows <> [] -> Forall (fun r => 0 < r_weight r) rows ->
  exists g, summarise name rows = Ok g.
Proof.
  intros Hne Hw. pose proof (weights_sum_pos Hne Hw) as P.
  unfold summarise, np_average.
  destruct (Qeq_bool (sum (map r_weight rows)) 0) eqn:E.
  - apply Qeq_bool_iff in E. lra.
  - simpl. eexists. reflexivity.
Qed.

Lemma summarise_empty name : summarise name [] = Raise ZeroDivisionError.
Proof. reflexivity. Qed.

Lemma summarise_outcome name rows :
  Forall (fun r => 0 < r_weight r) rows ->
  (rows = [] /\ summarise name rows = Raise ZeroDivisionError) \/
  (rows <> [] /\ exists g, summarise name rows = Ok g).
Proof.
  intro Hw. destruct rows as [|r rows].
  - left. split; reflexivity.
  - right. split; [discriminate|]. apply summarise_nonempty; [discriminate|exact Hw].
Qed.

Lemma group_means_ordered (l : list ranked) (p q : ranked -> bool)
  (na nb : string) (ga gb : group_stats) :
  Forall (fun r => 0 < r_weight r) l ->
  (forall a b, In a l -> In b l -> p a = true -> q b = true ->
               r_income a <= r_income b) ->
  summarise na (filter p l) = Ok ga ->
  summarise nb (filter q l) = Ok gb ->
  mean_income ga <= mean_income gb.
Proof.
  intros Hw Hord Ha Hb.
  apply summarise_ok in Ha. destruct Ha as (_ & HneA & _ & _ & EA).
  apply summarise_ok in Hb. destruct Hb as (_ & HneB & _ & _ & EB).
  assert (WA : Forall (fun r => 0 < r_weight r) (filter p l)).
  { apply Forall_forall. intros r Hr. apply filter_In in Hr.
    rewrite Forall_forall in Hw. apply Hw. tauto. }
  assert (WB : Forall (fun r => 0 < r_weight r) (filter q l)).
  { apply Forall_forall. intros r Hr. apply filter_In in Hr.
    rewrite Forall_forall in Hw. apply Hw. tauto. }
  pose proof (weights_sum_pos HneA WA) as PA.
  pose proof (weights_sum_pos HneB WB) as PB.
  rewrite EA, EB.
  assert (Below : forall b, In b (filter q l) ->
            sum (map (fun r => r_income r * r_weight r) (filter p l))
            / sum (map r_weight (filter p l)) <= r_income b).
  { intros b Hb. apply filter_In in Hb. destruct Hb as [Hb1 Hb2].
    apply Qle_shift_div_r; [exact PA|].
    apply weighted_sum_le; [exact WA|].
    apply Forall_forall. intros a Ha. apply filter_In in Ha.
    destruct Ha as [Ha1 Ha2]. apply Hord; assumption. }
  apply Qle_shift_div_l; [exact PB|].
  apply weighted_sum_ge; [exact WB|].
  apply Forall_forall. exact Below.
Qed.

Lemma summarise_all_ok valid : forall qs gs,
  summarise_all qs valid = Ok gs ->
  Forall2 (fun q g => summarise (label q) (filter (in_quintile q) valid) = Ok g)
          qs gs.
Proof.
  induction qs as [|q qs IH]; intros gs H; simpl in H.
  - injection H as <-. constructor.
  - destruct (summarise (label q) (filter (in_quintile q) valid)) as [g|e] eqn:E;
      simpl in H; [|discriminate].
    destruct (summarise_all qs valid) as [gs'|e] eqn:E'; simpl in H; [|discriminate].
    injection H as <-. constructor; [exact E|]. apply IH. reflexivity.
Qed.

Lemma summarise_all_raise valid : forall qs,
  Forall (fun r => 0 < r_weight r) valid ->
  (exists q, In q qs /\ filter (in_quintile q) valid = []) ->
  summarise_all qs valid = Raise ZeroDivisionError.
Proof.
  induction qs as [|q qs IH]; intros Hw [q0 [Hin He]]; [contradiction|].
  simpl.
  assert (WA : Forall (fun r => 0 < r_weight r) (filter (in_quintile q) valid)).
  { apply Forall_forall. intros r Hr. apply filter_In in Hr.
    rewrite Forall_forall in Hw. apply Hw. tauto. }
  destruct (summarise_outcome (label q) WA) as [[E1 E2]|[E1 [g E2]]].
  - rewrite E2. reflexivity.
  - rewrite E2. simpl.
    destruct Hin as [->|Hin]; [congruence|].
    rewrite IH; [reflexivity|exact Hw|]. exists q0. split; assumption.
Qed.

Lemma summarise_all_returns valid : forall qs,
  Forall (fun r => 0 < r_weight r) valid ->
  (forall q, In q qs -> filter (in_quintile q) valid <> []) ->
  exists gs, summarise_all qs valid = Ok gs /\ length gs = length qs.
Proof.
  induction qs as [|q qs IH]; intros Hw Hne; simpl.
  - exists []. split; reflexivity.
  - assert (WA : Forall (fun r => 0 < r_weight r) (filter (in_quintile q) valid)).
    { apply Forall_forall. intros r Hr. apply filter_In in Hr.
      rewrite Forall_forall in Hw. apply Hw. tauto. }
    destruct (summarise_nonempty (label q) (Hne q (or_introl eq_refl)) WA)
      as [g Eg].
    destruct (IH Hw) as (gs & Egs & L).
    { intros q' Hq'. apply Hne. right. exact Hq'. }
    rewrite Eg, Egs. simpl. exists (g :: gs). split; [reflexivity|].
    simpl. congruence.
Qed.

Lemma rank_rows_weights df :
  Forall (fun r => 0 < r_weight r) (rank_rows df).
Proof.
  apply Forall_forall. intros r Hr. apply rank_rows_In in Hr. tauto.
Qed.

(** The last row of a non-empty ranked frame holds the whole weight. *)
Lemma cumsum_last_total l : forall acc,
  l <> [] -> exists c', In c' (cumsum_from acc l) /\ c' == acc + sum l.
Proof.
  induction l as [|x l IH]; intros acc Hne; [congruence|].
  destruct l as [|y l].
  - exists (acc + x). split; [left; reflexivity|].
    rewrite sum_cons, sum_nil. lra.
  - destruct (IH (acc + x)) as (c' & Hc' & E); [discriminate|].
    exists c'. split; [right; exact Hc'|].
    rewrite E. rewrite (sum_cons x). lra.
Qed.

Lemma combine_In_r (A B : Type) (l : list A) : forall (l' : list B) (b : B),
  length l = length l' -> In b l' -> exists a, In (a, b) (combine l l').
Proof.
  induction l as [|a l IH]; intros [|b' l'] b L Hin;
    simpl in *; try contradiction; try discriminate.
  destruct Hin as [<-|Hin].
  - exists a. left. reflexivity.
  - destruct (IH l' b) as [a' Ha']; [congruence|exact Hin|].
    exists a'. right. exact Ha'.
Qed.

Lemma rank_rows_top df :
  rank_rows df <> [] -> exists r, In r (rank_rows df) /\ cum_pct r == 1.
Proof.
  unfold rank_rows.
  set (valid := sort_values (positive_weight df)).
  intro Hne.
  assert (Hv : valid <> []).
  { intro E. apply Hne. rewrite E. reflexivity. }
  assert (Hw : Forall (fun w => 0 < w) (map weight valid)).
  { apply Forall_map. apply sort_values_Forall, positive_weight_Forall. }
  assert (Hm : map weight valid <> []).
  { destruct valid; [congruence|discriminate]. }
  assert (HW : 0 < sum (map weight valid)) by (apply sum_pos; assumption).
  destruct (@cumsum_last_total (map weight valid) 0 Hm) as (c' & Hc' & E').
  assert (L : length valid = length (cumsum_from 0 (map weight valid))).
  { rewrite cumsum_from_length, length_map. reflexivity. }
  destruct (combine_In_r valid _ c' L Hc') as [r' Hr'].
  eexists. split.
  - apply in_map. exact Hr'.
  - simpl. rewrite E'. field. lra.
Qed.

(** *** Flags and quintiles of a row *)

Lemma rank_rows_flags df r :
  In r (rank_rows df) ->
  bottom_50 r = Qle_bool (cum_pct r) (50 # 100) /\
  top_10 r = Qltb (90 # 100) (cum_pct r) /\
  top_1 r = Qltb (99 # 100) (cum_pct r).
Proof.
  intro Hin. unfold rank_rows in Hin. apply in_map_iff in Hin.
  destruct Hin as (x & <- & _). repeat split.
Qed.

Lemma in_quintile_iff r qa :
  in_quintile qa r = true <-> r_quintile r = Some qa.
Proof.
  unfold in_quintile. destruct (r_quintile r) as [q'|].
  - destruct qa, q'; simpl; split; intro H; congruence.
  - split; intro H; discriminate.
Qed.

Lemma nonempty_length (A : Type) (l : list A) : l <> [] -> (1 <= length l)%nat.
Proof. destruct l; [congruence|simpl; lia]. Qed.

Lemma filter_nonempty (A : Type) (p : A -> bool) (l : list A) (a : A) :
  In a l -> p a = true -> filter p l <> [].
Proof.
  intros Hin Hp E.
  assert (In a (filter p l)) by (apply filter_In; split; assumption).
  rewrite E in H. contradiction.
Qed.

(** *** Non-negative incomes *)

Lemma sum_filter_le (f : ranked -> Q) (p q : ranked -> bool) (l : list ranked) :
  Forall (fun r => 0 <= f r) l ->
  (forall r, In r l -> p r = true -> q r = true) ->
  0 <= sum (map f (filter p l)) /\
  sum (map f (filter p l)) <= sum (map f (filter q l)).
Proof.
  induction l as [|r l IH]; intros Hf Hpq.
  - simpl. rewrite sum_nil. lra.
  - pose proof (Forall_inv Hf) as F0. simpl in F0.
    destruct (IH (Forall_inv_tail Hf)) as [I1 I2].
    { intros r' Hr'. apply Hpq. right. exact Hr'. }
    rewrite !filter_cons_if.
    destruct (p r) eqn:Ep.
    + rewrite (Hpq r (or_introl eq_refl) Ep). simpl map. rewrite !sum_cons. lra.
    + destruct (q r); simpl map; rewrite ?sum_cons; lra.
Qed.

(** *** Rescaling incomes and weights *)

Lemma Qle_bool_scale c a b : 0 < c -> Qle_bool (c * a) (c * b) = Qle_bool a b.
Proof.
  intro Hc. destruct (Qle_bool a b) eqn:E.
  - apply Qle_bool_iff. apply Qle_bool_iff in E. nra.
  - destruct (Qle_bool (c * a) (c * b)) eqn:E'; [|reflexivity].
    apply Qle_bool_iff in E'.
    assert (a <= b) by nra. apply Qle_bool_iff in H. congruence.
Qed.

Lemma Qltb_scale s a b : 0 < s -> b == s * a -> Qltb 0 b = Qltb 0 a.
Proof.
  intros Hs E. destruct (Qltb_spec 0 a) as [[-> H]|[-> H]].
  - apply Qltb_true. rewrite E. nra.
  - apply Qltb_false. rewrite E. nra.
Qed.

Lemma insert_row_scale c k x l :
  0 < c ->
  insert_row (c * income x, k * weight x)
             (map (fun r => (c * income r, k * weight r)) l)
  = map (fun r => (c * income r, k * weight r)) (insert_row x l).
Proof.
  intro Hc. induction l as [|h l IH]; [reflexivity|].
  simpl. unfold income at 1 2. simpl fst. rewrite (Qle_bool_scale _ _ Hc).
  fold (income x). fold (income h).
  destruct (Qle_bool (income x) (income h)); [reflexivity|].
  simpl. f_equal. exact IH.
Qed.

Lemma sort_values_scale c k l :
  0 < c ->
  sort_values (map (fun r => (c * income r, k * weight r)) l)
  = map (fun r => (c * income r, k * weight r)) (sort_values l).
Proof.
  intro Hc. induction l as [|x l IH]; [reflexivity|].
  change (insert_row (c * income x, k * weight x)
            (sort_values (map (fun r => (c * income r, k * weight r)) l))
          = map (fun r => (c * income r, k * weight r))
                (insert_row x (sort_values l))).
  rewrite IH. apply insert_row_scale. exact Hc.
Qed.

(** Two arrays, the second the first times [s]. *)
Lemma cumsum_from_scaled s l l' : Forall2 (fun x y => y == s * x) l l' ->
  forall acc acc', acc' == s * acc ->
  Forall2 (fun x y => y == s * x) (cumsum_from acc l) (cumsum_from acc' l').
Proof.
  induction 1 as [|x y l l' Hxy Hl IH]; intros acc acc' Ha; simpl; constructor.
  - rewrite Hxy, Ha. ring.
  - apply IH. rewrite Hxy, Ha. ring.
Qed.

Lemma last_scaled s l l' : Forall2 (fun x y => y == s * x) l l' ->
  forall d d', d' == s * d -> last l' d' == s * last l d.
Proof.
  induction 1 as [|x y l l' Hxy Hl IH]; intros d d' Hd; [exact Hd|].
  destruct Hl as [|x2 y2 l2 l2' H2 Hl2].
  - exact Hxy.
  - change (last (y2 :: l2') d' == s * last (x2 :: l2) d).
    apply IH. exact Hd.
Qed.

Lemma sum_Forall2 l l' : Forall2 Qeq l l' -> sum l == sum l'.
Proof.
  induction 1 as [|x y l l' Hxy Hl IH]; [reflexivity|].
  rewrite !sum_cons, Hxy, IH. reflexivity.
Qed.

Lemma gini_terms_scaled s k T T' W W' cs cs' :
  ~ T == 0 -> ~ W == 0 -> ~ s == 0 -> ~ k == 0 ->
  T' == s * T -> W' == k * W ->
  Forall2 (fun x y => y == s * x) cs cs' ->
  forall ws ws', Forall2 (fun x y => y == k * x) ws ws' ->
  Forall2 Qeq (gini_terms cs ws T W) (gini_terms cs' ws' T' W').
Proof.
  intros HT HW Hs Hk ET EW. induction 1 as [|c c' cs cs' Hc Hcs IH];
    intros ws ws' Hws.
  - constructor.
  - destruct Hws as [|w w' ws ws' Hw Hws]; [constructor|].
    rewrite !gini_terms_cons. constructor; [|apply IH; exact Hws].
    rewrite Hc, Hw, ET, EW. field. auto.
Qed.

Lemma Forall2_map_scaled (A : Type) (f : A -> Q) s (l : list A) :
  Forall2 (fun x y => y == s * x) (map f l) (map (fun r => s * f r) l).
Proof. induction l; simpl; constructor; [reflexivity|assumption]. Qed.

Lemma mul_scaled c k a a' : Forall2 (fun x y => y == c * x) a a' ->
  forall b b', Forall2 (fun x y => y == k * x) b b' ->
  Forall2 (fun x y => y == (c * k) * x) (mul a b) (mul a' b').
Proof.
  induction 1 as [|x y a a' Hxy Ha IH]; intros b b' Hb.
  - destruct Hb; constructor.
  - destruct Hb as [|u v b b' Huv Hb]; [constructor|].
    simpl. constructor; [|apply IH; exact Hb].
    rewrite Hxy, Huv. ring.
Qed.

(** *** X4. Income shares of non-negative incomes *)

(** X4.  When no record of positive weight has a negative income and
    [compute_income_shares] reports shares, the weighted income total is
    positive, each of the bottom-50%, middle-40% and top-10% shares lies
    between 0 and 100, and the top-1% share lies between 0 and the
    top-10% share. *)
Theorem income_shares_bounds (df : list row) (sh : income_shares) :
  Forall (fun r => 0 < weight r -> 0 <= income r) df ->
  compute_income_shares df = Some sh ->
  0 < shares_total sh /\
  (0 <= bottom_50_share sh /\ bottom_50_share sh <= 100) /\
  (0 <= middle_40_share sh /\ middle_40_share sh <= 100) /\
  (0 <= top_10_share sh /\ top_10_share sh <= 100) /\
  (0 <= top_1_share sh /\ top_1_share sh <= top_10_share sh).
Proof.
  intros Hpos H. unfold compute_income_shares in H.
  set (l := rank_rows df) in *.
  set (f := fun r => r_income r * r_weight r).
  unfold group_total in H. fold f in H.
  destruct (Qle_bool (sum (map f (filter (fun _ => true) l))) 0) eqn:G;
    [discriminate|].
  injection H as <-. cbn [shares_total bottom_50_share middle_40_share
                          top_10_share top_1_share].
  assert (T : 0 < sum (map f (filter (fun _ => true) l))).
  { apply Qltb_true. unfold Qltb. rewrite G. reflexivity. }
  set (total := sum (map f (filter (fun _ => true) l))) in *.
  assert (Hf : Forall (fun r => 0 <= f r) l).
  { apply Forall_forall. intros r Hr. apply rank_rows_In in Hr.
    destruct Hr as [Hr Hw]. rewrite Forall_forall in Hpos.
    specialize (Hpos _ Hr Hw). simpl in Hpos. unfold f. nra. }
  assert (B : forall p, 0 <= sum (map f (filter p l)) /\
                        sum (map f (filter p l)) <= total).
  { intro p. apply (sum_filter_le f p (fun _ => true) Hf). auto. }
  assert (S : forall g, 0 <= g -> g <= total ->
                        0 <= g / total * 100 /\ g / total * 100 <= 100).
  { intros g G0 G1.
    assert (0 <= g / total) by (apply Qle_shift_div_l; lra).
    assert (g / total <= 1) by (apply Qle_shift_div_r; lra).
    lra. }
  split; [exact T|].
  split; [apply S; apply B|]. split; [apply S; apply B|].
  split; [apply S; apply B|].
  destruct (sum_filter_le f (fun r => Qltb (99 # 100) (cum_pct r))
                          (fun r => Qltb (90 # 100) (cum_pct r)) Hf) as [L1 L2].
  { intros r _ Hr. apply Qltb_true in Hr. apply Qltb_true. lra. }
  split; [apply S; apply B|].
  apply Qmult_le_compat_r; [|lra].
  apply Qmult_le_compat_r; [exact L2|].
  apply Qlt_le_weak, Qinv_lt_0_compat. exact T.
Qed.

Lemma income_shares_bounds_witness :
  exists sh, compute_income_shares ties_first = Some sh /\
             top_1_share sh <= top_10_share sh.
Proof.
  destruct (compute_income_shares ties_first) as [sh|] eqn:E;
    [|vm_compute in E; discriminate].
  exists sh. split; [reflexivity|].
  apply (@income_shares_bounds ties_first sh); [|exact E].
  unfold ties_first. repeat constructor; simpl; intros; lra.
Defined.

(** *** X5. Units of income and weight *)

(** X5.  The Gini block of [compute_state_level_stats] does not depend on
    the unit of income or of weight: multiplying every income by a
    positive factor and every weight by a positive factor leaves the
    coefficient unchanged, and leaves it absent when it was absent. *)
Theorem gini_scale_invariant (c k : Q) (df : list row) :
  0 < c -> 0 < k ->
  match gini df, gini (map (fun r => (c * income r, k * weight r)) df) with
  | Some g, Some g' => g == g'
  | None, None => True
  | _, _ => False
  end.
Proof.
  intros Hc Hk. unfold gini.
  rewrite (sort_values_scale k df Hc).
  set (sorted := sort_values df).
  rewrite !map_map. cbn [income weight fst snd].
  pose proof (Forall2_map_scaled income c sorted) as Fi.
  pose proof (Forall2_map_scaled weight k sorted) as Fw.
  set (inc := map income sorted) in *.
  set (wts := map weight sorted) in *.
  set (inc' := map (fun x => c * income x) sorted) in *.
  set (wts' := map (fun x => k * weight x) sorted) in *.
  assert (Z0 : forall s, 0 == s * 0) by (intro; ring).
  pose proof (cumsum_from_scaled Fw (Z0 k)) as Cw.
  pose proof (cumsum_from_scaled (mul_scaled Fi Fw) (Z0 (c * k))) as Ci.
  fold (cumsum wts) in Cw. fold (cumsum wts') in Cw.
  fold (cumsum (mul inc wts)) in Ci. fold (cumsum (mul inc' wts')) in Ci.
  pose proof (last_scaled Cw (Z0 k)) as Lw.
  pose proof (last_scaled Ci (Z0 (c * k))) as Li.
  assert (Hck : 0 < c * k) by nra.
  rewrite (Qltb_scale Hck Li), (Qltb_scale Hk Lw).
  destruct (Qltb_spec 0 (last (cumsum (mul inc wts)) 0)) as [[-> HT]|[-> HT]];
    [|exact I].
  destruct (Qltb_spec 0 (last (cumsum wts) 0)) as [[-> HW]|[-> HW]];
    [|exact I].
  cbn [andb].
  assert (G : Forall2 Qeq
                (gini_terms (cumsum (mul inc wts)) wts
                   (last (cumsum (mul inc wts)) 0) (last (cumsum wts) 0))
                (gini_terms (cumsum (mul inc' wts')) wts'
                   (last (cumsum (mul inc' wts')) 0) (last (cumsum wts') 0))).
  { apply (@gini_terms_scaled (c * k) k); auto; lra. }
  rewrite (sum_Forall2 G). reflexivity.
Qed.

Lemma gini_scale_invariant_witness :
  match gini two_persons,
        gini (map (fun r => (100 * income r, 2 * weight r)) two_persons) with
  | Some g, Some g' => g == g'
  | None, None => True
  | _, _ => False
  end.
Proof. apply gini_scale_invariant; reflexivity. Defined.

Transparent sum.

End MoreDistributionalFacts.

(** ** A'. Quintile membership as binary64 computes it *)

Section RoundedFacts.
Import Np Distributional Examples Order Rounded.
Local Open Scope Q_scope.

Opaque sum.

(** *** Rounded sums *)

Lemma fl_proper (fl : Q -> Q) (x y : Q) :
  rounding fl -> 0 <= x -> x == y -> fl x == fl y.
Proof.
  intros R H0 E. apply Qle_antisym; apply (fl_monotone R); lra.
Qed.

Lemma rounded_cumsum_from_length (fl : Q -> Q) (l : list Q) : forall acc,
  length (Rounded.cumsum_from fl acc l) = length l.
Proof. induction l as [|x l IH]; intro acc; simpl; [reflexivity|]. rewrite IH. reflexivity. Qed.

Lemma rounded_cumsum_length (fl : Q -> Q) (l : list Q) :
  length (Rounded.cumsum fl l) = length l.
Proof.
  destruct l as [|x l]; [reflexivity|]. simpl.
  rewrite rounded_cumsum_from_length. reflexivity.
Qed.

Lemma rounded_cumsum_from_pos (fl : Q -> Q) (l : list Q) :
  rounding fl -> forall acc, 0 < acc -> Forall (fun x => 0 < x) l ->
  Forall (fun c => 0 < c) (Rounded.cumsum_from fl acc l).
Proof.
  intro R. induction l as [|x l IH]; intros acc Ha Hl; simpl; constructor.
  - apply (fl_positive R). pose proof (Forall_inv Hl) as Hx. simpl in Hx. lra.
  - apply IH; [|exact (Forall_inv_tail Hl)].
    apply (fl_positive R). pose proof (Forall_inv Hl) as Hx. simpl in Hx. lra.
Qed.

Lemma rounded_cumsum_pos (fl : Q -> Q) (l : list Q) :
  rounding fl -> Forall (fun x => 0 < x) l ->
  Forall (fun c => 0 < c) (Rounded.cumsum fl l).
Proof.
  intros R Hl. destruct l as [|x l]; [constructor|]. simpl.
  constructor; [exact (Forall_inv Hl)|].
  apply rounded_cumsum_from_pos;
    [exact R|exact (Forall_inv Hl)|exact (Forall_inv_tail Hl)].
Qed.

(** Adding a positive number to a binary64 total never lowers it. *)
Lemma rounded_cumsum_from_sorted (fl : Q -> Q) (l : list Q) :
  rounding fl -> forall acc, 0 < acc -> representable fl acc ->
  Forall (fun x => 0 < x) l ->
  Forall (fun c => acc <= c) (Rounded.cumsum_from fl acc l) /\
  StronglySorted Qle (Rounded.cumsum_from fl acc l).
Proof.
  intro R. induction l as [|x l IH]; intros acc Ha Hr Hl; simpl.
  - split; constructor.
  - pose proof (Forall_inv Hl) as Hx. simpl in Hx.
    assert (C1 : acc <= fadd fl acc x).
    { unfold fadd. unfold representable in Hr. rewrite <- Hr at 1.
      apply (fl_monotone R); lra. }
    assert (C2 : 0 < fadd fl acc x) by lra.
    assert (C3 : representable fl (fadd fl acc x)).
    { unfold representable, fadd. apply (fl_fixed R). lra. }
    destruct (IH (fadd fl acc x) C2 C3 (Forall_inv_tail Hl)) as [I1 I2].
    split.
    + constructor; [exact C1|].
      eapply Forall_impl; [|exact I1]. simpl. intros c Hc. lra.
    + constructor; [exact I2|exact I1].
Qed.

Lemma rounded_cumsum_sorted (fl : Q -> Q) (l : list Q) :
  rounding fl -> Forall (fun x => 0 < x) l ->
  Forall (representable fl) l ->
  StronglySorted Qle (Rounded.cumsum fl l).
Proof.
  intros R Hl Hr. destruct l as [|x l]; [constructor|]. simpl.
  destruct (@rounded_cumsum_from_sorted fl l R x (Forall_inv Hl)
              (Forall_inv Hr) (Forall_inv_tail Hl)) as [I1 I2].
  constructor; [exact I2|exact I1].
Qed.

Lemma fold_fadd_pos (fl : Q -> Q) (l : list Q) :
  rounding fl -> Forall (fun x => 0 < x) l ->
  forall acc, 0 <= acc -> (0 < acc \/ l <> []) ->
  0 < fold_left (fadd fl) l acc.
Proof.
  intro R. induction l as [|x l IH]; intros Hl acc Ha Hd; simpl.
  - destruct Hd as [Hd|Hd]; [exact Hd|congruence].
  - pose proof (Forall_inv Hl) as Hx. simpl in Hx.
    assert (P : 0 < fadd fl acc x) by (apply (fl_positive R); lra).
    apply IH; [exact (Forall_inv_tail Hl)|lra|left; exact P].
Qed.

Lemma pos_firstn (n : nat) (l : list Q) :
  Forall (fun x => 0 < x) l -> Forall (fun x => 0 < x) (firstn n l).
Proof.
  intro H. apply Forall_forall. intros x Hx. rewrite Forall_forall in H.
  apply H. eapply In_firstn; exact Hx.
Qed.

Lemma pos_skipn (n : nat) (l : list Q) :
  Forall (fun x => 0 < x) l -> Forall (fun x => 0 < x) (skipn n l).
Proof.
  revert l. induction n as [|n IH]; intros l H; [exact H|].
  destruct l as [|x l]; [constructor|]. simpl. apply IH.
  exact (Forall_inv_tail H).
Qed.

Lemma add_lanes_pos (fl : Q -> Q) (r : list Q) :
  rounding fl -> forall block,
  Forall (fun x => 0 < x) r -> Forall (fun x => 0 < x) block ->
  Forall (fun x => 0 < x) (add_lanes fl r block) /\
  length (add_lanes fl r block) = length r.
Proof.
  intro R. induction r as [|x r IH]; intros block Hr Hb; simpl.
  - split; [constructor|reflexivity].
  - destruct block as [|y block]; [split; [exact Hr|reflexivity]|].
    destruct (IH block (Forall_inv_tail Hr) (Forall_inv_tail Hb)) as [I1 I2].
    pose proof (Forall_inv Hr) as Hx. pose proof (Forall_inv Hb) as Hy.
    simpl in Hx, Hy. split.
    + constructor; [apply (fl_positive R); lra|exact I1].
    + simpl. rewrite I2. reflexivity.
Qed.

Lemma unrolled_pos (fl : Q -> Q) (blocks : nat) :
  rounding fl -> forall r a,
  Forall (fun x => 0 < x) r -> Forall (fun x => 0 < x) a ->
  Forall (fun x => 0 < x) (fst (unrolled fl blocks r a)) /\
  length (fst (unrolled fl blocks r a)) = length r /\
  Forall (fun x => 0 < x) (snd (unrolled fl blocks r a)).
Proof.
  intro R. induction blocks as [|k IH]; intros r a Hr Ha.
  - simpl. auto.
  - cbn [unrolled].
    destruct (@add_lanes_pos fl r R (firstn 8 a) Hr (pos_firstn 8 Ha))
      as [L1 L2].
    destruct (IH (add_lanes fl r (firstn 8 a)) (skipn 8 a) L1 (pos_skipn 8 Ha))
      as (I1 & I2 & I3).
    split; [exact I1|]. split; [congruence|exact I3].
Qed.

Lemma combine_lanes_pos (fl : Q -> Q) (r : list Q) :
  rounding fl -> length r = 8%nat -> Forall (fun x => 0 < x) r ->
  0 < combine_lanes fl r.
Proof.
  intros R L H.
  do 8 (destruct r as [|? r]; [discriminate L|]).
  destruct r; [|discriminate L].
  repeat match goal with
         | H : Forall _ (_ :: _) |- _ =>
             let H1 := fresh "P" in
             pose proof (Forall_inv H) as H1; simpl in H1;
             apply Forall_inv_tail in H
         end.
  unfold combine_lanes, fadd.
  assert (A : forall x y, 0 < x -> 0 < y -> 0 < fl (x + y))
    by (intros x y Hx Hy; apply (fl_positive R); lra).
  repeat apply A; assumption.
Qed.

Lemma sum_block_pos (fl : Q -> Q) (a : list Q) :
  rounding fl -> (8 <= length a)%nat -> Forall (fun x => 0 < x) a ->
  0 < sum_block fl a.
Proof.
  intros R L H. unfold sum_block.
  destruct (@unrolled_pos fl (length a / 8 - 1) R (firstn 8 a) (skipn 8 a)
              (pos_firstn 8 H) (pos_skipn 8 H)) as (U1 & U2 & U3).
  rewrite length_firstn, Nat.min_l in U2 by exact L.
  pose proof (combine_lanes_pos R U2 U1) as C.
  apply fold_fadd_pos; [exact R|exact U3|lra|left; exact C].
Qed.

Lemma pairwise_sum_pos (fl : Q -> Q) :
  rounding fl -> forall fuel a,
  (length a <= fuel)%nat -> a <> [] -> Forall (fun x => 0 < x) a ->
  0 < pairwise_sum fl fuel a.
Proof.
  intro R. induction fuel as [|fuel IH]; intros a L Hne H.
  - destruct a; [congruence|simpl in L; lia].
  - cbn [pairwise_sum].
    destruct (Nat.ltb_spec (length a) 8) as [L8|L8].
    + apply fold_fadd_pos; [exact R|exact H|lra|right; exact Hne].
    + destruct (Nat.leb_spec (length a) 128) as [L128|L128].
      * apply sum_block_pos; assumption.
      * set (n2 := (length a / 2 - (length a / 2) mod 8)%nat).
        assert (B : (0 < n2 /\ n2 < length a)%nat).
        { unfold n2.
          pose proof (Nat.mod_upper_bound (length a / 2) 8 ltac:(lia)).
          pose proof (Nat.div_lt (length a) 2 ltac:(lia) ltac:(lia)).
          assert (64 <= length a / 2)%nat
            by (apply Nat.div_le_lower_bound; lia).
          lia. }
        unfold fadd. apply (fl_positive R).
        assert (0 < pairwise_sum fl fuel (firstn n2 a)).
        { apply IH; [rewrite length_firstn; lia| |apply pos_firstn; exact H].
          intro E. apply (f_equal (@length Q)) in E.
          rewrite length_firstn in E. simpl in E. lia. }
        assert (0 < pairwise_sum fl fuel (skipn n2 a)).
        { apply IH; [rewrite length_skipn; lia| |apply pos_skipn; exact H].
          intro E. apply (f_equal (@length Q)) in E.
          rewrite length_skipn in E. simpl in E. lia. }
        lra.
Qed.

Lemma np_sum_pos (fl : Q -> Q) (a : list Q) :
  rounding fl -> a <> [] -> Forall (fun x => 0 < x) a -> 0 < np_sum fl a.
Proof.
  intros R Hne H. unfold np_sum, fadd. apply (fl_positive R).
  pose proof (@pairwise_sum_pos fl R (length a) a (Nat.le_refl _) Hne H). lra.
Qed.

(** *** The rounded frame *)

Lemma rounded_rows (fl : Q -> Q) (df : list row) :
  map (fun r => (r_income r, r_weight r)) (Rounded.rank_rows fl df)
  = sort_values (positive_weight df).
Proof.
  unfold Rounded.rank_rows.
  set (valid := sort_values (positive_weight df)).
  rewrite map_map. simpl.
  transitivity (map fst (combine valid (Rounded.cumsum fl (map weight valid)))).
  - apply map_ext. intros [[i w] c]. reflexivity.
  - apply combine_map_fst.
    rewrite rounded_cumsum_length, length_map. reflexivity.
Qed.

Lemma rounded_In (fl : Q -> Q) (df : list row) (r : ranked) :
  In r (Rounded.rank_rows fl df) ->
  In (r_income r, r_weight r) df /\ 0 < r_weight r.
Proof.
  intro Hin.
  assert (H : In (r_income r, r_weight r) (sort_values (positive_weight df))).
  { rewrite <- (rounded_rows fl).
    apply (in_map (fun r => (r_income r, r_weight r))). exact Hin. }
  apply (Permutation_in _ (Permutation_sym (sort_values_perm _))) in H.
  unfold positive_weight in H. apply filter_In in H. destruct H as [H1 H2].
  split; [exact H1|]. apply Qltb_true in H2. exact H2.
Qed.

Lemma rounded_weights (fl : Q -> Q) (df : list row) :
  Forall (fun r => 0 < r_weight r) (Rounded.rank_rows fl df).
Proof.
  apply Forall_forall. intros r Hr. apply rounded_In in Hr. tauto.
Qed.

Lemma rounded_length (fl : Q -> Q) (df : list row) :
  length (Rounded.rank_rows fl df) = length (positive_weight df).
Proof.
  rewrite <- (sort_values_length (positive_weight df)), <- (rounded_rows fl).
  rewrite length_map. reflexivity.
Qed.

Lemma rounded_fields (fl : Q -> Q) (df : list row) (r : ranked) :
  In r (Rounded.rank_rows fl df) ->
  r_quintile r = Rounded.pd_cut fl (cum_pct r) /\
  bottom_50 r = Qle_bool (cum_pct r) (50 # 100) /\
  top_10 r = Qltb (fl (90 # 100)) (cum_pct r).
Proof.
  intro Hin. unfold Rounded.rank_rows in Hin. apply in_map_iff in Hin.
  destruct Hin as (x & <- & _). repeat split.
Qed.

Lemma valid_weights_pos (df : list row) :
  Forall (fun w => 0 < w) (map weight (sort_values (positive_weight df))).
Proof. apply Forall_map. apply sort_values_Forall, positive_weight_Forall. Qed.

Lemma rounded_total_pos (fl : Q -> Q) (df : list row) :
  rounding fl -> sort_values (positive_weight df) <> [] ->
  0 < np_sum fl (map weight (sort_values (positive_weight df))).
Proof.
  intros R Hne. apply np_sum_pos; [exact R| |apply valid_weights_pos].
  intro E. apply map_eq_nil in E. contradiction.
Qed.

Lemma rounded_pct_pos (fl : Q -> Q) (df : list row) :
  rounding fl ->
  Forall (fun r => 0 < cum_pct r) (Rounded.rank_rows fl df).
Proof.
  intro R. unfold Rounded.rank_rows.
  set (valid := sort_values (positive_weight df)).
  pose proof (rounded_cumsum_pos R (valid_weights_pos df)) as C.
  fold valid in C.
  apply Forall_map. apply Forall_forall. intros [r c] Hin. simpl.
  assert (T : 0 < np_sum fl (map weight valid)).
  { apply rounded_total_pos; [exact R|]. fold valid. intro E.
    rewrite E in Hin. contradiction. }
  apply in_combine_r in Hin. rewrite Forall_forall in C.
  specialize (C c Hin). simpl in C. unfold fdiv. apply (fl_positive R).
  apply Qlt_shift_div_l; lra.
Qed.

Lemma combine_sorted_le (W : Q) (fl : Q -> Q) (valid : list row) :
  rounding fl -> 0 < W -> forall (cum : list Q),
  StronglySorted by_income valid -> StronglySorted Qle cum ->
  Forall (fun c => 0 < c) cum ->
  StronglySorted (fun a b : row * Q =>
                    income (fst a) <= income (fst b) /\
                    fdiv fl (snd a) W <= fdiv fl (snd b) W)
                 (combine valid cum).
Proof.
  intros R HW. induction valid as [|r valid IH]; intros cum Hv Hc Hp; simpl.
  - constructor.
  - destruct cum as [|c cum]; [constructor|].
    apply StronglySorted_inv in Hv. destruct Hv as [Hv1 Hv2].
    apply StronglySorted_inv in Hc. destruct Hc as [Hc1 Hc2].
    constructor; [apply IH; [assumption|assumption|exact (Forall_inv_tail Hp)]|].
    apply Forall_forall. intros [r' c'] Hin. simpl.
    pose proof (in_combine_l _ _ _ _ Hin) as Hr.
    pose proof (in_combine_r _ _ _ _ Hin) as Hcc.
    rewrite Forall_forall in Hv2, Hc2. split.
    + apply Hv2. exact Hr.
    + pose proof (Forall_inv Hp) as P0. simpl in P0.
      unfold fdiv. apply (fl_monotone R).
      * apply Qle_shift_div_l; lra.
      * apply Qmult_le_compat_r; [apply Hc2; exact Hcc|].
        apply Qlt_le_weak, Qinv_lt_0_compat. exact HW.
Qed.

Lemma rounded_sorted (fl : Q -> Q) (df : list row) :
  rounding fl -> Forall (fun r => representable fl (weight r)) df ->
  StronglySorted ranked_le (Rounded.rank_rows fl df).
Proof.
  intros R Hr. unfold Rounded.rank_rows.
  set (valid := sort_values (positive_weight df)).
  destruct valid as [|v0 valid'] eqn:Ev; [constructor|]. rewrite <- Ev.
  assert (T : 0 < np_sum fl (map weight valid)).
  { apply rounded_total_pos; [exact R|]. fold valid. rewrite Ev. discriminate. }
  assert (Hrep : Forall (representable fl) (map weight valid)).
  { apply Forall_map. unfold valid. apply sort_values_Forall.
    unfold positive_weight. apply Forall_forall.
    intros r Hin. apply filter_In in Hin. rewrite Forall_forall in Hr.
    apply Hr. tauto. }
  eapply StronglySorted_map;
    [|apply (@combine_sorted_le (np_sum fl (map weight valid)) fl valid R T
               (Rounded.cumsum fl (map weight valid)))].
  - intros [ra ca] [rb cb] H. exact H.
  - apply Sorted_StronglySorted; [exact by_income_trans|].
    apply sort_values_sorted.
  - apply rounded_cumsum_sorted; [exact R|apply valid_weights_pos|exact Hrep].
  - apply rounded_cumsum_pos; [exact R|apply valid_weights_pos].
Qed.

Lemma ranked_le_in_order (l : list ranked) :
  StronglySorted ranked_le l -> forall a b,
  In a l -> In b l -> cum_pct a < cum_pct b -> r_income a <= r_income b.
Proof.
  induction 1 as [|x l Hs IH Hx]; intros a b Ha Hb Hlt; [contradiction|].
  rewrite Forall_forall in Hx.
  destruct Ha as [<-|Ha]; destruct Hb as [<-|Hb].
  - lra.
  - apply Hx. exact Hb.
  - destruct (Hx a Ha) as [_ H]. lra.
  - apply IH; assumption.
Qed.

(** *** The cut on the binary64 edges *)

Lemma searchsorted_monotone (edges : list Q) (x y : Q) :
  x <= y -> (searchsorted_left edges x <= searchsorted_left edges y)%nat.
Proof.
  intro H. unfold searchsorted_left.
  induction edges as [|e edges IH]; [simpl; lia|].
  rewrite !filter_cons_if.
  destruct (Qltb_spec e x) as [[-> Hx]|[-> Hx]];
    destruct (Qltb_spec e y) as [[-> Hy]|[-> Hy]]; simpl; try lia.
  lra.
Qed.

Lemma rounded_cut_some (fl : Q -> Q) (x : Q) :
  0 < x -> x <= 1 -> exists q, Rounded.pd_cut fl x = Some q.
Proof.
  intros H0 H1. unfold Rounded.pd_cut.
  assert (E : Qeq_bool x 0 = false).
  { destruct (Qeq_bool x 0) eqn:E; [|reflexivity].
    apply Qeq_bool_iff in E. lra. }
  rewrite E. unfold searchsorted_left, Rounded.bins.
  rewrite !filter_cons_if.
  assert (A : Qltb 0 x = true) by (apply Qltb_true; exact H0).
  assert (B : Qltb 1 x = false) by (apply Qltb_false; exact H1).
  rewrite A, B.
  destruct (Qltb (fl (2 # 10)) x), (Qltb (fl (4 # 10)) x),
    (Qltb (fl (6 # 10)) x), (Qltb (fl (8 # 10)) x); simpl;
    eexists; reflexivity.
Qed.

Lemma rounded_cut_rank (fl : Q -> Q) (x : Q) (q : quintile) :
  0 < x -> Rounded.pd_cut fl x = Some q ->
  quintile_rank q = searchsorted_left (Rounded.bins fl) x.
Proof.
  intros H0. unfold Rounded.pd_cut.
  assert (E : Qeq_bool x 0 = false).
  { destruct (Qeq_bool x 0) eqn:E; [|reflexivity].
    apply Qeq_bool_iff in E. lra. }
  rewrite E.
  destruct (searchsorted_left (Rounded.bins fl) x) as [|[|[|[|[|[|n]]]]]];
    intro H; try discriminate; injection H as <-; reflexivity.
Qed.

Lemma rounded_cut_monotone (fl : Q -> Q) (x y : Q) (qa qb : quintile) :
  0 < x -> x <= y ->
  Rounded.pd_cut fl x = Some qa -> Rounded.pd_cut fl y = Some qb ->
  (quintile_rank qa <= quintile_rank qb)%nat.
Proof.
  intros H0 H Ha Hb.
  rewrite (rounded_cut_rank fl H0 Ha).
  rewrite (@rounded_cut_rank fl y qb ltac:(lra) Hb).
  apply searchsorted_monotone. exact H.
Qed.

Lemma in_quintile_unique (r : ranked) (q q' : quintile) :
  in_quintile q r = true -> in_quintile q' r = true -> q = q'.
Proof.
  intros H H'. apply in_quintile_iff in H. apply in_quintile_iff in H'.
  congruence.
Qed.

Lemma quintile_count_le (l : list ranked) :
  (length (filter (in_quintile Q1) l) + length (filter (in_quintile Q2) l)
   + length (filter (in_quintile Q3) l) + length (filter (in_quintile Q4) l)
   + length (filter (in_quintile Q5) l) <= length l)%nat.
Proof.
  induction l as [|r l IH]; [simpl; lia|].
  assert (E : forall q', in_quintile q' r
                         = match r_quintile r with
                           | Some q => quintile_eqb q' q
                           | None => false
                           end) by reflexivity.
  rewrite !filter_cons_if, !E.
  destruct (r_quintile r) as [[| | | |]|]; cbn [quintile_eqb length]; lia.
Qed.

Lemma rounded_edges (fl : Q -> Q) :
  rounding fl ->
  0 < fl (2 # 10) /\ fl (2 # 10) <= fl (4 # 10) /\ fl (4 # 10) <= fl (6 # 10) /\
  fl (6 # 10) <= fl (8 # 10) /\ fl (8 # 10) <= 1.
Proof.
  intro R. split; [apply (fl_positive R); reflexivity|].
  repeat split; try (apply (fl_monotone R); [discriminate|discriminate]).
  rewrite <- (fl_one R). apply (fl_monotone R); discriminate.
Qed.

Lemma rounded_cut_interval (fl : Q -> Q) (x : Q) (q : quintile) :
  rounding fl -> 0 < x -> x <= 1 ->
  (Rounded.pd_cut fl x = Some q <->
   Rounded.lower_edge fl q < x /\ x <= Rounded.upper_edge fl q).
Proof.
  intros R H0 H1. destruct (rounded_edges R) as (G0 & G1 & G2 & G3 & G4).
  unfold Rounded.pd_cut.
  assert (E0 : Qeq_bool x 0 = false).
  { destruct (Qeq_bool x 0) eqn:E; auto. apply Qeq_bool_iff in E. lra. }
  rewrite E0. unfold searchsorted_left, Rounded.bins.
  rewrite !filter_cons_if.
  assert (B0 : Qltb 0 x = true) by (apply Qltb_true; auto).
  assert (B5 : Qltb 1 x = false) by (apply Qltb_false; auto).
  rewrite B0, B5.
  destruct (Qltb_spec (fl (2 # 10)) x) as [[E1 I1]|[E1 I1]];
  destruct (Qltb_spec (fl (4 # 10)) x) as [[E2 I2]|[E2 I2]];
  destruct (Qltb_spec (fl (6 # 10)) x) as [[E3 I3]|[E3 I3]];
  destruct (Qltb_spec (fl (8 # 10)) x) as [[E4 I4]|[E4 I4]];
  rewrite E1, E2, E3, E4; simpl length;
  try (exfalso; lra);
  destruct q; simpl Rounded.lower_edge; simpl Rounded.upper_edge;
  (split; [intro H; try discriminate H; split; lra
          | intros [Ha Hb]; try reflexivity; exfalso; lra]).
Qed.

(** *** When the table can be built *)

Lemma rounded_stats_frame (fl : Q -> Q) (df : list row) results valid :
  Rounded.compute_quintile_stats fl df = Ok (results, valid) ->
  valid = Rounded.rank_rows fl df.
Proof.
  unfold Rounded.compute_quintile_stats. intro E.
  destruct (summarise_all categories (Rounded.rank_rows fl df));
    cbn [bind] in E; [|discriminate].
  destruct (summarise "Bottom 50%" (filter bottom_50 (Rounded.rank_rows fl df)));
    cbn [bind] in E; [|discriminate].
  destruct (summarise "Top 10%" (filter top_10 (Rounded.rank_rows fl df)));
    cbn [bind] in E; [|discriminate].
  inversion E. reflexivity.
Qed.

Lemma filter_weights (p : ranked -> bool) (l : list ranked) :
  Forall (fun r => 0 < r_weight r) l ->
  Forall (fun r => 0 < r_weight r) (filter p l).
Proof.
  intro Hw. apply Forall_forall. intros r Hr. apply filter_In in Hr.
  rewrite Forall_forall in Hw. apply Hw. tauto.
Qed.

Lemma rounded_stats_outcome (fl : Q -> Q) (df : list row) :
  let valid := Rounded.rank_rows fl df in
  ((exists q, filter (in_quintile q) valid = []) \/
   filter bottom_50 valid = [] \/ filter top_10 valid = []) /\
  Rounded.compute_quintile_stats fl df = Raise ZeroDivisionError
  \/
  ((forall q, filter (in_quintile q) valid <> []) /\
   filter bottom_50 valid <> [] /\ filter top_10 valid <> []) /\
  exists results,
    Rounded.compute_quintile_stats fl df = Ok (results, valid) /\
    length results = 7%nat.
Proof.
  intro valid. unfold Rounded.compute_quintile_stats. fold valid.
  pose proof (rounded_weights fl df) as Hw. fold valid in Hw.
  assert (D : (exists q, filter (in_quintile q) valid = []) \/
              (forall q, filter (in_quintile q) valid <> [])).
  { destruct (filter (in_quintile Q1) valid) eqn:E1; [left; exists Q1; exact E1|].
    destruct (filter (in_quintile Q2) valid) eqn:E2; [left; exists Q2; exact E2|].
    destruct (filter (in_quintile Q3) valid) eqn:E3; [left; exists Q3; exact E3|].
    destruct (filter (in_quintile Q4) valid) eqn:E4; [left; exists Q4; exact E4|].
    destruct (filter (in_quintile Q5) valid) eqn:E5; [left; exists Q5; exact E5|].
    right. intros [| | | |]; congruence. }
  destruct D as [[q Hq]|Hall].
  - left. split; [left; exists q; exact Hq|].
    rewrite summarise_all_raise; [reflexivity|exact Hw|].
    exists q. split; [|exact Hq]. unfold categories. destruct q; simpl; tauto.
  - destruct (@summarise_all_returns valid categories Hw) as (gs & Egs & L).
    { intros q _. apply Hall. }
    rewrite Egs. cbn [bind].
    destruct (summarise_outcome "Bottom 50%" (filter_weights bottom_50 Hw))
      as [[B1 B2]|[B1 [b50 B2]]].
    { left. split; [right; left; exact B1|]. rewrite B2. reflexivity. }
    rewrite B2. cbn [bind].
    destruct (summarise_outcome "Top 10%" (filter_weights top_10 Hw))
      as [[T1 T2]|[T1 [t10 T2]]].
    { left. split; [right; right; exact T1|]. rewrite T2. reflexivity. }
    rewrite T2. cbn [bind]. right. split; [auto|].
    eexists. split; [reflexivity|]. rewrite length_app, L. reflexivity.
Qed.

Lemma few_rows_empty_group (fl : Q -> Q) (df : list row) :
  (length (positive_weight df) < 5)%nat ->
  exists q, filter (in_quintile q) (Rounded.rank_rows fl df) = [].
Proof.
  intro H. rewrite <- (rounded_length fl) in H.
  pose proof (quintile_count_le (Rounded.rank_rows fl df)) as C.
  destruct (filter (in_quintile Q1) (Rounded.rank_rows fl df)) eqn:E1;
    [exists Q1; exact E1|].
  destruct (filter (in_quintile Q2) (Rounded.rank_rows fl df)) eqn:E2;
    [exists Q2; exact E2|].
  destruct (filter (in_quintile Q3) (Rounded.rank_rows fl df)) eqn:E3;
    [exists Q3; exact E3|].
  destruct (filter (in_quintile Q4) (Rounded.rank_rows fl df)) eqn:E4;
    [exists Q4; exact E4|].
  destruct (filter (in_quintile Q5) (Rounded.rank_rows fl df)) eqn:E5;
    [exists Q5; exact E5|].
  simpl in C. lia.
Qed.

(** *** Rounding to binary64 keeps the order *)

Lemma pow2_pos (z : Z) : 0 < 2 ^ z.
Proof. apply Qpower_0_lt. reflexivity. Qed.

Lemma pow2_plus (a b : Z) : 2 ^ (a + b) == 2 ^ a * 2 ^ b.
Proof. apply Qpower_plus. intro H. discriminate H. Qed.

Lemma pow2_le (a b : Z) : (a <= b)%Z -> 2 ^ a <= 2 ^ b.
Proof. intro H. apply Qpower_le_compat_l; [exact H|]. intro E. discriminate E. Qed.

Lemma pow2_lt (a b : Z) : (a < b)%Z -> 2 ^ a < 2 ^ b.
Proof. intro H. apply Qpower_lt_compat_l; [exact H|reflexivity]. Qed.

Lemma pow2_inject (n : Z) : (0 <= n)%Z -> inject_Z (2 ^ n) == 2 ^ n.
Proof. intro H. rewrite (Zpower_Qpower 2 n H). reflexivity. Qed.

Lemma log2_bounds (n : Z) :
  (0 < n)%Z ->
  2 ^ (Z.log2 n) <= inject_Z n /\ inject_Z n < 2 ^ (Z.log2 n + 1).
Proof.
  intro H. destruct (Z.log2_spec n H) as [L U].
  pose proof (Z.log2_nonneg n) as N.
  split.
  - rewrite <- (pow2_inject N). rewrite <- Zle_Qle. exact L.
  - rewrite <- (@pow2_inject (Z.log2 n + 1)) by lia.
    rewrite <- Zlt_Qlt. exact U.
Qed.

Lemma ilog2_spec (x : Q) :
  0 < x -> 2 ^ (ilog2 x) <= x /\ x < 2 ^ (ilog2 x + 1).
Proof.
  intro Hx.
  assert (Hn : (0 < Qnum x)%Z).
  { destruct x as [n d]. unfold Qlt in Hx. simpl in *. lia. }
  destruct (log2_bounds Hn) as [N1 N2].
  destruct (@log2_bounds (Zpos (Qden x)) ltac:(lia)) as [D1 D2].
  assert (E : x == inject_Z (Qnum x) / inject_Z (Zpos (Qden x))).
  { destruct x as [n d]. simpl. apply Qmake_Qdiv. }
  set (N := inject_Z (Qnum x)) in *.
  set (D := inject_Z (Zpos (Qden x))) in *.
  set (ln := Z.log2 (Qnum x)) in *.
  set (ld := Z.log2 (Zpos (Qden x))) in *.
  assert (HD : 0 < D) by (pose proof (pow2_pos ld); lra).
  assert (Up : x < 2 ^ (ln - ld + 1)).
  { rewrite E. apply Qlt_shift_div_r; [exact HD|].
    assert (P : 2 ^ (ln - ld + 1) * 2 ^ ld == 2 ^ (ln + 1)).
    { rewrite <- pow2_plus. replace (ln - ld + 1 + ld)%Z with (ln + 1)%Z by ring.
      reflexivity. }
    pose proof (pow2_pos (ln - ld + 1)). nra. }
  assert (Lo : 2 ^ (ln - ld - 1) < x).
  { rewrite E. apply Qlt_shift_div_l; [exact HD|].
    assert (P : 2 ^ (ln - ld - 1) * 2 ^ (ld + 1) == 2 ^ ln).
    { rewrite <- pow2_plus. replace (ln - ld - 1 + (ld + 1))%Z with ln by ring.
      reflexivity. }
    pose proof (pow2_pos (ln - ld - 1)). nra. }
  unfold ilog2. fold ln ld.
  destruct (Qle_bool (2 ^ (ln - ld)) x) eqn:B.
  - apply Qle_bool_iff in B. split; [exact B|exact Up].
  - assert (B' : x < 2 ^ (ln - ld)).
    { apply Qnot_le_lt. intro C. apply Qle_bool_iff in C. congruence. }
    split; [lra|]. replace (ln - ld - 1 + 1)%Z with (ln - ld)%Z by ring.
    exact B'.
Qed.

Lemma ilog2_unique (x : Q) (e : Z) :
  0 < x -> 2 ^ e <= x -> x < 2 ^ (e + 1) -> ilog2 x = e.
Proof.
  intros Hx L U. destruct (ilog2_spec Hx) as [L' U'].
  destruct (Z.lt_trichotomy (ilog2 x) e) as [C|[C|C]]; [|exact C|].
  - pose proof (@pow2_le (ilog2 x + 1) e ltac:(lia)). lra.
  - pose proof (@pow2_le (e + 1) (ilog2 x) ltac:(lia)). lra.
Qed.

Lemma ilog2_monotone (x y : Q) :
  0 < x -> x <= y -> (ilog2 x <= ilog2 y)%Z.
Proof.
  intros Hx H. destruct (ilog2_spec Hx) as [L U].
  destruct (@ilog2_spec y ltac:(lra)) as [L' U'].
  destruct (Z_le_gt_dec (ilog2 x) (ilog2 y)) as [C|C]; [exact C|].
  pose proof (@pow2_le (ilog2 y + 1) (ilog2 x) ltac:(lia)). lra.
Qed.

Lemma half_even_cases (y : Q) :
  (round_half_even y = Qfloor y /\ y - inject_Z (Qfloor y) <= 1 # 2) \/
  (round_half_even y = (Qfloor y + 1)%Z /\ 1 # 2 <= y - inject_Z (Qfloor y)).
Proof.
  unfold round_half_even.
  destruct (Qltb_spec (y - inject_Z (Qfloor y)) (1 # 2)) as [[-> H]|[-> H]].
  - left. split; [reflexivity|lra].
  - destruct (Qltb_spec (1 # 2) (y - inject_Z (Qfloor y))) as [[-> H']|[-> H']].
    + right. split; [reflexivity|lra].
    + destruct (Z.even (Qfloor y)).
      * left. split; [reflexivity|exact H'].
      * right. split; [reflexivity|exact H].
Qed.

Lemma half_even_monotone (y1 y2 : Q) :
  y1 <= y2 -> (round_half_even y1 <= round_half_even y2)%Z.
Proof.
  intro H. pose proof (Qfloor_resp_le y1 y2 H) as F.
  destruct (Z.eq_dec (Qfloor y1) (Qfloor y2)) as [E|NE].
  - unfold round_half_even. rewrite E.
    destruct (Qltb_spec (y1 - inject_Z (Qfloor y2)) (1 # 2)) as [[-> H1]|[-> H1]];
    destruct (Qltb_spec (y2 - inject_Z (Qfloor y2)) (1 # 2)) as [[-> H2]|[-> H2]];
    try destruct (Qltb_spec (1 # 2) (y1 - inject_Z (Qfloor y2)))
      as [[-> H3]|[-> H3]];
    try destruct (Qltb_spec (1 # 2) (y2 - inject_Z (Qfloor y2)))
      as [[-> H4]|[-> H4]];
    try destruct (Z.even (Qfloor y2)); try lia; lra.
  - destruct (half_even_cases y1) as [[-> _]|[-> _]];
      destruct (half_even_cases y2) as [[-> _]|[-> _]]; lia.
Qed.

Lemma half_even_proper (y1 y2 : Q) :
  y1 == y2 -> round_half_even y1 = round_half_even y2.
Proof.
  intro E. apply Z.le_antisymm; apply half_even_monotone; lra.
Qed.

Lemma half_even_Z (m : Z) : round_half_even (inject_Z m) = m.
Proof.
  unfold round_half_even. rewrite Qfloor_Z.
  destruct (Qltb_spec (inject_Z m - inject_Z m) (1 # 2)) as [[-> H]|[-> H]];
    [reflexivity|lra].
Qed.

Lemma half_even_between (y : Q) (a b : Z) :
  inject_Z a <= y -> y < inject_Z b ->
  (a <= round_half_even y <= b)%Z.
Proof.
  intros L U.
  assert (A : (a <= Qfloor y)%Z).
  { rewrite <- (Qfloor_Z a). apply Qfloor_resp_le. exact L. }
  assert (B : (Qfloor y < b)%Z).
  { rewrite Zlt_Qlt. pose proof (Qfloor_le y). lra. }
  destruct (half_even_cases y) as [[-> _]|[-> _]]; lia.
Qed.

Lemma pow2_52 (e : Z) : 2 ^ (e - 52) * inject_Z (2 ^ 52) == 2 ^ e.
Proof.
  rewrite (@pow2_inject 52) by lia. rewrite <- pow2_plus.
  replace (e - 52 + 52)%Z with e by ring. reflexivity.
Qed.

Lemma pow2_53 (e : Z) : 2 ^ (e - 52) * inject_Z (2 ^ 53) == 2 ^ (e + 1).
Proof.
  rewrite (@pow2_inject 53) by lia. rewrite <- pow2_plus.
  replace (e - 52 + 53)%Z with (e + 1)%Z by ring. reflexivity.
Qed.

Lemma nearest53_form (x : Q) :
  0 < x ->
  nearest53 x
  == inject_Z (round_half_even (x / 2 ^ (ilog2 x - 52))) * 2 ^ (ilog2 x - 52) /\
  (2 ^ 52 <= round_half_even (x / 2 ^ (ilog2 x - 52)) <= 2 ^ 53)%Z.
Proof.
  intro Hx. split; [unfold nearest53; apply Qred_correct|].
  destruct (ilog2_spec Hx) as [L U].
  pose proof (pow2_pos (ilog2 x - 52)) as Pu.
  apply half_even_between.
  - apply Qle_shift_div_l; [exact Pu|].
    rewrite Qmult_comm, pow2_52. exact L.
  - apply Qlt_shift_div_r; [exact Pu|].
    rewrite Qmult_comm, pow2_53. exact U.
Qed.

Lemma nearest53_bounds (x : Q) :
  0 < x ->
  2 ^ (ilog2 x) <= nearest53 x /\ nearest53 x <= 2 ^ (ilog2 x + 1).
Proof.
  intro Hx. destruct (nearest53_form Hx) as [E [L U]]. rewrite E.
  pose proof (pow2_pos (ilog2 x - 52)) as Pu.
  rewrite <- (pow2_52 (ilog2 x)), <- (pow2_53 (ilog2 x)).
  rewrite Zle_Qle in L, U.
  set (m := inject_Z (round_half_even (x / 2 ^ (ilog2 x - 52)))) in *.
  split; nra.
Qed.

Lemma nearest53_pos (x : Q) : 0 < x -> 0 < nearest53 x.
Proof.
  intro Hx. destruct (nearest53_bounds Hx) as [L _].
  pose proof (pow2_pos (ilog2 x)). lra.
Qed.

Lemma nearest53_monotone (x y : Q) :
  0 < x -> x <= y -> nearest53 x <= nearest53 y.
Proof.
  intros Hx H. assert (Hy : 0 < y) by lra.
  pose proof (ilog2_monotone Hx H) as M.
  destruct (Z.eq_dec (ilog2 x) (ilog2 y)) as [E|NE].
  - destruct (nearest53_form Hx) as [Ex _].
    destruct (nearest53_form Hy) as [Ey _].
    rewrite Ex, Ey, E.
    pose proof (pow2_pos (ilog2 y - 52)) as Pu.
    assert (D : x / 2 ^ (ilog2 y - 52) <= y / 2 ^ (ilog2 y - 52)).
    { apply Qmult_le_compat_r; [exact H|].
      apply Qlt_le_weak, Qinv_lt_0_compat. exact Pu. }
    apply half_even_monotone in D. rewrite Zle_Qle in D. nra.
  - destruct (nearest53_bounds Hx) as [_ Ux].
    destruct (nearest53_bounds Hy) as [Ly _].
    pose proof (@pow2_le (ilog2 x + 1) (ilog2 y) ltac:(lia)). lra.
Qed.

Lemma nearest53_proper (x y : Q) :
  0 < x -> x == y -> nearest53 x == nearest53 y.
Proof.
  intros Hx E. apply Qle_antisym; apply nearest53_monotone; lra.
Qed.

Lemma nearest53_grid (m e : Z) :
  (2 ^ 52 <= m <= 2 ^ 53)%Z ->
  nearest53 (inject_Z m * 2 ^ (e - 52)) == inject_Z m * 2 ^ (e - 52).
Proof.
  intros [L U].
  pose proof (pow2_pos (e - 52)) as Pu.
  assert (Lq : inject_Z (2 ^ 52) <= inject_Z m) by (rewrite <- Zle_Qle; exact L).
  assert (P52 : 0 < inject_Z (2 ^ 52)) by reflexivity.
  assert (Hv : 0 < inject_Z m * 2 ^ (e - 52)) by nra.
  destruct (Z.eq_dec m (2 ^ 53)) as [Top|NTop].
  - (* the next power of two *)
    assert (E1 : inject_Z m * 2 ^ (e - 52) == 2 ^ (e + 1)).
    { rewrite Top, Qmult_comm. apply pow2_53. }
    assert (I : ilog2 (inject_Z m * 2 ^ (e - 52)) = (e + 1)%Z).
    { apply ilog2_unique; [exact Hv|rewrite E1; lra|].
      rewrite E1. apply pow2_lt. lia. }
    unfold nearest53. rewrite Qred_correct, I.
    assert (Y : inject_Z m * 2 ^ (e - 52) / 2 ^ (e + 1 - 52)
                == inject_Z (2 ^ 52)).
    { rewrite E1. pose proof (pow2_pos (e + 1 - 52)).
      apply Qmult_inj_r with (z := 2 ^ (e + 1 - 52)); [lra|].
      rewrite (Qmult_comm (inject_Z (2 ^ 52))), pow2_52. field. lra. }
    rewrite (half_even_proper Y), half_even_Z.
    rewrite E1, Qmult_comm. apply pow2_52.
  - assert (Uq : inject_Z m < inject_Z (2 ^ 53)) by (rewrite <- Zlt_Qlt; lia).
    assert (I : ilog2 (inject_Z m * 2 ^ (e - 52)) = e).
    { apply ilog2_unique; [exact Hv| |].
      - rewrite <- (pow2_52 e). nra.
      - rewrite <- (pow2_53 e). nra. }
    unfold nearest53. rewrite Qred_correct, I.
    assert (Y : inject_Z m * 2 ^ (e - 52) / 2 ^ (e - 52) == inject_Z m)
      by (field; lra).
    rewrite (half_even_proper Y), half_even_Z. reflexivity.
Qed.

Lemma nearest53_fixed (x : Q) :
  0 < x -> nearest53 (nearest53 x) == nearest53 x.
Proof.
  intro Hx. destruct (nearest53_form Hx) as [E B].
  rewrite (nearest53_proper (nearest53_pos Hx) E).
  rewrite (nearest53_grid (ilog2 x) B). symmetry. exact E.
Qed.

Lemma binary64_of_pos (x : Q) : 0 < x -> binary64 x = nearest53 x.
Proof.
  intro H. unfold binary64.
  destruct (Qltb_spec 0 x) as [[-> _]|[_ C]]; [reflexivity|lra].
Qed.

Lemma binary64_of_zero (x : Q) : x == 0 -> binary64 x = 0.
Proof.
  intro H. unfold binary64.
  destruct (Qltb_spec 0 x) as [[_ C]|[-> _]]; [lra|].
  destruct (Qltb_spec x 0) as [[_ C]|[-> _]]; [lra|reflexivity].
Qed.

(** Rounding to the nearest binary64 number is a rounding in the sense
    used above. *)
Lemma binary64_rounding : rounding binary64.
Proof.
  constructor.
  - intros x y H0 H.
    destruct (Qlt_le_dec 0 x) as [Px|Zx].
    + rewrite (binary64_of_pos Px), (@binary64_of_pos y) by lra.
      apply nearest53_monotone; assumption.
    + rewrite (@binary64_of_zero x) by lra.
      destruct (Qlt_le_dec 0 y) as [Py|Zy].
      * rewrite (binary64_of_pos Py). apply Qlt_le_weak, nearest53_pos. exact Py.
      * rewrite (@binary64_of_zero y) by lra. lra.
  - intros x Px. rewrite (binary64_of_pos Px). apply nearest53_pos. exact Px.
  - intros x H0.
    destruct (Qlt_le_dec 0 x) as [Px|Zx].
    + rewrite (binary64_of_pos Px).
      rewrite (binary64_of_pos (nearest53_pos Px)).
      apply nearest53_fixed. exact Px.
    + rewrite (@binary64_of_zero x) by lra. reflexivity.
  - rewrite (@binary64_of_pos 1) by reflexivity.
    assert (E : 1 == inject_Z (2 ^ 52) * 2 ^ (0 - 52)).
    { rewrite Qmult_comm, pow2_52. reflexivity. }
    rewrite (@nearest53_proper 1 _ ltac:(reflexivity) E).
    rewrite nearest53_grid by lia. symmetry. exact E.
  - rewrite (@binary64_of_pos (1 # 2)) by reflexivity.
    assert (E : 1 # 2 == inject_Z (2 ^ 52) * 2 ^ (-1 - 52)).
    { rewrite Qmult_comm, pow2_52. reflexivity. }
    rewrite (@nearest53_proper (1 # 2) _ ltac:(reflexivity) E).
    rewrite nearest53_grid by lia. symmetry. exact E.
Qed.

(** *** Quintile membership *)

(** C7 (as amended).  The ranked frame holds exactly the observations of
    positive weight (the others are filtered out before ranking and get
    no bucket), each once.  Every row has a positive cumulative weight
    fraction and is in at most one quintile; a row whose cumulative
    fraction, as computed, does not exceed 1 is in exactly one, the one
    whose interval [(lower, upper]] of binary64 edges contains the
    fraction.  When every row is such a row and the total weighted income
    is not zero, the five quintile income shares sum to 100 (the shares
    being added exactly), hence to 100 within 1e-6.  This frame is the
    one [compute_quintile_stats] returns.  The arithmetic of the ranking
    is binary64: any rounding that keeps the order and the sign. *)
Theorem quintile_membership_partition (fl : Q -> Q) (df : list row) :
  rounding fl ->
  let valid := Rounded.rank_rows fl df in
  (forall results valid',
      Rounded.compute_quintile_stats fl df = Ok (results, valid') ->
      valid' = valid) /\
  Permutation (positive_weight df)
              (map (fun r => (r_income r, r_weight r)) valid) /\
  Forall (fun r =>
            0 < r_weight r /\ 0 < cum_pct r /\
            (forall q q', in_quintile q r = true -> in_quintile q' r = true ->
                          q = q') /\
            (cum_pct r <= 1 ->
             exists q, r_quintile r = Some q /\
                       Rounded.lower_edge fl q < cum_pct r /\
                       cum_pct r <= Rounded.upper_edge fl q /\
                       forall q', in_quintile q' r = true <-> q' = q))
         valid /\
  (Forall (fun r => cum_pct r <= 1) valid ->
   ~ group_total (fun _ => true) valid == 0 ->
   sum (map (quintile_share valid) categories) == 100 /\
   Qabs (sum (map (quintile_share valid) categories) - 100) <= 1 # 1000000).
Proof.
  intros R valid.
  pose proof (rounded_pct_pos df R) as Hp. fold valid in Hp.
  assert (A : forall r, In r valid -> cum_pct r <= 1 ->
                exists q, r_quintile r = Some q).
  { intros r Hr H1. rewrite Forall_forall in Hp.
    destruct (rounded_fields fl df r Hr) as [-> _].
    apply rounded_cut_some; [apply Hp; exact Hr|exact H1]. }
  split; [intros results valid'; apply rounded_stats_frame|].
  split; [unfold valid; rewrite rounded_rows; apply sort_values_perm|].
  split.
  - apply Forall_forall. intros r Hr.
    pose proof (proj1 (Forall_forall _ _) Hp r Hr) as P0. simpl in P0.
    split; [apply (rounded_In fl df r Hr)|]. split; [exact P0|].
    split; [apply in_quintile_unique|].
    intro H1. destruct (A r Hr H1) as [q Hq]. exists q. split; [exact Hq|].
    assert (I : Rounded.lower_edge fl q < cum_pct r /\
                cum_pct r <= Rounded.upper_edge fl q).
    { apply (rounded_cut_interval q R P0 H1).
      destruct (rounded_fields fl df r Hr) as [<- _]. exact Hq. }
    split; [apply I|]. split; [apply I|].
    intro q'. rewrite in_quintile_iff, Hq. split; congruence.
  - intros H1 HT.
    assert (E : sum (map (quintile_share valid) categories) == 100).
    { apply quintile_shares_sum; [|exact HT].
      apply Forall_forall. intros r Hr. apply (A r Hr).
      rewrite Forall_forall in H1. apply H1. exact Hr. }
    split; [exact E|]. rewrite E. vm_compute. discriminate.
Qed.

Lemma quintile_membership_partition_witness :
  Permutation (positive_weight ties_first)
    (map (fun r => (r_income r, r_weight r))
         (Rounded.rank_rows binary64 ties_first)) /\
  sum (map (quintile_share (Rounded.rank_rows binary64 ties_first)) categories)
  == 100.
Proof.
  destruct (@quintile_membership_partition binary64 ties_first
              binary64_rounding) as (_ & P & _ & S).
  split; [exact P|]. apply S.
  - vm_compute. repeat constructor; discriminate.
  - vm_compute. discriminate.
Defined.

(** C7, counterexample.  An observation with weight zero is in the sample
    and in no bucket: the function returns, and the ranked frame has five
    rows for six observations. *)
Lemma zero_weight_observation_skipped :
  In (5, 0) with_zero_weight /\
  exists results valid,
    Rounded.compute_quintile_stats binary64 with_zero_weight
    = Ok (results, valid) /\
    length valid = 5%nat /\
    ~ In (5, 0) (map (fun r => (r_income r, r_weight r)) valid).
Proof.
  split; [left; reflexivity|].
  eexists. eexists. split; [vm_compute; reflexivity|].
  split; [reflexivity|].
  simpl. intros [H|[H|[H|[H|[H|[]]]]]]; discriminate H.
Qed.

(** Where the rounding shows.  With eight persons of weight 0.7 the
    running total of the weights ends above their pairwise sum: the
    richest person's cumulative fraction is [1 + 2^-52], no quintile
    takes it, and the five quintile shares add up to 700/9 percent.  With
    seven weights 0.3 and the richest person's weight 1.0 the same
    happens, the top quintile is empty and the table cannot be built. *)
Lemma top_row_outside_every_quintile :
  (exists r,
     last (Rounded.rank_rows binary64 weights_07) r = r /\
     In r (Rounded.rank_rows binary64 weights_07) /\
     r_income r == 8 /\ cum_pct r == 1 + 1 / 2 ^ 52 /\
     r_quintile r = None) /\
  sum (map (quintile_share (Rounded.rank_rows binary64 weights_07)) categories)
  == 700 # 9 /\
  Rounded.compute_quintile_stats binary64 weights_03_and_1
  = Raise ZeroDivisionError.
Proof.
  split; [|split].
  - eexists. split; [vm_compute; reflexivity|].
    split; [vm_compute; tauto|].
    split; [reflexivity|]. split; reflexivity.
  - vm_compute. reflexivity.
  - vm_compute. reflexivity.
Qed.

(** *** X1. Order of the ranked frame *)

(** X1.  In the frame [compute_quintile_stats] ranks (positive weights
    only, sorted by income, cumulative fractions in binary64), a row
    further down never has a lower income or a smaller cumulative weight
    fraction, and when both rows have a quintile the lower row's is never
    the lower one. *)
Theorem ranked_frame_order (fl : Q -> Q) (df : list row) (i j : nat)
  (a b : ranked) :
  rounding fl ->
  Forall (fun r => representable fl (weight r)) df ->
  (i < j)%nat ->
  nth_error (Rounded.rank_rows fl df) i = Some a ->
  nth_error (Rounded.rank_rows fl df) j = Some b ->
  r_income a <= r_income b /\ 0 < cum_pct a /\ cum_pct a <= cum_pct b /\
  forall qa qb, r_quintile a = Some qa -> r_quintile b = Some qb ->
                (quintile_rank qa <= quintile_rank qb)%nat.
Proof.
  intros R Hr Hij Ha Hb.
  destruct (StronglySorted_nth (rounded_sorted R Hr) Hij Ha Hb) as [H1 H2].
  pose proof (nth_error_In _ _ Ha) as Ia. pose proof (nth_error_In _ _ Hb) as Ib.
  pose proof (proj1 (Forall_forall _ _) (rounded_pct_pos df R) a Ia) as P0.
  simpl in P0.
  split; [exact H1|]. split; [exact P0|]. split; [exact H2|].
  intros qa qb Ea Eb.
  destruct (rounded_fields fl df a Ia) as [Fa _].
  destruct (rounded_fields fl df b Ib) as [Fb _].
  rewrite Fa in Ea. rewrite Fb in Eb.
  exact (rounded_cut_monotone fl P0 H2 Ea Eb).
Qed.

Lemma ranked_frame_order_witness :
  exists a b,
    nth_error (Rounded.rank_rows binary64 weights_07) 0 = Some a /\
    nth_error (Rounded.rank_rows binary64 weights_07) 7 = Some b /\
    r_income a <= r_income b /\ 0 < cum_pct a /\ cum_pct a <= cum_pct b.
Proof.
  destruct (nth_error (Rounded.rank_rows binary64 weights_07) 0) as [a|] eqn:Ea;
    [|vm_compute in Ea; discriminate].
  destruct (nth_error (Rounded.rank_rows binary64 weights_07) 7) as [b|] eqn:Eb;
    [|vm_compute in Eb; discriminate].
  exists a, b. split; [reflexivity|]. split; [reflexivity|].
  destruct (@ranked_frame_order binary64 weights_07 0 7 a b binary64_rounding)
    as (H1 & H2 & H3 & _); [|lia|exact Ea|exact Eb|auto].
  cbv [weights_07 incomes_1_to_8 map].
  repeat (apply Forall_cons; [vm_compute; reflexivity|]). apply Forall_nil.
Defined.

(** *** X2. Mean incomes of the groups *)

(** X2.  Whenever [compute_quintile_stats] returns, its table has seven
    rows (the five quintiles, the bottom 50% and the top 10%), the mean
    incomes of the five quintiles are in non-decreasing order, and the
    mean income of the bottom 50% is at most that of the top 10%.  The
    groups are those of the binary64 ranking; each mean is taken
    exactly. *)
Theorem quintile_means_ordered (fl : Q -> Q) (df : list row)
  (results : list group_stats) (valid : list ranked) :
  rounding fl ->
  Forall (fun r => representable fl (weight r)) df ->
  Rounded.compute_quintile_stats fl df = Ok (results, valid) ->
  valid = Rounded.rank_rows fl df /\
  exists g1 g2 g3 g4 g5 b50 t10,
    results = [g1; g2; g3; g4; g5; b50; t10] /\
    map g_label results
    = ["Q1 (Bottom 20%)"; "Q2"; "Q3"; "Q4"; "Q5 (Top 20%)"; "Bottom 50%";
       "Top 10%"]%string /\
    mean_income g1 <= mean_income g2 /\ mean_income g2 <= mean_income g3 /\
    mean_income g3 <= mean_income g4 /\ mean_income g4 <= mean_income g5 /\
    mean_income b50 <= mean_income t10.
Proof.
  intros R Hr. unfold Rounded.compute_quintile_stats. intro H.
  set (frame := Rounded.rank_rows fl df) in *.
  destruct (summarise_all categories frame) as [gs|e] eqn:Es;
    simpl in H; [|discriminate].
  destruct (summarise "Bottom 50%" (filter bottom_50 frame))
    as [b50|e] eqn:Eb; simpl in H; [|discriminate].
  destruct (summarise "Top 10%" (filter top_10 frame))
    as [t10|e] eqn:Et; simpl in H; [|discriminate].
  injection H as <- <-. split; [reflexivity|].
  apply summarise_all_ok in Es. unfold categories in Es.
  inversion Es as [|q1 g1 l1 l1' S1 R1]; subst.
  inversion R1 as [|q2 g2 l2 l2' S2 R2]; subst.
  inversion R2 as [|q3 g3 l3 l3' S3 R3]; subst.
  inversion R3 as [|q4 g4 l4 l4' S4 R4]; subst.
  inversion R4 as [|q5 g5 l5 l5' S5 R5]; subst.
  inversion R5; subst.
  exists g1, g2, g3, g4, g5, b50, t10. split; [reflexivity|].
  pose proof (rounded_weights fl df) as Hw. fold frame in Hw.
  pose proof (rounded_sorted R Hr) as Hs. fold frame in Hs.
  pose proof (rounded_pct_pos df R) as Hp. fold frame in Hp.
  rewrite Forall_forall in Hp.
  assert (Q : forall qa qb a b,
            (quintile_rank qa < quintile_rank qb)%nat ->
            In a frame -> In b frame ->
            in_quintile qa a = true -> in_quintile qb b = true ->
            r_income a <= r_income b).
  { intros qa qb a b Hlt Ia Ib Pa Pb.
    apply in_quintile_iff in Pa. apply in_quintile_iff in Pb.
    apply (ranked_le_in_order Hs); auto.
    destruct (Qlt_le_dec (cum_pct a) (cum_pct b)) as [C|C]; [exact C|].
    exfalso.
    destruct (rounded_fields fl df a Ia) as [Fa _].
    destruct (rounded_fields fl df b Ib) as [Fb _].
    rewrite Fa in Pa. rewrite Fb in Pb.
    pose proof (rounded_cut_monotone fl (Hp b Ib) C Pb Pa). lia. }
  split.
  { simpl. apply summarise_ok in S1, S2, S3, S4, S5, Eb, Et.
    destruct S1 as (_ & _ & -> & _), S2 as (_ & _ & -> & _),
      S3 as (_ & _ & -> & _), S4 as (_ & _ & -> & _), S5 as (_ & _ & -> & _),
      Eb as (_ & _ & -> & _), Et as (_ & _ & -> & _). reflexivity. }
  repeat split.
  - eapply (@group_means_ordered frame _ _ _ _ _ _ Hw); [|exact S1|exact S2].
    intros a b; apply Q; simpl; lia.
  - eapply (@group_means_ordered frame _ _ _ _ _ _ Hw); [|exact S2|exact S3].
    intros a b; apply Q; simpl; lia.
  - eapply (@group_means_ordered frame _ _ _ _ _ _ Hw); [|exact S3|exact S4].
    intros a b; apply Q; simpl; lia.
  - eapply (@group_means_ordered frame _ _ _ _ _ _ Hw); [|exact S4|exact S5].
    intros a b; apply Q; simpl; lia.
  - eapply (@group_means_ordered frame _ _ _ _ _ _ Hw); [|exact Eb|exact Et].
    intros a b Ia Ib Pa Pb. apply (ranked_le_in_order Hs); auto.
    destruct (rounded_fields fl df a Ia) as (_ & Fa & _).
    destruct (rounded_fields fl df b Ib) as (_ & _ & Fb).
    rewrite Fa in Pa. rewrite Fb in Pb.
    apply Qle_bool_iff in Pa. apply Qltb_true in Pb.
    assert (H5 : 1 # 2 <= fl (90 # 100)).
    { rewrite <- (fl_half R). apply (fl_monotone R); discriminate. }
    assert (E5 : 50 # 100 == 1 # 2) by reflexivity.
    lra.
Qed.

Lemma quintile_means_ordered_witness :
  exists results valid,
    Rounded.compute_quintile_stats binary64 with_zero_weight
    = Ok (results, valid) /\
    length results = 7%nat.
Proof.
  destruct (Rounded.compute_quintile_stats binary64 with_zero_weight)
    as [[results valid]|e] eqn:E; [|vm_compute in E; discriminate].
  exists results, valid. split; [reflexivity|].
  destruct (@quintile_means_ordered binary64 with_zero_weight results valid
              binary64_rounding)
    as (_ & g1 & g2 & g3 & g4 & g5 & b50 & t10 & L & _).
  - cbv [with_zero_weight].
    repeat (apply Forall_cons; [vm_compute; reflexivity|]). apply Forall_nil.
  - exact E.
  - rewrite L. reflexivity.
Defined.

(** *** X3. Too few records *)

(** X3.  [compute_quintile_stats] raises [ZeroDivisionError] exactly when
    one of its seven groups (the five quintiles, the bottom 50%, the top
    10%) receives no record, and returns its table of seven rows together
    with the ranked frame exactly when every group receives one; in
    particular it raises for every sample with fewer than five records of
    positive weight.  The groups are those of the binary64 ranking,
    whatever the rounding. *)
Theorem quintile_stats_need_every_group (fl : Q -> Q) (df : list row) :
  let valid := Rounded.rank_rows fl df in
  (Rounded.compute_quintile_stats fl df = Raise ZeroDivisionError <->
   (exists q, filter (in_quintile q) valid = []) \/
   filter bottom_50 valid = [] \/ filter top_10 valid = []) /\
  ((exists results,
      Rounded.compute_quintile_stats fl df = Ok (results, valid) /\
      length results = 7%nat) <->
   (forall q, filter (in_quintile q) valid <> []) /\
   filter bottom_50 valid <> [] /\ filter top_10 valid <> []) /\
  ((length (positive_weight df) < 5)%nat ->
   Rounded.compute_quintile_stats fl df = Raise ZeroDivisionError).
Proof.
  intro valid.
  assert (Raises : (exists q, filter (in_quintile q) valid = []) \/
                   filter bottom_50 valid = [] \/ filter top_10 valid = [] ->
                   Rounded.compute_quintile_stats fl df
                   = Raise ZeroDivisionError).
  { intro H.
    destruct (rounded_stats_outcome fl df) as [[_ E]|[(A & B & C) _]];
      [exact E|].
    fold valid in A, B, C. destruct H as [[q Hq]|[H|H]].
    - destruct (A q Hq).
    - destruct (B H).
    - destruct (C H). }
  split; [|split].
  - split; [|exact Raises]. intro H.
    destruct (rounded_stats_outcome fl df) as [[E _]|[_ (results & E & _)]];
      [exact E|congruence].
  - split.
    + intros (results & E & _).
      destruct (rounded_stats_outcome fl df) as [[_ E']|[A _]];
        [congruence|exact A].
    + intros (A & B & C).
      destruct (rounded_stats_outcome fl df) as [[H _]|[_ E]]; [|exact E].
      fold valid in H. destruct H as [[q Hq]|[H|H]].
      * destruct (A q Hq).
      * destruct (B H).
      * destruct (C H).
  - intro H. apply Raises. left. apply few_rows_empty_group. exact H.
Qed.

Lemma quintile_stats_need_every_group_witness :
  Rounded.compute_quintile_stats binary64 two_persons
  = Raise ZeroDivisionError /\
  Rounded.compute_quintile_stats binary64 weights_03_and_1
  = Raise ZeroDivisionError.
Proof.
  split.
  - destruct (quintile_stats_need_every_group binary64 two_persons)
      as (_ & _ & Few).
    apply Few. vm_compute. lia.
  - destruct (quintile_stats_need_every_group binary64 weights_03_and_1)
      as ([_ Raises] & _ & _).
    apply Raises. left. exists Q5. vm_compute. reflexivity.
Defined.

Transparent sum.

End RoundedFacts.

(** ** D. Bootstrap report *)

Section MoreBootstrapFacts.
Import Np Distributional Bootstrap Examples.
Local Open Scope Q_scope.

Opaque sum.
(** *** Order statistics *)

Lemma Sorted_nth_le (l : list Q) :
  Sorted Qle l -> forall i j, (i <= j)%nat -> (j < length l)%nat ->
  nth i l 0 <= nth j l 0.
Proof.
  intro Hs. apply Sorted_StronglySorted in Hs; [|exact Qle_trans].
  induction Hs as [|x l Hs IH Hx]; intros i j Hij Hj; [simpl in Hj; lia|].
  destruct j as [|j].
  - assert (i = 0)%nat by lia. subst. simpl. lra.
  - destruct i as [|i]; simpl.
    + rewrite Forall_forall in Hx. apply Hx. apply nth_In. simpl in Hj. lia.
    + apply IH; simpl in Hj; lia.
Qed.

Lemma sort_nth_In vals i :
  (i < length vals)%nat -> In (nth i (sort vals) 0) vals.
Proof.
  intro H. apply (Permutation_in _ (Permutation_sym (sort_perm vals))).
  apply nth_In. rewrite sort_length. exact H.
Qed.

(** The position [h] of a percentile and its floor. *)
Lemma percentile_position (n : nat) (q : Q) :
  (1 <= n)%nat -> 0 <= q -> q <= 100 ->
  let h := inject_Z (Z.of_nat (n - 1)) * q / 100 in
  0 <= h /\ h <= inject_Z (Z.of_nat (n - 1)) /\
  (0 <= Qfloor h <= Z.of_nat (n - 1))%Z /\
  0 <= h - inject_Z (Qfloor h) /\ h - inject_Z (Qfloor h) < 1.
Proof.
  intros Hn H0 H1 h.
  assert (N0 : 0 <= inject_Z (Z.of_nat (n - 1))).
  { change 0 with (inject_Z 0). rewrite <- Zle_Qle. lia. }
  assert (A : 0 <= h).
  { unfold h. apply Qle_shift_div_l; [reflexivity|]. nra. }
  assert (B : h <= inject_Z (Z.of_nat (n - 1))).
  { unfold h. apply Qle_shift_div_r; [reflexivity|]. nra. }
  split; [exact A|]. split; [exact B|].
  pose proof (Qfloor_le h) as F1. pose proof (Qlt_floor h) as F2.
  split.
  - split.
    + change 0%Z with (Qfloor 0). apply Qfloor_resp_le. exact A.
    + rewrite <- (Qfloor_Z (Z.of_nat (n - 1))). apply Qfloor_resp_le. exact B.
  - rewrite inject_Z_plus in F2. change (inject_Z 1) with 1 in F2. lra.
Qed.

Lemma percentile_between (vals : list Q) (q m M : Q) :
  vals <> [] -> 0 <= q -> q <= 100 ->
  (forall v, In v vals -> m <= v /\ v <= M) ->
  m <= percentile vals q /\ percentile vals q <= M.
Proof.
  intros Hne H0 H1 Hb. unfold percentile. rewrite sort_length.
  assert (Hn : (1 <= length vals)%nat) by (destruct vals; [congruence|simpl; lia]).
  destruct (percentile_position Hn H0 H1) as (_ & _ & [F0 Fn] & G0 & G1).
  set (h := inject_Z (Z.of_nat (length vals - 1)) * q / 100) in *.
  set (lo := Z.to_nat (Qfloor h)).
  set (hi := Nat.min (S lo) (length vals - 1)).
  assert (Llo : (lo < length vals)%nat) by (unfold lo; lia).
  assert (Lhi : (hi < length vals)%nat) by (unfold hi; lia).
  destruct (Hb _ (sort_nth_In vals Llo)) as [A1 A2].
  destruct (Hb _ (sort_nth_In vals Lhi)) as [B1 B2].
  set (a := nth lo (sort vals) 0) in *. set (b := nth hi (sort vals) 0) in *.
  set (t := h - inject_Z (Qfloor h)) in *.
  split; nra.
Qed.

Lemma percentile_monotone (vals : list Q) (q1 q2 : Q) :
  vals <> [] -> 0 <= q1 -> q1 <= q2 -> q2 <= 100 ->
  percentile vals q1 <= percentile vals q2.
Proof.
  intros Hne H0 H12 H1. unfold percentile. rewrite sort_length.
  assert (Hn : (1 <= length vals)%nat) by (destruct vals; [congruence|simpl; lia]).
  assert (Q1 : q1 <= 100) by lra. assert (Q2 : 0 <= q2) by lra.
  destruct (percentile_position Hn H0 Q1) as (_ & _ & [F0 Fn] & G0 & G1).
  destruct (percentile_position Hn Q2 H1) as (_ & _ & [F0' Fn'] & G0' & G1').
  set (N := inject_Z (Z.of_nat (length vals - 1))) in *.
  assert (N0 : 0 <= N).
  { unfold N. change 0 with (inject_Z 0). rewrite <- Zle_Qle. lia. }
  set (h1 := N * q1 / 100) in *. set (h2 := N * q2 / 100) in *.
  assert (H : h1 <= h2).
  { unfold h1, h2. apply Qmult_le_compat_r; [|discriminate]. nra. }
  pose proof (Qfloor_resp_le _ _ H) as FF.
  set (f1 := Qfloor h1) in *. set (f2 := Qfloor h2) in *.
  pose proof (sort_sorted vals) as Hs.
  assert (L : length (sort vals) = length vals) by apply sort_length.
  set (s := sort vals) in *.
  set (lo1 := Z.to_nat f1). set (lo2 := Z.to_nat f2).
  set (hi1 := Nat.min (S lo1) (length vals - 1)).
  set (hi2 := Nat.min (S lo2) (length vals - 1)).
  assert (D1 : nth lo1 s 0 <= nth hi1 s 0)
    by (apply (Sorted_nth_le Hs); unfold hi1, lo1; lia).
  assert (D2 : nth lo2 s 0 <= nth hi2 s 0)
    by (apply (Sorted_nth_le Hs); unfold hi2, lo2; lia).
  destruct (Z.eq_dec f1 f2) as [E|E].
  - assert (lo1 = lo2) by (unfold lo1, lo2; congruence).
    assert (hi1 = hi2) by (unfold hi1, hi2; congruence).
    rewrite <- H2, <- H3 in *.
    assert (T : h1 - inject_Z f1 <= h2 - inject_Z f2) by (rewrite E; lra).
    set (t1 := h1 - inject_Z f1) in *. set (t2 := h2 - inject_Z f2) in *.
    set (a := nth lo1 s 0) in *. set (b := nth hi1 s 0) in *. nra.
  - assert (M : nth hi1 s 0 <= nth lo2 s 0)
      by (apply (Sorted_nth_le Hs); unfold hi1, lo1, lo2; lia).
    set (t1 := h1 - inject_Z f1) in *. set (t2 := h2 - inject_Z f2) in *.
    set (a1 := nth lo1 s 0) in *. set (b1 := nth hi1 s 0) in *.
    set (a2 := nth lo2 s 0) in *. set (b2 := nth hi2 s 0) in *. nra.
Qed.

Lemma sum_between (vals : list Q) (m M : Q) :
  (forall v, In v vals -> m <= v /\ v <= M) ->
  m * inject_Z (Z.of_nat (length vals)) <= sum vals /\
  sum vals <= M * inject_Z (Z.of_nat (length vals)).
Proof.
  induction vals as [|x vals IH]; intro Hb.
  - cbn [length Z.of_nat]. change (inject_Z 0) with 0. rewrite sum_nil. lra.
  - destruct (Hb x (or_introl eq_refl)) as [X1 X2].
    destruct IH as [I1 I2]; [intros v Hv; apply Hb; right; exact Hv|].
    rewrite sum_cons.
    change (length (x :: vals)) with (S (length vals)).
    rewrite Nat2Z.inj_succ. unfold Z.succ. rewrite inject_Z_plus.
    change (inject_Z 1) with 1. lra.
Qed.

Lemma mean_between (vals : list Q) (m M : Q) :
  vals <> [] -> (forall v, In v vals -> m <= v /\ v <= M) ->
  m <= mean vals /\ mean vals <= M.
Proof.
  intros Hne Hb. destruct (sum_between vals Hb) as [S1 S2]. unfold mean.
  assert (P : 0 < inject_Z (Z.of_nat (length vals))).
  { change 0 with (inject_Z 0). rewrite <- Zlt_Qlt.
    destruct vals; [congruence|simpl; lia]. }
  split; [apply Qle_shift_div_l|apply Qle_shift_div_r]; lra.
Qed.

(** *** Masked sums *)

Lemma masked_mul (keep : Q -> bool) : forall (p a b : list Q),
  length a = length b ->
  mul (map snd (filter (fun pv => keep (fst pv)) (combine p a)))
      (map snd (filter (fun pv => keep (fst pv)) (combine p b)))
  = map snd (filter (fun pv => keep (fst pv)) (combine p (mul a b))).
Proof.
  induction p as [|x p IH]; intros a b L; [reflexivity|].
  destruct a as [|y a], b as [|z b]; try discriminate; [reflexivity|].
  simpl in L. cbn [combine mul filter fst].
  destruct (keep x); cbn [map snd mul]; rewrite IH by congruence; reflexivity.
Qed.

Lemma masked_sum_bounds (keep : Q -> bool) : forall (p v : list Q),
  Forall (fun x => 0 <= x) v ->
  0 <= sum (map snd (filter (fun pv => keep (fst pv)) (combine p v))) /\
  sum (map snd (filter (fun pv => keep (fst pv)) (combine p v))) <= sum v.
Proof.
  induction p as [|x p IH]; intros v Hv.
  - simpl. rewrite sum_nil. split; [lra|apply sum_nonneg; exact Hv].
  - destruct v as [|y v]; [simpl; rewrite sum_nil; lra|].
    pose proof (Forall_inv Hv) as Y. simpl in Y.
    destruct (IH v (Forall_inv_tail Hv)) as [I1 I2].
    cbn [combine filter fst]. rewrite (sum_cons y).
    destruct (keep x); cbn [map snd]; rewrite ?sum_cons; lra.
Qed.

Lemma masked_disjoint (k1 k2 : Q -> bool) : forall (p v : list Q),
  (forall x, k1 x = true -> k2 x = true -> False) ->
  Forall (fun x => 0 <= x) v ->
  sum (map snd (filter (fun pv => k1 (fst pv)) (combine p v)))
  + sum (map snd (filter (fun pv => k2 (fst pv)) (combine p v))) <= sum v.
Proof.
  induction p as [|x p IH]; intros v Hd Hv.
  - simpl. rewrite sum_nil. pose proof (sum_nonneg Hv). lra.
  - destruct v as [|y v]; [simpl; rewrite sum_nil; lra|].
    pose proof (Forall_inv Hv) as Y. simpl in Y.
    specialize (IH v Hd (Forall_inv_tail Hv)).
    cbn [combine filter fst]. rewrite (sum_cons y).
    destruct (k1 x) eqn:E1, (k2 x) eqn:E2; cbn [map snd]; rewrite ?sum_cons;
      try lra.
    exfalso. exact (Hd x E1 E2).
Qed.

Lemma combine_Forall (P : row -> Prop) (A B : Q -> Prop) :
  (forall a b, A a -> B b -> P (a, b)) ->
  forall inc w, Forall A inc -> Forall B w -> Forall P (combine inc w).
Proof.
  intros H. induction inc as [|a inc IH]; intros w Hi Hw; [constructor|].
  destruct w as [|b w]; [constructor|].
  simpl. constructor.
  - apply H; [exact (Forall_inv Hi)|exact (Forall_inv Hw)].
  - apply IH; [exact (Forall_inv_tail Hi)|exact (Forall_inv_tail Hw)].
Qed.

Lemma share_in_range g T :
  0 <= g -> g <= T ->
  0 <= (if Qltb 0 T then g / T * 100 else 0) /\
  (if Qltb 0 T then g / T * 100 else 0) <= 100.
Proof.
  intros G0 G1. destruct (Qltb_spec 0 T) as [[-> H]|[-> H]]; [|lra].
  assert (0 <= g / T) by (apply Qle_shift_div_l; lra).
  assert (g / T <= 1) by (apply Qle_shift_div_r; lra).
  lra.
Qed.

(** *** X6. The reported interval *)

(** X6.  For every non-empty list of replicate values, [test_bootstrap_ci]
    reports a lower bound that is not above the upper bound; and if all
    replicate values lie in an interval, then so do the lower bound, the
    upper bound and the mean. *)
Theorem bootstrap_interval_ordered (np_sqrt : Q -> Q) (name : string)
  (vals : list Q) (m M : Q) :
  vals <> [] ->
  (forall v, In v vals -> m <= v /\ v <= M) ->
  let r := summarise_stat np_sqrt name vals in
  m <= ci_lower r /\ ci_lower r <= ci_upper r /\ ci_upper r <= M /\
  m <= ci_mean r /\ ci_mean r <= M.
Proof.
  intros Hne Hb r. unfold r, summarise_stat.
  cbn [ci_lower ci_upper ci_mean].
  destruct (@percentile_between vals (25 # 10) m M Hne) as [L1 _];
    [discriminate|discriminate|exact Hb|].
  destruct (@percentile_between vals (975 # 10) m M Hne) as [_ U2];
    [discriminate|discriminate|exact Hb|].
  destruct (mean_between Hne Hb) as [M1 M2].
  split; [exact L1|]. split.
  - apply percentile_monotone; [exact Hne|discriminate|discriminate|discriminate].
  - split; [exact U2|]. split; assumption.
Qed.

Lemma bootstrap_interval_ordered_witness :
  let r := summarise_stat newton_sqrt "bottom_50_share" [30; 10; 20] in
  10 <= ci_lower r /\ ci_lower r <= ci_upper r /\ ci_upper r <= 30.
Proof.
  destruct (@bootstrap_interval_ordered newton_sqrt "bottom_50_share"
              [30; 10; 20] 10 30) as (H1 & H2 & H3 & _).
  - discriminate.
  - intros v [<-|[<-|[<-|[]]]]; split; discriminate.
  - cbv zeta. split; [exact H1|]. split; [exact H2|exact H3].
Defined.

(** *** X7. Shares of one replicate *)

(** X7.  When the resampled incomes are non-negative and the weights
    positive, the statistics of a replicate are in range: the bottom-50%
    and top-10% income shares lie between 0 and 100 and together do not
    exceed 100, and the bottom-50% mean income is not negative. *)
Theorem replicate_shares_bounded (inc w : list Q) :
  length inc = length w ->
  Forall (fun x => 0 <= x) inc -> Forall (fun x => 0 < x) w ->
  let s := replicate_stats inc w in
  (0 <= s_bottom_50_share s /\ s_bottom_50_share s <= 100) /\
  (0 <= s_top_10_share s /\ s_top_10_share s <= 100) /\
  s_bottom_50_share s + s_top_10_share s <= 100 /\
  0 <= s_bottom_50_mean_income s.
Proof.
  intros L Hi Hw s. unfold s, replicate_stats.
  cbn [s_bottom_50_share s_top_10_share s_bottom_50_mean_income].
  set (sorted := sort_values (combine inc w)).
  assert (Hs : Forall (fun r => 0 <= income r /\ 0 < weight r) sorted).
  { apply sort_values_Forall.
    apply (@combine_Forall _ (fun x => 0 <= x) (fun x => 0 < x)); auto. }
  set (inc_s := map income sorted). set (w_s := map weight sorted).
  assert (Ls : length inc_s = length w_s)
    by (unfold inc_s, w_s; rewrite !length_map; reflexivity).
  set (cum_pct := map (fun c => c / last (cumsum w_s) 0) (cumsum w_s)).
  rewrite (@masked_mul (fun pct => Qle_bool pct (50 # 100)) cum_pct inc_s w_s Ls).
  rewrite (@masked_mul (fun pct => Qltb (90 # 100) pct) cum_pct inc_s w_s Ls).
  set (v := mul inc_s w_s).
  assert (Hv : Forall (fun x => 0 <= x) v).
  { unfold v, inc_s, w_s. rewrite mul_map. apply Forall_map.
    eapply Forall_impl; [|exact Hs]. simpl. intros r [H1 H2]. nra. }
  set (k50 := fun pct => Qle_bool pct (50 # 100)).
  set (k90 := fun pct => Qltb (90 # 100) pct).
  destruct (masked_sum_bounds k50 cum_pct Hv) as [A1 A2].
  destruct (masked_sum_bounds k90 cum_pct Hv) as [B1 B2].
  assert (D : sum (map snd (filter (fun pv => k50 (fst pv)) (combine cum_pct v)))
              + sum (map snd (filter (fun pv => k90 (fst pv)) (combine cum_pct v)))
              <= sum v).
  { apply masked_disjoint; [|exact Hv]. unfold k50, k90. intros x H1 H2.
    apply Qle_bool_iff in H1. apply Qltb_true in H2. lra. }
  unfold k50, k90 in *. cbv beta in *.
  set (b50 := sum (map snd (filter (fun pv => Qle_bool (fst pv) (50 # 100))
                                   (combine cum_pct v)))) in *.
  set (t10 := sum (map snd (filter (fun pv => Qltb (90 # 100) (fst pv))
                                   (combine cum_pct v)))) in *.
  set (T := sum v) in *.
  split; [apply share_in_range; assumption|].
  split; [apply share_in_range; assumption|].
  split.
  - destruct (Qltb_spec 0 T) as [[-> H]|[-> H]]; [|lra].
    assert (E : b50 / T * 100 + t10 / T * 100 == (b50 + t10) / T * 100)
      by (field; lra).
    rewrite E.
    assert ((b50 + t10) / T <= 1) by (apply Qle_shift_div_r; lra). lra.
  - match goal with |- 0 <= (if Qltb 0 ?W then _ else _) =>
      destruct (Qltb_spec 0 W) as [[-> H]|[-> H]]; [|lra]
    end.
    apply Qle_shift_div_l; lra.
Qed.

Lemma replicate_shares_bounded_witness :
  let s := replicate_stats [10; 30; 20] [1; 2; 3] in
  s_bottom_50_share s + s_top_10_share s <= 100.
Proof.
  apply (@replicate_shares_bounded [10; 30; 20] [1; 2; 3]).
  - reflexivity.
  - repeat constructor; discriminate.
  - repeat constructor.
Defined.

Transparent sum.

End MoreBootstrapFacts.

(** ** E. Attribution and welfare *)

Section MoreAttributionFacts.
Import Np Attribution Examples.
Local Open Scope Q_scope.

Opaque sum.

(** *** Totals carried by the attribution *)

Lemma spending_impacts_closed (m i n : Q) :
  add_cut n nondefense_shares
    (add_cut i income_security_shares
       (add_cut m medicaid_shares
          (map (fun qs : string * Q => (fst qs, 0)) medicaid_shares)))
  = [("Q1 (Bottom 20%)"%string,
      0 + m * (40 # 100) + i * (50 # 100) + n * (25 # 100));
     ("Q2"%string, 0 + m * (30 # 100) + i * (30 # 100) + n * (25 # 100));
     ("Q3"%string, 0 + m * (15 # 100) + i * (12 # 100) + n * (22 # 100));
     ("Q4"%string, 0 + m * (10 # 100) + i * (6 # 100) + n * (18 # 100));
     ("Q5 (Top 20%)"%string,
      0 + m * (5 # 100) + i * (2 # 100) + n * (10 # 100))].
Proof. reflexivity. Qed.

(** *** Welfare rows *)

Lemma welfare_row_In total_impacts quintile_data r :
  In r (welfare_analysis total_impacts quintile_data) ->
  exists row, In row quintile_data /\
              0 < q_mean_posttax_income row /\
              r = welfare_row_of total_impacts row.
Proof.
  rewrite welfare_analysis_filter. intro H. apply in_map_iff in H.
  destruct H as (row & <- & Hrow). apply filter_In in Hrow.
  destruct Hrow as [H1 H2]. exists row. split; [exact H1|]. split; [|reflexivity].
  unfold eligible in H2.
  destruct (dict_get (q_quintile row) total_impacts); [|discriminate].
  apply Qltb_true. exact H2.
Qed.

Lemma square_ratio_decreasing (c y1 y2 : Q) :
  0 < c -> 0 < y1 -> y1 < y2 ->
  (c / y2) * (c / y2) < (c / y1) * (c / y1).
Proof.
  intros Hc H1 H12.
  assert (H2 : 0 < y2) by lra.
  assert (A : 0 < c / y2) by (apply Qlt_shift_div_l; lra).
  assert (B : c / y2 < c / y1).
  { apply Qlt_shift_div_l; [exact H1|].
    assert (E : c / y2 * y1 == c * (y1 / y2)) by (field; lra).
    rewrite E.
    assert (y1 / y2 < 1) by (apply Qlt_shift_div_r; lra).
    assert (0 < y1 / y2) by (apply Qlt_shift_div_l; lra). nra. }
  nra.
Qed.

Lemma square_ratio_threshold (c y : Q) :
  0 < c -> 0 < y -> (1 <= (c / y) * (c / y) <-> y <= c).
Proof.
  intros Hc Hy.
  assert (A : 0 < c / y) by (apply Qlt_shift_div_l; lra).
  assert (E : c / y * y == c) by (field; lra).
  split; intro H.
  - destruct (Qlt_le_dec c y) as [L|L]; [|exact L]. exfalso.
    assert (c / y < 1) by (apply Qlt_shift_div_r; lra). nra.
  - assert (1 <= c / y) by (apply Qle_shift_div_l; lra). nra.
Qed.

(** *** X8. The attribution conserves the totals *)

(** X8.  Whenever [distributional_attribution] returns, the spending
    cuts it attributes to the five quintiles add up to the Medicaid,
    Income Security and Nondefense Discretionary gaps of the policy gap
    (a missing category counting as 0), the tariff burdens add up to
    minus 1.4 times the tariff gap, and each quintile's total is the sum
    of its two parts. *)
Theorem attribution_conserves_totals (policy_gap : dict Q) (tariff_gap : Q)
  (quintile_data : list quintile_row) (t : dict impact) :
  distributional_attribution policy_gap tariff_gap quintile_data = Ok t ->
  sum (map (fun qi => spending_cut_B (snd qi)) t)
  == get_or "Medicaid" 0 policy_gap + get_or "Income Security" 0 policy_gap
     + get_or "Nondefense Discretionary" 0 policy_gap /\
  sum (map (fun qi => tariff_burden_B (snd qi)) t)
  == - ((14 # 10) * tariff_gap) /\
  Forall (fun qi => total_impact_B (snd qi)
                    = spending_cut_B (snd qi) + tariff_burden_B (snd qi)) t.
Proof.
  unfold distributional_attribution. rewrite spending_impacts_closed.
  destruct (b50_income_of quintile_data) as [b|]; [|discriminate].
  intro H. injection H as <-.
  set (m := get_or "Medicaid" 0 policy_gap).
  set (i := get_or "Income Security" 0 policy_gap).
  set (n := get_or "Nondefense Discretionary" 0 policy_gap).
  split; [|split].
  - match goal with |- sum ?L == _ =>
      change L with [0 + m * (40 # 100) + i * (50 # 100) + n * (25 # 100);
                     0 + m * (30 # 100) + i * (30 # 100) + n * (25 # 100);
                     0 + m * (15 # 100) + i * (12 # 100) + n * (22 # 100);
                     0 + m * (10 # 100) + i * (6 # 100) + n * (18 # 100);
                     0 + m * (5 # 100) + i * (2 # 100) + n * (10 # 100)]
    end.
    rewrite !sum_cons, sum_nil. ring.
  - match goal with |- sum ?L == _ =>
      change L with [- (tariff_gap * (14 # 10)) * (10 # 100);
                     - (tariff_gap * (14 # 10)) * (15 # 100);
                     - (tariff_gap * (14 # 10)) * (22 # 100);
                     - (tariff_gap * (14 # 10)) * (27 # 100);
                     - (tariff_gap * (14 # 10)) * (26 # 100)]
    end.
    rewrite !sum_cons, sum_nil. ring.
  - repeat constructor.
Qed.

Lemma attribution_conserves_totals_witness :
  exists t,
    distributional_attribution
      [("Medicaid"%string, - (36)); ("Income Security"%string, - (53))] 100
      strata = Ok t /\
    sum (map (fun qi => spending_cut_B (snd qi)) t) == - (89).
Proof.
  destruct (distributional_attribution
              [("Medicaid"%string, - (36)); ("Income Security"%string, - (53))]
              100 strata) as [t|e] eqn:E; [|vm_compute in E; discriminate].
  exists t. split; [reflexivity|].
  destruct (attribution_conserves_totals _ _ _ E) as [H _].
  rewrite H. reflexivity.
Defined.

(** *** X9. Welfare weights *)

(** X9.  Every row of the welfare table has a positive mean income and a
    non-negative loss; its weight is positive, and at least 1 exactly
    when the mean income is at most the reference income 31343; its
    welfare-weighted percentage loss is the plain percentage loss times
    the weight; and of two rows the one with the lower mean income has
    the strictly larger weight. *)
Theorem welfare_weights_favour_low_incomes (total_impacts : dict impact)
  (quintile_data : list quintile_row) (r1 r2 : welfare_row) :
  In r1 (welfare_analysis total_impacts quintile_data) ->
  In r2 (welfare_analysis total_impacts quintile_data) ->
  (0 < w_mean_income r1 /\ 0 <= per_person_loss r1 /\ 0 < welfare_weight r1) /\
  (1 <= welfare_weight r1 <-> w_mean_income r1 <= median_income) /\
  welfare_equivalent_loss r1 == per_person_loss r1 * welfare_weight r1 /\
  welfare_pct_loss r1 == income_pct_loss r1 * welfare_weight r1 /\
  (w_mean_income r1 < w_mean_income r2 ->
   welfare_weight r2 < welfare_weight r1).
Proof.
  intros H1 H2.
  apply welfare_row_In in H1. destruct H1 as (row1 & _ & P1 & ->).
  apply welfare_row_In in H2. destruct H2 as (row2 & _ & P2 & ->).
  unfold welfare_row_of.
  cbn [w_mean_income per_person_loss welfare_weight welfare_equivalent_loss
       welfare_pct_loss income_pct_loss].
  set (y1 := q_mean_posttax_income row1) in *.
  set (y2 := q_mean_posttax_income row2) in *.
  assert (M : 0 < median_income) by reflexivity.
  assert (A : 0 < median_income / y1) by (apply Qlt_shift_div_l; lra).
  assert (L : 0 <= match dict_get (q_quintile row1) total_impacts with
                   | Some imp => Qabs (per_person imp)
                   | None => 0
                   end).
  { destruct (dict_get (q_quintile row1) total_impacts);
      [apply Qabs_nonneg|lra]. }
  split; [split; [exact P1|split; [exact L|nra]]|].
  split; [apply square_ratio_threshold; assumption|].
  split; [reflexivity|]. split; [field; lra|].
  intro Hlt. apply square_ratio_decreasing; assumption.
Qed.

Lemma welfare_weights_favour_low_incomes_witness :
  exists r1 r2,
    In r1 (welfare_analysis [("Q1 (Bottom 20%)"%string,
                              mkImpact 0 0 0 1 (- (100)));
                             ("Q4"%string, mkImpact 0 0 0 1 (- (100)))] strata) /\
    In r2 (welfare_analysis [("Q1 (Bottom 20%)"%string,
                              mkImpact 0 0 0 1 (- (100)));
                             ("Q4"%string, mkImpact 0 0 0 1 (- (100)))] strata) /\
    welfare_weight r2 < welfare_weight r1.
Proof.
  set (t := [("Q1 (Bottom 20%)"%string, mkImpact 0 0 0 1 (- (100)));
             ("Q4"%string, mkImpact 0 0 0 1 (- (100)))]).
  assert (E : exists r1 r2, welfare_analysis t strata = [r1; r2])
    by (do 2 eexists; reflexivity).
  destruct E as (r1 & r2 & E).
  assert (I1 : In r1 (welfare_analysis t strata)) by (rewrite E; simpl; tauto).
  assert (I2 : In r2 (welfare_analysis t strata)) by (rewrite E; simpl; tauto).
  exists r1, r2. split; [exact I1|]. split; [exact I2|].
  apply (welfare_weights_favour_low_incomes t strata r1 r2 I1 I2).
  assert (E' : welfare_analysis t strata
               = [welfare_row_of t (mkQuintileRow "Q1 (Bottom 20%)" 50 5000 5000);
                  welfare_row_of t (mkQuintileRow "Q4" 50 60000 60000)])
    by reflexivity.
  rewrite E' in E. injection E as <- <-. reflexivity.
Defined.

Transparent sum.

End MoreAttributionFacts.

(** ** C. Interrupted time series *)

Section MorePolicyImpactFacts.
Import Np PolicyImpact Examples Window.
Local Open Scope Z_scope.

(** *** Lag truncation *)

Lemma int_075_cbrt_mono (n m : nat) :
  (n <= m)%nat ->
  int_075_cbrt (Z.of_nat n) <= int_075_cbrt (Z.of_nat m).
Proof.
  intro H.
  destruct (int_075_cbrt_spec n) as (A0 & A1 & A2).
  destruct (int_075_cbrt_spec m) as (B0 & B1 & B2).
  set (k := int_075_cbrt (Z.of_nat n)) in *.
  set (k' := int_075_cbrt (Z.of_nat m)) in *.
  destruct A1 as [->|A1]; [exact B0|].
  assert (k < k' + 1); [|lia].
  apply cube_lt_inv; lia.
Qed.

Lemma int_075_cbrt_small (n : nat) :
  (1 <= n)%nat -> int_075_cbrt (Z.of_nat n) < Z.of_nat n.
Proof.
  intro H.
  destruct (int_075_cbrt_spec n) as (A0 & A1 & A2).
  set (k := int_075_cbrt (Z.of_nat n)) in *.
  destruct A1 as [->|A1]; [lia|].
  destruct (Z.lt_ge_cases k (Z.of_nat n)) as [L|L]; [exact L|].
  exfalso.
  assert (k <= k ^ 3).
  { replace (k ^ 3) with (k * k * k) by ring. nia. }
  lia.
Qed.

(** *** The included window *)

Lemma filter_all (A : Type) (p : A -> bool) (l : list A) :
  Forall (fun x => p x = true) l -> filter p l = l.
Proof. induction 1; simpl; [reflexivity|]. rewrite H. congruence. Qed.

Lemma filter_none (A : Type) (p : A -> bool) (l : list A) :
  Forall (fun x => p x = false) l -> filter p l = [].
Proof. induction 1; simpl; [reflexivity|]. rewrite H. assumption. Qed.

Lemma sorted_split (s : list (Z * Q)) (dt : Z) :
  StronglySorted by_time s ->
  exists a b, s = a ++ b /\
              Forall (fun o => fst o < dt) a /\ Forall (fun o => dt <= fst o) b.
Proof.
  induction 1 as [|x s Hs IH Hx].
  - exists [], []. repeat split; constructor.
  - destruct IH as (a & b & -> & Ha & Hb).
    destruct (Z.lt_ge_cases (fst x) dt) as [L|L].
    + exists (x :: a), b. repeat split; [constructor; assumption|exact Hb].
    + exists [], (x :: a ++ b). repeat split; [constructor|].
      constructor; [exact L|].
      eapply Forall_impl; [|exact Hx]. unfold by_time. intros o Ho. lia.
Qed.

Lemma counts_of_split (a b : list (Z * Q)) (dt : Z) :
  Forall (fun o => fst o < dt) a -> Forall (fun o => dt <= fst o) b ->
  filter (fun o => fst o <? dt) (a ++ b) = a /\
  pre_count (a ++ b) dt = length a /\ post_count (a ++ b) dt = length b.
Proof.
  intros Ha Hb. unfold pre_count, post_count. rewrite !filter_app.
  rewrite (@filter_all _ (fun o => fst o <? dt) a),
          (@filter_none _ (fun o => fst o <? dt) b),
          (@filter_none _ (fun o => dt <=? fst o) a),
          (@filter_all _ (fun o => dt <=? fst o) b).
  - rewrite app_nil_r. simpl. auto.
  - eapply Forall_impl; [|exact Hb]. simpl. intros o Ho. apply Z.leb_le. exact Ho.
  - eapply Forall_impl; [|exact Ha]. simpl. intros o Ho. apply Z.leb_gt. exact Ho.
  - eapply Forall_impl; [|exact Hb]. simpl. intros o Ho. apply Z.ltb_ge. exact Ho.
  - eapply Forall_impl; [|exact Ha]. simpl. intros o Ho. apply Z.ltb_lt. exact Ho.
Qed.

Lemma Forall_skipn (A : Type) (P : A -> Prop) n (l : list A) :
  Forall P l -> Forall P (skipn n l).
Proof.
  intro H. apply Forall_forall. intros x Hx. rewrite Forall_forall in H.
  apply H. rewrite <- (firstn_skipn n l). apply in_or_app. right. exact Hx.
Qed.

Lemma Forall_firstn (A : Type) (P : A -> Prop) n (l : list A) :
  Forall P l -> Forall P (firstn n l).
Proof.
  intro H. apply Forall_forall. intros x Hx. rewrite Forall_forall in H.
  apply H. rewrite <- (firstn_skipn n l). apply in_or_app. left. exact Hx.
Qed.

(** The first trimming step: the last [kept pre] observations before the
    intervention, and everything from the intervention on. *)
Lemma trim_pre (a b : list (Z * Q)) (dt : Z) (pre : option Z) :
  Forall (fun o => fst o < dt) a -> Forall (fun o => dt <= fst o) b ->
  (forall p, pre = Some p -> 0 <= p) ->
  exists a0 a',
    a = a0 ++ a' /\ length a' = kept pre (length a) /\
    match truthy pre with
    | Some p => iloc_from (Z.max 0 (searchsorted (a ++ b) dt - p)) (a ++ b)
    | None => a ++ b
    end = a' ++ b.
Proof.
  intros Ha Hb Hp. unfold kept.
  destruct (truthy pre) as [p|] eqn:T.
  - assert (P0 : 1 <= p).
    { destruct pre as [p'|]; [|discriminate].
      specialize (Hp p' eq_refl). destruct p'; simpl in T; try discriminate;
        injection T as <-; lia. }
    unfold searchsorted. destruct (@counts_of_split _ _ dt Ha Hb) as (-> & _ & _).
    unfold iloc_from.
    destruct (Z.ltb_spec (Z.max 0 (Z.of_nat (length a) - p)) 0) as [L|L]; [lia|].
    set (k := Z.to_nat (Z.max 0 (Z.of_nat (length a) - p))).
    assert (K : (k = length a - Nat.min (Z.to_nat p) (length a))%nat)
      by (unfold k; lia).
    exists (firstn k a), (skipn k a).
    split; [symmetry; apply firstn_skipn|]. split.
    + rewrite length_skipn. lia.
    + rewrite skipn_app. replace (k - length a)%nat with 0%nat by lia.
      reflexivity.
  - exists [], a. repeat split.
Qed.

Lemma trim_post (a' b : list (Z * Q)) (dt : Z) (post : option Z) :
  Forall (fun o => fst o < dt) a' -> Forall (fun o => dt <= fst o) b ->
  (forall q, post = Some q -> 0 <= q) ->
  exists b' b1,
    b = b' ++ b1 /\ length b' = kept post (length b) /\
    match truthy post with
    | Some q =>
        iloc_upto (Z.min (Z.of_nat (length (a' ++ b)))
                         (searchsorted (a' ++ b) dt + q)) (a' ++ b)
    | None => a' ++ b
    end = a' ++ b'.
Proof.
  intros Ha Hb Hq. unfold kept.
  destruct (truthy post) as [q|] eqn:T.
  - assert (Q0 : 1 <= q).
    { destruct post as [q'|]; [|discriminate].
      specialize (Hq q' eq_refl). destruct q'; simpl in T; try discriminate;
        injection T as <-; lia. }
    unfold searchsorted. destruct (@counts_of_split _ _ dt Ha Hb) as (-> & _ & _).
    unfold iloc_upto. rewrite length_app.
    set (n := Z.min (Z.of_nat (length a' + length b)) (Z.of_nat (length a') + q)).
    destruct (Z.ltb_spec n 0) as [L|L]; [unfold n in L; lia|].
    set (m := Nat.min (Z.to_nat q) (length b)).
    assert (N : Z.to_nat n = (length a' + m)%nat) by (unfold n, m; lia).
    exists (firstn m b), (skipn m b).
    split; [symmetry; apply firstn_skipn|]. split.
    + rewrite length_firstn. unfold m. lia.
    + rewrite N, firstn_app.
      rewrite firstn_all2 by lia.
      replace (length a' + m - length a')%nat with m by lia. reflexivity.
  - exists b, []. rewrite app_nil_r. repeat split.
Qed.

(** *** X10. Growth of the lag truncation *)

(** X10.  The HAC lag truncation of [interrupted_time_series] is at least
    1, never decreases when the series gets longer, stays strictly below
    the number of observations once there are two or more, and, when it
    is 2 or more, satisfies [64 L^3 < 27 n], that is [L < 0.75 n^(1/3)]. *)
Theorem max_lags_monotone_and_bounded (n m : nat) :
  (n <= m)%nat ->
  1 <= max_lags n /\ max_lags n <= max_lags m /\
  ((2 <= n)%nat -> max_lags n < Z.of_nat n) /\
  (2 <= max_lags n -> 64 * max_lags n ^ 3 < 27 * Z.of_nat n).
Proof.
  intro H. unfold max_lags.
  pose proof (int_075_cbrt_mono H) as M.
  destruct (int_075_cbrt_spec n) as (A0 & A1 & A2).
  set (k := int_075_cbrt (Z.of_nat n)) in *.
  set (k' := int_075_cbrt (Z.of_nat m)) in *.
  split; [lia|]. split; [lia|]. split.
  - intro Hn. pose proof (@int_075_cbrt_small n ltac:(lia)) as S. fold k in S. lia.
  - intro Hk. assert (E : Z.max 1 k = k) by lia. rewrite E.
    destruct A1 as [A1|A1]; [lia|exact A1].
Qed.

Lemma max_lags_monotone_and_bounded_witness :
  max_lags 10 <= max_lags 100 /\ max_lags 10 < 10.
Proof.
  destruct (@max_lags_monotone_and_bounded 10 100) as (_ & H & B & _); [lia|].
  split; [exact H|]. apply B. lia.
Defined.

(** *** X11. What the window keeps *)

(** X11.  The window on which [interrupted_time_series] works is a
    contiguous stretch of the cleaned and sorted series around the
    intervention: with [pre_periods = p > 0] it holds the last
    [min(p, available)] observations before the intervention date, with
    [post_periods = q > 0] the first [min(q, available)] observations at
    or after it; a count that is absent or 0 keeps that whole side; and
    what is left out lies entirely before (before the intervention) and
    entirely after (from the intervention on). *)
Theorem window_keeps_nearest_periods (input : series) (dt : Z)
  (pre post : option Z) :
  (forall p, pre = Some p -> 0 <= p) ->
  (forall q, post = Some q -> 0 <= q) ->
  let s0 := sort_index (dropna input) in
  let w := included_window input dt pre post in
  pre_count w dt = kept pre (pre_count s0 dt) /\
  post_count w dt = kept post (post_count s0 dt) /\
  exists before after,
    s0 = before ++ w ++ after /\
    Forall (fun o => fst o < dt) before /\
    Forall (fun o => dt <= fst o) after.
Proof.
  intros Hp Hq s0 w. unfold w, included_window. fold s0.
  destruct (@sorted_split _ dt (sort_index_sorted (dropna input)))
    as (a & b & E & Ha & Hb).
  fold s0 in E. rewrite E.
  destruct (@counts_of_split _ _ dt Ha Hb) as (_ & Ca & Cb). rewrite Ca, Cb.
  destruct (@trim_pre _ _ dt pre Ha Hb Hp) as (a0 & a' & Ea & La & ->).
  assert (Ha' : Forall (fun o => fst o < dt) a').
  { rewrite Ea in Ha. apply Forall_app in Ha. tauto. }
  destruct (@trim_post _ _ dt post Ha' Hb Hq) as (b' & b1 & Eb & Lb & ->).
  assert (Hb' : Forall (fun o => dt <= fst o) b').
  { rewrite Eb in Hb. apply Forall_app in Hb. tauto. }
  destruct (@counts_of_split _ _ dt Ha' Hb') as (_ & Ca' & Cb'). rewrite Ca', Cb'.
  split; [exact La|]. split; [exact Lb|].
  exists a0, b1. split.
  - rewrite Ea, Eb. rewrite <- !app_assoc. reflexivity.
  - split.
    + rewrite Ea in Ha. apply Forall_app in Ha. tauto.
    + rewrite Eb in Hb. apply Forall_app in Hb. tauto.
Qed.

Lemma window_keeps_nearest_periods_witness :
  pre_count (included_window series_unsorted 6 (Some 2) (Some 0)) 6 = 2%nat /\
  post_count (included_window series_unsorted 6 (Some 2) (Some 0)) 6 = 5%nat.
Proof.
  destruct (@window_keeps_nearest_periods series_unsorted 6 (Some 2) (Some 0))
    as (H1 & H2 & _).
  - intros p E. injection E as <-. lia.
  - intros q E. injection E as <-. lia.
  - cbv zeta in H1, H2. split; [exact H1|exact H2].
Defined.

End MorePolicyImpactFacts.

(** ** B. Structural-break test *)

Section MoreStructuralBreakFacts.
Import Ieee StructuralBreak Examples.
Local Open Scope R_scope.

(** *** The regular case, as real numbers *)

Lemma break_test_regular X y x_new y_actual :
  (3 <= length X)%nat -> length X = length y -> amax X <> amin X ->
  let a := slope_R X y in
  let b := intercept_R X y in
  let s := std2_R (resid_R a b X y) in
  let p := s * sqrt (inflation X x_new) in
  let dev := y_actual + - (a * x_new + b) in
  let z := if fgt (Fin p) (Fin 0) then fdiv (Fin dev) (Fin p) else Fin 0 in
  structural_break_test X y x_new y_actual
  = Ok {| predicted := Fin (a * x_new + b);
          deviation := Fin dev;
          se_resid := Fin s;
          se_pred := Fin p;
          z_score := z;
          is_outlier := fgt (fabs z) (Fin 2);
          interpretation :=
            if fgt (fabs z) (Fin 2) then "STRUCTURAL BREAK"%string
            else "Within trend"%string |}.
Proof.
  intros Hn HL Hd.
  assert (HX : X <> []) by (destruct X; [simpl in Hn; lia|discriminate]).
  assert (Hy : y <> [])
    by (destruct y; [destruct X; [congruence|discriminate]|discriminate]).
  pose proof (ss_x_pos HX Hd) as Hss.
  unfold structural_break_test. rewrite (linregress_regular HX Hy Hd).
  cbn [bind fst snd].
  rewrite se_resid_fin by (auto; lia).
  rewrite (se_pred_fin _ x_new HX Hss).
  reflexivity.
Qed.

(** *** Moving the origin of the time axis *)

Lemma Rsum_shift (c : R) (X : list R) :
  Rsum (map (fun x => x + c) X) = Rsum X + INR (length X) * c.
Proof.
  induction X as [|x X IH]; [simpl; lra|].
  change (Rsum (map (fun x => x + c) (x :: X)))
    with (x + c + Rsum (map (fun x => x + c) X)).
  rewrite IH. change (length (x :: X)) with (S (length X)). rewrite S_INR.
  simpl. lra.
Qed.

Lemma Rmean_shift (c : R) (X : list R) :
  X <> [] -> Rmean (map (fun x => x + c) X) = Rmean X + c.
Proof.
  intro H. unfold Rmean. rewrite Rsum_shift, length_map.
  assert (0 < INR (length X)).
  { apply INR_pos. destruct X; [congruence|simpl; lia]. }
  field. lra.
Qed.

Lemma Rmax_shift (a b c : R) : Rmax (a + c) (b + c) = Rmax a b + c.
Proof.
  unfold Rmax. destruct (Rle_dec (a + c) (b + c)), (Rle_dec a b); lra.
Qed.

Lemma Rmin_shift (a b c : R) : Rmin (a + c) (b + c) = Rmin a b + c.
Proof.
  unfold Rmin. destruct (Rle_dec (a + c) (b + c)), (Rle_dec a b); lra.
Qed.

Lemma fold_max_shift (c d : R) (l : list R) :
  fold_right Rmax (d + c) (map (fun x => x + c) l) = fold_right Rmax d l + c.
Proof.
  induction l as [|x l IH]; [reflexivity|].
  cbn [map fold_right]. rewrite IH. apply Rmax_shift.
Qed.

Lemma fold_min_shift (c d : R) (l : list R) :
  fold_right Rmin (d + c) (map (fun x => x + c) l) = fold_right Rmin d l + c.
Proof.
  induction l as [|x l IH]; [reflexivity|].
  cbn [map fold_right]. rewrite IH. apply Rmin_shift.
Qed.

Lemma amax_shift (c : R) (X : list R) :
  X <> [] -> amax (map (fun x => x + c) X) = amax X + c.
Proof.
  intro H. destruct X as [|x0 X]; [congruence|]. unfold amax.
  change (hd 0 (map (fun x => x + c) (x0 :: X))) with (x0 + c).
  change (hd 0 (x0 :: X)) with x0. apply fold_max_shift.
Qed.

Lemma amin_shift (c : R) (X : list R) :
  X <> [] -> amin (map (fun x => x + c) X) = amin X + c.
Proof.
  intro H. destruct X as [|x0 X]; [congruence|]. unfold amin.
  change (hd 0 (map (fun x => x + c) (x0 :: X))) with (x0 + c).
  change (hd 0 (x0 :: X)) with x0. apply fold_min_shift.
Qed.

Lemma centred_shift (c : R) (X : list R) (f : R -> R) :
  X <> [] ->
  map (fun a => f (a - Rmean (map (fun x => x + c) X))) (map (fun x => x + c) X)
  = map (fun a => f (a - Rmean X)) X.
Proof.
  intro H. rewrite (Rmean_shift c H), map_map. apply map_ext. intro a.
  f_equal. lra.
Qed.

Lemma ss_x_shift (c : R) (X : list R) :
  X <> [] -> ss_x (map (fun x => x + c) X) = ss_x X.
Proof.
  intro H. unfold ss_x.
  rewrite (@centred_shift c X (fun d => d * d) H). reflexivity.
Qed.

Lemma combine_map_l (A B C : Type) (f : A -> C) (l : list A) (l' : list B) :
  combine (map f l) l' = map (fun p => (f (fst p), snd p)) (combine l l').
Proof.
  revert l'. induction l as [|a l IH]; intros [|b l']; simpl; auto.
  f_equal. apply IH.
Qed.

Lemma slope_shift (c : R) (X y : list R) :
  X <> [] -> slope_R (map (fun x => x + c) X) y = slope_R X y.
Proof.
  intro H. unfold slope_R.
  rewrite (@centred_shift c X (fun d => d * d) H).
  rewrite combine_map_l, map_map. cbn [fst snd].
  rewrite (Rmean_shift c H).
  f_equal. f_equal. apply map_ext. intros [a b]. cbn [fst snd]. lra.
Qed.

Lemma intercept_shift (c : R) (X y : list R) :
  X <> [] ->
  intercept_R (map (fun x => x + c) X) y = intercept_R X y - slope_R X y * c.
Proof.
  intro H. unfold intercept_R. rewrite (slope_shift c y H), (Rmean_shift c H).
  lra.
Qed.

Lemma resid_shift (c a b : R) (X y : list R) :
  resid_R a (b - a * c) (map (fun x => x + c) X) y = resid_R a b X y.
Proof.
  unfold resid_R. rewrite combine_map_r, map_map. cbn [fst snd].
  apply map_ext. intros [u v]. cbn [fst snd]. lra.
Qed.

Lemma inflation_shift (c : R) (X : list R) (x_new : R) :
  X <> [] ->
  inflation (map (fun x => x + c) X) (x_new + c) = inflation X x_new.
Proof.
  intro H. unfold inflation.
  rewrite (ss_x_shift c H), (Rmean_shift c H), length_map.
  replace (x_new + c - (Rmean X + c)) with (x_new - Rmean X) by lra.
  reflexivity.
Qed.

Lemma inflation_monotone (X : list R) (x1 x2 : R) :
  X <> [] -> 0 < ss_x X ->
  Rabs (x1 - Rmean X) <= Rabs (x2 - Rmean X) ->
  inflation X x1 <= inflation X x2.
Proof.
  intros H Hss Habs. unfold inflation.
  apply Rsqr_le_abs_1 in Habs. unfold Rsqr in Habs.
  apply Rplus_le_compat_l.
  apply Rmult_le_compat_r; [|exact Habs].
  apply Rlt_le, Rinv_0_lt_compat. exact Hss.
Qed.

(** *** X12. The origin of the time axis *)

(** X12.  The structural-break test does not depend on where the time
    axis starts: adding the same constant to every training x and to the
    held-out x gives the same prediction, deviation, standard errors,
    z-score and verdict (over the reals), whenever the training window
    is not empty and its x values are not all identical. *)
Theorem break_test_shift_invariant (c : R) (X y : list R) (x_new y_actual : R) :
  X <> [] -> length X = length y -> amax X <> amin X ->
  structural_break_test (map (fun x => x + c) X) y (x_new + c) y_actual
  = structural_break_test X y x_new y_actual.
Proof.
  intros HX HL Hd.
  assert (Hy : y <> [])
    by (destruct y; [destruct X; [congruence|discriminate]|discriminate]).
  assert (HX' : map (fun x => x + c) X <> [])
    by (destruct X; [congruence|discriminate]).
  assert (Hd' : amax (map (fun x => x + c) X) <> amin (map (fun x => x + c) X)).
  { rewrite (amax_shift c HX), (amin_shift c HX). lra. }
  pose proof (ss_x_pos HX Hd) as Hss.
  pose proof (ss_x_pos HX' Hd') as Hss'.
  unfold structural_break_test.
  rewrite (linregress_regular HX' Hy Hd'), (linregress_regular HX Hy Hd).
  cbn [bind fst snd].
  rewrite (slope_shift c y HX), (intercept_shift c y HX).
  rewrite !se_resid_unfold, resid_shift.
  rewrite (se_pred_general _ (x_new + c) HX' Hss').
  rewrite (se_pred_general _ x_new HX Hss).
  rewrite (inflation_shift c x_new HX).
  set (a := slope_R X y). set (b := intercept_R X y).
  assert (P : fadd (fmul (Fin a) (Fin (x_new + c))) (Fin (b - a * c))
              = fadd (fmul (Fin a) (Fin x_new)) (Fin b)).
  { cbn [fmul fadd]. f_equal. lra. }
  rewrite P. reflexivity.
Qed.

Lemma break_test_shift_invariant_witness :
  structural_break_test (map (fun x => x + 2000) perfect_X) perfect_y
                        (5 + 2000) 7
  = structural_break_test perfect_X perfect_y 5 7.
Proof.
  apply break_test_shift_invariant.
  - discriminate.
  - reflexivity.
  - apply amax_amin_head. lra.
Defined.

(** *** X13. The z-score and the verdict *)

(** X13.  On a training window with at least three observations whose x
    values are not all identical, the test returns the deviation of the
    held-out value from the extrapolated trend.  When the residual
    standard deviation [s] is positive, the z-score is the deviation
    divided by [s * sqrt(1 + 1/n + (x_new - x_mean)^2 / ss_x)] and a break
    is reported exactly when the deviation exceeds twice that in absolute
    value; when [s = 0] (the training points lie on a line) the z-score
    is 0 and no break is reported, however far the held-out value is from
    the trend. *)
Theorem break_test_z_score (X y : list R) (x_new y_actual : R) :
  (3 <= length X)%nat -> length X = length y -> amax X <> amin X ->
  exists r s,
    structural_break_test X y x_new y_actual = Ok r /\
    se_resid r = Fin s /\ 0 <= s /\
    let dev := y_actual - (slope_R X y * x_new + intercept_R X y) in
    let p := s * sqrt (inflation X x_new) in
    deviation r = Fin dev /\
    (0 < s ->
     z_score r = Fin (dev / p) /\
     (is_outlier r = true <-> 2 * p < Rabs dev) /\
     (interpretation r = "STRUCTURAL BREAK"%string <-> 2 * p < Rabs dev)) /\
    (s = 0 -> silent_zero r).
Proof.
  intros Hn HL Hd.
  assert (HX : X <> []) by (destruct X; [simpl in Hn; lia|discriminate]).
  pose proof (ss_x_pos HX Hd) as Hss.
  pose proof (sqrt_gt_1 (inflation_gt_1 x_new HX Hss)) as Hsq.
  rewrite (@break_test_regular X y x_new y_actual Hn HL Hd). cbv zeta.
  set (a := slope_R X y). set (b := intercept_R X y).
  set (s := std2_R (resid_R a b X y)).
  pose proof (std2_R_nonneg (resid_R a b X y)) as Hs. fold s in Hs.
  set (t := sqrt (inflation X x_new)) in *.
  do 2 eexists. split; [reflexivity|].
  cbn [se_resid deviation z_score is_outlier interpretation].
  split; [reflexivity|]. split; [exact Hs|].
  split; [f_equal; lra|]. split.
  - intro Hpos. assert (Hp : 0 < s * t) by nra.
    cbn [fgt]. rewrite (Rltb_true Hp). rewrite fdiv_fin by lra.
    replace (y_actual + - (a * x_new + b)) with (y_actual - (a * x_new + b))
      by lra.
    set (dev := y_actual - (a * x_new + b)).
    split; [reflexivity|].
    assert (E : Rabs (dev / (s * t)) = Rabs dev / (s * t)).
    { unfold Rdiv. rewrite Rabs_mult, (Rabs_pos_eq (/ (s * t))); [reflexivity|].
      apply Rlt_le, Rinv_0_lt_compat. exact Hp. }
    assert (O : Rltb 2 (Rabs (dev / (s * t))) = true <-> 2 * (s * t) < Rabs dev).
    { rewrite E. unfold Rltb.
      destruct (Rlt_dec 2 (Rabs dev / (s * t))) as [L|L].
      - split; [intros _|reflexivity].
        apply (Rmult_lt_compat_r (s * t)) in L; [|exact Hp].
        unfold Rdiv in L. rewrite Rmult_assoc, Rinv_l in L; lra.
      - split; [discriminate|]. intro G. exfalso. apply L.
        apply (Rmult_lt_reg_r (s * t)); [exact Hp|].
        unfold Rdiv. rewrite Rmult_assoc, Rinv_l; lra. }
    cbn [fabs fgt]. split; [exact O|].
    destruct (Rltb 2 (Rabs (dev / (s * t)))) eqn:B.
    + split; [intros _; apply O; reflexivity|reflexivity].
    + split; [discriminate|]. intro G. apply O in G. discriminate.
  - intro Hz. unfold silent_zero.
    cbn [z_score is_outlier interpretation].
    assert (Z : fgt (Fin (s * t)) (Fin 0) = false).
    { cbn [fgt]. apply Rltb_false. rewrite Hz. lra. }
    rewrite Z, fgt_abs_zero. repeat split.
Qed.

Lemma break_test_z_score_witness :
  exists r, structural_break_test perfect_X perfect_y 5 7 = Ok r /\
            deviation r = Fin 2.
Proof.
  destruct (@break_test_z_score perfect_X perfect_y 5 7)
    as (r & s & E & _ & _ & D & _).
  - simpl. lia.
  - reflexivity.
  - apply amax_amin_head. lra.
  - exists r. split; [exact E|]. cbv zeta in D. rewrite D.
    destruct perfect_fit as [-> ->]. f_equal. lra.
Defined.

(** *** X14. Leverage *)

(** X14.  With the same training window (at least three observations,
    x values not all identical), a held-out x that is farther from the
    mean of the training x values never gets a smaller prediction
    standard error. *)
Theorem se_pred_grows_with_leverage (X y : list R) (x1 x2 y1 y2 : R) :
  (3 <= length X)%nat -> length X = length y -> amax X <> amin X ->
  Rabs (x1 - Rmean X) <= Rabs (x2 - Rmean X) ->
  exists r1 r2 p1 p2,
    structural_break_test X y x1 y1 = Ok r1 /\
    structural_break_test X y x2 y2 = Ok r2 /\
    se_pred r1 = Fin p1 /\ se_pred r2 = Fin p2 /\
    se_resid r1 = se_resid r2 /\ p1 <= p2.
Proof.
  intros Hn HL Hd Habs.
  assert (HX : X <> []) by (destruct X; [simpl in Hn; lia|discriminate]).
  pose proof (ss_x_pos HX Hd) as Hss.
  rewrite (@break_test_regular X y x1 y1 Hn HL Hd).
  rewrite (@break_test_regular X y x2 y2 Hn HL Hd). cbv zeta.
  do 4 eexists. split; [reflexivity|]. split; [reflexivity|].
  cbn [se_pred se_resid]. split; [reflexivity|]. split; [reflexivity|].
  split; [reflexivity|].
  pose proof (std2_R_nonneg
                (resid_R (slope_R X y) (intercept_R X y) X y)) as Hs.
  apply Rmult_le_compat_l; [exact Hs|].
  apply sqrt_le_1_alt. apply inflation_monotone; assumption.
Qed.

Lemma se_pred_grows_with_leverage_witness :
  exists r1 r2 p1 p2,
    structural_break_test perfect_X perfect_y 2 0 = Ok r1 /\
    structural_break_test perfect_X perfect_y 9 0 = Ok r2 /\
    se_pred r1 = Fin p1 /\ se_pred r2 = Fin p2 /\ p1 <= p2.
Proof.
  destruct (@se_pred_grows_with_leverage perfect_X perfect_y 2 9 0 0)
    as (r1 & r2 & p1 & p2 & E1 & E2 & P1 & P2 & _ & L).
  - simpl. lia.
  - reflexivity.
  - apply amax_amin_head. lra.
  - assert (M : Rmean perfect_X = 1).
    { unfold Rmean, perfect_X. cbn [Rsum fold_right length INR]. field. }
    rewrite M. replace (2 - 1) with 1 by lra. replace (9 - 1) with 8 by lra.
    rewrite !Rabs_pos_eq; lra.
  - exists r1, r2, p1, p2. auto.
Defined.

End MoreStructuralBreakFacts.

(** ** F. SPM poverty simulation *)

Section PovertyFacts.
Import Np Distributional Poverty.
Local Open Scope Q_scope.

Opaque sum.

(** *** Counting the poor *)

Lemma valid_weights (df : microdata) :
  Forall (fun p => 0 < MARSUPWT p) (filter is_valid (persons df)).
Proof.
  apply Forall_forall. intros p Hp. apply filter_In in Hp.
  destruct Hp as [_ Hp]. unfold is_valid in Hp.
  apply andb_true_iff in Hp. destruct Hp as [Hp _].
  apply Qltb_true in Hp. exact Hp.
Qed.

Lemma spm_weights_pos (valid : list spm_person) :
  valid <> [] -> Forall (fun p => 0 < MARSUPWT p) valid ->
  0 < sum (map MARSUPWT valid).
Proof.
  intros Hne Hw. apply sum_pos.
  - destruct valid; [congruence|discriminate].
  - apply Forall_map. exact Hw.
Qed.

Lemma poor_flag (r : option Q) (p : spm_person) : poor r p = 0 \/ poor r p = 1.
Proof.
  unfold poor. destruct r as [r|]; [|left; reflexivity].
  destruct (SPM_POVTHRESHOLD p) as [t|]; [|left; reflexivity].
  destruct (Qltb r t); [right|left]; reflexivity.
Qed.

Lemma poverty_outcome (resources : spm_person -> option Q)
  (valid : list spm_person) :
  Forall (fun p => 0 < MARSUPWT p) valid ->
  (valid = [] /\ poverty resources valid = Raise ZeroDivisionError) \/
  (valid <> [] /\
   poverty resources valid
   = Ok (sum (mul (map (fun p => poor (resources p) p) valid)
                  (map MARSUPWT valid))
         / sum (map MARSUPWT valid) * 100,
         sum (mul (map (fun p => poor (resources p) p) valid)
                  (map MARSUPWT valid)))).
Proof.
  intro Hw. destruct valid as [|p valid].
  - left. split; reflexivity.
  - right. split; [discriminate|].
    assert (P : 0 < sum (map MARSUPWT (p :: valid)))
      by (apply spm_weights_pos; [discriminate|exact Hw]).
    unfold poverty, np_average.
    destruct (Qeq_bool (sum (map MARSUPWT (p :: valid))) 0) eqn:E.
    + apply Qeq_bool_iff in E. lra.
    + reflexivity.
Qed.

Lemma count_of_eq (resources : spm_person -> option Q) (valid : list spm_person) :
  sum (mul (map (fun p => poor (resources p) p) valid) (map MARSUPWT valid))
  = count_of resources valid.
Proof. unfold count_of. rewrite mul_map_gen. reflexivity. Qed.

Lemma count_of_monotone (r1 r2 : spm_person -> option Q)
  (valid : list spm_person) :
  Forall (fun p => 0 < MARSUPWT p) valid ->
  Forall (fun p => poor (r1 p) p <= poor (r2 p) p) valid ->
  count_of r1 valid <= count_of r2 valid.
Proof.
  unfold count_of. induction valid as [|p valid IH]; intros Hw Hp; simpl map.
  - rewrite sum_nil. lra.
  - rewrite !sum_cons.
    pose proof (Forall_inv Hw) as W. pose proof (Forall_inv Hp) as P.
    simpl in W, P.
    specialize (IH (Forall_inv_tail Hw) (Forall_inv_tail Hp)). nra.
Qed.

Lemma count_of_bounds (r : spm_person -> option Q) (valid : list spm_person) :
  Forall (fun p => 0 < MARSUPWT p) valid ->
  0 <= count_of r valid /\ count_of r valid <= sum (map MARSUPWT valid).
Proof.
  unfold count_of. induction valid as [|p valid IH]; intro Hw; simpl map.
  - rewrite !sum_nil. lra.
  - rewrite !sum_cons. pose proof (Forall_inv Hw) as W. simpl in W.
    specialize (IH (Forall_inv_tail Hw)).
    destruct (poor_flag (r p) p) as [-> | ->]; lra.
Qed.

Lemma rate_of_bounds (r : spm_person -> option Q) (valid : list spm_person) :
  valid <> [] -> Forall (fun p => 0 < MARSUPWT p) valid ->
  0 <= rate_of r valid /\ rate_of r valid <= 100.
Proof.
  intros Hne Hw. unfold rate_of.
  destruct (count_of_bounds r Hw) as [C1 C2].
  pose proof (spm_weights_pos Hne Hw) as P.
  assert (0 <= count_of r valid / sum (map MARSUPWT valid))
    by (apply Qle_shift_div_l; lra).
  assert (count_of r valid / sum (map MARSUPWT valid) <= 1)
    by (apply Qle_shift_div_r; lra).
  lra.
Qed.

Lemma rate_of_monotone (r1 r2 : spm_person -> option Q)
  (valid : list spm_person) :
  valid <> [] -> Forall (fun p => 0 < MARSUPWT p) valid ->
  count_of r1 valid <= count_of r2 valid ->
  rate_of r1 valid <= rate_of r2 valid.
Proof.
  intros Hne Hw C. unfold rate_of.
  pose proof (spm_weights_pos Hne Hw) as P.
  apply Qmult_le_compat_r; [|discriminate].
  apply Qmult_le_compat_r; [exact C|].
  apply Qlt_le_weak, Qinv_lt_0_compat. exact P.
Qed.

(** A larger cut leaves nobody less poor. *)
Lemma poor_after_monotone (c1 c2 : spm_person -> Q) (p : spm_person) :
  c1 p <= c2 p -> poor (after c1 p) p <= poor (after c2 p) p.
Proof.
  intro H. unfold poor, after.
  destruct (SPM_RESOURCES p) as [r|]; simpl; [|lra].
  destruct (SPM_POVTHRESHOLD p) as [t|]; [|lra].
  destruct (Qltb_spec (r - c1 p) t) as [[-> A]|[-> A]];
    destruct (Qltb_spec (r - c2 p) t) as [[-> B]|[-> B]]; lra.
Qed.

Lemma poor_baseline_after (c : spm_person -> Q) (p : spm_person) :
  0 <= c p -> poor (SPM_RESOURCES p) p <= poor (after c p) p.
Proof.
  intro H. unfold poor, after.
  destruct (SPM_RESOURCES p) as [r|]; simpl; [|lra].
  destruct (SPM_POVTHRESHOLD p) as [t|]; [|lra].
  destruct (Qltb_spec r t) as [[-> A]|[-> A]];
    destruct (Qltb_spec (r - c p) t) as [[-> B]|[-> B]]; lra.
Qed.

Lemma column_nonneg (v : string) (p : spm_person) :
  benefits_nonneg p -> 0 <= fillna (column v p).
Proof.
  intros (H1 & H2 & H3). unfold column.
  destruct (String.eqb v "SPM_SNAPSUB"); [exact H1|].
  destruct (String.eqb v "SPM_WICVAL"); assumption.
Qed.

Lemma total_cut_from (vars : list string) (c : Q) (p : spm_person) :
  forall acc,
  fold_left (fun a v => a + fillna (column v p) * c) vars acc
  == acc + total_cut vars c p.
Proof.
  unfold total_cut. induction vars as [|v vars IH]; intro acc; simpl.
  - lra.
  - rewrite IH. rewrite (IH (0 + _)). lra.
Qed.

Lemma total_cut_monotone (vars : list string) (c1 c2 : Q) (p : spm_person) :
  benefits_nonneg p -> 0 <= c1 -> c1 <= c2 ->
  0 <= total_cut vars c1 p /\ total_cut vars c1 p <= total_cut vars c2 p.
Proof.
  intros Hb H0 H12. induction vars as [|v vars IH].
  - unfold total_cut. simpl. lra.
  - unfold total_cut. simpl. rewrite !total_cut_from.
    pose proof (column_nonneg v Hb) as Hv. nra.
Qed.

(** *** The rows of the table *)

Lemma simulate_row (name : string) (cut : spm_person -> Q)
  (valid : list spm_person) (br bc : Q) :
  valid <> [] -> Forall (fun p => 0 < MARSUPWT p) valid ->
  simulate name cut valid br bc
  = Ok {| scenario := name;
          poverty_rate := rate_of (after cut) valid;
          poverty_count := count_of (after cut) valid;
          change_rate := rate_of (after cut) valid - br;
          change_count := count_of (after cut) valid - bc |}.
Proof.
  intros Hne Hw. unfold simulate. fold (after cut).
  destruct (poverty_outcome (after cut) Hw) as [[E _]|[_ E]]; [congruence|].
  rewrite E, count_of_eq. reflexivity.
Qed.

Lemma simulate_all_rows (A : Type) (name : A -> string)
  (cut : A -> spm_person -> Q) (valid : list spm_person) (br bc : Q) :
  valid <> [] -> Forall (fun p => 0 < MARSUPWT p) valid ->
  forall l,
  simulate_all l name cut valid br bc
  = Ok (map (fun x =>
               {| scenario := name x;
                  poverty_rate := rate_of (after (cut x)) valid;
                  poverty_count := count_of (after (cut x)) valid;
                  change_rate := rate_of (after (cut x)) valid - br;
                  change_count := count_of (after (cut x)) valid - bc |}) l).
Proof.
  intros Hne Hw. induction l as [|x l IH]; [reflexivity|].
  simpl. rewrite (simulate_row _ _ br bc Hne Hw), IH. reflexivity.
Qed.

(** The table, when there is at least one valid person. *)
Lemma simulation_table (df : microdata) :
  has_column "SPM_RESOURCES" df = true ->
  has_column "SPM_POVTHRESHOLD" df = true ->
  filter is_valid (persons df) <> [] ->
  let valid := filter is_valid (persons df) in
  let br := rate_of SPM_RESOURCES valid in
  let bc := count_of SPM_RESOURCES valid in
  let row := fun (name : string) (cut : spm_person -> Q) =>
    {| scenario := name;
       poverty_rate := rate_of (after cut) valid;
       poverty_count := count_of (after cut) valid;
       change_rate := rate_of (after cut) valid - br;
       change_count := count_of (after cut) valid - bc |} in
  spm_poverty_simulation (Some df)
  = Ok (Some
          ({| scenario := "Baseline"; poverty_rate := br; poverty_count := bc;
              change_rate := 0; change_count := 0 |}
           :: map (fun s : string * string * Q =>
                     row (fst (fst s))
                         (fun p => fillna (column (snd (fst s)) p) * snd s))
                  (filter (fun s => has_column (snd (fst s)) df) scenarios)
           ++ map (fun cl : Q * string =>
                     row (snd cl) (total_cut (combined_vars df) (fst cl)))
                  (match combined_vars df with
                   | [] => []
                   | _ => combined_scenarios
                   end))).
Proof.
  intros H1 H2 Hne valid br bc row.
  unfold spm_poverty_simulation. rewrite H1, H2. cbn [negb orb].
  fold valid.
  pose proof (valid_weights df) as Hw. fold valid in Hw.
  destruct (poverty_outcome SPM_RESOURCES Hw) as [[E _]|[_ E]];
    [unfold valid in E; congruence|].
  rewrite E, count_of_eq. cbn [bind fst snd].
  fold bc. fold (rate_of SPM_RESOURCES valid). fold br.
  rewrite !(simulate_all_rows _ _ br bc Hne Hw). reflexivity.
Qed.

Lemma rows_ordered (valid : list spm_person) (c1 c2 : spm_person -> Q) :
  valid <> [] -> Forall (fun p => 0 < MARSUPWT p) valid ->
  (forall p, In p valid -> c1 p <= c2 p) ->
  count_of (after c1) valid <= count_of (after c2) valid /\
  rate_of (after c1) valid <= rate_of (after c2) valid.
Proof.
  intros Hne Hw Hc.
  assert (C : count_of (after c1) valid <= count_of (after c2) valid).
  { apply count_of_monotone; [exact Hw|]. apply Forall_forall.
    intros p Hp. apply poor_after_monotone. apply Hc. exact Hp. }
  split; [exact C|]. apply rate_of_monotone; assumption.
Qed.

Lemma rows_above_baseline (valid : list spm_person) (c : spm_person -> Q) :
  valid <> [] -> Forall (fun p => 0 < MARSUPWT p) valid ->
  (forall p, In p valid -> 0 <= c p) ->
  count_of SPM_RESOURCES valid <= count_of (after c) valid /\
  rate_of SPM_RESOURCES valid <= rate_of (after c) valid.
Proof.
  intros Hne Hw Hc.
  assert (C : count_of SPM_RESOURCES valid <= count_of (after c) valid).
  { apply count_of_monotone; [exact Hw|]. apply Forall_forall.
    intros p Hp. apply poor_baseline_after. apply Hc. exact Hp. }
  split; [exact C|]. apply rate_of_monotone; assumption.
Qed.

Lemma simulation_returns (df : microdata) (rows : list scenario_row) :
  spm_poverty_simulation (Some df) = Ok (Some rows) ->
  has_column "SPM_RESOURCES" df = true /\
  has_column "SPM_POVTHRESHOLD" df = true /\
  filter is_valid (persons df) <> [].
Proof.
  unfold spm_poverty_simulation. intro H.
  destruct (has_column "SPM_RESOURCES" df); [|discriminate].
  destruct (has_column "SPM_POVTHRESHOLD" df); [|discriminate].
  cbn [negb orb] in H. split; [reflexivity|]. split; [reflexivity|].
  intro E. rewrite E in H. discriminate.
Qed.

(** *** X15. Cuts never reduce measured poverty *)

(** X15.  When no person has a negative food benefit and
    [spm_poverty_simulation] returns a table, the table is the baseline
    row, then the SNAP scenarios (the 10%, 25% and 50% cuts, in this
    order, when the file has the SNAP column and none otherwise), then
    the combined food scenarios (the 15% and 30% cuts, in this order,
    when the file has one of the three food columns and none otherwise);
    every rate lies between 0 and 100, every count and every change
    against the baseline is non-negative, and within each family the
    rows are in order of increasing poverty: the baseline, then the
    scenarios by increasing cut. *)
Theorem cuts_never_reduce_poverty (df : microdata) (rows : list scenario_row) :
  spm_poverty_simulation (Some df) = Ok (Some rows) ->
  (forall p, In p (persons df) -> benefits_nonneg p) ->
  exists base snap food,
    rows = base :: snap ++ food /\
    scenario base = "Baseline"%string /\
    map scenario snap
    = (if has_column "SPM_SNAPSUB" df
       then ["10% SNAP cut"; "25% SNAP cut"; "50% SNAP cut"]%string
       else []) /\
    map scenario food
    = (if has_column "SPM_SNAPSUB" df || has_column "SPM_WICVAL" df
          || has_column "SPM_SCHLUNCH" df
       then ["15% all food programs"; "30% all food programs"]%string
       else []) /\
    Forall (fun r => 0 <= poverty_rate r /\ poverty_rate r <= 100 /\
                     0 <= poverty_count r /\
                     0 <= change_rate r /\ 0 <= change_count r) rows /\
    StronglySorted at_most_as_poor (base :: snap) /\
    StronglySorted at_most_as_poor (base :: food).
Proof.
  intros H Hb.
  destruct (@simulation_returns df rows H) as (C1 & C2 & Hne).
  rewrite (@simulation_table df C1 C2 Hne) in H. cbv zeta in H.
  injection H as <-.
  set (valid := filter is_valid (persons df)) in *.
  pose proof (valid_weights df) as Hw. fold valid in Hw.
  assert (Hv : forall p, In p valid -> benefits_nonneg p).
  { intros p Hp. apply Hb. unfold valid in Hp. apply filter_In in Hp. tauto. }
  assert (Ev : match combined_vars df with
               | [] => has_column "SPM_SNAPSUB" df || has_column "SPM_WICVAL" df
                       || has_column "SPM_SCHLUNCH" df = false
               | _ => has_column "SPM_SNAPSUB" df || has_column "SPM_WICVAL" df
                      || has_column "SPM_SCHLUNCH" df = true
               end).
  { unfold combined_vars. cbn [filter].
    destruct (has_column "SPM_SNAPSUB" df), (has_column "SPM_WICVAL" df),
      (has_column "SPM_SCHLUNCH" df); reflexivity. }
  set (vars := combined_vars df) in *.
  (* one row against the baseline, and two rows against each other *)
  assert (Base : forall c, (forall p, In p valid -> 0 <= c p) ->
            (0 <= rate_of (after c) valid /\ rate_of (after c) valid <= 100 /\
             0 <= count_of (after c) valid /\
             0 <= rate_of (after c) valid - rate_of SPM_RESOURCES valid /\
             0 <= count_of (after c) valid - count_of SPM_RESOURCES valid) /\
            count_of SPM_RESOURCES valid <= count_of (after c) valid /\
            rate_of SPM_RESOURCES valid <= rate_of (after c) valid).
  { intros c Hc.
    destruct (@rows_above_baseline valid c Hne Hw Hc) as [A1 A2].
    destruct (@rate_of_bounds (after c) valid Hne Hw) as [B1 B2].
    destruct (@count_of_bounds (after c) valid Hw) as [B3 _].
    repeat split; lra. }
  assert (Snap : forall c, 0 <= c -> forall p, In p valid ->
            0 <= fillna (column "SPM_SNAPSUB" p) * c).
  { intros c Hc p Hp. pose proof (@column_nonneg "SPM_SNAPSUB" p (Hv p Hp)). nra. }
  assert (SnapM : forall c1 c2, c1 <= c2 -> forall p, In p valid ->
            fillna (column "SPM_SNAPSUB" p) * c1
            <= fillna (column "SPM_SNAPSUB" p) * c2).
  { intros c1 c2 Hc p Hp.
    pose proof (@column_nonneg "SPM_SNAPSUB" p (Hv p Hp)). nra. }
  assert (Food : forall c, 0 <= c -> forall p, In p valid ->
            0 <= total_cut vars c p).
  { intros c Hc p Hp.
    destruct (@total_cut_monotone vars c c p (Hv p Hp) Hc) as [F _]; [lra|exact F]. }
  assert (FoodM : forall c1 c2, 0 <= c1 -> c1 <= c2 -> forall p, In p valid ->
            total_cut vars c1 p <= total_cut vars c2 p).
  { intros c1 c2 H0 Hc p Hp.
    destruct (@total_cut_monotone vars c1 c2 p (Hv p Hp) H0 Hc) as [_ F].
    exact F. }
  assert (B0 : 0 <= rate_of SPM_RESOURCES valid /\
               rate_of SPM_RESOURCES valid <= 100 /\
               0 <= count_of SPM_RESOURCES valid).
  { destruct (@rate_of_bounds SPM_RESOURCES valid Hne Hw).
    destruct (@count_of_bounds SPM_RESOURCES valid Hw). tauto. }
  do 3 eexists. split; [reflexivity|]. split; [reflexivity|].
  unfold scenarios, combined_scenarios.
  cbn [filter fst snd].
  rewrite !map_map. cbn [scenario].
  destruct vars as [|v0 vars']; rewrite Ev; clear Ev;
    destruct (has_column "SPM_SNAPSUB" df);
    cbn [map app fst snd];
    (split; [reflexivity|]); (split; [reflexivity|]);
    (split; [|split]);
    repeat first
      [ apply Forall_nil | apply SSorted_nil
      | apply Forall_cons | apply SSorted_cons ];
    unfold at_most_as_poor;
    cbn [poverty_rate poverty_count change_rate change_count];
    try (repeat split; try lra; apply B0);
    try (apply Base; first [apply Snap | apply Food]; discriminate);
    try (apply rows_above_baseline; auto;
         first [apply Snap | apply Food]; discriminate);
    try (apply rows_ordered; auto;
         first [apply SnapM | apply FoodM]; discriminate).
Qed.

Lemma cuts_never_reduce_poverty_witness :
  exists rows,
    spm_poverty_simulation (Some sample_file) = Ok (Some rows) /\
    exists base snap food,
      rows = base :: snap ++ food /\
      scenario base = "Baseline"%string /\
      map scenario snap
      = ["10% SNAP cut"; "25% SNAP cut"; "50% SNAP cut"]%string /\
      map scenario food
      = ["15% all food programs"; "30% all food programs"]%string /\
      Forall (fun r => 0 <= poverty_rate r /\ poverty_rate r <= 100 /\
                       0 <= poverty_count r /\
                       0 <= change_rate r /\ 0 <= change_count r) rows /\
      StronglySorted at_most_as_poor (base :: snap) /\
      StronglySorted at_most_as_poor (base :: food).
Proof.
  destruct (spm_poverty_simulation (Some sample_file)) as [[rows|]|e] eqn:E;
    [|vm_compute in E; discriminate..].
  exists rows. split; [reflexivity|].
  apply (@cuts_never_reduce_poverty sample_file rows E).
  intros p Hp. simpl in Hp.
  decompose [or] Hp; try contradiction; subst p;
    unfold benefits_nonneg, fillna; simpl; lra.
Defined.

(** *** X16. When the simulation raises, and how many rows it returns *)

(** X16.  For a file that has the two SPM columns,
    [spm_poverty_simulation] raises ZeroDivisionError (from np.average)
    exactly when no person passes the validity filter; otherwise it
    returns a table, never [None], with one baseline row, three rows when
    the file has the SNAP column and two more when it has any of the
    three food columns. *)
Theorem simulation_needs_a_valid_person (df : microdata) :
  has_column "SPM_RESOURCES" df = true ->
  has_column "SPM_POVTHRESHOLD" df = true ->
  (filter is_valid (persons df) = [] /\
   spm_poverty_simulation (Some df) = Raise ZeroDivisionError) \/
  (filter is_valid (persons df) <> [] /\
   exists rows,
     spm_poverty_simulation (Some df) = Ok (Some rows) /\
     length rows
     = (1 + (if has_column "SPM_SNAPSUB" df then 3 else 0)
          + (if has_column "SPM_SNAPSUB" df || has_column "SPM_WICVAL" df
                || has_column "SPM_SCHLUNCH" df then 2 else 0))%nat).
Proof.
  intros C1 C2.
  destruct (filter is_valid (persons df)) as [|p0 valid'] eqn:Ev.
  - left. split; [reflexivity|].
    unfold spm_poverty_simulation. rewrite C1, C2, Ev. cbn [negb orb].
    destruct (@poverty_outcome SPM_RESOURCES [] (Forall_nil _)) as [[_ E]|[N _]];
      [|congruence].
    rewrite E. reflexivity.
  - right. split; [discriminate|].
    assert (Hne : filter is_valid (persons df) <> []) by (rewrite Ev; discriminate).
    eexists. split; [apply (@simulation_table df C1 C2 Hne)|].
    cbn [length]. rewrite length_app, !length_map.
    unfold combined_vars, scenarios, combined_scenarios.
    cbn [filter fst snd].
    destruct (has_column "SPM_SNAPSUB" df), (has_column "SPM_WICVAL" df),
      (has_column "SPM_SCHLUNCH" df); reflexivity.
Qed.

Lemma simulation_needs_a_valid_person_witness :
  spm_poverty_simulation (Some weightless_file) = Raise ZeroDivisionError /\
  exists rows,
    spm_poverty_simulation (Some sample_file) = Ok (Some rows) /\
    length rows = 6%nat.
Proof.
  split.
  - destruct (@simulation_needs_a_valid_person weightless_file eq_refl eq_refl)
      as [[_ E]|[N _]]; [exact E|].
    exfalso. apply N. reflexivity.
  - destruct (@simulation_needs_a_valid_person sample_file eq_refl eq_refl)
      as [[N _]|[_ [rows [E L]]]]; [discriminate N|].
    exists rows. split; [exact E|exact L].
Defined.

Transparent sum.

End PovertyFacts.

(** ** G. Simulated burden by percentile *)

Section QteFacts.
Import Np Distributional Order Qte Examples.
Local Open Scope Q_scope.

Opaque sum.

(** *** Percentiles of the ranked frame *)

Lemma astype_int_floor (x : Q) : 0 <= x -> astype_int x = Qfloor x.
Proof.
  intro H. destruct x as [n d]. unfold astype_int, Qfloor. simpl.
  unfold Qle in H. simpl in H.
  apply Z.quot_div_nonneg; lia.
Qed.

Lemma percentile_of_range (r : ranked) :
  (1 <= percentile_of r <= 99)%Z.
Proof. unfold percentile_of, clip. lia. Qed.

Lemma percentile_of_monotone (a b : ranked) :
  0 <= cum_pct a -> cum_pct a <= cum_pct b ->
  (percentile_of a <= percentile_of b)%Z.
Proof.
  intros H0 H. unfold percentile_of, clip.
  rewrite !astype_int_floor by nra.
  assert (Qfloor (cum_pct a * 100) <= Qfloor (cum_pct b * 100))%Z.
  { apply Qfloor_resp_le. nra. }
  lia.
Qed.

(** *** The loop, in closed form *)

Lemma group_weights (valid : list ranked) (p : Z) :
  Forall (fun r => 0 < r_weight r) valid ->
  Forall (fun r => 0 < r_weight r) (group valid p).
Proof.
  intro Hw. apply Forall_forall. intros r Hr. apply filter_In in Hr.
  rewrite Forall_forall in Hw. apply Hw. tauto.
Qed.

Lemma qte_row_closed (valid : list ranked) (p : Z) :
  Forall (fun r => 0 < r_weight r) valid ->
  group valid p <> [] ->
  qte_row_of p (group valid p) = Ok (row_at valid p).
Proof.
  intros Hw Hne.
  pose proof (weights_sum_pos Hne (group_weights p Hw)) as P.
  unfold qte_row_of, np_average.
  destruct (Qeq_bool (sum (map r_weight (group valid p))) 0) eqn:E.
  - apply Qeq_bool_iff in E. lra.
  - rewrite mul_map_gen. reflexivity.
Qed.

Lemma qte_loop_closed (valid : list ranked) :
  Forall (fun r => 0 < r_weight r) valid ->
  forall ps,
  qte_loop ps valid = Ok (map (row_at valid) (filter (occupied valid) ps)).
Proof.
  intros Hw. induction ps as [|p ps IH]; [reflexivity|].
  cbn [qte_loop filter]. unfold occupied at 1. fold (group valid p).
  destruct (group valid p) as [|r g] eqn:Eg.
  - exact IH.
  - rewrite <- Eg, (qte_row_closed p Hw) by (rewrite Eg; discriminate).
    rewrite IH. reflexivity.
Qed.

(** *** Every person is in exactly one row *)

Lemma sum_map_plus (A : Type) (a b : A -> Q) (l : list A) :
  sum (map (fun p => a p + b p) l) == sum (map a l) + sum (map b l).
Proof.
  induction l as [|x l IH]; simpl map.
  - rewrite !sum_nil. lra.
  - rewrite !sum_cons, IH. lra.
Qed.

Lemma sum_map_Qeq (A : Type) (a b : A -> Q) (l : list A) :
  (forall p, In p l -> a p == b p) ->
  sum (map a l) == sum (map b l).
Proof.
  induction l as [|x l IH]; intro H; simpl map.
  - reflexivity.
  - rewrite !sum_cons, IH, (H x (or_introl eq_refl)); [reflexivity|].
    intros p Hp. apply H. right. exact Hp.
Qed.

Lemma sum_map_zero (A : Type) (a : A -> Q) (l : list A) :
  (forall p, In p l -> a p == 0) -> sum (map a l) == 0.
Proof.
  induction l as [|x l IH]; intro H; simpl map.
  - rewrite sum_nil. reflexivity.
  - rewrite sum_cons, IH, (H x (or_introl eq_refl)); [lra|].
    intros p Hp. apply H. right. exact Hp.
Qed.

Lemma sum_indicator (k : Z) (v : Q) (ps : list Z) :
  NoDup ps -> In k ps ->
  sum (map (fun p => if Z.eqb k p then v else 0) ps) == v.
Proof.
  induction 1 as [|p ps Hn Hd IH]; intro Hin; [contradiction|].
  simpl map. rewrite sum_cons.
  destruct (Z.eqb_spec k p) as [->|Hkp].
  - rewrite sum_map_zero; [lra|].
    intros q Hq. destruct (Z.eqb_spec p q) as [->|_]; [contradiction|reflexivity].
  - destruct Hin as [->|Hin]; [congruence|]. rewrite IH by exact Hin. lra.
Qed.

Lemma groups_cover_weights (valid : list ranked) (f : ranked -> Q) (ps : list Z) :
  NoDup ps -> Forall (fun r => In (percentile_of r) ps) valid ->
  sum (map (fun p => sum (map f (group valid p))) ps) == sum (map f valid).
Proof.
  intros Hd. induction valid as [|r valid IH]; intro Hin.
  - apply sum_map_zero. intros p _. unfold group. simpl. rewrite sum_nil.
    reflexivity.
  - simpl map. rewrite sum_cons, <- IH by exact (Forall_inv_tail Hin).
    rewrite <- (@sum_indicator (percentile_of r) (f r) ps Hd (Forall_inv Hin)).
    rewrite <- sum_map_plus. apply sum_map_Qeq. intros p _.
    unfold group. cbn [filter].
    destruct (Z.eqb (percentile_of r) p); simpl map.
    + rewrite sum_cons. reflexivity.
    + lra.
Qed.

Lemma occupied_weights (valid : list ranked) (f : ranked -> Q) (ps : list Z) :
  sum (map (fun p => sum (map f (group valid p))) (filter (occupied valid) ps))
  == sum (map (fun p => sum (map f (group valid p))) ps).
Proof.
  induction ps as [|p ps IH]; [reflexivity|].
  cbn [filter]. unfold occupied at 1.
  destruct (group valid p) as [|r g] eqn:Eg; simpl map.
  - rewrite sum_cons, Eg, IH. simpl map. rewrite sum_nil. lra.
  - rewrite !sum_cons, IH. reflexivity.
Qed.

Lemma indicator_count (k : Z) (ps : list Z) :
  NoDup ps -> In k ps ->
  list_sum (map (fun p => if Z.eqb k p then 1%nat else 0%nat) ps) = 1%nat.
Proof.
  induction 1 as [|p ps Hn Hd IH]; intro Hin; [contradiction|].
  simpl. destruct (Z.eqb_spec k p) as [->|Hkp].
  - assert (Z : list_sum (map (fun q => if Z.eqb p q then 1%nat else 0%nat) ps)
               = 0%nat).
    { clear IH Hd Hin. induction ps as [|q ps IH]; [reflexivity|].
      simpl. destruct (Z.eqb_spec p q) as [->|_].
      - exfalso. apply Hn. left. reflexivity.
      - apply IH. intro H. apply Hn. right. exact H. }
    rewrite Z. reflexivity.
  - destruct Hin as [->|Hin]; [congruence|]. rewrite IH by exact Hin. reflexivity.
Qed.

Lemma list_sum_map_plus (A : Type) (a b : A -> nat) (l : list A) :
  list_sum (map (fun p => (a p + b p)%nat) l)
  = (list_sum (map a l) + list_sum (map b l))%nat.
Proof. induction l as [|x l IH]; simpl; [reflexivity|]. rewrite IH. lia. Qed.

Lemma groups_cover_count (valid : list ranked) (ps : list Z) :
  NoDup ps -> Forall (fun r => In (percentile_of r) ps) valid ->
  list_sum (map (fun p => length (group valid p)) ps) = length valid.
Proof.
  intros Hd. induction valid as [|r valid IH]; intro Hin.
  - clear Hd Hin. induction ps as [|p ps IHp]; [reflexivity|]. exact IHp.
  - cbn [length]. change (S (length valid)) with (1 + length valid)%nat.
    rewrite <- IH by exact (Forall_inv_tail Hin).
    rewrite <- (@indicator_count (percentile_of r) ps Hd (Forall_inv Hin)).
    rewrite <- list_sum_map_plus. f_equal. apply map_ext. intro p.
    unfold group. cbn [filter].
    destruct (Z.eqb (percentile_of r) p); reflexivity.
Qed.

Lemma occupied_count (valid : list ranked) (ps : list Z) :
  list_sum (map (fun p => length (group valid p)) (filter (occupied valid) ps))
  = list_sum (map (fun p => length (group valid p)) ps).
Proof.
  induction ps as [|p ps IH]; [reflexivity|].
  cbn [filter]. unfold occupied at 1.
  destruct (group valid p) as [|r g] eqn:Eg; simpl.
  - rewrite Eg, IH. reflexivity.
  - rewrite IH. reflexivity.
Qed.

(** *** The range of percentiles *)

Lemma pctiles_In (p : Z) : In p pctiles <-> (1 <= p <= 99)%Z.
Proof.
  unfold pctiles. rewrite in_map_iff. split.
  - intros (n & <- & Hn). apply in_seq in Hn. lia.
  - intro H. exists (Z.to_nat p). split; [lia|]. apply in_seq. lia.
Qed.

Lemma seq_increasing (n : nat) : forall a,
  StronglySorted (fun x y : Z => (x < y)%Z) (map Z.of_nat (seq a n)).
Proof.
  induction n as [|n IH]; intro a; simpl; constructor.
  - apply IH.
  - apply Forall_forall. intros y Hy. apply in_map_iff in Hy.
    destruct Hy as (m & <- & Hm). apply in_seq in Hm. lia.
Qed.

Lemma pctiles_increasing : StronglySorted (fun x y : Z => (x < y)%Z) pctiles.
Proof. apply seq_increasing. Qed.

Lemma pctiles_NoDup : NoDup pctiles.
Proof.
  pose proof pctiles_increasing as H.
  induction H as [|x l Hs IH Hx]; constructor; [|exact IH].
  intro Hin. rewrite Forall_forall in Hx. specialize (Hx x Hin). lia.
Qed.

Lemma StronglySorted_filter (A : Type) (R : A -> A -> Prop) (f : A -> bool)
  (l : list A) :
  StronglySorted R l -> StronglySorted R (filter f l).
Proof.
  induction 1 as [|x l Hs IH Hx]; simpl; [constructor|].
  destruct (f x); [|exact IH]. constructor; [exact IH|].
  apply Forall_forall. intros y Hy. apply filter_In in Hy.
  rewrite Forall_forall in Hx. apply Hx. tauto.
Qed.

Lemma StronglySorted_In (A : Type) (R S : A -> A -> Prop) (P : A -> Prop)
  (l : list A) :
  Forall P l -> (forall a b, P a -> P b -> R a b -> S a b) ->
  StronglySorted R l -> StronglySorted S l.
Proof.
  intros HP H. induction 1 as [|x l Hs IH Hx]; [constructor|].
  constructor.
  - apply IH. exact (Forall_inv_tail HP).
  - pose proof (Forall_inv HP) as Px. pose proof (Forall_inv_tail HP) as Pl.
    rewrite Forall_forall in *. intros y Hy. apply H; auto.
Qed.

(** *** The loss schedule *)

Lemma pymax_spec (a b : Q) :
  (a < b /\ pymax a b = b) \/ (b <= a /\ pymax a b = a).
Proof.
  unfold pymax. destruct (Qltb_spec a b) as [[E H]|[E H]]; rewrite E; auto.
Qed.

Lemma inject_Z_lt (p q : Z) : (p < q)%Z -> inject_Z p < inject_Z q.
Proof. intro H. rewrite <- Zlt_Qlt. exact H. Qed.

Lemma inject_Z_le (p q : Z) : (p <= q)%Z -> inject_Z p <= inject_Z q.
Proof. intro H. rewrite <- Zle_Qle. exact H. Qed.

Lemma snap_loss_zero (p : Z) :
  0 <= snap_loss_at p /\ (snap_loss_at p == 0 <-> (75 <= p)%Z).
Proof.
  unfold snap_loss_at. cbv zeta.
  destruct (pymax_spec 0 ((30 # 100) - inject_Z p * (4 # 1000)))
    as [[H E]|[H E]]; rewrite E.
  - split; [lra|]. split.
    + intro Z. lra.
    + intro Z. apply inject_Z_le in Z. change (inject_Z 75) with 75 in Z. lra.
  - split; [lra|]. split; [|intros _; lra]. intros _.
    destruct (Z_lt_le_dec p 75) as [L|L]; [|exact L].
    apply inject_Z_lt in L. change (inject_Z 75) with 75 in L. lra.
Qed.

Lemma medicaid_loss_zero (p : Z) :
  0 <= medicaid_loss_at p /\ (medicaid_loss_at p == 0 <-> (80 <= p)%Z).
Proof.
  unfold medicaid_loss_at. cbv zeta.
  destruct (pymax_spec 0 ((40 # 100) - inject_Z p * (5 # 1000)))
    as [[H E]|[H E]]; rewrite E.
  - split; [lra|]. split.
    + intro Z. lra.
    + intro Z. apply inject_Z_le in Z. change (inject_Z 80) with 80 in Z. lra.
  - split; [lra|]. split; [|intros _; lra]. intros _.
    destruct (Z_lt_le_dec p 80) as [L|L]; [|exact L].
    apply inject_Z_lt in L. change (inject_Z 80) with 80 in L. lra.
Qed.

Lemma snap_loss_monotone (p q : Z) :
  (p <= q)%Z -> snap_loss_at q <= snap_loss_at p.
Proof.
  intro L. apply inject_Z_le in L. unfold snap_loss_at. cbv zeta.
  destruct (pymax_spec 0 ((30 # 100) - inject_Z p * (4 # 1000)))
    as [[H E]|[H E]]; rewrite E;
  destruct (pymax_spec 0 ((30 # 100) - inject_Z q * (4 # 1000)))
    as [[H' E']|[H' E']]; rewrite E'; lra.
Qed.

Lemma medicaid_loss_monotone (p q : Z) :
  (p <= q)%Z -> medicaid_loss_at q <= medicaid_loss_at p.
Proof.
  intro L. apply inject_Z_le in L. unfold medicaid_loss_at. cbv zeta.
  destruct (pymax_spec 0 ((40 # 100) - inject_Z p * (5 # 1000)))
    as [[H E]|[H E]]; rewrite E;
  destruct (pymax_spec 0 ((40 # 100) - inject_Z q * (5 # 1000)))
    as [[H' E']|[H' E']]; rewrite E'; lra.
Qed.

(** Up to the 99th percentile the floors of the two weights are not
    reached. *)
Lemma nondiscr_loss_closed (p : Z) :
  (p <= 99)%Z ->
  nondiscr_loss_at p
  == (95000000000 / 330000000) * ((15 # 10) - inject_Z p * (12 # 1000)).
Proof.
  intro L. apply inject_Z_le in L. change (inject_Z 99) with 99 in L.
  unfold nondiscr_loss_at. cbv zeta.
  destruct (pymax_spec (3 # 10) ((15 # 10) - inject_Z p * (12 # 1000)))
    as [[H E]|[H E]]; rewrite E; [reflexivity|lra].
Qed.

Lemma tariff_loss_closed (p : Z) :
  (p <= 99)%Z ->
  tariff_loss_at p
  == (140000000000 / 330000000) * ((12 # 10) - inject_Z p * (6 # 1000)).
Proof.
  intro L. apply inject_Z_le in L. change (inject_Z 99) with 99 in L.
  unfold tariff_loss_at. cbv zeta.
  destruct (pymax_spec (6 # 10) ((12 # 10) - inject_Z p * (6 # 1000)))
    as [[H E]|[H E]]; rewrite E; [reflexivity|lra].
Qed.

Lemma nondiscr_loss_decreasing (p q : Z) :
  (p < q)%Z -> (q <= 99)%Z -> nondiscr_loss_at q < nondiscr_loss_at p.
Proof.
  intros L U.
  assert (U' : (p <= 99)%Z) by lia.
  rewrite (nondiscr_loss_closed U), (nondiscr_loss_closed U').
  apply inject_Z_lt in L.
  apply Qmult_lt_l; [reflexivity|lra].
Qed.

Lemma tariff_loss_decreasing (p q : Z) :
  (p < q)%Z -> (q <= 99)%Z -> tariff_loss_at q < tariff_loss_at p.
Proof.
  intros L U.
  assert (U' : (p <= 99)%Z) by lia.
  rewrite (tariff_loss_closed U), (tariff_loss_closed U').
  apply inject_Z_lt in L.
  apply Qmult_lt_l; [reflexivity|lra].
Qed.

Lemma loss_decreasing (p q : Z) :
  (p < q)%Z -> (q <= 99)%Z -> loss_at q < loss_at p.
Proof.
  intros L U. unfold loss_at.
  pose proof (nondiscr_loss_decreasing L U).
  pose proof (tariff_loss_decreasing L U).
  pose proof (@snap_loss_monotone p q ltac:(lia)).
  pose proof (@medicaid_loss_monotone p q ltac:(lia)).
  lra.
Qed.

Lemma loss_positive (p : Z) : (p <= 99)%Z -> 0 < loss_at p.
Proof.
  intro U. unfold loss_at.
  pose proof (nondiscr_loss_closed U) as N.
  pose proof (tariff_loss_closed U) as T.
  destruct (snap_loss_zero p) as [S _].
  destruct (medicaid_loss_zero p) as [M _].
  apply inject_Z_le in U. change (inject_Z 99) with 99 in U.
  assert (0 < (95000000000 / 330000000)
              * ((15 # 10) - inject_Z p * (12 # 1000))).
  { apply Qmult_lt_0_compat; [reflexivity|lra]. }
  assert (0 < (140000000000 / 330000000)
              * ((12 # 10) - inject_Z p * (6 # 1000))).
  { apply Qmult_lt_0_compat; [reflexivity|lra]. }
  rewrite N, T. lra.
Qed.

(** *** The table *)

Lemma occupied_group (valid : list ranked) (p : Z) :
  occupied valid p = true <-> group valid p <> [].
Proof.
  unfold occupied. destruct (group valid p); split; congruence.
Qed.

Lemma table_Forall (valid : list ranked) (P : qte_row -> Prop) :
  (forall p, (1 <= p <= 99)%Z -> occupied valid p = true -> P (row_at valid p)) ->
  Forall P (map (row_at valid) (filter (occupied valid) pctiles)).
Proof.
  intro H. apply Forall_map. apply Forall_forall. intros p Hp.
  apply filter_In in Hp. destruct Hp as [H1 H2].
  apply H; [apply pctiles_In; exact H1|exact H2].
Qed.

Lemma table_relation (valid : list ranked) (S : qte_row -> qte_row -> Prop) :
  (forall p q, (1 <= p)%Z -> (p < q)%Z -> (q <= 99)%Z ->
     occupied valid p = true -> occupied valid q = true ->
     S (row_at valid p) (row_at valid q)) ->
  StronglySorted S (map (row_at valid) (filter (occupied valid) pctiles)).
Proof.
  intro H.
  apply (@StronglySorted_map _ _
           (fun p q : Z => ((1 <= p <= 99)%Z /\ occupied valid p = true) /\
                           ((1 <= q <= 99)%Z /\ occupied valid q = true) /\
                           (p < q)%Z)).
  - intros p q ((Hp & Op) & (Hq & Oq) & L). apply H; auto; lia.
  - apply (@StronglySorted_In _ (fun x y : Z => (x < y)%Z) _
             (fun p => (1 <= p <= 99)%Z /\ occupied valid p = true)).
    + apply Forall_forall. intros p Hp. apply filter_In in Hp.
      destruct Hp as [H1 H2]. split; [apply pctiles_In; exact H1|exact H2].
    + intros a b Ha Hb L. auto.
    + apply StronglySorted_filter. exact pctiles_increasing.
Qed.

Lemma qte_outcome (df : list row) :
  quantile_treatment_effects (Some df)
  = match map (row_at (rank_rows df))
              (filter (occupied (rank_rows df)) pctiles) with
    | [] => Raised (KeyError "percentile")
    | row :: rows => Returned (row :: rows)
    end.
Proof.
  unfold quantile_treatment_effects.
  rewrite (qte_loop_closed (rank_rows_weights df)). reflexivity.
Qed.

Lemma qte_returned (df : list row) (qte_df : list qte_row) :
  quantile_treatment_effects (Some df) = Returned qte_df ->
  qte_df = map (row_at (rank_rows df))
               (filter (occupied (rank_rows df)) pctiles).
Proof.
  rewrite qte_outcome.
  destruct (map (row_at (rank_rows df))
                (filter (occupied (rank_rows df)) pctiles));
    [discriminate|]. intro H. injection H as <-. reflexivity.
Qed.

Lemma rank_rows_nil (df : list row) :
  rank_rows df = [] <-> positive_weight df = [].
Proof.
  pose proof (rank_rows_length df) as L.
  split; intro H; rewrite H in L; simpl in L.
  - destruct (positive_weight df); [reflexivity|discriminate].
  - destruct (rank_rows df); [reflexivity|discriminate].
Qed.

Lemma some_percentile_occupied (valid : list ranked) :
  valid <> [] -> filter (occupied valid) pctiles <> [].
Proof.
  destruct valid as [|r valid]; [congruence|]. intros _ E.
  assert (Hin : In (percentile_of r) (filter (occupied (r :: valid)) pctiles)).
  { apply filter_In. split.
    - apply pctiles_In. apply percentile_of_range.
    - apply occupied_group. unfold group. cbn [filter].
      rewrite Z.eqb_refl. discriminate. }
  rewrite E in Hin. exact Hin.
Qed.

Lemma rank_rows_total (df : list row) :
  sum (map r_weight (rank_rows df)) == sum (map weight (positive_weight df)).
Proof.
  assert (E : map r_weight (rank_rows df)
              = map weight (sort_values (positive_weight df))).
  { rewrite <- rank_rows_rows, map_map. reflexivity. }
  rewrite E. apply sum_perm. apply Permutation_map.
  apply Permutation_sym. apply sort_values_perm.
Qed.

(** *** Mean incomes down the table *)

Lemma percentile_order (df : list row) (a b : ranked) :
  In a (rank_rows df) -> In b (rank_rows df) ->
  (percentile_of a < percentile_of b)%Z -> r_income a <= r_income b.
Proof.
  intros Ha Hb L.
  apply (sorted_in_order (rank_rows_sorted df) a b Ha Hb).
  destruct (Qlt_le_dec (cum_pct a) (cum_pct b)) as [H|H]; [exact H|].
  pose proof (rank_rows_pct df) as P. rewrite Forall_forall in P.
  destruct (P b Hb) as [P0 _].
  assert (percentile_of b <= percentile_of a)%Z.
  { apply percentile_of_monotone; lra. }
  lia.
Qed.

Lemma group_mean_summarise (g : list ranked) :
  g <> [] -> Forall (fun r => 0 < r_weight r) g ->
  exists s, summarise EmptyString g = Ok s /\ Distributional.mean_income s = group_mean g.
Proof.
  intros Hne Hw. destruct (summarise_nonempty EmptyString Hne Hw) as [s Es].
  exists s. split; [exact Es|].
  apply summarise_ok in Es. destruct Es as (_ & _ & _ & _ & E). exact E.
Qed.

Lemma group_means_rise (df : list row) (p q : Z) :
  (p < q)%Z ->
  occupied (rank_rows df) p = true -> occupied (rank_rows df) q = true ->
  group_mean (group (rank_rows df) p) <= group_mean (group (rank_rows df) q).
Proof.
  intros L Op Oq. apply occupied_group in Op. apply occupied_group in Oq.
  pose proof (rank_rows_weights df) as Hw.
  destruct (group_mean_summarise Op (group_weights p Hw)) as (sa & Ea & <-).
  destruct (group_mean_summarise Oq (group_weights q Hw)) as (sb & Eb & <-).
  unfold group in Ea, Eb.
  apply (@group_means_ordered (rank_rows df)
           (fun r => Z.eqb (percentile_of r) p)
           (fun r => Z.eqb (percentile_of r) q)
           EmptyString EmptyString sa sb Hw);
    [|exact Ea|exact Eb].
  intros a b Ha Hb Pa Pb. apply Z.eqb_eq in Pa. apply Z.eqb_eq in Pb.
  apply (@percentile_order df a b Ha Hb). lia.
Qed.

Lemma burden_order (l1 l2 m1 m2 : Q) :
  0 < l2 -> l2 < l1 -> 0 < m1 -> m1 <= m2 ->
  0 < l2 / m2 * 100 /\ l2 / m2 * 100 < l1 / m1 * 100.
Proof.
  intros H0 H1 H2 H3.
  assert (E1 : l1 / m1 * m1 == l1) by (field; lra).
  assert (E2 : l2 / m2 * m2 == l2) by (field; lra).
  assert (P1 : 0 < l1 / m1).
  { apply Qlt_shift_div_l; lra. }
  assert (P2 : 0 < l2 / m2).
  { apply Qlt_shift_div_l; lra. }
  assert (l2 / m2 < l1 / m1).
  { apply Qlt_shift_div_r; [lra|]. nra. }
  lra.
Qed.

(** *** X17. Every person of positive weight is in exactly one row *)

(** X17.  With no person of positive weight
    [quantile_treatment_effects] raises KeyError on the empty table.
    Otherwise it returns a table whose percentiles are strictly
    increasing and lie between 1 and 99, each row holds at least one
    person, the person counts of the rows add up to the number of persons
    of positive weight and the weighted persons to their total weight. *)
Theorem qte_table_covers_everyone (df : list row) :
  (positive_weight df = [] /\
   quantile_treatment_effects (Some df) = Raised (KeyError "percentile")) \/
  (positive_weight df <> [] /\
   exists qte_df,
     quantile_treatment_effects (Some df) = Returned qte_df /\
     StronglySorted lower_percentile qte_df /\
     Forall (fun r => (1 <= percentile r <= 99)%Z /\ (1 <= n_persons r)%nat /\
                      0 < weighted_persons r) qte_df /\
     list_sum (map n_persons qte_df) = length (positive_weight df) /\
     sum (map weighted_persons qte_df)
     == sum (map weight (positive_weight df))).
Proof.
  pose proof (qte_outcome df) as O.
  set (valid := rank_rows df) in *.
  pose proof (rank_rows_weights df) as Hw. fold valid in Hw.
  destruct (positive_weight df) as [|r0 pw] eqn:Epw.
  - left. split; [reflexivity|].
    apply rank_rows_nil in Epw. fold valid in Epw. rewrite Epw in O. exact O.
  - right. split; [discriminate|].
    assert (Hv : valid <> []).
    { intro E. apply rank_rows_nil in E. congruence. }
    pose proof (some_percentile_occupied Hv) as Hocc.
    exists (map (row_at valid) (filter (occupied valid) pctiles)).
    split; [|split; [|split; [|split]]].
    + rewrite O. destruct (filter (occupied valid) pctiles); [congruence|reflexivity].
    + apply table_relation. intros p q _ L _ _ _. exact L.
    + apply table_Forall. intros p Hp Op. apply occupied_group in Op.
      cbn [percentile n_persons weighted_persons row_at].
      split; [exact Hp|]. split.
      * destruct (group valid p); [congruence|simpl; lia].
      * apply weights_sum_pos; [exact Op|apply group_weights; exact Hw].
    + rewrite map_map. cbn [n_persons row_at].
      rewrite occupied_count, groups_cover_count.
      * unfold valid. rewrite rank_rows_length, Epw. reflexivity.
      * exact pctiles_NoDup.
      * apply Forall_forall. intros r _. apply pctiles_In.
        apply percentile_of_range.
    + rewrite map_map. cbn [weighted_persons row_at].
      rewrite (occupied_weights valid r_weight pctiles).
      rewrite groups_cover_weights.
      * unfold valid. rewrite rank_rows_total, Epw. reflexivity.
      * exact pctiles_NoDup.
      * apply Forall_forall. intros r _. apply pctiles_In.
        apply percentile_of_range.
Qed.

(** *** X18. The loss in dollars falls with the percentile *)

(** X18.  In the table [quantile_treatment_effects] returns, every row
    has non-negative SNAP and Medicaid losses, the SNAP loss is zero
    exactly from the 75th percentile and the Medicaid loss exactly from
    the 80th, the floors of the nondefense and tariff weights are never
    reached, and the total loss is positive; from one row to any later
    row the SNAP and Medicaid losses do not rise and the nondefense,
    tariff and total losses strictly fall. *)
Theorem qte_losses_fall_with_percentile (df : list row) (qte_df : list qte_row) :
  quantile_treatment_effects (Some df) = Returned qte_df ->
  Forall schedule qte_df /\ StronglySorted loses_less qte_df.
Proof.
  intro H. apply qte_returned in H. subst qte_df. split.
  - apply table_Forall. intros p [_ Hp] _. unfold schedule.
    cbn [percentile snap_loss medicaid_loss nondiscr_loss tariff_loss
         total_loss row_at].
    destruct (snap_loss_zero p) as [S1 S2].
    destruct (medicaid_loss_zero p) as [M1 M2].
    repeat split; try tauto.
    + apply nondiscr_loss_closed. exact Hp.
    + apply tariff_loss_closed. exact Hp.
    + apply loss_positive. exact Hp.
  - apply table_relation. intros p q _ L U _ _. unfold loses_less.
    cbn [snap_loss medicaid_loss nondiscr_loss tariff_loss total_loss row_at].
    split; [apply snap_loss_monotone; lia|].
    split; [apply medicaid_loss_monotone; lia|].
    split; [apply nondiscr_loss_decreasing; assumption|].
    split; [apply tariff_loss_decreasing; assumption|].
    apply loss_decreasing; assumption.
Qed.

Lemma qte_losses_fall_with_percentile_witness :
  exists qte_df,
    quantile_treatment_effects (Some two_persons) = Returned qte_df /\
    map percentile qte_df = [33%Z; 99%Z] /\
    Forall schedule qte_df /\ StronglySorted loses_less qte_df.
Proof.
  destruct (quantile_treatment_effects (Some two_persons)) as [|e|qte_df] eqn:E;
    [vm_compute in E; discriminate..|].
  exists qte_df. split; [reflexivity|]. split.
  - vm_compute in E. injection E as <-. reflexivity.
  - apply (@qte_losses_fall_with_percentile two_persons qte_df E).
Defined.

(** *** X19. The burden as a share of income falls with the percentile *)

(** X19.  In the table [quantile_treatment_effects] returns, the mean
    income never falls from one row to a later one, and after a row with
    a positive mean income every later row reports a strictly smaller,
    still positive loss as a share of income.  A row reports the total
    loss over its mean income times 100 when that mean is positive and 0
    otherwise, so the share is never negative. *)
Theorem qte_burden_regressive (df : list row) (qte_df : list qte_row) :
  quantile_treatment_effects (Some df) = Returned qte_df ->
  StronglySorted richer_and_less_burdened qte_df /\ Forall burden qte_df.
Proof.
  intro H. apply qte_returned in H. subst qte_df. split.
  - apply table_relation. intros p q _ L U Op Oq.
    unfold richer_and_less_burdened.
    cbn [mean_income pct_of_income row_at].
    pose proof (group_means_rise df L Op Oq) as M.
    split; [exact M|]. intro P.
    destruct (Qltb_spec 0 (group_mean (group (rank_rows df) p)))
      as [[E1 _]|[_ N]]; [|lra].
    destruct (Qltb_spec 0 (group_mean (group (rank_rows df) q)))
      as [[E2 _]|[_ N]]; [|lra].
    rewrite E1, E2.
    apply burden_order; [apply loss_positive; exact U| |exact P|exact M].
    apply loss_decreasing; assumption.
  - apply table_Forall. intros p [_ Hp] _. unfold burden.
    cbn [mean_income pct_of_income total_loss row_at].
    pose proof (loss_positive Hp) as LP.
    destruct (Qltb_spec 0 (group_mean (group (rank_rows df) p)))
      as [[E1 P]|[E1 N]]; rewrite E1.
    + split; [reflexivity|]. split; [intro; lra|].
      assert (0 < loss_at p / group_mean (group (rank_rows df) p)).
      { apply Qlt_shift_div_l; lra. }
      lra.
    + split; [intro; lra|]. split; [reflexivity|lra].
Qed.

Lemma qte_burden_regressive_witness :
  exists qte_df,
    quantile_treatment_effects (Some distinct_first) = Returned qte_df /\
    StronglySorted richer_and_less_burdened qte_df /\ Forall burden qte_df.
Proof.
  destruct (quantile_treatment_effects (Some distinct_first))
    as [|e|qte_df] eqn:E; [vm_compute in E; discriminate..|].
  exists qte_df. split; [reflexivity|].
  apply (@qte_burden_regressive distinct_first qte_df E).
Defined.

Transparent sum.

End QteFacts.

(** ** H. Sensitivity to the allocation of cuts *)

Section SensitivityFacts.
Import Np Attribution Sensitivity Examples.
Local Open Scope Q_scope.

(** *** The table of the four specifications *)

Lemma sensitivity_closed (policy_gap : dict Q) :
  let m := get_or "Medicaid" 0 policy_gap in
  let i := get_or "Income Security" 0 policy_gap in
  let n := get_or "Nondefense Discretionary" 0 policy_gap in
  let loss := fun (a b c : Q) => 0 + m * a + i * b + n * c in
  test_propensity_sensitivity policy_gap
  = Some
      [mkSpecRow "Baseline (CPS receipt rates)"
         (loss ((40 # 100) + (30 # 100) + (15 # 100) * B50_Q3_FACTOR)
               ((50 # 100) + (30 # 100) + (12 # 100) * B50_Q3_FACTOR)
               ((25 # 100) + (25 # 100) + (22 # 100) * B50_Q3_FACTOR));
       mkSpecRow "Alt A: CBO (2022) estimates"
         (loss ((45 # 100) + (25 # 100) + (15 # 100) * B50_Q3_FACTOR)
               ((55 # 100) + (25 # 100) + (10 # 100) * B50_Q3_FACTOR)
               ((30 # 100) + (25 # 100) + (20 # 100) * B50_Q3_FACTOR));
       mkSpecRow "Alt B: Uniform within eligible"
         (loss ((35 # 100) + (30 # 100) + (20 # 100) * B50_Q3_FACTOR)
               ((40 # 100) + (30 # 100) + (15 # 100) * B50_Q3_FACTOR)
               ((22 # 100) + (22 # 100) + (22 # 100) * B50_Q3_FACTOR));
       mkSpecRow "Alt C: Conservative (less progressive)"
         (loss ((30 # 100) + (25 # 100) + (20 # 100) * B50_Q3_FACTOR)
               ((35 # 100) + (25 # 100) + (20 # 100) * B50_Q3_FACTOR)
               ((20 # 100) + (20 # 100) + (20 # 100) * B50_Q3_FACTOR))].
Proof.
  cbv beta iota zeta delta
    [test_propensity_sensitivity spec_loop allocations b50_loop programs
     by_quintile dict_get String.eqb Ascii.eqb Bool.eqb].
  reflexivity.
Qed.

Lemma attribution_spending (policy_gap : dict Q) (tariff_gap : Q)
  (quintile_data : list quintile_row) (total_impacts : dict impact) :
  distributional_attribution policy_gap tariff_gap quintile_data
  = Ok total_impacts ->
  let m := get_or "Medicaid" 0 policy_gap in
  let i := get_or "Income Security" 0 policy_gap in
  let n := get_or "Nondefense Discretionary" 0 policy_gap in
  spending_cut_of total_impacts "Q1 (Bottom 20%)"
  = 0 + m * (40 # 100) + i * (50 # 100) + n * (25 # 100) /\
  spending_cut_of total_impacts "Q2"
  = 0 + m * (30 # 100) + i * (30 # 100) + n * (25 # 100) /\
  spending_cut_of total_impacts "Q3"
  = 0 + m * (15 # 100) + i * (12 # 100) + n * (22 # 100).
Proof.
  unfold distributional_attribution.
  destruct (b50_income_of quintile_data); [|discriminate].
  rewrite spending_impacts_closed.
  intro H. injection H as <-.
  cbv beta iota zeta delta
    [spending_cut_of map dict_get fst snd String.eqb Ascii.eqb Bool.eqb
     spending_cut_B].
  repeat split.
Qed.

(** *** X20. The baseline specification agrees with the main analysis *)

(** X20.  Whenever [distributional_attribution] returns for a policy gap,
    [test_propensity_sensitivity] returns four rows for the same gap, and
    the loss of its first row, the baseline specification, is the
    spending cut that the attribution puts on the bottom 50%: the cut of
    Q1 plus the cut of Q2 plus half the cut of Q3. *)
Theorem propensity_baseline_matches_attribution (policy_gap : dict Q)
  (tariff_gap : Q) (quintile_data : list quintile_row)
  (total_impacts : dict impact) :
  distributional_attribution policy_gap tariff_gap quintile_data
  = Ok total_impacts ->
  exists base rest,
    test_propensity_sensitivity policy_gap = Some (base :: rest) /\
    length rest = 3%nat /\
    specification base = "Baseline (CPS receipt rates)"%string /\
    bottom_50_spending_loss_B base
    == spending_cut_of total_impacts "Q1 (Bottom 20%)"
       + spending_cut_of total_impacts "Q2"
       + spending_cut_of total_impacts "Q3" * (5 # 10).
Proof.
  intro H. destruct (attribution_spending _ _ _ H) as (E1 & E2 & E3).
  rewrite E1, E2, E3. rewrite (sensitivity_closed policy_gap). cbv zeta.
  do 2 eexists. split; [reflexivity|]. split; [reflexivity|].
  split; [reflexivity|].
  cbn [bottom_50_spending_loss_B]. unfold B50_Q3_FACTOR. ring.
Qed.

Lemma propensity_baseline_matches_attribution_witness :
  exists total_impacts base rest,
    distributional_attribution sample_gap 100 strata = Ok total_impacts /\
    test_propensity_sensitivity sample_gap = Some (base :: rest) /\
    length rest = 3%nat /\
    specification base = "Baseline (CPS receipt rates)"%string /\
    bottom_50_spending_loss_B base
    == spending_cut_of total_impacts "Q1 (Bottom 20%)"
       + spending_cut_of total_impacts "Q2"
       + spending_cut_of total_impacts "Q3" * (5 # 10).
Proof.
  destruct (distributional_attribution sample_gap 100 strata)
    as [total_impacts|e] eqn:E; [|vm_compute in E; discriminate].
  destruct (@propensity_baseline_matches_attribution
              sample_gap 100 strata total_impacts E)
    as (base & rest & H).
  exists total_impacts, base, rest. split; [reflexivity|exact H].
Defined.

(** *** X21. Every specification leaves most of the cuts on the bottom 50% *)

(** X21.  When the gaps of the three programmes are cuts (none is
    positive), [test_propensity_sensitivity] returns its four rows in the
    order of the allocation table, every row puts between 50% and 86% of
    the three cuts together on the bottom 50%, and the loss is largest in
    the baseline specification, smaller in Alt B and smallest in Alt C. *)
Theorem propensity_rows_bounded (policy_gap : dict Q) :
  get_or "Medicaid" 0 policy_gap <= 0 ->
  get_or "Income Security" 0 policy_gap <= 0 ->
  get_or "Nondefense Discretionary" 0 policy_gap <= 0 ->
  exists base alt_a alt_b alt_c,
    test_propensity_sensitivity policy_gap = Some [base; alt_a; alt_b; alt_c] /\
    map specification [base; alt_a; alt_b; alt_c] = spec_names /\
    Forall (fun r =>
              (86 # 100) * gap_total policy_gap <= bottom_50_spending_loss_B r /\
              bottom_50_spending_loss_B r <= (50 # 100) * gap_total policy_gap)
           [base; alt_a; alt_b; alt_c] /\
    bottom_50_spending_loss_B base <= bottom_50_spending_loss_B alt_b /\
    bottom_50_spending_loss_B alt_b <= bottom_50_spending_loss_B alt_c /\
    bottom_50_spending_loss_B alt_c <= 0.
Proof.
  intros Hm Hi Hn. rewrite (sensitivity_closed policy_gap). cbv zeta.
  unfold gap_total.
  set (m := get_or "Medicaid" 0 policy_gap) in *.
  set (i := get_or "Income Security" 0 policy_gap) in *.
  set (n := get_or "Nondefense Discretionary" 0 policy_gap) in *.
  do 4 eexists. split; [reflexivity|]. split; [reflexivity|].
  cbn [bottom_50_spending_loss_B]. unfold B50_Q3_FACTOR.
  split; [|split; [|split]; lra].
  repeat (apply Forall_cons;
          [cbv beta; cbn [bottom_50_spending_loss_B]; split; lra|]).
  apply Forall_nil.
Qed.

Lemma propensity_rows_bounded_witness :
  exists base alt_a alt_b alt_c,
    test_propensity_sensitivity sample_gap = Some [base; alt_a; alt_b; alt_c] /\
    map specification [base; alt_a; alt_b; alt_c] = spec_names /\
    Forall (fun r =>
              (86 # 100) * gap_total sample_gap <= bottom_50_spending_loss_B r /\
              bottom_50_spending_loss_B r <= (50 # 100) * gap_total sample_gap)
           [base; alt_a; alt_b; alt_c] /\
    bottom_50_spending_loss_B base <= bottom_50_spending_loss_B alt_b /\
    bottom_50_spending_loss_B alt_b <= bottom_50_spending_loss_B alt_c /\
    bottom_50_spending_loss_B alt_c <= 0.
Proof.
  apply (@propensity_rows_bounded sample_gap); unfold Qle; simpl; lia.
Defined.

End SensitivityFacts.

(** ** I. Deflating a series *)

Section DeflationFacts.
Import Np Deflation.
Local Open Scope Q_scope.

Opaque sum.

(** *** The base CPI *)

Lemma dropna_rescale (k : Q) (df : list aligned) :
  dropna (rescale_cpi k df)
  = map (fun r => mkObserved (year r) (nominal_value r) (k * cpi_value r))
        (dropna df).
Proof.
  induction df as [|r df IH]; [reflexivity|].
  simpl. destruct (nominal r), (cpi r); simpl; rewrite ?IH; reflexivity.
Qed.

Lemma sum_scale (k : Q) (l : list Q) :
  sum (map (fun c => k * c) l) == k * sum l.
Proof.
  induction l as [|x l IH]; simpl map.
  - rewrite sum_nil. lra.
  - rewrite !sum_cons, IH. lra.
Qed.

Lemma mean_scale (k : Q) (l : list Q) :
  l <> [] -> mean (map (fun c => k * c) l) == k * mean l.
Proof.
  intro Hne. unfold mean. rewrite length_map, sum_scale.
  assert (0 < inject_Z (Z.of_nat (length l))).
  { destruct l; [congruence|]. change 0 with (inject_Z 0).
    rewrite <- Zlt_Qlt. simpl length. lia. }
  field. lra.
Qed.

Lemma sum_constant (c : Q) (l : list Q) :
  Forall (fun x => x == c) l ->
  sum l == c * inject_Z (Z.of_nat (length l)).
Proof.
  induction 1 as [|x l Hx Hl IH].
  - rewrite sum_nil. simpl. change (inject_Z 0) with 0. lra.
  - assert (Hx' : x == c) by exact Hx.
    cbn [length]. rewrite sum_cons, IH, Hx'. rewrite Nat2Z.inj_succ.
    unfold Z.succ. rewrite inject_Z_plus. change (inject_Z 1) with 1. lra.
Qed.

Lemma mean_constant (c : Q) (l : list Q) :
  l <> [] -> Forall (fun x => x == c) l -> mean l == c.
Proof.
  intros Hne H. unfold mean. rewrite (sum_constant H).
  assert (0 < inject_Z (Z.of_nat (length l))).
  { destruct l; [congruence|]. change 0 with (inject_Z 0).
    rewrite <- Zlt_Qlt. simpl length. lia. }
  field. lra.
Qed.

Lemma last_map (A B : Type) (f : A -> B) (l : list A) (d : A) :
  last (map f l) (f d) = f (last l d).
Proof.
  induction l as [|x l IH]; [reflexivity|].
  destruct l as [|y l]; [reflexivity|]. exact IH.
Qed.

Lemma base_cpi_rescale (k : Q) (combined : list observed) (base_year : Z) :
  combined <> [] ->
  base_cpi_of
    (map (fun r => mkObserved (year r) (nominal_value r) (k * cpi_value r))
         combined) base_year
  == k * base_cpi_of combined base_year.
Proof.
  intro Hne. unfold base_cpi_of.
  set (f := fun r => mkObserved (year r) (nominal_value r) (k * cpi_value r)).
  assert (F : filter (fun r => Z.eqb (year r) base_year) (map f combined)
              = map f (filter (fun r => Z.eqb (year r) base_year) combined)).
  { clear Hne. induction combined as [|r l IH]; [reflexivity|].
    simpl. destruct (Z.eqb (year r) base_year); simpl; rewrite IH; reflexivity. }
  rewrite F.
  destruct (filter (fun r => Z.eqb (year r) base_year) combined) as [|b base]
    eqn:Eb.
  - simpl map at 1. cbv iota.
    destruct combined as [|r0 l]; [congruence|].
    assert (L : forall l r0,
              cpi_value (last (map f (r0 :: l)) (mkObserved 0 0 0))
              == k * cpi_value (last (r0 :: l) (mkObserved 0 0 0))).
    { clear. induction l as [|y l IH]; intro r0.
      - simpl. reflexivity.
      - change (last (map f (r0 :: y :: l)) (mkObserved 0 0 0))
          with (last (map f (y :: l)) (mkObserved 0 0 0)).
        change (last (r0 :: y :: l) (mkObserved 0 0 0))
          with (last (y :: l) (mkObserved 0 0 0)).
        apply IH. }
    apply L.
  - change (mean (map cpi_value (map f (b :: base)))
            == k * mean (map cpi_value (b :: base))).
    rewrite map_map.
    change (map (fun x => cpi_value (f x)) (b :: base))
      with (map (fun x => k * cpi_value x) (b :: base)).
    rewrite <- (map_map cpi_value (fun c => k * c)).
    apply mean_scale. discriminate.
Qed.

Lemma Forall2_map_same (A B : Type) (R : B -> B -> Prop) (f g : A -> B)
  (l : list A) :
  (forall x, In x l -> R (f x) (g x)) -> Forall2 R (map f l) (map g l).
Proof.
  induction l as [|x l IH]; intro H; simpl; constructor.
  - apply H. left. reflexivity.
  - apply IH. intros y Hy. apply H. right. exact Hy.
Qed.

Lemma last_nth_error (A : Type) (l : list A) (d r : A) :
  nth_error l (length l - 1) = Some r -> last l d = r.
Proof.
  induction l as [|x l IH]; [discriminate|].
  destruct l as [|y l].
  - simpl. congruence.
  - intro H. change (last (x :: y :: l) d) with (last (y :: l) d).
    apply IH. simpl length in *.
    replace (S (length l) - 1)%nat with (length l) by lia.
    replace (S (S (length l)) - 1)%nat with (S (length l)) in H by lia.
    exact H.
Qed.

Lemma base_cpi_constant (combined : list observed) (base_year : Z) (c : Q) :
  (exists r, In r combined /\ year r = base_year) ->
  (forall r, In r combined -> year r = base_year -> cpi_value r == c) ->
  base_cpi_of combined base_year == c.
Proof.
  intros (r0 & Hin & Hy) H. unfold base_cpi_of.
  assert (Hb : In r0 (filter (fun r => Z.eqb (year r) base_year) combined)).
  { apply filter_In. split; [exact Hin|]. apply Z.eqb_eq. exact Hy. }
  assert (Hc : Forall (fun x => x == c)
                 (map cpi_value
                    (filter (fun r => Z.eqb (year r) base_year) combined))).
  { apply Forall_map. apply Forall_forall. intros r Hr.
    apply filter_In in Hr. destruct Hr as [H1 H2]. apply Z.eqb_eq in H2.
    apply H; assumption. }
  destruct (filter (fun r => Z.eqb (year r) base_year) combined) as [|b base];
    [contradiction|].
  apply mean_constant; [discriminate|exact Hc].
Qed.

Lemma base_cpi_fallback (combined : list observed) (base_year : Z) :
  (forall r, In r combined -> year r <> base_year) ->
  base_cpi_of combined base_year
  = cpi_value (last combined (mkObserved 0 0 0)).
Proof.
  intro H. unfold base_cpi_of.
  destruct (filter (fun r => Z.eqb (year r) base_year) combined) as [|b base]
    eqn:E; [reflexivity|].
  assert (Hb : In b (filter (fun r => Z.eqb (year r) base_year) combined))
    by (rewrite E; left; reflexivity).
  apply filter_In in Hb. destruct Hb as [H1 H2]. apply Z.eqb_eq in H2.
  exfalso. exact (H b H1 H2).
Qed.

Lemma real_value_at (df : list aligned) (base_year : Z) (i : nat)
  (r : observed) :
  nth_error (dropna df) i = Some r -> ~ cpi_value r == 0 ->
  nth_error (compute_real_values df base_year) i
  = Some (Some (nominal_value r
                * (base_cpi_of (dropna df) base_year / cpi_value r))).
Proof.
  intros Hi Hc. unfold compute_real_values.
  destruct (dropna df) as [|r0 l] eqn:E; [destruct i; discriminate|].
  rewrite nth_error_map, Hi. simpl.
  destruct (Qeq_bool (cpi_value r) 0) eqn:Eb; [|reflexivity].
  apply Qeq_bool_iff in Eb. contradiction.
Qed.

(** *** X22. The scale of the price index does not matter *)

(** X22.  Multiplying every CPI value by the same non-zero factor, as a
    change of the index's reference period does, leaves every real value
    that [compute_real_values] returns unchanged, and leaves the rows
    without a finite value where they were. *)
Theorem real_values_rebasing_invariant (df : list aligned) (base_year : Z)
  (k : Q) :
  ~ k == 0 ->
  Forall2 same_value (compute_real_values (rescale_cpi k df) base_year)
                     (compute_real_values df base_year).
Proof.
  intro Hk. unfold compute_real_values. rewrite dropna_rescale.
  destruct (dropna df) as [|r0 l] eqn:E; [constructor|].
  assert (Hne : r0 :: l <> []) by discriminate.
  pose proof (base_cpi_rescale k base_year Hne) as B.
  set (combined := r0 :: l) in *.
  set (f := fun r => mkObserved (year r) (nominal_value r) (k * cpi_value r)) in *.
  change (mkObserved (year r0) (nominal_value r0) (k * cpi_value r0) :: map f l)
    with (map f combined).
  set (B' := base_cpi_of (map f combined) base_year) in *.
  set (B0 := base_cpi_of combined base_year) in *.
  destruct (map f combined) as [|x xs] eqn:Em; [discriminate|].
  rewrite <- Em, map_map.
  apply Forall2_map_same. intros r _. unfold f. cbn [cpi_value nominal_value].
  destruct (Qeq_bool (cpi_value r) 0) eqn:E0.
  - apply Qeq_bool_iff in E0.
    destruct (Qeq_bool (k * cpi_value r) 0) eqn:E1; [exact I|].
    apply Qeq_bool_neq in E1. apply E1. rewrite E0. ring.
  - apply Qeq_bool_neq in E0.
    destruct (Qeq_bool (k * cpi_value r) 0) eqn:E1.
    + apply Qeq_bool_iff in E1. apply Qmult_integral in E1. tauto.
    + simpl. rewrite B. field. split; assumption.
Qed.

Lemma real_values_rebasing_invariant_witness :
  Forall2 same_value (compute_real_values (rescale_cpi (1 # 3) annual_frame) 2023)
                     (compute_real_values annual_frame 2023) /\
  Forall2 same_value (compute_real_values annual_frame 2023)
                     [Some (1000 # 9); Some 120; Some (3900 # 31)].
Proof.
  split.
  - apply real_values_rebasing_invariant. discriminate.
  - vm_compute. repeat (apply Forall2_cons; [reflexivity|]). apply Forall2_nil.
Defined.

(** *** X23. The anchor of the real values *)

(** X23.  A row whose CPI is not zero is returned at its nominal value
    when it lies in the base year and every row of the base year has its
    CPI (in particular when it is the only row of that year), and also
    when no row lies in the base year and it is the last row: without
    the base year the series is expressed in the prices of its last
    date. *)
Theorem real_value_at_anchor (df : list aligned) (base_year : Z) (i : nat)
  (r : observed) :
  nth_error (dropna df) i = Some r ->
  ~ cpi_value r == 0 ->
  (year r = base_year /\
   forall r', In r' (dropna df) -> year r' = base_year ->
              cpi_value r' == cpi_value r) \/
  ((forall r', In r' (dropna df) -> year r' <> base_year) /\
   i = (length (dropna df) - 1)%nat) ->
  exists v,
    nth_error (compute_real_values df base_year) i = Some (Some v) /\
    v == nominal_value r.
Proof.
  intros Hi Hc H. rewrite (real_value_at df base_year i Hi Hc).
  eexists. split; [reflexivity|].
  assert (B : base_cpi_of (dropna df) base_year == cpi_value r).
  { destruct H as [[Hy Hall]|[Hnone ->]].
    - apply base_cpi_constant; [|exact Hall].
      exists r. split; [|exact Hy]. eapply nth_error_In. exact Hi.
    - rewrite (base_cpi_fallback _ Hnone).
      rewrite (last_nth_error _ (mkObserved 0 0 0) Hi). reflexivity. }
  rewrite B. field. exact Hc.
Qed.

Lemma real_value_at_anchor_witness :
  (exists v, nth_error (compute_real_values annual_frame 2023) 1 = Some (Some v) /\
             v == 120) /\
  (exists v, nth_error (compute_real_values early_frame 2023) 1 = Some (Some v) /\
             v == 90).
Proof.
  split.
  - apply (@real_value_at_anchor annual_frame 2023 1 (mkObserved 2023 120 300)).
    + reflexivity.
    + discriminate.
    + left. split; [reflexivity|].
      intros r' Hr' Hy. simpl in Hr'.
      decompose [or] Hr'; try contradiction; subst r'; simpl in Hy;
        try discriminate; reflexivity.
  - apply (@real_value_at_anchor early_frame 2023 1 (mkObserved 2020 90 260)).
    + reflexivity.
    + discriminate.
    + right. split; [|reflexivity].
      intros r' Hr'. simpl in Hr'.
      decompose [or] Hr'; try contradiction; subst r'; simpl; discriminate.
Defined.

Transparent sum.

End DeflationFacts.

(** ** J. Income aggregates *)

Section ComponentsFacts.
Import Np Attribution Components.
Local Open Scope Q_scope.

Opaque sum.

(** *** Reading a frame after an assignment *)

Lemma dict_get_set (V : Type) (c k : string) (v : V) (d : dict V) :
  dict_get c (dict_set k v d)
  = if String.eqb c k then Some v else dict_get c d.
Proof.
  induction d as [|[k' v'] d IH]; simpl.
  - destruct (String.eqb c k); reflexivity.
  - destruct (String.eqb_spec k k') as [->|Hk]; simpl.
    + destruct (String.eqb c k'); reflexivity.
    + destruct (String.eqb_spec c k') as [->|Hc].
      * destruct (String.eqb_spec k' k) as [E|_]; [congruence|reflexivity].
      * exact IH.
Qed.

Lemma fillna_Some (v : list Q) : fillna (map Some v) = v.
Proof. induction v as [|x v IH]; simpl; congruence. Qed.

Lemma fillna_length (s : series) : length (fillna s) = length s.
Proof. apply length_map. Qed.

Lemma get_fillna_assign (df : frame) (k c : string) (v : list Q) :
  String.eqb c k = false -> get_fillna (assign k v df) c = get_fillna df c.
Proof.
  intro H. unfold get_fillna, assign. rewrite dict_get_set, H. reflexivity.
Qed.

Lemma plus_columns_assign (df : frame) (k : string) (v : list Q) cols :
  forallb (fun c => negb (String.eqb c k)) cols = true ->
  forall acc,
  plus_columns (assign k v df) acc cols = plus_columns df acc cols.
Proof.
  induction cols as [|c cols IH]; intros H acc; [reflexivity|].
  simpl in H. apply andb_true_iff in H. destruct H as [H1 H2].
  apply negb_true_iff in H1. simpl. rewrite (@get_fillna_assign df k c v H1).
  destruct (get_fillna df c); [apply IH; exact H2|reflexivity].
Qed.

Lemma minus_columns_assign (df : frame) (k : string) (v : list Q) cols :
  forallb (fun c => negb (String.eqb c k)) cols = true ->
  forall acc,
  minus_columns (assign k v df) acc cols = minus_columns df acc cols.
Proof.
  induction cols as [|c cols IH]; intros H acc; [reflexivity|].
  simpl in H. apply andb_true_iff in H. destruct H as [H1 H2].
  apply negb_true_iff in H1. simpl. rewrite (@get_fillna_assign df k c v H1).
  destruct (get_fillna df c); [apply IH; exact H2|reflexivity].
Qed.

Lemma sum_columns_assign (df : frame) (k : string) (v : list Q) cols :
  forallb (fun c => negb (String.eqb c k)) cols = true ->
  sum_columns (assign k v df) cols = sum_columns df cols.
Proof.
  destruct cols as [|c cols]; intro H; [reflexivity|].
  simpl in H. apply andb_true_iff in H. destruct H as [H1 H2].
  apply negb_true_iff in H1. simpl. rewrite (@get_fillna_assign df k c v H1).
  destruct (get_fillna df c); [apply plus_columns_assign; exact H2|reflexivity].
Qed.

(** *** When a sum of columns fails *)

Lemma get_fillna_None (df : frame) (c : string) :
  get_fillna df c = None <-> dict_get c df = None.
Proof.
  unfold get_fillna. destruct (dict_get c df); simpl; split; congruence.
Qed.

Lemma plus_columns_None (df : frame) cols : forall acc,
  plus_columns df acc cols = None <->
  exists c, In c cols /\ dict_get c df = None.
Proof.
  induction cols as [|c cols IH]; intro acc; simpl.
  - split; [discriminate|]. intros (c & [] & _).
  - destruct (get_fillna df c) as [v|] eqn:E.
    + rewrite IH. split; intros (c' & H1 & H2).
      * exists c'. split; [right; exact H1|exact H2].
      * destruct H1 as [<-|H1].
        -- apply get_fillna_None in H2. congruence.
        -- exists c'. split; assumption.
    + split; [|reflexivity]. intros _. exists c.
      split; [left; reflexivity|]. apply get_fillna_None. exact E.
Qed.

Lemma minus_columns_None (df : frame) cols : forall acc,
  minus_columns df acc cols = None <->
  exists c, In c cols /\ dict_get c df = None.
Proof.
  induction cols as [|c cols IH]; intro acc; simpl.
  - split; [discriminate|]. intros (c & [] & _).
  - destruct (get_fillna df c) as [v|] eqn:E.
    + rewrite IH. split; intros (c' & H1 & H2).
      * exists c'. split; [right; exact H1|exact H2].
      * destruct H1 as [<-|H1].
        -- apply get_fillna_None in H2. congruence.
        -- exists c'. split; assumption.
    + split; [|reflexivity]. intros _. exists c.
      split; [left; reflexivity|]. apply get_fillna_None. exact E.
Qed.

Lemma sum_columns_None (df : frame) cols :
  cols <> [] ->
  (sum_columns df cols = None <->
   exists c, In c cols /\ dict_get c df = None).
Proof.
  destruct cols as [|c cols]; [congruence|]. intros _.
  unfold sum_columns.
  destruct (get_fillna df c) as [v|] eqn:E.
  - rewrite plus_columns_None. split; intros (c' & H1 & H2).
    + exists c'. split; [right; exact H1|exact H2].
    + destruct H1 as [<-|H1].
      * apply get_fillna_None in H2. congruence.
      * exists c'. split; assumption.
  - split; [|reflexivity]. intros _. exists c.
    split; [left; reflexivity|]. apply get_fillna_None. exact E.
Qed.

(** The function with every read made on the frame it was given. *)
Lemma components_unfolded (df : frame) :
  compute_income_components df
  = match sum_columns df market_columns with
    | None => AttributeError
    | Some market_income =>
    match sum_columns df social_insurance_columns with
    | None => AttributeError
    | Some social_insurance =>
    match sum_columns df means_tested_columns with
    | None => AttributeError
    | Some means_tested =>
    match sum_columns df capital_columns with
    | None => AttributeError
    | Some capital_income =>
    let pretax_income := add market_income social_insurance in
    match sum_columns df federal_tax_columns with
    | None => AttributeError
    | Some federal_taxes =>
    match sum_columns df tax_credit_columns with
    | None => AttributeError
    | Some tax_credits =>
    match minus_columns df (add pretax_income means_tested)
                        posttax_deductions with
    | None => AttributeError
    | Some posttax_income =>
    match get_fillna df "PTOTVAL" with
    | None => AttributeError
    | Some total_income =>
    Returned
      (assign "total_income" total_income
      (assign "posttax_income" posttax_income
      (assign "tax_credits" tax_credits
      (assign "federal_taxes" federal_taxes
      (assign "pretax_income" pretax_income
      (assign "capital_income" capital_income
      (assign "means_tested" means_tested
      (assign "social_insurance" social_insurance
      (assign "market_income" market_income df)))))))))
    end end end end end end end end.
Proof.
  unfold compute_income_components. cbv zeta.
  destruct (sum_columns df market_columns) as [v1|]; [|reflexivity].
  rewrite !sum_columns_assign by reflexivity.
  destruct (sum_columns df social_insurance_columns) as [v2|]; [|reflexivity].
  rewrite !sum_columns_assign by reflexivity.
  destruct (sum_columns df means_tested_columns) as [v3|]; [|reflexivity].
  rewrite !sum_columns_assign by reflexivity.
  destruct (sum_columns df capital_columns) as [v4|]; [|reflexivity].
  rewrite !sum_columns_assign by reflexivity.
  destruct (sum_columns df federal_tax_columns) as [v5|]; [|reflexivity].
  rewrite !sum_columns_assign by reflexivity.
  destruct (sum_columns df tax_credit_columns) as [v6|]; [|reflexivity].
  rewrite !minus_columns_assign by reflexivity.
  destruct (minus_columns df (add (add v1 v2) v3) posttax_deductions)
    as [v7|]; [|reflexivity].
  rewrite !get_fillna_assign by reflexivity.
  reflexivity.
Qed.

Lemma incl_check (l1 l2 : list string) :
  forallb (fun c => existsb (String.eqb c) l2) l1 = true -> incl l1 l2.
Proof.
  intros H c Hc. rewrite forallb_forall in H. specialize (H c Hc).
  apply existsb_exists in H. destruct H as (c' & H1 & H2).
  apply String.eqb_eq in H2. subst c'. exact H1.
Qed.

Lemma required_covered :
  incl required_columns
       (market_columns ++ social_insurance_columns ++ means_tested_columns
        ++ federal_tax_columns ++ tax_credit_columns ++ posttax_deductions
        ++ ["PTOTVAL"%string]).
Proof. apply incl_check. reflexivity. Qed.

(** *** Row by row *)

Lemma add_length (a b : list Q) :
  length a = length b -> length (add a b) = length a.
Proof.
  revert b. induction a as [|x a IH]; intros [|y b] H; simpl in *;
    try discriminate; [reflexivity|]. f_equal. apply IH. congruence.
Qed.

Lemma sub_length (a b : list Q) :
  length a = length b -> length (sub a b) = length a.
Proof.
  revert b. induction a as [|x a IH]; intros [|y b] H; simpl in *;
    try discriminate; [reflexivity|]. f_equal. apply IH. congruence.
Qed.

Lemma add_nth (a b : list Q) (i : nat) :
  length a = length b -> (i < length a)%nat ->
  nth i (add a b) 0 = nth i a 0 + nth i b 0.
Proof.
  revert b i. induction a as [|x a IH]; intros [|y b] i H Hi; simpl in *;
    try discriminate; try lia.
  destruct i as [|i]; [reflexivity|]. apply IH; [congruence|lia].
Qed.

Lemma sub_nth (a b : list Q) (i : nat) :
  length a = length b -> (i < length a)%nat ->
  nth i (sub a b) 0 = nth i a 0 - nth i b 0.
Proof.
  revert b i. induction a as [|x a IH]; intros [|y b] i H Hi; simpl in *;
    try discriminate; try lia.
  destruct i as [|i]; [reflexivity|]. apply IH; [congruence|lia].
Qed.

Lemma n_rows_get (n : nat) (df : frame) (c : string) (s : series) :
  n_rows n df -> dict_get c df = Some s -> length s = n.
Proof.
  unfold n_rows. induction df as [|[k s'] df IH]; intros H E; simpl in E;
    [discriminate|].
  destruct (String.eqb c k).
  - injection E as <-. exact (Forall_inv H).
  - apply IH; [exact (Forall_inv_tail H)|exact E].
Qed.

Lemma n_rows_assign (n : nat) (df : frame) (k : string) (v : list Q) :
  n_rows n df -> length v = n -> n_rows n (assign k v df).
Proof.
  unfold n_rows, assign. intros H L.
  induction df as [|[k' s'] df IH]; simpl.
  - constructor; [simpl; rewrite length_map; exact L|constructor].
  - destruct (String.eqb k k').
    + constructor; [simpl; rewrite length_map; exact L|exact (Forall_inv_tail H)].
    + constructor; [exact (Forall_inv H)|apply IH; exact (Forall_inv_tail H)].
Qed.

Lemma get_fillna_value (n : nat) (df : frame) (c : string) (v : list Q) :
  n_rows n df -> get_fillna df c = Some v ->
  length v = n /\ forall i, value df c i = nth i v 0.
Proof.
  unfold get_fillna, value. intros H E.
  destruct (dict_get c df) as [s|] eqn:Es; [|discriminate].
  injection E as <-. split; [|reflexivity].
  rewrite fillna_length. exact (@n_rows_get n df c s H Es).
Qed.

Lemma plus_columns_value (n : nat) (df : frame) : n_rows n df ->
  forall cols acc v,
  length acc = n -> plus_columns df acc cols = Some v ->
  length v = n /\
  forall i, (i < n)%nat ->
    nth i v 0 == nth i acc 0 + sum (map (fun c => value df c i) cols).
Proof.
  intro H. induction cols as [|c cols IH]; intros acc v L E; simpl in E.
  - injection E as <-. split; [exact L|]. intros i _. simpl map.
    rewrite sum_nil. lra.
  - destruct (get_fillna df c) as [w|] eqn:Ew; [|discriminate].
    destruct (@get_fillna_value n df c w H Ew) as [Lw Vw].
    destruct (IH (add acc w) v) as [Lv Nv];
      [rewrite add_length; congruence|exact E|].
    split; [exact Lv|]. intros i Hi. rewrite (Nv i Hi).
    rewrite add_nth by (try congruence; lia).
    simpl map. rewrite sum_cons, Vw. lra.
Qed.

Lemma sum_columns_value (n : nat) (df : frame) (cols : list string)
  (v : list Q) :
  n_rows n df -> sum_columns df cols = Some v ->
  length v = n /\
  forall i, (i < n)%nat ->
    nth i v 0 == sum (map (fun c => value df c i) cols).
Proof.
  intros H E. destruct cols as [|c cols]; [discriminate|]. simpl in E.
  destruct (get_fillna df c) as [w|] eqn:Ew; [|discriminate].
  destruct (@get_fillna_value n df c w H Ew) as [Lw Vw].
  destruct (@plus_columns_value n df H cols w v Lw E) as [Lv Nv].
  split; [exact Lv|]. intros i Hi. rewrite (Nv i Hi). simpl map.
  rewrite sum_cons, Vw. reflexivity.
Qed.

Lemma minus_columns_value (n : nat) (df : frame) : n_rows n df ->
  forall cols acc v,
  length acc = n -> minus_columns df acc cols = Some v ->
  length v = n /\
  forall i, (i < n)%nat ->
    nth i v 0 == nth i acc 0 - sum (map (fun c => value df c i) cols).
Proof.
  intro H. induction cols as [|c cols IH]; intros acc v L E; simpl in E.
  - injection E as <-. split; [exact L|]. intros i _. simpl map.
    rewrite sum_nil. lra.
  - destruct (get_fillna df c) as [w|] eqn:Ew; [|discriminate].
    destruct (@get_fillna_value n df c w H Ew) as [Lw Vw].
    destruct (IH (sub acc w) v) as [Lv Nv];
      [rewrite sub_length; congruence|exact E|].
    split; [exact Lv|]. intros i Hi. rewrite (Nv i Hi).
    rewrite sub_nth by (try congruence; lia).
    simpl map. rewrite sum_cons, Vw. lra.
Qed.

Lemma value_assign_same (df : frame) (k : string) (v : list Q) (i : nat) :
  value (assign k v df) k i = nth i v 0.
Proof.
  unfold value, assign. rewrite dict_get_set, String.eqb_refl, fillna_Some.
  reflexivity.
Qed.

Lemma value_assign_other (df : frame) (k c : string) (v : list Q) (i : nat) :
  String.eqb c k = false -> value (assign k v df) c i = value df c i.
Proof.
  intro H. unfold value, assign. rewrite dict_get_set, H. reflexivity.
Qed.

(** *** X24. Every column that is read must be there *)

(** X24.  [compute_income_components] raises AttributeError exactly when
    the frame lacks one of the 26 columns it reads with [df.get(col, 0)]:
    the default 0 of a missing column has no [fillna].  With all of them
    present it returns. *)
Theorem income_components_need_every_column (df : frame) :
  compute_income_components df = AttributeError <->
  exists c, In c required_columns /\ dict_get c df = None.
Proof.
  rewrite components_unfolded. split.
  - assert (S : forall cols, cols <> [] -> incl cols required_columns ->
                sum_columns df cols = None ->
                exists c, In c required_columns /\ dict_get c df = None).
    { intros cols Hne Hi H. apply (sum_columns_None df Hne) in H.
      destruct H as (c & H1 & H2). exists c. split; [apply Hi; exact H1|exact H2]. }
    destruct (sum_columns df market_columns) eqn:E1;
      [|intros _; apply (S market_columns);
        [discriminate|apply incl_check; reflexivity|exact E1]].
    destruct (sum_columns df social_insurance_columns) eqn:E2;
      [|intros _; apply (S social_insurance_columns);
        [discriminate|apply incl_check; reflexivity|exact E2]].
    destruct (sum_columns df means_tested_columns) eqn:E3;
      [|intros _; apply (S means_tested_columns);
        [discriminate|apply incl_check; reflexivity|exact E3]].
    destruct (sum_columns df capital_columns) eqn:E4;
      [|intros _; apply (S capital_columns);
        [discriminate|apply incl_check; reflexivity|exact E4]].
    cbv zeta.
    destruct (sum_columns df federal_tax_columns) eqn:E5;
      [|intros _; apply (S federal_tax_columns);
        [discriminate|apply incl_check; reflexivity|exact E5]].
    destruct (sum_columns df tax_credit_columns) eqn:E6;
      [|intros _; apply (S tax_credit_columns);
        [discriminate|apply incl_check; reflexivity|exact E6]].
    destruct (minus_columns df _ posttax_deductions) eqn:E7.
    + destruct (get_fillna df "PTOTVAL") eqn:E8; [discriminate|].
      intros _. exists "PTOTVAL"%string. split.
      * apply (incl_check ["PTOTVAL"%string] required_columns eq_refl).
        left. reflexivity.
      * apply get_fillna_None. exact E8.
    + intros _. apply minus_columns_None in E7.
      destruct E7 as (c & H1 & H2). exists c. split; [|exact H2].
      apply (incl_check posttax_deductions required_columns eq_refl). exact H1.
  - intros (c & Hin & Hc).
    apply required_covered in Hin. rewrite !in_app_iff in Hin.
    assert (M : forall cols, cols <> [] -> In c cols ->
                sum_columns df cols = None).
    { intros cols Hne H. apply (sum_columns_None df Hne). exists c. auto. }
    destruct (sum_columns df market_columns) as [v1|] eqn:E1; [|reflexivity].
    destruct (sum_columns df social_insurance_columns) as [v2|] eqn:E2; [|reflexivity].
    destruct (sum_columns df means_tested_columns) as [v3|] eqn:E3; [|reflexivity].
    destruct (sum_columns df capital_columns) as [v4|] eqn:E4; [|reflexivity].
    cbv zeta.
    destruct (sum_columns df federal_tax_columns) as [v5|] eqn:E5; [|reflexivity].
    destruct (sum_columns df tax_credit_columns) as [v6|] eqn:E6; [|reflexivity].
    destruct (minus_columns df _ posttax_deductions) eqn:E7; [|reflexivity].
    destruct (get_fillna df "PTOTVAL") eqn:E8; [|reflexivity].
    exfalso.
    destruct Hin as [H|[H|[H|[H|[H|[H|H]]]]]].
    + rewrite (M market_columns) in E1; [discriminate|discriminate|exact H].
    + rewrite (M social_insurance_columns) in E2; [discriminate|discriminate|exact H].
    + rewrite (M means_tested_columns) in E3; [discriminate|discriminate|exact H].
    + rewrite (M federal_tax_columns) in E5; [discriminate|discriminate|exact H].
    + rewrite (M tax_credit_columns) in E6; [discriminate|discriminate|exact H].
    + assert (N : minus_columns df (add (add v1 v2) v3) posttax_deductions = None).
      { apply minus_columns_None. exists c. auto. }
      rewrite N in E7. discriminate.
    + destruct H as [<-|[]]. apply get_fillna_None in Hc. congruence.
Qed.

(** *** X25. The accounting identities of the returned frame *)

(** X25.  When [compute_income_components] returns, the frame keeps its
    number of rows and every column it read is unchanged; row by row,
    pre-tax income is market income plus social insurance, market income
    is capital income plus earnings, pensions, annuities and retirement
    distributions, post-tax income is pre-tax income plus means-tested
    transfers minus federal taxes (income tax and FICA) minus the state
    tax, with the tax credits left out, and total income is PTOTVAL with
    its missing values read as 0. *)
Theorem income_components_identities (df out : frame) (n : nat) :
  n_rows n df -> compute_income_components df = Returned out ->
  n_rows n out /\
  (forall c, In c required_columns -> dict_get c out = dict_get c df) /\
  forall i, (i < n)%nat ->
    value out "pretax_income" i
    == value out "market_income" i + value out "social_insurance" i /\
    value out "market_income" i
    == value out "capital_income" i + value df "PEARNVAL" i
       + value df "PNSN_VAL" i + value df "ANN_VAL" i + value df "DBTN_VAL" i /\
    value out "posttax_income" i
    == value out "pretax_income" i + value out "means_tested" i
       - value out "federal_taxes" i - value df "STATETAX_A" i /\
    value out "total_income" i == value df "PTOTVAL" i.
Proof.
  intros Hn. rewrite components_unfolded.
  destruct (sum_columns df market_columns) as [v1|] eqn:E1; [|discriminate].
  destruct (sum_columns df social_insurance_columns) as [v2|] eqn:E2;
    [|discriminate].
  destruct (sum_columns df means_tested_columns) as [v3|] eqn:E3;
    [|discriminate].
  destruct (sum_columns df capital_columns) as [v4|] eqn:E4; [|discriminate].
  cbv zeta.
  destruct (sum_columns df federal_tax_columns) as [v5|] eqn:E5;
    [|discriminate].
  destruct (sum_columns df tax_credit_columns) as [v6|] eqn:E6;
    [|discriminate].
  destruct (minus_columns df (add (add v1 v2) v3) posttax_deductions)
    as [v7|] eqn:E7; [|discriminate].
  destruct (get_fillna df "PTOTVAL") as [v8|] eqn:E8; [|discriminate].
  intro H. injection H as <-.
  destruct (@sum_columns_value n df market_columns v1 Hn E1) as [L1 N1].
  destruct (@sum_columns_value n df social_insurance_columns v2 Hn E2) as [L2 N2].
  destruct (@sum_columns_value n df means_tested_columns v3 Hn E3) as [L3 N3].
  destruct (@sum_columns_value n df capital_columns v4 Hn E4) as [L4 N4].
  destruct (@sum_columns_value n df federal_tax_columns v5 Hn E5) as [L5 N5].
  destruct (@sum_columns_value n df tax_credit_columns v6 Hn E6) as [L6 N6].
  assert (L12 : length (add v1 v2) = n) by (rewrite add_length; congruence).
  assert (L123 : length (add (add v1 v2) v3) = n)
    by (rewrite add_length; congruence).
  destruct (@minus_columns_value n df Hn posttax_deductions _ v7 L123 E7)
    as [L7 N7].
  destruct (@get_fillna_value n df "PTOTVAL" v8 Hn E8) as [L8 N8].
  split; [|split].
  - repeat (apply n_rows_assign; [|assumption]). exact Hn.
  - intros c Hc. simpl in Hc.
    decompose [or] Hc; try contradiction; subst c;
      unfold assign; rewrite !dict_get_set; reflexivity.
  - intros i Hi.
    rewrite !value_assign_same.
    repeat (rewrite value_assign_other by reflexivity;
            rewrite ?value_assign_same).
    rewrite (N7 i Hi), N8.
    rewrite !add_nth by (try congruence; lia).
    rewrite (N1 i Hi), (N4 i Hi), (N5 i Hi).
    unfold market_columns, capital_columns, federal_tax_columns,
      posttax_deductions.
    simpl map. rewrite !sum_cons, !sum_nil.
    repeat split; try reflexivity; ring.
Qed.

Lemma income_components_identities_witness :
  exists out,
    compute_income_components full_frame = Returned out /\
    compute_income_components frame_without_state_tax = AttributeError /\
    n_rows 2 out /\
    value out "market_income" 0 == 107 /\
    value out "pretax_income" 0 == 119 /\
    value out "posttax_income" 0 == 114.
Proof.
  destruct (compute_income_components full_frame) as [|out] eqn:E;
    [vm_compute in E; discriminate|].
  exists out. split; [reflexivity|]. split; [vm_compute; reflexivity|].
  assert (Hn : n_rows 2 full_frame) by (repeat constructor).
  destruct (@income_components_identities full_frame out 2 Hn E)
    as (R & _ & _).
  split; [exact R|].
  vm_compute in E. injection E as <-. vm_compute. repeat split; discriminate.
Defined.

Transparent sum.

End ComponentsFacts.
